(** * miniape: edge-list engines for phylogenetic trees

    A shallow embedding of the JavaScript sources (reorder.js, drop-tip.js,
    collapse-singles.js, root.js, dist-topo.js, common-utilities.js, node.js)
    and the
    properties of the specification checked against it.

    Conventions of the embedding.
    - Node ids, counts and array indices are JavaScript numbers that hold
      integers: they are [Z].  An array is a [list]; reading outside it gives
      [undefined] ([None]), writing at a negative index leaves the elements
      alone (JavaScript stores a non-index property).
    - Branch lengths are JavaScript numbers (floats).  The development is
      parametric in their type [len], its addition [ladd] and the value
      [undef] read from a missing slot.
    - A thrown exception is the [Throw] outcome of [result].
    - An array is a list of any length and a call takes any number of
      arguments: the functions are those of an engine without limits.
      [Module Engine] has the limits of a real engine (the length of an
      array, the arguments of a call) for [tabulate]; within them the two
      agree.
    - [console.warn] appends to a log returned next to the outcome.
    - The ranks of [rank] are fractions ([Qc]): the tie method "average"
      gives halves.  [Math.random()] is a function from the number of the
      call to the value returned. *)

From stdpp Require Import base option list sorting strings gmap.
From Stdlib Require Import ZArith Lia QArith Qcanon Qround.

Open Scope Z_scope.

#[local] Set Warnings "-clear-no-such-hyp".

(** ** JavaScript values and arrays *)

Inductive js_error : Type :=
  | TypeError
  | RangeError
  | Error (msg : string).

(** Outcome of a call: a value, a thrown exception, or [UndefinedId]: the
    call goes on, but it has stored [undefined] where the data model has a
    node id (an ill-typed tree), and the embedding does not follow it. *)
Inductive result (A : Type) : Type :=
  | Ok (a : A)
  | Throw (e : js_error)
  | UndefinedId.
Arguments Ok {A} a.
Arguments Throw {A} e.
Arguments UndefinedId {A}.

Definition result_bind {A B} (f : A → result B) (m : result A) : result B :=
  match m with
  | Ok a => f a
  | Throw e => Throw e
  | UndefinedId => UndefinedId
  end.

#[global] Instance result_mbind : MBind result := @result_bind.
#[global] Instance result_mret : MRet result := @Ok.

(** [arr[i]] for a number [i]. *)
Definition zget {A} (l : list A) (i : Z) : option A :=
  if decide (0 ≤ i) then l !! Z.to_nat i else None.

(** [arr[i] = v] for [i] below the length (or negative). *)
Definition zset {A} (l : list A) (i : Z) (v : A) : list A :=
  if decide (0 ≤ i) then <[Z.to_nat i := v]> l else l.

(** [Math.max(...arr)]; [None] stands for [-Infinity].  The limit on the
    number of arguments is in [Engine.js_max]. *)
Definition js_max (arr : list Z) : option Z :=
  match arr with
  | [] => None
  | x :: rest => Some (foldl Z.max x rest)
  end.

(** [new Array(k).fill(v)]: throws on a negative (or infinite) length.
    The limits on the length are in [Engine.new_array]. *)
Definition new_array {A} (k : option Z) (v : A) : result (list A) :=
  match k with
  | None => Throw RangeError
  | Some k => if decide (k < 0) then Throw RangeError
              else Ok (replicate (Z.to_nat k) v)
  end.

(** Number of occurrences of [v] in [arr]. *)
Definition occurrences (v : Z) (arr : list Z) : Z :=
  Z.of_nat (length (filter (λ x, x = v) arr)).

(** [arr.indexOf(v)] and [arr.findIndex(p)], [None] for -1. *)
Fixpoint find_index {A} (p : A → bool) (l : list A) : option Z :=
  match l with
  | [] => None
  | x :: rest => if p x then Some 0 else (λ i, i + 1) <$> find_index p rest
  end.

Definition index_of `{EqDecision A} (v : A) (l : list A) : option Z :=
  find_index (λ x, bool_decide (x = v)) l.

(** ** common-utilities.js *)

(** [tabulate(arr)]. *)
Definition tabulate (arr : list Z) : result (list Z) :=
  counts ← new_array ((λ maxVal, maxVal + 1) <$> js_max arr) 0;
  Ok (foldl (λ counts val, zset counts val (default 0 (zget counts val) + 1))
            counts arr).

(** ** The limits of the engine

    Two limits of a JavaScript engine decide when [tabulate] returns.
    - [new Array(k)] throws a [RangeError] for a length above [2^32 - 1].
      Below it the engine must still find the memory for the array that
      [fill] writes: [max_fill] is the longest array it can fill, and what
      it does with a longer one (a [RangeError], a fatal error) is left
      open as [Exhausted].
    - A call [f(...arr)] passes the elements of [arr] as arguments and
      throws a [RangeError] when they are more than [max_args], the number
      that fits on the stack.
    [max_fill] and [max_args] depend on the engine. *)
Module Engine.
Inductive run (A : Type) : Type :=
  | Done (r : result A)
  | Exhausted.
Arguments Done {A} r.
Arguments Exhausted {A}.

(** The largest length of an array. *)
Definition max_length : Z := 2 ^ 32 - 1.

Section Limits.
Variables (max_args max_fill : Z).

(** [Math.max(...arr)]. *)
Definition js_max (arr : list Z) : result (option Z) :=
  if decide (max_args < Z.of_nat (length arr)) then Throw RangeError
  else Ok (js_max arr).

(** [new Array(k).fill(v)]. *)
Definition new_array {A} (k : option Z) (v : A) : run (list A) :=
  match k with
  | None => Done (Throw RangeError)
  | Some k =>
    if decide (k < 0 ∨ max_length < k) then Done (Throw RangeError)
    else if decide (max_fill < k) then Exhausted
    else Done (Ok (replicate (Z.to_nat k) v))
  end.

(** [tabulate(arr)]. *)
Definition tabulate (arr : list Z) : run (list Z) :=
  match js_max arr with
  | Ok maxVal =>
    match new_array ((λ maxVal, maxVal + 1) <$> maxVal) 0 with
    | Done (Ok counts) =>
      Done (Ok (foldl (λ counts val,
                         zset counts val (default 0 (zget counts val) + 1))
                      counts arr))
    | stop => stop
    end
  | Throw e => Done (Throw e)
  | UndefinedId => Done UndefinedId
  end.
End Limits.
End Engine.

(** ** phylo.js: the tree *)

(** The [order] tag of a tree; an absent tag is [None]. *)
Inductive Order : Type := Cladewise | Postorder.

#[global] Instance Order_eq_dec : EqDecision Order.
Proof. solve_decision. Defined.

(** A label slot: a string, or [undefined]. *)
Abbreviation label := (option string).

(** A row [[parent, child]] of the edge matrix, or [undefined]. *)
Abbreviation row := (option (Z * Z)).

Record Phylo (len : Type) : Type := mkPhylo {
  edge : list row;
  edgeLength : option (list len);
  tipLabel : list label;
  nodeLabel : option (list label);
  Nnode : Z;
  rootEdge : option len;
  order : option Order
}.
Arguments mkPhylo {len}.
Arguments edge {len}.
Arguments edgeLength {len}.
Arguments tipLabel {len}.
Arguments nodeLabel {len}.
Arguments Nnode {len}.
Arguments rootEdge {len}.
Arguments order {len}.

(** [orig.map(row => row[0])] and [row[1]]: a [TypeError] on an
    [undefined] row. *)
Fixpoint rows (orig : list row) : result (list (Z * Z)) :=
  match orig with
  | [] => Ok []
  | Some r :: rest => rs ← rows rest; Ok (r :: rs)
  | None :: _ => Throw TypeError
  end.

(** ** reorder.js *)

Module Rcpp.
Section Rcpp.
Variables (nTips : Z) (e1 e2 : list Z).

(** [xj[e1[i] - nTips - 1]++] for every edge. *)
Definition count_groups (xj : list Z) : list Z :=
  foldl (λ xj p, let idx := p - nTips - 1 in
                 zset xj idx (default 0 (zget xj idx) + 1)) xj e1.

(** [xi[i] = xi[i - 1] + xj[i - 1]] for [i] from 1. *)
Definition group_offsets (xj xi : list Z) : list Z :=
  foldl (λ xi i, zset xi i (default 0 (zget xi (i - 1))
                            + default 0 (zget xj (i - 1))))
        xi (seqZ 1 (Z.of_nat (length xi) - 1)).

(** [L[xi[k] + pos[k]] = i; pos[k]++] for every edge [i]. *)
Definition fill_groups (xi : list Z) (st : list Z * list Z)
  : list Z * list Z :=
  foldl (λ '(L, pos) i,
           let k := default 0 (zget e1 i) - nTips - 1 in
           match zget pos k with
           | Some j => (zset L (default 0 (zget xi k) + j) i,
                        zset pos k (j + 1))
           | None => (L, pos)
           end)
        st (seqZ 0 (Z.of_nat (length e1))).

Variables (L xi xj : list Z).

(** [neworder[iii] = k] in [foo]: [iii] grows by one from 0, so a write
    lands inside the array or just past its end. *)
Definition push_at (neworder : list Z) (iii k : Z) : list Z :=
  if decide (iii = Z.of_nat (length neworder)) then neworder ++ [k]
  else zset neworder iii k.

(** [foo_reorderRcpp(node)], on the state [(neworder, iii)].  Running
    out of [fuel] is the exhausted call stack. *)
Fixpoint foo_reorderRcpp (fuel : nat) (node : Z) (st : list Z * Z)
  : result (list Z * Z) :=
  match fuel with
  | O => Throw RangeError
  | S fuel =>
    let i := node - nTips - 1 in
    foldl (λ acc j,
             '(neworder, iii) ← acc;
             let k := default 0 (zget L (default 0 (zget xi i) + j)) in
             let st := (push_at neworder iii k, iii + 1) in
             match zget e2 k with
             | Some c => if decide (nTips < c)
                         then foo_reorderRcpp fuel c st else Ok st
             | None => Ok st
             end)
          (Ok st) (seqZ 0 (default 0 (zget xj i)))
  end.

(** [bar_reorderRcpp(node)]: the group is stored from the tail, each
    index plus one, then the internal children are visited. *)
Fixpoint bar_reorderRcpp (fuel : nat) (node : Z) (st : list Z * Z)
  : result (list Z * Z) :=
  match fuel with
  | O => Throw RangeError
  | S fuel =>
    let i := node - nTips - 1 in
    let group := seqZ 0 (default 0 (zget xj i)) in
    let st :=
      foldl (λ '(neworder, iii) j,
               (zset neworder iii
                  (default 0 (zget L (default 0 (zget xi i) + j)) + 1),
                iii - 1))
            st (reverse group) in
    foldl (λ acc j,
             st ← acc;
             match zget e2 (default 0 (zget L (default 0 (zget xi i) + j))) with
             | Some k => if decide (nTips < k)
                         then bar_reorderRcpp fuel k st else Ok st
             | None => Ok st
             end)
          (Ok st) group
  end.
End Rcpp.
End Rcpp.

(** [reorderRcpp(orig, nTips, root, order)]: the new edge order. *)
Definition reorderRcpp (orig : list row) (nTips root order : Z)
  : result (list Z) :=
  rs ← rows orig;
  let n := Z.of_nat (length rs) in
  let e1 := rs.*1 in
  let e2 := rs.*2 in
  let nnode := (λ m, m - nTips) <$> js_max e1 in
  L ← new_array (Some n) 0;
  neworder ← new_array (Some n) 0;
  pos ← new_array nnode 0;
  xi ← new_array nnode 0;
  xj ← new_array nnode 0;
  let xj := Rcpp.count_groups nTips e1 xj in
  let xi := Rcpp.group_offsets xj xi in
  let L := (Rcpp.fill_groups nTips e1 xi (L, pos)).1 in
  let fuel := S (length rs) in
  if decide (order = 1) then
    st ← Rcpp.foo_reorderRcpp nTips e2 L xi xj fuel root (neworder, 0);
    Ok st.1
  else if decide (order = 2) then
    st ← Rcpp.bar_reorderRcpp nTips e2 L xi xj fuel root (neworder, n - 1);
    Ok st.1
  else Throw (Error "order must be 1 or 2").

Section Reorder.
Context {len : Type}.
Variable undef : len.

(** [neworder.map(idx => arr[idx])]. *)
Definition pick_rows (arr : list row) (neworder : list Z) : list row :=
  (λ idx, mjoin (zget arr idx)) <$> neworder.

Definition pick_lengths (arr : list len) (neworder : list Z) : list len :=
  (λ idx, default undef (zget arr idx)) <$> neworder.

(** [_reorder_ape(tree, order, false, nbTip, io)]. *)
Definition _reorder_ape (tree : Phylo len) (ord : Order) (nbTip io : Z)
  : result (Phylo len) :=
  if decide (order tree = Some ord) then Ok tree
  else if decide (Nnode tree = 1) then Ok tree
  else
    neworder ← reorderRcpp (edge tree) nbTip (nbTip + 1) io;
    Ok {| edge := pick_rows (edge tree) neworder;
          edgeLength := (λ el, pick_lengths el neworder) <$> edgeLength tree;
          tipLabel := tipLabel tree;
          nodeLabel := nodeLabel tree;
          Nnode := Nnode tree;
          rootEdge := rootEdge tree;
          order := Some ord |}.

(** Position of the target in [ORDER = ["cladewise", "postorder"]],
    plus one. *)
Definition order_code (ord : Order) : Z :=
  match ord with Cladewise => 1 | Postorder => 2 end.

(** [reorder(tree, order)]. *)
Definition reorder (tree : Phylo len) (ord : Order) : result (Phylo len) :=
  let n := Z.of_nat (length (tipLabel tree)) in
  if decide (n < 2) then Ok tree
  else _reorder_ape tree ord n (order_code ord).
End Reorder.

(** ** root.js: isRooted *)

(** The object [parentCounts], keyed by parent id. *)
Definition parent_counts (rs : list (Z * Z)) : gmap Z Z :=
  foldl (λ pc e, <[e.1 := default 0 (pc !! e.1) + 1]> pc) ∅ rs.

(** [isRooted(phy, ntips)].  [ntips] is [None] when the caller leaves the
    argument out: [ntips + 1] is then [NaN], a key no edge has. *)
Definition isRooted {len} (phy : Phylo len) (ntips : option Z) : result bool :=
  if rootEdge phy is Some _ then Ok true
  else
    rs ← rows (edge phy);
    let parentCounts := parent_counts rs in
    let count := default 0 (ntips ≫= λ n, parentCounts !! (n + 1)) in
    Ok (bool_decide (count ≤ 2)).

(** ** collapse-singles.js *)

(** [[...new Set(l)]]: the distinct values, by first appearance. *)
Fixpoint uniq (l : list Z) : list Z :=
  match l with
  | [] => []
  | x :: rest => x :: filter (λ y, y ≠ x) (uniq rest)
  end.

(** [Array.from(new Set(l)).sort((a, b) => a - b)]. *)
Definition sorted_set (l : list Z) : list Z := merge_sort Z.le (uniq l).

(** [new Array(k).fill(0)] read as a table from index to value. *)
Definition zero_table (k : Z) : gmap Z Z :=
  list_to_map ((λ i, (i, 0)) <$> seqZ 0 k).

(** [newNb[i] = v] where [v] may be [undefined]. *)
Definition table_set (t : gmap Z Z) (i : Z) (v : option Z) : gmap Z Z :=
  match v with
  | Some v => <[i := v]> t
  | None => delete i t
  end.

(** [l.map(f)] where [f] may yield [undefined]. *)
Fixpoint map_defined {A} (f : A → option Z) (l : list A) : result (list Z) :=
  match l with
  | [] => Ok []
  | x :: rest =>
    match f x with
    | Some y => ys ← map_defined f rest; Ok (y :: ys)
    | None => UndefinedId
    end
  end.

Section CollapseSingles.
Context {len : Type}.
Variables (ladd : len → len → len) (lzero undef : len).

(** Are all counts of [tab] from index [n + 1] on above one? *)
Definition all_internal_multiple (n : Z) (tab : list Z) : bool :=
  forallb (λ c, bool_decide (¬ c ≤ 1)) (drop (Z.to_nat (n + 1)) tab).

(** The [while (true)] loop that removes the basal singletons, on the
    state [(e1, e2, el, ROOT, ROOTEDGE)].  Every turn removes an edge, so
    [length e1] turns always reach a [break] or the throwing
    [tabulate([])]. *)
Fixpoint strip_basal (fuel : nat) (wbl rootEdge : bool)
    (st : list Z * list Z * list len * Z * len)
  : result (list Z * list Z * list len * Z * len) :=
  let '(e1, e2, el, ROOT, ROOTEDGE) := st in
  tab ← tabulate e1;
  if decide (zget tab ROOT = Some 1) then
    match index_of ROOT e1, fuel with
    | None, _ => Ok st
    | Some iIndex, S fuel =>
      let i := Z.to_nat iIndex in
      strip_basal fuel wbl rootEdge
        (delete i e1, delete i e2,
         if wbl then delete i el else el,
         default 0 (zget e2 iIndex),
         if wbl && rootEdge
         then ladd ROOTEDGE (default undef (zget el iIndex))
         else ROOTEDGE)
    | Some _, O => Throw RangeError
    end
  else Ok st.

(** [singles]: the ids above [n] that [tabE1] counts once. *)
Definition find_singles (n : Z) (tabE1 : list Z) : list Z :=
  filter (λ i, n < i ∧ zget tabE1 i = Some 1)
         (seqZ 0 (Z.of_nat (length tabE1))).

(** The loop [e2[jj[k]] = e2[ii[k]]; el[jj[k]] = el[jj[k]] + el[ii[k]]].
    [jj[k]] is -1 when the node is no child. *)
Definition splice_step (wbl : bool) (st : list Z * list len)
    (ij : Z * option Z) : list Z * list len :=
  let '(e2, el) := st in
  let '(i, j) := ij in
  let j := default (-1) j in
  (zset e2 j (default 0 (zget e2 i)),
   if wbl
   then zset el j (ladd (default undef (zget el j)) (default undef (zget el i)))
   else el).

(** [collapseSingles(tree, rootEdge)]. *)
Definition collapseSingles (tree : Phylo len) (keepRootLength : bool)
  : result (Phylo len) :=
  let n := Z.of_nat (length (tipLabel tree)) in
  if decide (n = 0) then Ok tree
  else
    tree ← reorder undef tree Cladewise;
    rs ← rows (edge tree);
    let e1 := rs.*1 in
    let e2 := rs.*2 in
    tab ← tabulate e1;
    if all_internal_multiple n tab then Ok tree
    else
      let wbl := bool_decide (is_Some (edgeLength tree)) in
      let keepRootLength := wbl && keepRootLength in
      let el := default [] (edgeLength tree) in
      '(e1, e2, el, ROOT, ROOTEDGE) ←
        strip_basal (length e1) wbl keepRootLength (e1, e2, el, n + 1, lzero);
      tabE1 ← tabulate e1;
      let singles := find_singles n tabE1 in
      let ii := merge_sort Z.ge (omap (λ s, index_of s e1) singles) in
      let jj := (λ idx, index_of (default 0 (zget e1 idx)) e2) <$> ii in
      let '(e2, el) := foldl (splice_step wbl) (e2, el) (zip ii jj) in
      let e1 := foldl (λ l idx, delete (Z.to_nat idx) l) e1 ii in
      let e2 := foldl (λ l idx, delete (Z.to_nat idx) l) e2 ii in
      let el := if wbl then foldl (λ l idx, delete (Z.to_nat idx) l) el ii
                else el in
      let Nnode := Z.of_nat (length e1) - n + 1 in
      let oldnodes := uniq e1 in
      let nodeLabel :=
        (λ nl, (λ val, mjoin (zget nl (val - n - 1))) <$> oldnodes)
          <$> nodeLabel tree in
      maxOld ← (if js_max oldnodes is Some m
                then if decide (m < 0) then Throw RangeError else Ok m
                else Throw RangeError);
      let newNb := <[ROOT - 1 := n + 1]> (zero_table maxOld) in
      let internalNodes := sorted_set (filter (λ val, n < val) e2) in
      let newNumbers := seqZ (n + 2) (Nnode - 1) in
      let newNb :=
        foldl (λ nb i, table_set nb (default 0 (zget internalNodes i) - 1)
                                 (zget newNumbers i))
              newNb (seqZ 0 (Z.of_nat (length internalNodes))) in
      e2 ← map_defined (λ val, if decide (n < val) then newNb !! (val - 1)
                               else Some val) e2;
      e1 ← map_defined (λ val, newNb !! (val - 1)) e1;
      Ok {| edge := Some <$> zip e1 e2;
            edgeLength := if wbl then Some el else edgeLength tree;
            tipLabel := tipLabel tree;
            nodeLabel := nodeLabel;
            Nnode := Nnode;
            rootEdge := if keepRootLength then Some ROOTEDGE else rootEdge tree;
            order := order tree |}.
End CollapseSingles.

(** ** drop-tip.js *)

(** The [tip] argument: a label, an array of labels, an array of tip
    numbers, or a bare number. *)
Inductive tip_arg : Type :=
  | TipLabel (s : string)
  | TipLabels (l : list string)
  | TipIds (l : list Z)
  | TipId (t : Z).

(** Where a call of [dropTip] stands once its opening part (the resolution
    of [tip] and the special cases, up to the test [if (!rooted)]) has run:
    it has returned a tree or [null], it has thrown, or it goes on into the
    pruning part with the resolved [tip] and the value of [rooted]. *)
Inductive dropTip_outcome (len : Type) : Type :=
  | Returns (r : option (Phylo len))
  | Throws (e : js_error)
  | Prunes (tip : list Z) (rooted : bool).
Arguments Returns {len} r.
Arguments Throws {len} e.
Arguments Prunes {len} tip rooted.

Definition warn_out_of_range : string :=
  "some tip numbers were larger than the number of tips: they were ignored".
Definition warn_drop_all : string :=
  "drop all tips of the tree: returning null".
Definition warn_no_edge : string :=
  "Edge for the remaining tip not found".

(** [phy.edge.findIndex(row => row[1] === t)]. *)
Fixpoint find_child_row (t : option Z) (l : list row) : result (option Z) :=
  match l with
  | [] => Ok None
  | None :: _ => Throw TypeError
  | Some (_, c) :: rest =>
    if decide (Some c = t) then Ok (Some 0)
    else i ← find_child_row t rest; Ok (fmap (M:=option) (λ i, i + 1) i)
  end.

Section DropTip.
Context {len : Type}.
Variable undef : len.

(** Labels to tip numbers: [indexOf(t) + 1], the labels not found
    filtered out. *)
Definition label_ids (phy : Phylo len) (l : list string) : list Z :=
  omap (λ t, (λ idx, idx + 1) <$> index_of (Some t) (tipLabel phy)) l.

Definition resolve_tip (phy : Phylo len) (tip : tip_arg) : result (list Z) :=
  match tip with
  | TipLabel s => Ok (label_ids phy [s])
  | TipLabels l => Ok (label_ids phy l)
  | TipIds l => Ok l
  | TipId _ => Throw TypeError
  end.

(** The tree built when a single tip is left. *)
Definition single_tip_tree (phy : Phylo len) (Ntip iEdge : Z) (r : Z * Z)
  : Phylo len :=
  {| edge := [Some (2, 1)];
     edgeLength := (λ el, [default undef (zget el iEdge)]) <$> edgeLength phy;
     tipLabel := [mjoin (zget (tipLabel phy) (r.2 - 1))];
     nodeLabel := (λ nl, [mjoin (zget nl (r.1 - Ntip - 1))]) <$> nodeLabel phy;
     Nnode := 1;
     rootEdge := None;
     order := None |}.

(** [dropTip(phy, tip, trimInternal, ..., rooted, ...)], opening part.
    [rooted] is [None] when the caller leaves it to its default,
    [isRooted(phy)]. *)
Definition dropTip (phy : Phylo len) (tip : tip_arg) (trimInternal : bool)
    (rooted : option bool) : list string * dropTip_outcome len :=
  match (if rooted is Some b then Ok b else isRooted phy None) with
  | Throw e => ([], Throws e)
  | UndefinedId => ([], Throws TypeError)
  | Ok rooted =>
    let Ntip := Z.of_nat (length (tipLabel phy)) in
    match resolve_tip phy tip with
    | Throw e => ([], Throws e)
    | UndefinedId => ([], Throws TypeError)
    | Ok tip =>
      let outOfRange := filter (λ t, Ntip < t) tip in
      let '(w, tip) :=
        if decide (outOfRange = []) then ([], tip)
        else ([warn_out_of_range], filter (λ t, t ≤ Ntip) tip) in
      if decide (tip = []) then (w, Returns (Some phy))
      else if bool_decide (Z.of_nat (length tip) = Ntip)
              && (bool_decide (Nnode phy < 3) || trimInternal)
      then (w ++ [warn_drop_all], Returns None)
      else if bool_decide (Z.of_nat (length tip) = Ntip - 1) && trimInternal
      then
        let remaining := filter (λ x, x ∉ tip) (seqZ 1 Ntip) in
        match find_child_row (head remaining) (edge phy) with
        | Throw e => (w, Throws e)
        | UndefinedId => (w, Throws TypeError)
        | Ok None => (w ++ [warn_no_edge], Returns (Some phy))
        | Ok (Some iEdge) =>
          (w, Returns (Some (single_tip_tree phy Ntip iEdge
                               (default (0, 0) (mjoin (zget (edge phy) iEdge))))))
        end
      else (w, Prunes tip rooted)
    end
  end.
End DropTip.

(** ** root.js: unrootPhylo *)

Definition err_collapse_missing : js_error :=
  Error "Utility function 'collapseSingles' is missing.".
(** DegenerateTreeError. *)
Definition err_too_few_edges : js_error :=
  Error "cannot unroot a tree with less than three edges.".
(** ConstantDegreeError. *)
Definition err_all_singleton : js_error :=
  Error "cannot unroot a tree where all nodes are singleton".

(** Where a call of [unrootPhylo] stands after its checks (up to the test
    [if (!isRooted(phy, n)) return phy]): it has thrown, it has returned the
    tree, or it goes on to remove the root with this tree, [keepRootEdge]
    and degree table. *)
Inductive unroot_outcome (len : Type) : Type :=
  | UThrows (e : js_error)
  | UReturns (phy : Phylo len)
  | URemovesRoot (phy : Phylo len) (keepRootEdge : bool) (dgr : list Z).
Arguments UThrows {len} e.
Arguments UReturns {len} phy.
Arguments URemovesRoot {len} phy keepRootEdge dgr.

(** The degree table [dgr] of [unrootPhylo]. *)
Definition degrees (totalNodes : Z) (rs : list (Z * Z)) (dgr : list Z) : list Z :=
  foldl (λ dgr e,
           let bump (dgr : list Z) (v : Z) :=
             if decide (1 ≤ v ∧ v ≤ totalNodes)
             then zset dgr (v - 1) (default 0 (zget dgr (v - 1)) + 1)
             else dgr in
           bump (bump dgr e.1) e.2)
        dgr rs.

(** [unrootPhylo(phy, n, collapseSinglesFlag, keepRootEdge)], the checks.
    root.js does not import [collapseSingles], so that
    [typeof collapseSingles] is not ["function"]. *)
Definition unrootPhylo {len} (phy : Phylo len) (n : option Z)
    (collapseSinglesFlag keepRootEdge : bool) : unroot_outcome len :=
  if collapseSinglesFlag then UThrows err_collapse_missing
  else if decide (Z.of_nat (length (edge phy)) < 3) then UThrows err_too_few_edges
  else
    let totalNodes := (λ n, n + Nnode phy) <$> n in
    match (dgr ← new_array totalNodes 0;
           rs ← rows (edge phy);
           Ok (degrees (default 0 totalNodes) rs dgr)) with
    | Throw e => UThrows e
    | UndefinedId => UThrows TypeError
    | Ok dgr =>
      if forallb (λ count, bool_decide (count < 3)) dgr
      then UThrows err_all_singleton
      else
        let keepRootEdge := if rootEdge phy is Some _ then keepRootEdge else false in
        let phy := if keepRootEdge then phy
                   else mkPhylo (edge phy) (edgeLength phy) (tipLabel phy)
                                (nodeLabel phy) (Nnode phy) None (order phy) in
        match isRooted phy n with
        | Throw e => UThrows e
        | UndefinedId => UThrows TypeError
        | Ok false => UReturns phy
        | Ok true => URemovesRoot phy keepRootEdge dgr
        end
    end.

(** ** dist-topo.js *)

(** One edge of the sweep of [bipartition2] over the table [out]. *)
Definition add_to_clade (nTips : Z) (acc : result (list (list Z))) (e : Z * Z)
  : result (list (list Z)) :=
  out ← acc;
  let j := e.1 - nTips - 1 in
  match zget out j with
  | None => Throw TypeError
  | Some outj =>
    if decide (nTips < e.2) then
      match zget out (e.2 - nTips - 1) with
      | Some y => Ok (zset out j (outj ++ y))
      | None => UndefinedId
      end
    else Ok (zset out j (outj ++ [e.2]))
  end.

(** [bipartition2(orig, nTips)]. *)
Definition bipartition2 (orig : list row) (nTips : Z) : result (list (list Z)) :=
  rs ← rows orig;
  out ← new_array ((λ m, m - nTips) <$> js_max rs.*1) ([] : list Z);
  out ← foldl (add_to_clade nTips) (Ok out) rs;
  Ok (merge_sort Z.le <$> (out : list (list Z))).

(** The search of one clade [c] of a later tree in the registry
    [(ans, no)], from index 1: the first equal entry is incremented,
    otherwise [c] is appended with count 1. *)
Fixpoint bump_first (c : list Z) (ans : list (list Z)) (no : list Z)
  : option (list Z) :=
  match ans, no with
  | a :: ans, k :: no =>
    if decide (c = a) then Some ((k + 1) :: no)
    else (λ no, k :: no) <$> bump_first c ans no
  | _, _ => None
  end.

Definition register_clade (st : list (list Z) * list Z) (c : list Z)
  : list (list Z) * list Z :=
  let '(ans, no) := st in
  match bump_first c (drop 1 ans) (drop 1 no) with
  | Some no' => (ans, take 1 no ++ no')
  | None => (ans ++ [c], no ++ [1])
  end.

Record prop_part : Type := mkPropPart {
  partitions : list (list Z);
  number : list Z;
  labels : list label
}.

(** [propPart2(trees, nTips)]: the registry [(ans, no)]. *)
Definition propPart2 {len} (trees : list (Phylo len)) (nTips : Z)
  : result (list (list Z) * list Z) :=
  let nbtree := Z.of_nat (length trees) in
  match trees with
  | [] => Throw TypeError
  | M :: rest =>
    ans ← bipartition2 (edge M) nTips;
    let no := (λ _, 1) <$> ans in
    let no := if decide (0 < Z.of_nat (length no)) then zset no 0 nbtree else no in
    foldl (λ acc tmpTree,
             st ← acc;
             bp ← bipartition2 (edge tmpTree) nTips;
             Ok (foldl register_clade st (drop 1 bp)))
          (Ok (ans, no)) rest
  end.

(** [mapM] of [result], left to right. *)
Fixpoint map_result {A B} (f : A → result B) (l : list A) : result (list B) :=
  match l with
  | [] => Ok []
  | x :: rest => y ← f x; ys ← map_result f rest; Ok (y :: ys)
  end.

(** [propPart(tre)] for an array of trees. *)
Definition propPart {len} (undef : len) (tre : list (Phylo len)) : result prop_part :=
  trees ← map_result (λ t, reorder undef t Postorder) tre;
  match trees with
  | [] => Throw TypeError
  | t0 :: _ =>
    let nTips := Z.of_nat (length (tipLabel t0)) in
    clades ← propPart2 trees nTips;
    Ok {| partitions := clades.1; number := clades.2; labels := tipLabel t0 |}
  end.

(** ** collapse-singles.js: hasSingles *)

(** [hasSingles(tree)] for one tree. *)
Definition hasSingles {len} (tree : Phylo len) : result bool :=
  rs ← rows (edge tree);
  tab ← tabulate rs.*1;
  Ok (existsb (λ count, bool_decide (count = 1)) tab).

(** [hasSingles(trees)] for an array of trees. *)
Definition hasSingles_each {len} (trees : list (Phylo len)) : result (list bool) :=
  map_result hasSingles trees.

(** ** common-utilities.js: rank *)

(** An integer as a rank.  Ranks are fractions: the method "average" gives
    halves. *)
Definition Z2Qc (z : Z) : Qc := Q2Qc (inject_Z z).

(** The comparator of [nonMissing.sort]: by value, then by index. *)
Definition rank_le (a b : Z * Z) : Prop :=
  a.1 < b.1 ∨ (a.1 = b.1 ∧ a.2 ≤ b.2).

#[global] Instance rank_le_dec : RelDecision rank_le.
Proof. intros a b. unfold rank_le. apply _. Defined.

(** The scan [while (j < nonMissing.length && nonMissing[j].val ===
    nonMissing[i].val) j++]: the length of the run of [v] at the head. *)
Fixpoint same_run (v : Z) (l : list (Z * Z)) : nat :=
  match l with
  | e :: l => if decide (e.1 = v) then S (same_run v l) else O
  | [] => O
  end.

(** [[a[k], a[r]] = [a[r], a[k]]]. *)
Definition swap_ranks (a : list (option Z)) (k r : Z) : list (option Z) :=
  let ar := mjoin (zget a r) in
  let ak := mjoin (zget a k) in
  zset (zset a k ar) r ak.

Section Rank.
(** The values that the successive calls of [Math.random()] return. *)
Variable random : nat → Q.

(** The shuffle of [groupRanks], from [k = groupRanks.length - 1] down to
    1; [calls] counts the calls of [Math.random()]. *)
Definition shuffle_ranks (groupRanks : list (option Z)) (calls : nat)
  : list (option Z) * nat :=
  foldl (λ '(a, calls) k,
           let randIdx := Qfloor (random calls * inject_Z (k + 1)) in
           (swap_ranks a k randIdx, S calls))
        (groupRanks, calls)
        (reverse (seqZ 1 (Z.of_nat (length groupRanks) - 1))).

(** The ranks of one tie group [grp], by position [k - i] in the group. *)
Definition rank_group (tiesMethod : string) (grp : list (Z * Z))
    (st : list (option Qc) * Z * nat)
  : result (list (option Qc) * Z * nat) :=
  let '(ranks, currentRank, calls) := st in
  let groupSize := Z.of_nat (length grp) in
  let store (f : Z → option Qc) :=
    foldl (λ ranks '(d, e), zset ranks e.2 (f d)) ranks
          (zip (seqZ 0 groupSize) grp) in
  if decide (tiesMethod = "first") then
    Ok (store (λ d, Some (Z2Qc (currentRank + d))), currentRank + groupSize, calls)
  else if decide (tiesMethod = "last") then
    Ok (store (λ d, Some (Z2Qc (currentRank + groupSize - 1 - d))),
        currentRank + groupSize, calls)
  else if decide (tiesMethod = "min") then
    Ok (store (λ _, Some (Z2Qc currentRank)), currentRank + groupSize, calls)
  else if decide (tiesMethod = "max") then
    Ok (store (λ _, Some (Z2Qc (currentRank + groupSize - 1))),
        currentRank + groupSize, calls)
  else if decide (tiesMethod = "average") then
    let avg := (Z2Qc currentRank + Z2Qc (groupSize - 1) / Z2Qc 2)%Qc in
    Ok (store (λ _, Some avg), currentRank + groupSize, calls)
  else if decide (tiesMethod = "random") then
    let groupRanks := (λ k, Some (currentRank + k)) <$> seqZ 0 groupSize in
    let '(groupRanks, calls) := shuffle_ranks groupRanks calls in
    Ok (store (λ d, Z2Qc <$> mjoin (zget groupRanks d)),
        currentRank + groupSize, calls)
  else Throw (Error ("Unknown tiesMethod: " +:+ tiesMethod)).

(** The loop [while (i < nonMissing.length)] over the tie groups of the
    sorted entries; every turn takes at least one entry. *)
Fixpoint rank_groups (fuel : nat) (tiesMethod : string) (sorted : list (Z * Z))
    (st : list (option Qc) * Z * nat)
  : result (list (option Qc) * Z * nat) :=
  match sorted, fuel with
  | [], _ => Ok st
  | _ :: _, O => Throw RangeError
  | e :: _, S fuel =>
    let j := same_run e.1 sorted in
    st ← rank_group tiesMethod (take j sorted) st;
    rank_groups fuel tiesMethod (drop j sorted) st
  end.

(** [rank(arr, { naLast, tiesMethod })]; a missing value ([NaN] or [null])
    is [None]. *)
Definition rank (arr : list (option Z)) (naLast : bool) (tiesMethod : string)
  : result (list (option Qc)) :=
  let n := Z.of_nat (length arr) in
  let entries := zip arr (seqZ 0 n) in
  let nonMissing : list (Z * Z) :=
    omap (λ e : option Z * Z, (λ v, (v, e.2)) <$> e.1) entries in
  let missingIndices : list Z :=
    omap (λ e : option Z * Z, if e.1 is None then Some e.2 else None) entries in
  let nonMissing := merge_sort rank_le nonMissing in
  '(ranks, currentRank, _) ←
    rank_groups (length nonMissing) tiesMethod nonMissing
                (replicate (length arr) None, 1, O);
  if naLast then
    Ok (foldl (λ '(ranks, currentRank) i,
                 (zset ranks i (Some (Z2Qc currentRank)), currentRank + 1))
              (ranks, currentRank) missingIndices).1
  else
    let numMissing := Z.of_nat (length missingIndices) in
    let ranks :=
      foldl (λ ranks '(i, m), zset ranks m (Some (Z2Qc (i + 1)))) ranks
            (zip (seqZ 0 numMissing) missingIndices) in
    Ok ((λ r : option Qc, (λ q, q + Z2Qc numMissing)%Qc <$> r) <$> ranks).
End Rank.

(** ** drop-tip.js: the pruning part *)

(** [arr.splice(start, 1)]: a negative [start] counts from the end, a
    [start] past the end removes nothing. *)
Definition splice_one {A} (arr : list A) (start : Z) : list A :=
  let start := if decide (start < 0)
               then Z.max (Z.of_nat (length arr) + start) 0
               else start in
  delete (Z.to_nat start) arr.

(** A rank as a node id: the whole numbers only. *)
Definition whole (r : option Qc) : option Z :=
  r ≫= λ q, if decide (Qden (this q) = 1%positive)
            then Some (Qnum (this q)) else None.

Section DropTipPrune.
Context {len : Type}.
Variables (ladd : len → len → len) (lzero undef : len).
Variable random : nat → Q.

(** [tip.forEach(t => { idx = edge2.indexOf(t);
                        if (idx !== -1) keep[idx] = false; })]. *)
Definition drop_terminal (edge2 tip : list Z) (keep : list bool) : list bool :=
  foldl (λ keep t, if index_of t edge2 is Some idx then zset keep idx false
                   else keep)
        keep tip.

(** The array [sel] of one turn of the loop [while (true)]: the edges
    kept so far that lead to an internal node from which no kept edge
    starts. *)
Definition lost_edges (Ntip : Z) (edge1 edge2 : list Z) (keep : list bool)
  : list Z :=
  let allowed := (filter (λ pk, pk.2 = true) (zip edge1 keep)).*1 in
  (filter (λ ick, ick.2.2 = true ∧ Ntip < ick.2.1 ∧ ick.2.1 ∉ allowed)
          (zip (seqZ 0 (Z.of_nat (length edge1))) (zip edge2 keep))).*1.

(** The loop [while (true)] of [trimInternal].  Every turn but the last
    clears a flag of [keep], so [Nedge] turns always reach the [break]. *)
Fixpoint trim_internal (fuel : nat) (Ntip : Z) (edge1 edge2 : list Z)
    (keep : list bool) : result (list bool) :=
  let sel := lost_edges Ntip edge1 edge2 keep in
  if decide (sel = []) then Ok keep
  else
    match fuel with
    | O => Throw RangeError
    | S fuel =>
      trim_internal fuel Ntip edge1 edge2
                    (foldl (λ keep i, zset keep i false) keep sel)
    end.

(** The entries of [l] whose flag in [keep] is set. *)
Definition kept {A} (keep : list bool) (l : list A) : list A :=
  (filter (λ xk, xk.2 = true) (zip l keep)).*1.

(** The loop [if (TERMS[i]) { phy.edge[i][1] = termRanks[tIdx]; tIdx++; }]:
    [TERMS[i]] says that the child of row [i] is not in [parentSet]. *)
Fixpoint put_ranks (parentSet : list Z) (es : list (Z * Z)) (termRanks : list Z)
  : list (Z * Z) :=
  match es with
  | [] => []
  | e :: es =>
    if decide (e.2 ∈ parentSet) then e :: put_ranks parentSet es termRanks
    else (e.1, default 0 (head termRanks))
           :: put_ranks parentSet es (tail termRanks)
  end.

(** [dropTip], the pruning part, from the test [if (!rooted)] on, for the
    default values [subtree = false] and [rootEdge = 0].

    The code writes the new numbers into the rows of the edge matrix in
    place.  Two places of the matrix hold one and the same row only when
    [reorder] has picked an index twice; two rows then have the same child,
    and the embedding does not follow the call ([UndefinedId]).  It does
    not follow it either when a rank is not a whole number, which takes
    two equal children too.  In the last [map], [x ? Math.floor(x) : 0]
    makes 0 of an [undefined]. *)
Definition dropTip_prune (phy : Phylo len) (tip : list Z)
    (trimInternal rooted collapseSinglesFlag : bool) : result (Phylo len) :=
  let Ntip := Z.of_nat (length (tipLabel phy)) in
  let wbl := bool_decide (is_Some (edgeLength phy)) in
  let phy := if rooted then phy
             else {| edge := edge phy; edgeLength := edgeLength phy;
                     tipLabel := tipLabel phy; nodeLabel := nodeLabel phy;
                     Nnode := Nnode phy; rootEdge := None;
                     order := order phy |} in
  phy ← reorder undef phy Cladewise;
  let Nnode := Nnode phy in
  let Nedge := Z.of_nat (length (edge phy)) in
  rs ← rows (edge phy);
  let edge1 := rs.*1 in
  let edge2 := rs.*2 in
  if decide (NoDup edge2) then
    let keep := drop_terminal edge2 tip (replicate (length rs) true) in
    keep ← (if trimInternal
            then trim_internal (length rs) Ntip edge1 edge2 keep
            else Ok keep);
    let newEdge := kept keep rs in
    let newEdgeLength :=
      (λ el, (λ i, default undef (zget el i)) <$> kept keep (seqZ 0 Nedge))
        <$> edgeLength phy in
    let edgeLength := if wbl then newEdgeLength else edgeLength phy in
    let parentSet := newEdge.*1 in
    let oldNoOfNewTips := filter (λ c, c ∉ parentSet) newEdge.*2 in
    let newNtip := Z.of_nat (length oldNoOfNewTips) in
    termRanks ← rank random (Some <$> oldNoOfNewTips) true "average";
    termRanks ← map_defined whole termRanks;
    let ranked := put_ranks parentSet newEdge termRanks in
    let tipLabel :=
      foldl (λ labels t, splice_one labels (t - 1)) (tipLabel phy)
            (reverse (merge_sort Z.le tip)) in
    let tipLabel :=
      if trimInternal then tipLabel
      else
        let node2tip := filter (λ x, Ntip < x) oldNoOfNewTips in
        let newTipLabel :=
          if decide (node2tip = []) then []
          else match nodeLabel phy with
               | None => replicate (length node2tip) (Some "NA")
               | Some nl => (λ x, mjoin (zget nl (x - Ntip - 1))) <$> node2tip
               end in
        tipLabel ++ newTipLabel in
    newNb ← (if decide (Ntip + Nnode < 0) then Throw RangeError
             else Ok (<[Ntip := newNtip + 1]> (zero_table (Ntip + Nnode))));
    let nodesToRenumber := sorted_set (filter (λ c, newNtip < c) ranked.*2) in
    let newNb :=
      foldl (λ nb iv, <[iv.2 - 1 := newNtip + 2 + iv.1]> nb) newNb
            (zip (seqZ 0 (Z.of_nat (length nodesToRenumber))) nodesToRenumber) in
    let renumbered :=
      (λ e, (default 0 (newNb !! (e.1 - 1)),
             if decide (newNtip < e.2) then default 0 (newNb !! (e.2 - 1))
             else e.2)) <$> ranked in
    let indices :=
      (λ i, i - Ntip)
        <$> filter (λ i, 0 < default 0 (newNb !! i) ∧ Ntip ≤ i)
                   (merge_sort Z.le (elements (dom newNb))) in
    let pruned :=
      {| edge := Some <$> renumbered;
         edgeLength := edgeLength;
         tipLabel := tipLabel;
         nodeLabel := (λ nl, (λ i, mjoin (zget nl i)) <$> indices)
                        <$> nodeLabel phy;
         Nnode := Z.of_nat (length newEdge) - newNtip + 1;
         rootEdge := rootEdge phy;
         order := order phy |} in
    if collapseSinglesFlag then collapseSingles ladd lzero undef pruned false
    else Ok pruned
  else UndefinedId.

(** [dropTip(phy, tip, trimInternal, false, 0, rooted,
    collapseSinglesFlag)]: the opening part, then the pruning part. *)
Definition dropTip_all (phy : Phylo len) (tip : tip_arg)
    (trimInternal : bool) (rooted : option bool) (collapseSinglesFlag : bool)
  : list string * result (option (Phylo len)) :=
  match dropTip undef phy tip trimInternal rooted with
  | (w, Returns r) => (w, Ok r)
  | (w, Throws e) => (w, Throw e)
  | (w, Prunes tip rooted) =>
    (w, phy ← dropTip_prune phy tip trimInternal rooted collapseSinglesFlag;
        Ok (Some phy))
  end.
End DropTipPrune.

(** ** Example data *)

(** Branch lengths of the examples: integers, [undefined] and [NaN], with
    the [+] of JavaScript. *)
Inductive num : Type := Num (z : Z) | Undefined | NaN.

Definition num_add (a b : num) : num :=
  match a, b with
  | Num x, Num y => Num (x + y)
  | _, _ => NaN
  end.

(** The tree [(A:1,(B:2,C:3):4);] as the parser numbers it. *)
Definition tree_ABC : Phylo num :=
  {| edge := [Some (4, 1); Some (4, 5); Some (5, 2); Some (5, 3)];
     edgeLength := Some [Num 1; Num 4; Num 2; Num 3];
     tipLabel := [Some "A"; Some "B"; Some "C"];
     nodeLabel := Some [Some "R"; Some "N"];
     Nnode := 2;
     rootEdge := None;
     order := None |}.

(** The star tree [(A,B,C);]. *)
Definition tree_star : Phylo num :=
  {| edge := [Some (4, 1); Some (4, 2); Some (4, 3)];
     edgeLength := None;
     tipLabel := [Some "A"; Some "B"; Some "C"];
     nodeLabel := None;
     Nnode := 1;
     rootEdge := None;
     order := None |}.

(** Two tips under a chain of two singleton nodes, [((A,B));] below a
    root with one child, tagged as already in postorder. *)
Definition tree_chain : Phylo num :=
  {| edge := [Some (5, 1); Some (5, 2); Some (4, 5); Some (3, 4)];
     edgeLength := None;
     tipLabel := [Some "A"; Some "B"];
     nodeLabel := None;
     Nnode := 3;
     rootEdge := None;
     order := Some Postorder |}.

(** [(A,(B,C));] with its edges in postorder and tagged so. *)
Definition tree_ABC_post : Phylo num :=
  {| edge := [Some (5, 2); Some (5, 3); Some (4, 1); Some (4, 5)];
     edgeLength := None;
     tipLabel := [Some "A"; Some "B"; Some "C"];
     nodeLabel := None;
     Nnode := 2;
     rootEdge := None;
     order := Some Postorder |}.

(** The tree [(A);]: one tip under the root. *)
Definition tree_tip : Phylo num :=
  {| edge := [Some (2, 1)];
     edgeLength := None;
     tipLabel := [Some "A"];
     nodeLabel := None;
     Nnode := 1;
     rootEdge := None;
     order := None |}.

(** [(A:1,((B:2,C:3):4):5);] with a singleton node 5 above [(B,C)]. *)
Definition tree_single : Phylo num :=
  {| edge := [Some (4, 1); Some (4, 5); Some (5, 6); Some (6, 2); Some (6, 3)];
     edgeLength := Some [Num 1; Num 5; Num 4; Num 2; Num 3];
     tipLabel := [Some "A"; Some "B"; Some "C"];
     nodeLabel := Some [Some "R"; Some "S"; Some "N"];
     Nnode := 3;
     rootEdge := None;
     order := None |}.

(** ** node.js *)

(** The arrays [xx] of node depths are read and written at the index
    [node - 1], whatever it is: they are tables from index to value, and a
    slot that was never written reads [undefined]. *)
Definition aget {A} (undef : A) (xx : gmap Z A) (k : Z) : A :=
  default undef (xx !! k).

(** Truthiness and [>=] of the numbers [num]. *)
Definition num_truthy (a : num) : bool :=
  match a with
  | Num z => bool_decide (z ≠ 0)
  | _ => false
  end.

Definition num_ge (a b : num) : bool :=
  match a, b with
  | Num x, Num y => bool_decide (y ≤ x)
  | _, _ => false
  end.

(** [nodeDepthEdgeLength(edge1, edge2, edge_length, xx)]: the loop runs
    from the last edge to the first. *)
Definition nodeDepthEdgeLength {len} (ladd : len → len → len) (undef : len)
    (edge1 edge2 : list Z) (edge_length : list len) (xx : gmap Z len)
  : result (gmap Z len) :=
  foldl (λ acc '(i, p),
           xx ← acc;
           match zget edge2 i with
           | Some c =>
             Ok (<[c - 1 := ladd (aget undef xx (p - 1))
                                 (default undef (zget edge_length i))]> xx)
           | None => UndefinedId
           end)
        (Ok xx)
        (reverse (zip (seqZ 0 (Z.of_nat (length edge1))) edge1)).

(** One turn of the second loop of [nodeDepth], for the edge [(p, c)]. *)
Definition depth_step (method : Z) (xx : gmap Z num) (p c : Z) : gmap Z num :=
  if decide (method = 1) then
    <[p - 1 := num_add (aget Undefined xx (p - 1)) (aget Undefined xx (c - 1))]> xx
  else if num_truthy (aget Undefined xx (p - 1))
          && num_ge (aget Undefined xx (p - 1))
                    (num_add (aget Undefined xx (c - 1)) (Num 1))
  then xx
  else <[p - 1 := num_add (aget Undefined xx (c - 1)) (Num 1)]> xx.

(** [nodeDepth(ntip, e1, e2, xx, method)]. *)
Definition nodeDepth (ntip : Z) (e1 e2 : list Z) (xx : gmap Z num) (method : Z)
  : result (gmap Z num) :=
  let xx := foldl (λ xx i, <[i := Num 1]> xx) xx (seqZ 0 ntip) in
  foldl (λ acc '(i, p),
           xx ← acc;
           match zget e2 i with
           | Some c => Ok (depth_step method xx p c)
           | None => UndefinedId
           end)
        (Ok xx)
        (zip (seqZ 0 (Z.of_nat (length e1))) e1).

(** [new Array(5).fill(0)], the depths [dropTip] starts from for a tree
    with five nodes. *)
Definition five_zeros : gmap Z num :=
  list_to_map ((λ i, (i, Num 0)) <$> seqZ 0 5).

(** * Specification *)

(** The notions the theorems are stated with, and those their proofs go
    through. *)

(** ** The invariants of the data model *)

(** [valid_tree t rs]: the edge matrix of [t] is the list of rows [rs] and
    satisfies the invariants, [n] being the number of tips:
    - there are [n + Nnode - 1] edges;
    - the edges are acyclic and connected: every node has a depth, 0 at the
      root [n + 1] and one more at a child than at its parent;
    - every node but the root is a child exactly once, the root never;
    - the parents are internal nodes (a tip is never a parent), and every
      internal node is a parent (it is no leaf);
    - [edgeLength], when present, has one entry per edge. *)
Record valid_tree {len} (t : Phylo len) (rs : list (Z * Z)) : Prop := {
  vt_rows : edge t = Some <$> rs;
  vt_size : Z.of_nat (length rs) = Z.of_nat (length (tipLabel t)) + Nnode t - 1;
  vt_depth : ∃ depth : Z → nat,
      depth (Z.of_nat (length (tipLabel t)) + 1) = 0%nat ∧
      ∀ p c, (p, c) ∈ rs → depth c = S (depth p);
  vt_child_once : ∀ v, 1 ≤ v ≤ Z.of_nat (length (tipLabel t)) + Nnode t →
      v ≠ Z.of_nat (length (tipLabel t)) + 1 → occurrences v rs.*2 = 1;
  vt_children : ∀ c, c ∈ rs.*2 →
      1 ≤ c ≤ Z.of_nat (length (tipLabel t)) + Nnode t;
  vt_root : Z.of_nat (length (tipLabel t)) + 1 ∉ rs.*2;
  vt_parents : ∀ p, p ∈ rs.*1 →
      Z.of_nat (length (tipLabel t)) < p ≤ Z.of_nat (length (tipLabel t)) + Nnode t;
  vt_internal : ∀ v,
      Z.of_nat (length (tipLabel t)) < v ≤ Z.of_nat (length (tipLabel t)) + Nnode t →
      v ∈ rs.*1;
  vt_lengths : ∀ el, edgeLength t = Some el → length el = length rs
}.

(** ** dropTip *)


(** The [tip] arguments that name no tip of the tree: labels that are
    not in [tipLabel], numbers above the number of tips. *)
Definition names_no_tip {len} (phy : Phylo len) (tip : tip_arg) : Prop :=
  match tip with
  | TipLabel s => Some s ∉ tipLabel phy
  | TipLabels l => ∀ s, s ∈ l → Some s ∉ tipLabel phy
  | TipIds l => ∀ t, t ∈ l → Z.of_nat (length (tipLabel phy)) < t
  | TipId _ => False
  end.

(** ** propPart *)

(** The edges [bipartition2] sweeps without an exception or an [undefined]
    clade: each parent is above the tips, and each child above the tips is
    itself a parent. *)
Definition sweepable (nTips : Z) (rs : list (Z * Z)) : Prop :=
  rs ≠ [] ∧ ∀ p c, (p, c) ∈ rs → nTips < p ∧ (nTips < c → c ∈ rs.*1).

Section Counts.
(** [t] trees have been registered, [pre] holds the clades of the
    current tree that have been; [distinct] says that no later tree has
    the same clade twice. *)
Variable distinct : Prop.

Definition count_ok (t : Z) (pre : list (list Z)) (a : list Z) (c : Z) : Prop :=
  1 ≤ c ∧ (distinct → c ≤ t + if decide (a ∈ pre) then 1 else 0).
End Counts.

(** The trees that [reorder(., "postorder")] returns as they are: tagged
    as in postorder, with one internal node, or with fewer than two tips. *)
Definition postorder_kept {len} (t : Phylo len) : Prop :=
  order t = Some Postorder ∨ Nnode t = 1 ∨ (length (tipLabel t) < 2)%nat.

(** No tree after the first has two entries of [bipartition2], the first
    apart, that are the same clade. *)
Definition clades_distinct {len} (nTips : Z) (trees : list (Phylo len)) : Prop :=
  Forall (λ tr, ∀ bp, bipartition2 (edge tr) nTips = Ok bp → NoDup (drop 1 bp))
         (drop 1 trees).

(** ** reorder to cladewise *)

(** The indices of the edges out of node [v], in the order of the edge
    matrix: the group of [v]. *)
Definition group (e1 : list Z) (v : Z) : list Z :=
  filter (λ i, zget e1 i = Some v) (seqZ 0 (Z.of_nat (length e1))).

Section Groups.
Variables (nTips : Z) (e1 e2 : list Z).

(** The part of the group of [v] among the first [i] edges. *)
Definition group_upto (i : nat) (v : Z) : list Z :=
  filter (λ r, zget e1 r = Some v) (seqZ 0 (Z.of_nat i)).

(** Number of edges whose parent is below the [k]-th internal node. *)
Definition offset (k : Z) : Z :=
  Z.of_nat (length (filter (λ p, p - nTips - 1 < k) e1)).

(** The edge indices [foo_reorderRcpp(v)] stores, in order; [None] when
    the calls nest deeper than [fuel]. *)
Fixpoint walk (fuel : nat) (v : Z) : option (list Z) :=
  match fuel with
  | O => None
  | S fuel =>
    mjoin <$> mapM (λ k, match zget e2 k with
                          | Some c => if decide (nTips < c)
                                      then (k ::.) <$> walk fuel c else Some [k]
                          | None => Some [k]
                          end) (group e1 v)
  end.

(** Storing the indices [s] from position [iii] on. *)
Definition store (s : list Z) (st : list Z * Z) : list Z * Z :=
  foldl (λ '(neworder, iii) k, (Rcpp.push_at neworder iii k, iii + 1)) st s.
End Groups.

(** The group of [node] as [foo_reorderRcpp] reads it from the arrays. *)
Definition bucket (nTips : Z) (L xi xj : list Z) (node : Z) : list Z :=
  (λ j, default 0 (zget L (default 0 (zget xi (node - nTips - 1)) + j)))
    <$> seqZ 0 (default 0 (zget xj (node - nTips - 1))).

(** Every edge leaves a node already [seen]: the root, or the child of an
    edge before it. *)
Fixpoint topo (seen : list Z) (es : list (Z * Z)) : Prop :=
  match es with
  | [] => True
  | e :: es => e.1 ∈ seen ∧ topo (e.2 :: seen) es
  end.

Section Below.
Variables (nTips : Z) (rs : list (Z * Z)).

(** Edge [i] lies below node [v]. *)
Inductive below : Z → Z → Prop :=
  | below_direct v i c : zget rs i = Some (v, c) → below v i
  | below_step v k c i : zget rs k = Some (v, c) → below c i → below v i.

(** The rows at the indices [s]. *)
Definition rows_at (s : list Z) : list (Z * Z) := omap (zget rs) s.

(** What the walk stores for the edge [k] out of [v]: [k], then the edges
    below its child. *)
Definition block_ok (v k : Z) (blk : list Z) : Prop :=
  ∃ c t, zget rs k = Some (v, c) ∧ blk = k :: t ∧ NoDup t ∧
         (∀ i, i ∈ t ↔ nTips < c ∧ below c i) ∧
         ∀ seen, c ∈ seen → topo seen (rows_at t).
End Below.

(** ** collapseSingles *)

(** What the loops of [collapseSingles] keep true of the parent and child
    columns [e1] and [e2], [ROOT] being the current root and [n] the number
    of tips. *)
Record rooted_edges (n ROOT : Z) (e1 e2 : list Z) : Prop := {
  re_length : length e1 = length e2;
  re_parents : ∀ p, p ∈ e1 → n < p;
  re_children : NoDup e2;
  re_internal : ∀ c, c ∈ e2 → n < c → c ∈ e1;
  re_connected : ∀ p, p ∈ e1 → p = ROOT ∨ p ∈ e2;
  re_root : ROOT ∉ e2;
  re_tips : ∀ t, 1 ≤ t ≤ n → t ∈ e2 ∨ t = ROOT;
  re_positive : ∀ c, c ∈ e2 → 1 ≤ c;
  re_depth : ∃ depth : Z → nat, ∀ i p c,
      e1 !! i = Some p → e2 !! i = Some c → (depth p < depth c)%nat
}.

(** [l.splice(idx, 1)] for every [idx] of [ii], in turn. *)
Definition remove_rows {A} (ii : list Z) (l : list A) : list A :=
  foldl (λ l idx, delete (Z.to_nat idx) l) l ii.

Section Writes.
Variables (e1 e2 : list Z).

(** The writes [e2[jj[k]] = e2[ii[k]]], the targets [jj] being looked up
    in the columns as they are before the loop. *)
Definition splice_children (cur : list Z) (i : Z) : list Z :=
  zset cur (default (-1) (index_of (default 0 (zget e1 i)) e2))
       (default 0 (zget cur i)).

(** An index list that the loop can take: each row's parent is the child
    of an earlier row, and no two rows have the same parent. *)
Definition spliceable (ii : list Z) : Prop :=
  (∀ i, i ∈ ii → ∃ s j,
     zget e1 i = Some s ∧ index_of s e2 = Some j ∧ j < i) ∧
  (∀ i i', i ∈ ii → i' ∈ ii → zget e1 i = zget e1 i' → i = i').
End Writes.

(** The columns once the singletons are out: every parent has two edges
    or more. *)
Record collapsed (n ROOT : Z) (e1 e2 : list Z) : Prop := {
  co_length : length e1 = length e2;
  co_branching : ∀ p, p ∈ e1 → 2 ≤ occurrences p e1;
  co_parents : ∀ p, p ∈ e1 → n < p;
  co_root : ROOT ∈ e1;
  co_root_child : ROOT ∉ e2;
  co_children : NoDup e2;
  co_internal : ∀ c, c ∈ e2 → n < c → c ∈ e1;
  co_connected : ∀ p, p ∈ e1 → p = ROOT ∨ p ∈ e2;
  co_tips : ∀ t, 1 ≤ t ≤ n → t ∈ e2;
  co_positive : ∀ c, c ∈ e2 → 1 ≤ c
}.

(** No id above [n] is the parent of exactly one edge (or of none, up to
    the largest parent). *)
Definition no_single_parent (n : Z) (e1 : list Z) : Prop :=
  ∃ m, js_max e1 = Some m ∧ 0 ≤ m ∧ ∀ v, n < v ≤ m → 2 ≤ occurrences v e1.

(** The edges in cladewise order from node [v]: an edge out of [v], the
    edges of its child's subtree in cladewise order, then the next edge out
    of [v] in the same way. *)
Inductive cladewise_from : Z → list (Z * Z) → Prop :=
  | cladewise_done v : cladewise_from v []
  | cladewise_edge v c sub rest :
      cladewise_from c sub → cladewise_from v rest →
      cladewise_from v ((v, c) :: sub ++ rest).

(** ** rank *)

(** The values of [arr] that are not missing. *)
Definition values (arr : list (option Z)) : list Z := omap id arr.

(** Number of values of [arr] below [x]. *)
Definition smaller (x : Z) (arr : list (option Z)) : Z :=
  Z.of_nat (length (filter (λ v, v < x) (values arr))).

(** Number of missing entries of [arr]. *)
Definition missing (arr : list (option Z)) : Z :=
  Z.of_nat (length (filter (λ o : option Z, o = None) arr)).

(** The rank of an entry by the tie method, [c] being the first rank of
    its tie group, [gs] the size of the group and [d] the number of
    entries of the group before it. *)
Definition tie_rank (tiesMethod : string) (c gs d : Z) : Qc :=
  if decide (tiesMethod = "first") then Z2Qc (c + d)
  else if decide (tiesMethod = "last") then Z2Qc (c + gs - 1 - d)
  else if decide (tiesMethod = "min") then Z2Qc c
  else if decide (tiesMethod = "max") then Z2Qc (c + gs - 1)
  else (Z2Qc c + Z2Qc (gs - 1) / Z2Qc 2)%Qc.

(** The tie methods that draw no random number. *)
Definition deterministic (tiesMethod : string) : Prop :=
  tiesMethod ∈ ["first"; "last"; "min"; "max"; "average"].

(** Counts over the entries [{val, idx}]. *)
Definition less_in (x : Z) (l : list (Z * Z)) : Z :=
  Z.of_nat (length (filter (λ e, e.1 < x) l)).

Definition equal_in (x : Z) (l : list (Z * Z)) : Z :=
  Z.of_nat (length (filter (λ e, e.1 = x) l)).

Definition before_in (x i : Z) (l : list (Z * Z)) : Z :=
  Z.of_nat (length (filter (λ e, e.1 = x ∧ e.2 < i) l)).

(** ** nodeDepth *)

(** The edges in an order where every edge out of a node comes before the
    edge into it. *)
Fixpoint children_first (rs : list (Z * Z)) : Prop :=
  match rs with
  | [] => True
  | e :: rest => (e.2 ∉ (e :: rest).*1) ∧ children_first rest
  end.

(** The children of [p], in the order of the edge matrix. *)
Definition children (p : Z) (rs : list (Z * Z)) : list Z :=
  (filter (λ e, e.1 = p) rs).*2.

(** The sum of [l] as a loop [s = 0; s += x] computes it. *)
Definition num_sum (l : list num) : num := foldl num_add (Num 0) l.

(** ** bipartition2 *)

(** Node [d] is below node [p]: a child of [p], or below a child. *)
Inductive descends (rs : list (Z * Z)) : Z → Z → Prop :=
  | descends_child p c : (p, c) ∈ rs → descends rs p c
  | descends_step p c d : (p, c) ∈ rs → descends rs c d → descends rs p d.

(** ** collapseSingles: the tree returned *)

(** The parent of [v] in the edges [rs], and the number of edges from [v]
    up to a node that is no child, at most [fuel]. *)
Definition parent_of (rs : list (Z * Z)) (v : Z) : option Z :=
  fst <$> head (filter (λ e, e.2 = v) rs).

Fixpoint path_length (rs : list (Z * Z)) (fuel : nat) (v : Z) : nat :=
  match fuel with
  | O => O
  | S fuel =>
    match parent_of rs v with
    | Some p => S (path_length rs fuel p)
    | None => O
    end
  end.

(** The nodes above the tips that are the parent of exactly one edge. *)
Definition single_nodes (n N : Z) (e1 : list Z) : list Z :=
  filter (λ v, occurrences v e1 = 1) (seqZ (n + 1) N).

(** ** dropTip: the pruning *)

(** A tip that is not dropped, and a node that is such a tip or has one
    below it. *)
Definition remains (n : Z) (tip : list Z) (t : Z) : Prop :=
  1 ≤ t ≤ n ∧ t ∉ tip.

Definition alive (n : Z) (tip : list Z) (rs : list (Z * Z)) (c : Z) : Prop :=
  remains n tip c ∨ ∃ t, remains n tip t ∧ descends rs c t.

(** The labels of the tips that are not dropped, in their order. *)
Definition labels_left {A} (labels : list A) (tip : list Z) : list A :=
  (filter (λ il, il.1 ∉ tip)
          (zip (seqZ 1 (Z.of_nat (length labels))) labels)).*2.

(** * Properties *)

(** ** Arrays *)

Lemma zget_Some {A} (l : list A) (i : Z) (x : A) :
  zget l i = Some x ↔ 0 ≤ i ∧ l !! Z.to_nat i = Some x.
Proof. unfold zget. case_decide; naive_solver. Qed.

Lemma zget_of_nat {A} (l : list A) (i : nat) : zget l (Z.of_nat i) = l !! i.
Proof. unfold zget. by rewrite decide_True, Nat2Z.id by lia. Qed.

Lemma zget_nonneg {A} (l : list A) (i : Z) : 0 ≤ i → zget l i = l !! Z.to_nat i.
Proof. intros. unfold zget. by rewrite decide_True. Qed.

Lemma zget_lt {A} (l : list A) (i : Z) :
  0 ≤ i → i < Z.of_nat (length l) → is_Some (zget l i).
Proof.
  intros Hi Hl. unfold zget. rewrite decide_True by done.
  apply lookup_lt_is_Some. lia.
Qed.

Lemma zget_None {A} (l : list A) (i : Z) :
  zget l i = None ↔ i < 0 ∨ Z.of_nat (length l) ≤ i.
Proof.
  unfold zget. case_decide.
  - rewrite lookup_ge_None. lia.
  - split; [lia | done].
Qed.

Lemma length_zset {A} (l : list A) (i : Z) (v : A) :
  length (zset l i v) = length l.
Proof. unfold zset. case_decide; [apply length_insert | done]. Qed.

Lemma zget_zset_eq {A} (l : list A) (i : Z) (v : A) :
  0 ≤ i → i < Z.of_nat (length l) → zget (zset l i v) i = Some v.
Proof.
  intros Hi Hl. unfold zget, zset. rewrite !decide_True by done.
  apply list_lookup_insert_eq. lia.
Qed.

Lemma zget_zset_ne {A} (l : list A) (i j : Z) (v : A) :
  i ≠ j → zget (zset l i v) j = zget l j.
Proof.
  intros Hij. unfold zget, zset. repeat case_decide; try done.
  apply list_lookup_insert_ne. lia.
Qed.

Lemma zget_zset {A} (l : list A) (i j : Z) (v : A) :
  zget (zset l i v) j =
    if decide (i = j ∧ 0 ≤ i < Z.of_nat (length l)) then Some v else zget l j.
Proof.
  case_decide as H.
  - destruct H as [-> ?]. apply zget_zset_eq; lia.
  - destruct (decide (i = j)) as [->|]; [|by apply zget_zset_ne].
    unfold zget, zset. case_decide; [|done].
    rewrite list_insert_ge; [done | lia].
Qed.

Lemma zget_replicate {A} (k : nat) (x : A) (i : Z) :
  0 ≤ i → i < Z.of_nat k → zget (replicate k x) i = Some x.
Proof.
  intros Hi Hk. unfold zget. rewrite decide_True by done.
  apply lookup_replicate_2. lia.
Qed.

Lemma filter_all {A} (P : A → Prop) `{!∀ x, Decision (P x)} (l : list A) :
  Forall P l → filter P l = l.
Proof.
  induction 1 as [|x l Hx _ IH]; [done|]. by rewrite filter_cons_True, IH.
Qed.

Lemma filter_none {A} (P : A → Prop) `{!∀ x, Decision (P x)} (l : list A) :
  Forall (λ x, ¬ P x) l → filter P l = [].
Proof.
  induction 1 as [|x l Hx _ IH]; [done|]. by rewrite filter_cons_False, IH.
Qed.

Lemma seqZ_NoDup m k : NoDup (seqZ m k).
Proof. apply NoDup_fmap_2; [intros ???; lia | apply NoDup_seq]. Qed.


Lemma find_index_None {A} (p : A → bool) (l : list A) :
  find_index p l = None ↔ Forall (λ x, p x = false) l.
Proof.
  induction l as [|x l IH]; simpl; [by split|].
  rewrite Forall_cons. destruct (p x); [by split; [|intros [? _]]|].
  destruct (find_index p l); simpl; naive_solver.
Qed.

Lemma find_index_Some {A} (p : A → bool) (l : list A) (i : Z) :
  find_index p l = Some i →
  0 ≤ i ∧ (∃ x, l !! Z.to_nat i = Some x ∧ p x = true) ∧
  ∀ j x, (j < Z.to_nat i)%nat → l !! j = Some x → p x = false.
Proof.
  revert i. induction l as [|x l IH]; intros i; simpl; [done|].
  destruct (p x) eqn:Hp.
  - intros [= <-]. split; [done|]. split; [by exists x|]. intros; lia.
  - destruct (find_index p l) as [k|]; simpl; [|done]. intros [= <-].
    destruct (IH k eq_refl) as (Hk & (y & Hy & Hpy) & Hfirst).
    split; [lia|]. replace (Z.to_nat (k + 1)) with (S (Z.to_nat k)) by lia.
    split; [by exists y|]. intros [|j] z Hj Hz; simplify_eq/=; [done|].
    apply (Hfirst j); [lia | done].
Qed.

Lemma index_of_None `{EqDecision A} (v : A) (l : list A) :
  index_of v l = None ↔ v ∉ l.
Proof.
  unfold index_of. rewrite find_index_None, Forall_forall. split.
  - intros H Hin. specialize (H v Hin). by rewrite bool_decide_eq_true_2 in H.
  - intros H x Hx. apply bool_decide_eq_false_2. by intros ->.
Qed.

Lemma index_of_Some `{EqDecision A} (v : A) (l : list A) (i : Z) :
  index_of v l = Some i →
  0 ≤ i ∧ l !! Z.to_nat i = Some v ∧
  ∀ j, (j < Z.to_nat i)%nat → l !! j ≠ Some v.
Proof.
  intros (Hi & (x & Hx & Hp) & Hfirst)%find_index_Some.
  apply bool_decide_eq_true_1 in Hp as ->. split; [done|]. split; [done|].
  intros j Hj Hl. specialize (Hfirst j v Hj Hl).
  by rewrite bool_decide_eq_true_2 in Hfirst.
Qed.

Lemma index_of_is_Some `{EqDecision A} (v : A) (l : list A) :
  v ∈ l → is_Some (index_of v l).
Proof.
  intros Hin. destruct (index_of v l) eqn:E; [by eexists|].
  by apply index_of_None in E.
Qed.

Lemma occurrences_nil v : occurrences v [] = 0.
Proof. done. Qed.

Lemma occurrences_cons v x l :
  occurrences v (x :: l) = (if decide (x = v) then 1 else 0) + occurrences v l.
Proof.
  unfold occurrences. rewrite filter_cons.
  case_decide; simpl; lia.
Qed.

Lemma occurrences_app v l1 l2 :
  occurrences v (l1 ++ l2) = occurrences v l1 + occurrences v l2.
Proof. unfold occurrences. rewrite filter_app, length_app. lia. Qed.

Lemma occurrences_nonneg v l : 0 ≤ occurrences v l.
Proof. unfold occurrences. lia. Qed.

Lemma occurrences_pos v l : 0 < occurrences v l ↔ v ∈ l.
Proof.
  induction l as [|x l IH]; [rewrite occurrences_nil; split; [lia | by intros ?%elem_of_nil]|].
  rewrite occurrences_cons, elem_of_cons. pose proof (occurrences_nonneg v l).
  case_decide; naive_solver lia.
Qed.

Lemma occurrences_Permutation v l1 l2 :
  l1 ≡ₚ l2 → occurrences v l1 = occurrences v l2.
Proof. intros H. unfold occurrences. by rewrite H. Qed.

Lemma js_max_spec arr m :
  js_max arr = Some m → m ∈ arr ∧ ∀ x, x ∈ arr → x ≤ m.
Proof.
  destruct arr as [|a arr]; [done|]. simpl. intros [= <-].
  revert a. induction arr as [|b arr IH]; intros a; simpl.
  - split; [by left|]. intros x ->%list_elem_of_singleton. lia.
  - destruct (IH (a `max` b)) as [Hin Hle]. split.
    + apply elem_of_cons in Hin as [->|Hin]; [|by do 2 right].
      destruct (Z.max_spec a b) as [[_ ->]|[_ ->]]; [right|]; by left.
    + intros x [->|[->|Hx]%elem_of_cons]%elem_of_cons.
      * pose proof (Hle (a `max` b) ltac:(by left)). lia.
      * pose proof (Hle (a `max` b) ltac:(by left)). lia.
      * apply Hle. by right.
Qed.

Lemma js_max_is_Some arr : arr ≠ [] → is_Some (js_max arr).
Proof. destruct arr; [done | by eexists]. Qed.

Lemma occurrences_zero (v : Z) (l : list Z) : occurrences v l = 0 ↔ v ∉ l.
Proof.
  pose proof (occurrences_pos v l). pose proof (occurrences_nonneg v l).
  split; [intros ? Hin%H; lia|]. intros Hn.
  destruct (decide (0 < occurrences v l)) as [Hpos%H|]; [done | lia].
Qed.

(** A list without duplicates counts each of its elements once. *)
Lemma NoDup_occurrences (l : list Z) :
  (∀ x, x ∈ l → occurrences x l = 1) → NoDup l.
Proof.
  induction l as [|a l IH]; intros H; [constructor|].
  pose proof (H a ltac:(by left)) as Ha.
  rewrite occurrences_cons, decide_True in Ha by done.
  assert (a ∉ l) as Hna by (apply occurrences_zero; lia).
  apply NoDup_cons. split; [done|]. apply IH. intros x Hx.
  pose proof (H x ltac:(by right)) as Hxl.
  rewrite occurrences_cons, decide_False in Hxl by (by intros ->). lia.
Qed.

Lemma occurrences_NoDup (l : list Z) (x : Z) :
  NoDup l → x ∈ l → occurrences x l = 1.
Proof.
  induction 1 as [|a l Hna Hnd IH]; [by intros ?%elem_of_nil|].
  rewrite occurrences_cons. intros [->|Hx]%elem_of_cons.
  - rewrite decide_True by done. apply occurrences_zero in Hna. lia.
  - rewrite decide_False by (by intros ->). rewrite IH by done. lia.
Qed.

(** Counts of the only element, and of a number above the largest. *)
Lemma occurrences_all (v : Z) (l : list Z) :
  (∀ x, x ∈ l → x = v) → occurrences v l = Z.of_nat (length l).
Proof.
  intros H. unfold occurrences. rewrite filter_all; [done|]. by apply Forall_forall.
Qed.

Lemma occurrences_above_max (v m : Z) (l : list Z) :
  js_max l = Some m → m < v → occurrences v l = 0.
Proof.
  intros Hm Hlt. apply occurrences_zero. intros Hv%(proj2 (js_max_spec _ _ Hm)). lia.
Qed.

(** ** tabulate *)

Lemma count_fold_spec (arr counts : list Z) :
  let step := λ (counts : list Z) val,
                zset counts val (default 0 (zget counts val) + 1) in
  length (foldl step counts arr) = length counts ∧
  ∀ i, 0 ≤ i → i < Z.of_nat (length counts) →
       zget (foldl step counts arr) i
       = Some (default 0 (zget counts i) + occurrences i arr).
Proof.
  intros step. revert counts. induction arr as [|val arr IH]; intros counts; simpl.
  - split; [done|]. intros i Hi Hl. destruct (zget_lt counts i Hi Hl) as [x ->].
    simpl. rewrite occurrences_nil. f_equal. lia.
  - destruct (IH (step counts val)) as [Hlen Hget].
    assert (length (step counts val) = length counts) as Hs
      by apply length_zset.
    rewrite Hs in Hlen, Hget.
    split; [done|]. intros i Hi Hl. rewrite (Hget i Hi Hl).
    unfold step at 1. rewrite occurrences_cons, zget_zset. f_equal.
    destruct (zget_lt counts i Hi Hl) as [x Hx].
    repeat case_decide; simplify_eq; rewrite ?Hx; simpl; lia.
Qed.

(** [tabulate] of an array with a largest element [m]: one count per
    number up to [m]. *)
Lemma tabulate_Ok (arr : list Z) (m : Z) :
  js_max arr = Some m → 0 ≤ m →
  ∃ counts, tabulate arr = Ok counts ∧
    Z.of_nat (length counts) = m + 1 ∧
    ∀ i, 0 ≤ i ≤ m → zget counts i = Some (occurrences i arr).
Proof.
  intros Hm Hpos. eexists. unfold tabulate. rewrite Hm. simpl.
  rewrite decide_False by lia. simpl. split; [done|].
  pose proof (count_fold_spec arr (replicate (Z.to_nat (m + 1)) 0)) as [Hl Hg].
  rewrite length_replicate in Hl, Hg.
  split; [rewrite Hl; lia|].
  intros i Hi. rewrite Hg by lia. rewrite zget_replicate by lia. done.
Qed.

(** [C10]  [tabulate] needs a non-empty input, and one within the limits
    of the engine.  On the empty sequence it throws a [RangeError] (the
    maximum is [-Infinity], no array length).  On a non-empty sequence of
    positive integers with maximum [m]:
    - when the sequence fits into the arguments of one call and [m + 1] is
      a length that the engine can allocate and fill, it returns an array
      of length [m + 1] whose entry [i] is the number of occurrences of [i]
      (0 for the ids not seen), the array of the engine without limits;
    - when the sequence is too long for one call, or [m + 1] is above
      [2^32 - 1], it throws a [RangeError];
    - when [m + 1] is a legal length that the engine cannot fill, it
      returns no array. *)
Theorem tabulate_counts_or_range_error (max_args max_fill : Z) (arr : list Z) :
  (arr = [] →
   Engine.tabulate max_args max_fill arr = Engine.Done (Throw RangeError)) ∧
  (arr ≠ [] → Forall (λ v, 0 < v) arr →
   ∃ m, (m ∈ arr ∧ ∀ v, v ∈ arr → v ≤ m) ∧
     (Z.of_nat (length arr) ≤ max_args → m + 1 ≤ Engine.max_length →
      m + 1 ≤ max_fill →
      ∃ counts,
        Engine.tabulate max_args max_fill arr = Engine.Done (Ok counts) ∧
        tabulate arr = Ok counts ∧
        Z.of_nat (length counts) = m + 1 ∧
        ∀ i, 0 ≤ i ≤ m → zget counts i = Some (occurrences i arr)) ∧
     (max_args < Z.of_nat (length arr) ∨ Engine.max_length < m + 1 →
      Engine.tabulate max_args max_fill arr = Engine.Done (Throw RangeError)) ∧
     (Z.of_nat (length arr) ≤ max_args → m + 1 ≤ Engine.max_length →
      max_fill < m + 1 →
      Engine.tabulate max_args max_fill arr = Engine.Exhausted)).
Proof.
  split.
  - intros ->. unfold Engine.tabulate, Engine.js_max. by case_decide.
  - intros Hne Hpos.
    destruct (js_max_is_Some arr Hne) as [m Hm].
    pose proof (js_max_spec arr m Hm) as [Hin Hmax].
    assert (0 < m) by (by eapply (proj1 (Forall_forall _ _)) in Hpos).
    destruct (tabulate_Ok arr m Hm ltac:(lia)) as (counts & Htab & Hlen & Hget).
    exists m. split; [done|].
    unfold Engine.tabulate, Engine.js_max, Engine.new_array.
    split; [|split].
    + intros Hargs Hlim Hfill. exists counts.
      rewrite decide_False by lia. rewrite Hm. cbn [fmap option_fmap option_map].
      rewrite decide_False by lia. rewrite decide_False by lia.
      split; [|done]. do 2 f_equal.
      unfold tabulate in Htab. rewrite Hm in Htab. cbn in Htab.
      rewrite decide_False in Htab by lia. cbn in Htab. by injection Htab.
    + intros [Hargs|Hlim].
      * by rewrite decide_True.
      * case_decide; [done|]. rewrite Hm. cbn [fmap option_fmap option_map].
        rewrite decide_True; [done|]. by right.
    + intros Hargs Hlim Hfill.
      rewrite decide_False by lia. rewrite Hm. cbn [fmap option_fmap option_map].
      rewrite decide_False by lia. by rewrite decide_True.
Qed.

(** ** isRooted *)

Lemma rows_Some (rs : list (Z * Z)) : rows (Some <$> rs) = Ok rs.
Proof. induction rs as [|r rs IH]; [done|]. csimpl. by rewrite IH. Qed.

Lemma rows_Ok (orig : list row) rs : rows orig = Ok rs → orig = Some <$> rs.
Proof.
  revert rs. induction orig as [|[r|] orig IH]; intros rs; simpl; [by intros [= <-]| |done].
  destruct (rows orig) as [rs'| |]; simpl; [|done..].
  intros [= <-]. by rewrite (IH rs').
Qed.

Lemma parent_counts_fold (rs : list (Z * Z)) (pc : gmap Z Z) (v : Z) :
  default 0 (foldl (λ pc e, <[e.1 := default 0 (pc !! e.1) + 1]> pc) pc rs !! v)
  = default 0 (pc !! v) + occurrences v rs.*1.
Proof.
  revert pc. induction rs as [|[p c] rs IH]; intros pc; csimpl.
  - rewrite occurrences_nil. lia.
  - rewrite IH, occurrences_cons. csimpl.
    case_decide as Hp.
    + subst p. rewrite lookup_insert_eq. destruct (pc !! v); simpl; lia.
    + rewrite lookup_insert_ne by done. destruct (pc !! v); simpl; lia.
Qed.

Lemma parent_counts_spec (rs : list (Z * Z)) (v : Z) :
  default 0 (parent_counts rs !! v) = occurrences v rs.*1.
Proof. unfold parent_counts. rewrite parent_counts_fold, lookup_empty. simpl. lia. Qed.

(** With the number of tips passed, [isRooted] tests the root edge and the
    number of edges out of node [ntips + 1]. *)
Lemma isRooted_with_ntips {len} (phy : Phylo len) (rs : list (Z * Z)) (n : Z) :
  edge phy = Some <$> rs →
  isRooted phy (Some n)
  = Ok (bool_decide (is_Some (rootEdge phy) ∨ occurrences (n + 1) rs.*1 ≤ 2)).
Proof.
  intros He. unfold isRooted. destruct (rootEdge phy) as [r|].
  - rewrite bool_decide_eq_true_2; [done | left; by eexists].
  - rewrite He, rows_Some. simpl. rewrite parent_counts_spec. f_equal.
    apply bool_decide_ext. split; [by right|]. by intros [[? [=]]|].
Qed.

(** Without the number of tips (as the default of [rooted] in [dropTip]
    calls it), the answer is [true] whatever the tree. *)
Lemma isRooted_without_ntips {len} (phy : Phylo len) (rs : list (Z * Z)) :
  edge phy = Some <$> rs → isRooted phy None = Ok true.
Proof.
  intros He. unfold isRooted. destruct (rootEdge phy); [done|].
  by rewrite He, rows_Some.
Qed.

(** [C8]  For a tree with [n] tips, [isRooted] answers [true] exactly when
    the root edge is set or the root node [n + 1] is the parent of at most
    two edges. *)
Theorem isRooted_iff_root_edge_or_low_degree {len} (phy : Phylo len)
    (rs : list (Z * Z)) :
  edge phy = Some <$> rs →
  let n := Z.of_nat (length (tipLabel phy)) in
  ∃ b, isRooted phy (Some n) = Ok b ∧
       (b = true ↔ is_Some (rootEdge phy) ∨ occurrences (n + 1) rs.*1 ≤ 2).
Proof.
  intros He n. eexists. split; [by apply isRooted_with_ntips|].
  by rewrite bool_decide_eq_true.
Qed.

(** ** dropTip *)

Section DropTipFacts.
Context {len : Type}.
Variable undef : len.
Implicit Types (phy : Phylo len) (tip : list Z).





Lemma dropTip_default_rooted phy rs (rooted : option bool) :
  edge phy = Some <$> rs →
  ∃ b, (if rooted is Some b then Ok b else isRooted phy None) = Ok b.
Proof.
  intros He. destruct rooted as [b|]; [by exists b|].
  exists true. by eapply isRooted_without_ntips.
Qed.


Lemma label_ids_none phy (l : list string) :
  (∀ s, s ∈ l → Some s ∉ tipLabel phy) → label_ids phy l = [].
Proof.
  intros H. unfold label_ids. induction l as [|s l IH]; [done|]. csimpl.
  rewrite (proj2 (index_of_None (Some s) (tipLabel phy))) by (apply H; by left).
  csimpl. apply IH. intros s' Hs'. apply H. by right.
Qed.

Lemma dropTip_names_no_tip phy (tip : tip_arg) (rs : list (Z * Z))
    (trimInternal : bool) (rooted : option bool) :
  edge phy = Some <$> rs →
  names_no_tip phy tip →
  (dropTip undef phy tip trimInternal rooted).2 = Returns (Some phy).
Proof.
  intros He Hno. unfold dropTip.
  destruct (dropTip_default_rooted phy rs rooted He) as [b ->].
  assert (∃ ids, resolve_tip phy tip = Ok ids ∧
                 filter (λ t, t ≤ Z.of_nat (length (tipLabel phy))) ids = [])
    as (ids & -> & Hf).
  { destruct tip as [s|l|l|t]; cbn [resolve_tip names_no_tip] in *; [| | |done].
    - exists []. split; [|done]. f_equal. apply label_ids_none.
      by intros s' ->%list_elem_of_singleton.
    - exists []. split; [|done]. f_equal. by apply label_ids_none.
    - exists l. split; [done|]. apply filter_none, Forall_forall.
      intros t Ht%Hno. lia. }
  case_decide as Hout.
  - assert (ids = []) as ->.
    { destruct ids as [|t ids]; [done|]. rewrite filter_cons in Hout, Hf.
      repeat case_decide; simplify_eq; lia. }
    by rewrite decide_True.
  - rewrite Hf. by rewrite decide_True.
Qed.

(** [C9]  When the [tip] argument is an empty list, labels that are all
    unknown or numbers that are all above the number of tips, [dropTip]
    returns the tree it was given.  Numbers below 1 name no tip either, but
    the code filters the numbers above the number of tips only: a call
    with numbers [low] that are all below 1 (and fewer than the tips but
    one) does not return the tree, it logs nothing and goes on into the
    pruning part with all of [low]. *)
Theorem dropTip_nothing_to_drop phy (tip : tip_arg) (low : list Z)
    (rs : list (Z * Z)) (trimInternal : bool) (rooted : option bool) :
  edge phy = Some <$> rs →
  (names_no_tip phy tip →
   (dropTip undef phy tip trimInternal rooted).2 = Returns (Some phy)) ∧
  (low ≠ [] → (∀ t, t ∈ low → t < 1) →
   Z.of_nat (length low) < Z.of_nat (length (tipLabel phy)) - 1 →
   ∃ b, dropTip undef phy (TipIds low) trimInternal rooted
        = ([], Prunes low b)).
Proof.
  intros He. split; [intros Hno; by apply (dropTip_names_no_tip phy tip rs)|].
  intros Hne Hlow Hlen. unfold dropTip.
  destruct (dropTip_default_rooted phy rs rooted He) as [b ->].
  exists b. cbn [resolve_tip].
  rewrite filter_none by (apply Forall_forall; intros t Ht%Hlow; lia).
  rewrite decide_True by done. rewrite decide_False by done.
  rewrite (bool_decide_eq_false_2 (Z.of_nat (length low) = _)) by lia.
  cbn [andb].
  rewrite (bool_decide_eq_false_2 (Z.of_nat (length low) = _)) by lia.
  done.
Qed.

Lemma label_ids_app phy (l1 l2 : list string) :
  label_ids phy (l1 ++ l2) = label_ids phy l1 ++ label_ids phy l2.
Proof. unfold label_ids. apply omap_app. Qed.

Lemma find_child_row_total (t : option Z) (rs : list (Z * Z)) :
  ∃ o, find_child_row t (Some <$> rs) = Ok o.
Proof.
  induction rs as [|[q c] rs [o IH]]; csimpl; [by eexists|].
  case_decide; [by eexists|]. rewrite IH. by eexists.
Qed.

Lemma dropTip_never_throws_on_labels phy rs (l : list string)
    (trimInternal : bool) (rooted : option bool) (e : js_error) :
  edge phy = Some <$> rs →
  (dropTip undef phy (TipLabels l) trimInternal rooted).2 ≠ Throws e.
Proof.
  intros He. unfold dropTip.
  destruct (dropTip_default_rooted phy rs rooted He) as [b ->]. cbn [resolve_tip].
  rewrite He.
  destruct (decide (filter _ _ = [])); repeat case_decide; try done;
    repeat (destruct (_ && _); try done);
    match goal with
    | |- context [find_child_row ?t _] =>
        destruct (find_child_row_total t rs) as [[?|] ->]
    end; done.
Qed.

(** [C4], amended  Labels resolve to tip numbers through [tipLabel]
    (position of the first equal label, plus one).  A label that is not in
    [tipLabel] is left out and raises no error.  When some tip numbers are
    above the number of tips, the call logs a warning and goes on as the
    call on the remaining numbers does. *)
Theorem dropTip_resolves_filters_and_warns phy (rs : list (Z * Z))
    (trimInternal : bool) (rooted : option bool) :
  let Ntip := Z.of_nat (length (tipLabel phy)) in
  edge phy = Some <$> rs →
  (∀ l, dropTip undef phy (TipLabels l) trimInternal rooted
        = dropTip undef phy (TipIds (label_ids phy l)) trimInternal rooted)
  ∧ (∀ s, Some s ∈ tipLabel phy →
        ∃ i, label_ids phy [s] = [i + 1] ∧ 0 ≤ i ∧
             tipLabel phy !! Z.to_nat i = Some (Some s) ∧
             ∀ j, (j < Z.to_nat i)%nat → tipLabel phy !! j ≠ Some (Some s))
  ∧ (∀ l1 s l2, Some s ∉ tipLabel phy →
        dropTip undef phy (TipLabels (l1 ++ s :: l2)) trimInternal rooted
        = dropTip undef phy (TipLabels (l1 ++ l2)) trimInternal rooted)
  ∧ (∀ l e, (dropTip undef phy (TipLabels l) trimInternal rooted).2 ≠ Throws e)
  ∧ (∀ l, Exists (λ t, Ntip < t) l →
        let rest := filter (λ t, t ≤ Ntip) l in
        dropTip undef phy (TipIds l) trimInternal rooted
        = (warn_out_of_range
             :: (dropTip undef phy (TipIds rest) trimInternal rooted).1,
           (dropTip undef phy (TipIds rest) trimInternal rooted).2)).
Proof.
  intros Ntip He. split; [done|]. split; [|split; [|split]].
  - intros s [i Hi]%index_of_is_Some.
    pose proof (index_of_Some _ _ _ Hi) as (? & ? & ?).
    exists i. unfold label_ids. csimpl. rewrite Hi. done.
  - intros l1 s l2 Hs. unfold dropTip. cbn [resolve_tip].
    rewrite !label_ids_app.
    replace (s :: l2) with ([s] ++ l2) by done.
    by rewrite label_ids_app, (label_ids_none phy [s]) by
      (by intros s' ->%list_elem_of_singleton).
  - intros l e. by eapply dropTip_never_throws_on_labels.
  - intros l Hex rest. unfold dropTip.
    destruct (dropTip_default_rooted phy rs rooted He) as [b ->].
    cbn [resolve_tip]. fold Ntip.
    rewrite (decide_False (P := filter (λ t, Ntip < t) l = [])).
    2:{ intros Hnil. apply Exists_exists in Hex as (t & Ht & Hlt).
        by eapply (filter_nil_not_elem_of _ _ _ Hnil Hlt). }
    rewrite (decide_True (P := filter (λ t, Ntip < t) rest = [])).
    2:{ apply filter_none, Forall_forall.
        intros t [? _]%list_elem_of_filter. lia. }
    fold rest. repeat case_decide; try done;
      repeat (destruct (_ && _); try done).
    all: by destruct (find_child_row _ _) as [[?|]| |].
Qed.
End DropTipFacts.

(** ** unrootPhylo *)

Lemma bump_get (T u v x : Z) (dgr : list Z) :
  1 ≤ v ≤ T → zget dgr (v - 1) = Some x →
  zget (if decide (1 ≤ u ∧ u ≤ T)
        then zset dgr (u - 1) (default 0 (zget dgr (u - 1)) + 1)
        else dgr) (v - 1)
  = Some (x + if decide (u = v) then 1 else 0).
Proof.
  intros Hv Hx. pose proof (proj1 (zget_Some _ _ _) Hx) as [_ Hl%lookup_lt_Some].
  destruct (decide (u = v)) as [->|Hu].
  - rewrite decide_True by done. rewrite zget_zset_eq by lia. by rewrite Hx.
  - case_decide; [rewrite zget_zset_ne by lia|]; rewrite Hx; f_equal; lia.
Qed.

Lemma degrees_spec (T : Z) (rs : list (Z * Z)) (dgr : list Z) :
  length (degrees T rs dgr) = length dgr ∧
  ∀ v, 1 ≤ v ≤ T → v ≤ Z.of_nat (length dgr) →
       zget (degrees T rs dgr) (v - 1)
       = Some (default 0 (zget dgr (v - 1))
               + occurrences v rs.*1 + occurrences v rs.*2).
Proof.
  unfold degrees. revert dgr. induction rs as [|[p c] rs IH]; intros dgr; csimpl.
  - split; [done|]. intros v Hv Hl.
    destruct (zget_lt dgr (v - 1)) as [x ->]; [lia..|].
    rewrite !occurrences_nil. simpl. f_equal. lia.
  - match goal with |- context [foldl ?f ?d rs] => set (d' := d) end.
    assert (length d' = length dgr) as Hd'.
    { unfold d'. repeat case_decide; by rewrite ?length_zset. }
    destruct (IH d') as [Hlen Hget]. rewrite Hd' in Hlen, Hget.
    split; [done|]. intros v Hv Hl. rewrite (Hget v Hv Hl).
    rewrite !occurrences_cons. f_equal.
    destruct (zget_lt dgr (v - 1)) as [x Hx]; [lia..|].
    unfold d'. rewrite (bump_get T c v _ _ Hv (bump_get T p v x dgr Hv Hx)).
    rewrite Hx. simpl. lia.
Qed.

Lemma forallb_false_elem {A} (f : A → bool) (l : list A) (x : A) :
  x ∈ l → f x = false → forallb f l = false.
Proof.
  intros Hin Hf. destruct (forallb f l) eqn:E; [|done].
  rewrite forallb_forall in E. rewrite <- Hf. symmetry. apply E.
  by apply list_elem_of_In.
Qed.

Lemma isRooted_false {len} (phy : Phylo len) (n : Z) :
  isRooted phy (Some n) = Ok false →
  rootEdge phy = None ∧
  ∃ rs, edge phy = Some <$> rs ∧ 2 < occurrences (n + 1) rs.*1.
Proof.
  unfold isRooted. destruct (rootEdge phy); [done|].
  destruct (rows (edge phy)) as [rs| |] eqn:Hr; [|done..]. csimpl.
  rewrite parent_counts_spec. intros [= Hb%bool_decide_eq_false].
  split; [done|]. exists rs. split; [by apply rows_Ok | lia].
Qed.

Lemma occurrences_le_length v l : occurrences v l ≤ Z.of_nat (length l).
Proof. unfold occurrences. pose proof (length_filter (λ x, x = v) l). lia. Qed.

(** [C7]  [unrootPhylo] throws on a tree with fewer than three edges
    (DegenerateTreeError), throws on a tree none of whose nodes has degree
    three or more (ConstantDegreeError once the tree has three edges), and
    returns the tree it was given when that tree is not rooted. *)
Theorem unrootPhylo_checks {len} (phy : Phylo len) (rs : list (Z * Z))
    (n : Z) (keepRootEdge : bool) :
  edge phy = Some <$> rs →
  ((length rs < 3)%nat →
     ∀ collapseFirst, ∃ e,
       unrootPhylo phy (Some n) collapseFirst keepRootEdge = UThrows e ∧
       (collapseFirst = false → e = err_too_few_edges))
  ∧ ((∀ v, occurrences v rs.*1 + occurrences v rs.*2 < 3) →
     ∀ collapseFirst, ∃ e,
       unrootPhylo phy (Some n) collapseFirst keepRootEdge = UThrows e ∧
       (collapseFirst = false → (3 ≤ length rs)%nat → 0 ≤ n + Nnode phy →
        e = err_all_singleton))
  ∧ (0 ≤ n → 1 ≤ Nnode phy → isRooted phy (Some n) = Ok false →
     unrootPhylo phy (Some n) false keepRootEdge = UReturns phy).
Proof.
  intros He.
  assert (length (edge phy) = length rs) as Hlen by (by rewrite He, length_fmap).
  split; [|split].
  - intros HN [|]; [by eexists|]. eexists. split; [|done].
    unfold unrootPhylo. rewrite Hlen, decide_True by lia. done.
  - intros Hdeg [|]; [by eexists|]. unfold unrootPhylo. rewrite Hlen.
    case_decide; [eexists; split; [done | intros; lia]|].
    cbn [fmap option_fmap option_map new_array].
    case_decide; [eexists; split; [done | intros; lia]|].
    rewrite He, rows_Some. csimpl.
    eexists. split; [|done].
    rewrite (proj2 (forallb_forall _ _)); [done|].
    intros x [k Hk]%list_elem_of_In%list_elem_of_lookup. apply bool_decide_eq_true_2.
    pose proof (degrees_spec (n + Nnode phy) rs
                  (replicate (Z.to_nat (n + Nnode phy)) 0)) as [Hl Hg].
    rewrite length_replicate in Hl, Hg.
    pose proof (lookup_lt_Some _ _ _ Hk) as Hlt. rewrite Hl in Hlt.
    specialize (Hg (Z.of_nat k + 1) ltac:(lia) ltac:(lia)).
    replace (Z.of_nat k + 1 - 1) with (Z.of_nat k) in Hg by lia.
    rewrite !zget_of_nat, Hk, lookup_replicate_2 in Hg by lia.
    simpl in Hg. injection Hg as ->. specialize (Hdeg (Z.of_nat k + 1)). lia.
  - intros Hn HNnode Hroot.
    pose proof (isRooted_false phy n Hroot) as (Hre & rs' & He' & Hocc).
    assert (rs' = rs) as ->.
    { rewrite He in He'. by apply (inj (fmap Some)) in He'. }
    pose proof (occurrences_le_length (n + 1) rs.*1) as Hle.
    rewrite length_fmap in Hle.
    unfold unrootPhylo. rewrite Hlen, decide_False by lia.
    cbn [fmap option_fmap option_map new_array]. rewrite decide_False by lia.
    rewrite He, rows_Some. csimpl.
    pose proof (degrees_spec (n + Nnode phy) rs
                  (replicate (Z.to_nat (n + Nnode phy)) 0)) as [Hl Hg].
    rewrite length_replicate in Hl, Hg.
    specialize (Hg (n + 1) ltac:(lia) ltac:(lia)).
    rewrite zget_replicate in Hg by lia. simpl in Hg.
    apply zget_Some in Hg as [_ Hg%list_elem_of_lookup_2].
    rewrite (forallb_false_elem _ _ _ Hg).
    2:{ apply bool_decide_eq_false_2. pose proof (occurrences_nonneg (n + 1) rs.*2). lia. }
    rewrite Hre.
    assert (mkPhylo (Some <$> rs) (edgeLength phy) (tipLabel phy) (nodeLabel phy)
                    (Nnode phy) None (order phy) = phy) as ->.
    { destruct phy; simpl in *; by subst. }
    by rewrite Hroot.
Qed.

(** ** propPart *)

Lemma reorder_noop {len} (undef : len) (t : Phylo len) (ord : Order) :
  order t = Some ord ∨ Nnode t = 1 ∨ (length (tipLabel t) < 2)%nat →
  reorder undef t ord = Ok t.
Proof.
  intros H. unfold reorder, _reorder_ape.
  repeat case_decide; try done. exfalso. destruct H as [?|[?|?]]; [done..|lia].
Qed.

Lemma map_result_id {A} (f : A → result A) (l : list A) :
  Forall (λ x, f x = Ok x) l → map_result f l = Ok l.
Proof.
  induction 1 as [|x l Hx _ IH]; [done|]. csimpl. by rewrite Hx, IH.
Qed.

Lemma add_to_clade_fold (nTips m : Z) (rs : list (Z * Z)) (out : list (list Z)) :
  Z.of_nat (length out) = m - nTips →
  (∀ p c, (p, c) ∈ rs → nTips < p ≤ m ∧ (nTips < c → c ≤ m)) →
  ∃ out', foldl (add_to_clade nTips) (Ok out) rs = Ok out' ∧
          length out' = length out.
Proof.
  revert out. induction rs as [|[p c] rs IH]; intros out Hlen Hwf; csimpl.
  - by exists out.
  - destruct (Hwf p c ltac:(by left)) as [Hp Hc].
    destruct (zget_lt out (p - nTips - 1)) as [outj Hj]; [lia..|].
    rewrite Hj. case_decide as Hi.
    + destruct (zget_lt out (c - nTips - 1)) as [y Hy]; [lia..|].
      rewrite Hy. destruct (IH (zset out (p - nTips - 1) (outj ++ y))) as (out' & -> & Hl).
      * by rewrite length_zset.
      * intros p' c' Hin. apply Hwf. by right.
      * exists out'. by rewrite Hl, length_zset.
    + destruct (IH (zset out (p - nTips - 1) (outj ++ [c]))) as (out' & -> & Hl).
      * by rewrite length_zset.
      * intros p' c' Hin. apply Hwf. by right.
      * exists out'. by rewrite Hl, length_zset.
Qed.

Lemma bipartition2_total (nTips : Z) (rs : list (Z * Z)) :
  sweepable nTips rs →
  ∃ bp, bipartition2 (Some <$> rs) nTips = Ok bp ∧ (0 < length bp)%nat.
Proof.
  intros [Hne Hwf]. unfold bipartition2. rewrite rows_Some. csimpl.
  assert (rs.*1 ≠ []) as Hne1 by (by destruct rs).
  destruct (js_max_is_Some _ Hne1) as [m Hm]. rewrite Hm.
  destruct (js_max_spec _ _ Hm) as [Hin Hmax].
  assert (nTips < m) as Hlt.
  { apply list_elem_of_fmap in Hin as ([p c] & -> & Hin). by apply (Hwf p c). }
  cbn [fmap option_fmap option_map new_array]. rewrite decide_False by lia. csimpl.
  destruct (add_to_clade_fold nTips m rs (replicate (Z.to_nat (m - nTips)) []))
    as (out & -> & Hl).
  - rewrite length_replicate. lia.
  - intros p c Hpc. destruct (Hwf p c Hpc) as [Hp Hc].
    assert (p ≤ m).
    { apply Hmax, list_elem_of_fmap. by exists (p, c). }
    split; [lia|]. intros Hi. by apply Hmax, Hc.
  - csimpl. eexists. split; [done|].
    rewrite length_fmap, Hl, length_replicate. lia.
Qed.

Section Registry.
Variable distinct : Prop.

Lemma count_ok_mono t pre c' a c :
  count_ok distinct t pre a c → count_ok distinct t (pre ++ [c']) a c.
Proof.
  intros [H1 H2]. split; [done|]. intros Hd. specialize (H2 Hd).
  repeat case_decide; try lia. exfalso. set_solver.
Qed.

Lemma count_ok_next t pre a c : count_ok distinct t pre a c → count_ok distinct (t + 1) [] a c.
Proof.
  intros [H1 H2]. split; [done|]. intros Hd. specialize (H2 Hd).
  rewrite decide_False by set_solver. case_decide; lia.
Qed.

Lemma bump_first_ok t pre c ans no :
  0 ≤ t → (distinct → c ∉ pre) →
  Forall2 (count_ok distinct t pre) ans no →
  match bump_first c ans no with
  | Some no' => Forall2 (count_ok distinct t (pre ++ [c])) ans no'
  | None => Forall2 (count_ok distinct t (pre ++ [c])) (ans ++ [c]) (no ++ [1])
  end.
Proof.
  intros Ht Hc. induction 1 as [|a k ans no Hak Hrest IH]; csimpl.
  - constructor; [|done]. split; [done|]. intros _.
    rewrite decide_True by set_solver. lia.
  - case_decide as Hca.
    + subst a. constructor.
      * destruct Hak as [H1 H2]. split; [lia|]. intros Hd.
        specialize (H2 Hd). rewrite decide_False in H2 by auto.
        rewrite decide_True by set_solver. lia.
      * eapply Forall2_impl; [done|]. intros. by apply count_ok_mono.
    + destruct (bump_first c ans no); csimpl;
        (constructor; [by apply count_ok_mono | done]).
Qed.

Lemma register_clade_ok t pre c a0 n0 ans no :
  0 ≤ t → (distinct → c ∉ pre) →
  Forall2 (count_ok distinct t pre) ans no →
  ∃ ans' no', register_clade (a0 :: ans, n0 :: no) c = (a0 :: ans', n0 :: no') ∧
              Forall2 (count_ok distinct t (pre ++ [c])) ans' no'.
Proof.
  intros Ht Hc Hok. pose proof (bump_first_ok t pre c ans no Ht Hc Hok) as H.
  unfold register_clade. rewrite !skipn_cons, !drop_0, firstn_cons, take_0.
  destruct (bump_first c ans no) as [no'|]; by eexists _, _.
Qed.

Lemma register_clades_ok t pre bp a0 n0 ans no :
  0 ≤ t → (distinct → NoDup (pre ++ bp)) →
  Forall2 (count_ok distinct t pre) ans no →
  ∃ ans' no', foldl register_clade (a0 :: ans, n0 :: no) bp = (a0 :: ans', n0 :: no') ∧
              Forall2 (count_ok distinct (t + 1) []) ans' no'.
Proof.
  intros Ht. revert pre ans no. induction bp as [|c bp IH]; intros pre ans no Hnd Hok.
  - exists ans, no. split; [done|].
    eapply Forall2_impl; [done|]. intros. by eapply count_ok_next.
  - destruct (register_clade_ok t pre c a0 n0 ans no Ht) as (ans1 & no1 & Heq & Hok1);
      [|done|].
    { intros Hd. specialize (Hnd Hd). apply NoDup_app in Hnd as (_ & Hdisj & _).
      intros Hin. apply (Hdisj c Hin). by left. }
    cbn [foldl]. rewrite Heq. apply (IH (pre ++ [c])); [|done].
    intros Hd. rewrite <- app_assoc. by apply Hnd.
Qed.
End Registry.

Lemma propPart2_fold {len} (distinct : Prop) (nTips : Z) (a0 : list Z) (n0 : Z)
    (rest : list (Phylo len)) (t : Z) (ans : list (list Z)) (no : list Z) :
  0 ≤ t →
  Forall (λ tr, ∃ rs, edge tr = Some <$> rs ∧ sweepable nTips rs) rest →
  Forall (λ tr, ∀ bp, bipartition2 (edge tr) nTips = Ok bp →
                      distinct → NoDup (drop 1 bp)) rest →
  Forall2 (count_ok distinct t []) ans no →
  ∃ ans' no',
    foldl (λ acc tmpTree,
             st ← acc;
             bp ← bipartition2 (edge tmpTree) nTips;
             Ok (foldl register_clade st (drop 1 bp)))
          (Ok (a0 :: ans, n0 :: no)) rest
    = Ok (a0 :: ans', n0 :: no') ∧
    Forall2 (count_ok distinct (t + Z.of_nat (length rest)) []) ans' no'.
Proof.
  intros Ht Hwf. revert t ans no Ht.
  induction Hwf as [|tr rest (rs & He & Hsw) _ IH]; intros t ans no Ht Hnd Hok.
  - exists ans, no. split; [done|]. by rewrite Z.add_0_r.
  - apply Forall_cons in Hnd as [Hnd1 Hnd].
    destruct (bipartition2_total nTips rs Hsw) as (bp & Hbp & _).
    rewrite <- He in Hbp. cbn [foldl]. csimpl. rewrite Hbp. csimpl.
    destruct (register_clades_ok distinct t [] (drop 1 bp) a0 n0 ans no Ht)
      as (ans1 & no1 & Hr & Hok1); [intros Hd; by apply Hnd1 | done |].
    rewrite Hr.
    destruct (IH (t + 1) ans1 no1) as (ans2 & no2 & Hr2 & Hok2); [lia|done..|].
    exists ans2, no2. split; [done|].
    by replace (t + Z.of_nat (S (length rest)))
      with (t + 1 + Z.of_nat (length rest)) by lia.
Qed.

(** [C6], amended  Over [k] trees that [reorder] leaves in their order and
    [bipartition2] can sweep, [propPart] returns one count per clade; the
    count of clade 0 is [k]; every other count is at least 1, and at most
    [k] when no tree after the first yields the same clade twice. *)
Theorem propPart_counts {len} (undef : len) (trees : list (Phylo len)) (t0 : Phylo len) :
  head trees = Some t0 →
  let k := Z.of_nat (length trees) in
  let nTips := Z.of_nat (length (tipLabel t0)) in
  Forall postorder_kept trees →
  Forall (λ tr, ∃ rs, edge tr = Some <$> rs ∧ sweepable nTips rs) trees →
  ∃ res, propPart undef trees = Ok res ∧
         length (number res) = length (partitions res) ∧
         number res !! 0%nat = Some k ∧
         ∀ j c, (1 ≤ j)%nat → number res !! j = Some c →
                1 ≤ c ∧ (clades_distinct nTips trees → c ≤ k).
Proof.
  intros Hhd k nTips Hkept Hwf.
  destruct trees as [|M rest]; [done|]. injection Hhd as ->.
  unfold propPart. rewrite map_result_id.
  2:{ eapply Forall_impl; [done|]. intros tr Htr. by apply reorder_noop. }
  cbn [mbind result_mbind result_bind]. fold nTips. unfold propPart2.
  apply Forall_cons in Hwf as [(rs & He & Hsw) Hwf].
  destruct (bipartition2_total nTips rs Hsw) as ([|a0 ans] & Hbp & Hpos);
    [simpl in Hpos; lia|].
  rewrite <- He in Hbp. rewrite Hbp. csimpl.
  unfold zset at 1. rewrite decide_True by done.
  change (Z.to_nat 0) with 0%nat. simpl (<[_:=_]> _).
  change (Z.of_nat (S (length rest))) with k.
  destruct (propPart2_fold (clades_distinct nTips (t0 :: rest)) nTips a0 k rest 1
              ans ((λ _, 1) <$> ans)) as (ans' & no' & Hfold & Hok); [lia|done| |..].
  - apply Forall_forall. intros tr Hin bp' Hbp' Hd.
    unfold clades_distinct in Hd. rewrite skipn_cons, drop_0, Forall_forall in Hd.
    by apply (Hd tr Hin).
  - apply Forall2_fmap_r, Forall_Forall2_diag, Forall_forall. intros a _.
    split; [done|]. intros _. rewrite decide_False by set_solver. lia.
  - fold k in Hfold. rewrite Hfold. csimpl. eexists. split; [done|]. cbn.
    split; [by rewrite (Forall2_length _ _ _ Hok)|]. split; [done|].
    intros [|j] c Hj Hc; [lia|]. cbn in Hc.
    destruct (Forall2_lookup_r _ _ _ _ _ Hok Hc) as (a & _ & [H1 H2]).
    split; [done|]. intros Hd. specialize (H2 Hd).
    rewrite decide_False in H2 by set_solver.
    replace k with (1 + Z.of_nat (length rest)) by (unfold k; simpl; lia). lia.
Qed.

(** ** The invariants of the data model *)

Lemma tree_ABC_valid :
  valid_tree tree_ABC [(4, 1); (4, 5); (5, 2); (5, 3)].
Proof.
  split.
  - done.
  - done.
  - exists (λ v : Z, if decide (v = 4) then 0%nat
                     else if decide (v = 1 ∨ v = 5) then 1%nat else 2%nat).
    split; [done|]. intros p c Hin.
    repeat (apply elem_of_cons in Hin as [[= -> ->]|Hin]; [done|]).
    by apply elem_of_nil in Hin.
  - intros v Hv Hne. cbn in Hv, Hne.
    assert (v = 1 ∨ v = 2 ∨ v = 3 ∨ v = 5) as [->|[->|[->| ->]]] by lia; done.
  - intros c Hin. cbn in *.
    repeat (apply elem_of_cons in Hin as [->|Hin]; [lia|]).
    by apply elem_of_nil in Hin.
  - cbn. intros Hin.
    repeat (apply elem_of_cons in Hin as [?|Hin]; [lia|]).
    by apply elem_of_nil in Hin.
  - intros p Hin. cbn in *.
    repeat (apply elem_of_cons in Hin as [->|Hin]; [lia|]).
    by apply elem_of_nil in Hin.
  - intros v Hv. cbn in *. assert (v = 4 ∨ v = 5) as [-> | ->] by lia; set_solver.
  - by intros el [= <-].
Qed.

(** ** reorder to postorder *)

(** [C1], at the failing input  On the valid tree [(A,(B,C));] the
    cladewise order of [reorderRcpp] is a permutation of the edge indices,
    but its postorder is [[3; 4; 1; 2]]: every index is one too large
    ([bar_reorderRcpp] stores [L[..] + 1]).  [reorder] then reads row 4,
    which does not exist, and never reads row 0: the result is no
    permutation of the edges. *)
Theorem reorder_postorder_not_a_permutation :
  reorderRcpp (edge tree_ABC) 3 4 1 = Ok [0; 1; 2; 3] ∧
  reorderRcpp (edge tree_ABC) 3 4 2 = Ok [3; 4; 1; 2] ∧
  ∃ t', reorder Undefined tree_ABC Postorder = Ok t' ∧
        edge t' = [Some (5, 3); None; Some (4, 5); Some (5, 2)] ∧
        edgeLength t' = Some [Num 3; Undefined; Num 4; Num 2] ∧
        ¬ edge t' ≡ₚ edge tree_ABC.
Proof.
  split; [by vm_compute|]. split; [by vm_compute|].
  eexists. split; [by vm_compute|]. split; [done|]. split; [done|].
  cbn. intros Hp.
  assert (Some (4, 1) ∈ [Some (5, 3); None; Some (4, 5); Some (5, 2)]) as Hin
    by (rewrite Hp; by left).
  repeat (apply elem_of_cons in Hin as [[=]|Hin]). by apply elem_of_nil in Hin.
Qed.

(** [C2], at the failing input  [reorder] to postorder takes the valid tree
    [(A,(B,C));] to a tree that breaks the invariants: one row of its edge
    matrix is [undefined]. *)
Theorem reorder_postorder_breaks_invariants :
  valid_tree tree_ABC [(4, 1); (4, 5); (5, 2); (5, 3)] ∧
  ∃ t', reorder Undefined tree_ABC Postorder = Ok t' ∧
        ∀ rs, ¬ valid_tree t' rs.
Proof.
  split; [apply tree_ABC_valid|].
  eexists. split; [by vm_compute|].
  intros rs [Hrows _ _ _ _ _ _ _ _]. cbn in Hrows.
  assert (None ∈ Some <$> rs) as Hin by (rewrite <- Hrows; set_solver).
  apply list_elem_of_fmap in Hin as (? & [=] & _).
Qed.

(** ** reorder, cladewise: the groups of the counting sort *)

Section CountingSort.
Variables (nTips nnode : Z) (e1 : list Z).
Hypothesis parents_internal : ∀ p, p ∈ e1 → nTips < p ≤ nTips + nnode.

(** The groups grow with the edges read, one index at a time. *)
Lemma group_upto_S (i : nat) (v : Z) :
  group_upto e1 (S i) v
  = group_upto e1 i v ++ (if decide (e1 !! i = Some v) then [Z.of_nat i] else []).
Proof.
  unfold group_upto. rewrite seqZ_S, filter_app, Z.add_0_l. f_equal.
  rewrite filter_cons, filter_nil, zget_of_nat. done.
Qed.

Lemma group_upto_all (v : Z) : group_upto e1 (length e1) v = group e1 v.
Proof. done. Qed.

Lemma group_upto_length (i : nat) (v : Z) :
  Z.of_nat (length (group_upto e1 i v)) = occurrences v (take i e1).
Proof.
  induction i as [|i IH]; [done|]. rewrite group_upto_S, length_app, Nat2Z.inj_add, IH.
  destruct (e1 !! i) as [p|] eqn:Hp.
  - rewrite (take_S_r _ _ _ Hp), occurrences_app, occurrences_cons, occurrences_nil.
    repeat case_decide; simplify_eq; simpl; lia.
  - rewrite decide_False by done. apply lookup_ge_None in Hp.
    rewrite !take_ge by lia. simpl. lia.
Qed.

Lemma group_length (v : Z) :
  Z.of_nat (length (group e1 v)) = occurrences v e1.
Proof. by rewrite <- group_upto_all, group_upto_length, firstn_all. Qed.

Lemma group_upto_le (i : nat) (v : Z) :
  occurrences v (take i e1) ≤ occurrences v e1.
Proof.
  rewrite <- (take_drop i e1) at 2. rewrite occurrences_app.
  pose proof (occurrences_nonneg v (drop i e1)). lia.
Qed.

Lemma group_upto_lt (i : nat) (v : Z) :
  e1 !! i = Some v → occurrences v (take i e1) < occurrences v e1.
Proof.
  intros Hi. rewrite <- (take_drop_middle _ _ _ Hi) at 2.
  rewrite occurrences_app, occurrences_cons, decide_True by done.
  pose proof (occurrences_nonneg v (drop (S i) e1)). lia.
Qed.

Lemma offset_0 : offset nTips e1 0 = 0.
Proof.
  unfold offset. rewrite filter_none; [done|].
  apply Forall_forall. intros p Hp%parents_internal. lia.
Qed.

Lemma offset_succ (k : Z) :
  offset nTips e1 (k + 1) = offset nTips e1 k + occurrences (k + nTips + 1) e1.
Proof.
  unfold offset, occurrences. clear parents_internal.
  induction e1 as [|p l IH]; [done|].
  rewrite !filter_cons. repeat case_decide; simpl; lia.
Qed.

Lemma offset_mono (k k' : Z) : k ≤ k' → offset nTips e1 k ≤ offset nTips e1 k'.
Proof.
  intros Hk. unfold offset. clear parents_internal.
  induction e1 as [|p l IH]; [done|].
  rewrite !filter_cons. repeat case_decide; simpl; lia.
Qed.

Lemma offset_le_length (k : Z) : offset nTips e1 k ≤ Z.of_nat (length e1).
Proof. unfold offset. pose proof (length_filter (λ p, p - nTips - 1 < k) e1). lia. Qed.

(** [xj]: the sizes of the groups. *)
Lemma count_groups_spec :
  let xj := Rcpp.count_groups nTips e1 (replicate (Z.to_nat nnode) 0) in
  length xj = Z.to_nat nnode ∧
  ∀ k, 0 ≤ k < nnode → zget xj k = Some (occurrences (k + nTips + 1) e1).
Proof.
  intros xj. unfold xj, Rcpp.count_groups.
  rewrite <- (foldl_fmap (λ (xj : list Z) idx,
                           zset xj idx (default 0 (zget xj idx) + 1))
                        _ e1 (λ p, p - nTips - 1)).
  destruct (count_fold_spec ((λ p, p - nTips - 1) <$> e1)
              (replicate (Z.to_nat nnode) 0)) as [Hl Hg].
  rewrite length_replicate in Hl, Hg. split; [done|].
  intros k Hk. rewrite Hg by lia. rewrite zget_replicate by lia. f_equal.
  simpl. unfold occurrences. f_equal. clear.
  induction e1 as [|p l IH]; [done|]. csimpl.
  rewrite !filter_cons. repeat case_decide; simpl; lia.
Qed.

(** [xi]: where each group starts. *)
Lemma group_offsets_spec (xj : list Z) :
  (∀ k, 0 ≤ k < nnode → zget xj k = Some (occurrences (k + nTips + 1) e1)) →
  let xi := Rcpp.group_offsets xj (replicate (Z.to_nat nnode) 0) in
  length xi = Z.to_nat nnode ∧
  ∀ k, 0 ≤ k < nnode → zget xi k = Some (offset nTips e1 k).
Proof.
  intros Hxj xi. unfold xi, Rcpp.group_offsets. rewrite length_replicate.
  set (f := λ (xi : list Z) i,
              zset xi i (default 0 (zget xi (i - 1)) + default 0 (zget xj (i - 1)))).
  assert (∀ t : nat, Z.of_nat t ≤ nnode - 1 ∨ t = 0%nat →
            let xi := foldl f (replicate (Z.to_nat nnode) 0) (seqZ 1 (Z.of_nat t)) in
            length xi = Z.to_nat nnode ∧
            ∀ k, 0 ≤ k ≤ Z.of_nat t → k < nnode → zget xi k = Some (offset nTips e1 k)) as H.
  { induction t as [|t IH]; intros Ht.
    - simpl. rewrite length_replicate. split; [done|]. intros k Hk Hn.
      assert (k = 0) as -> by lia. rewrite zget_replicate by lia.
      by rewrite offset_0.
    - destruct IH as [Hl Hg]; [lia|].
      cbn zeta in *. rewrite seqZ_S, foldl_snoc.
      set (xi_t := foldl f _ (seqZ 1 (Z.of_nat t))) in *.
      unfold f. rewrite length_zset.
      split; [done|]. intros k Hk Hn. rewrite zget_zset.
      replace (1 + Z.of_nat t - 1) with (Z.of_nat t) by lia.
      case_decide as Hd.
      + destruct Hd as [<- _]. rewrite Hg, Hxj by lia. simpl. f_equal.
        replace (1 + Z.of_nat t) with (Z.of_nat t + 1) by lia.
        by rewrite offset_succ.
      + apply Hg; [|done]. rewrite Hl in Hd. lia. }
  destruct (decide (nnode ≤ 0)) as [Hn|Hn].
  - rewrite seqZ_nil by lia. simpl. rewrite length_replicate. split; [done|]. lia.
  - destruct (H (Z.to_nat (nnode - 1))) as [Hl Hg]; [lia|].
    rewrite Z2Nat.id in Hl, Hg by lia. rewrite (Z2Nat.id nnode) by lia.
    split; [done|]. intros k Hk. apply Hg; lia.
Qed.

(** [L]: the groups, one after the other. *)
Lemma fill_groups_spec (xi : list Z) :
  length xi = Z.to_nat nnode →
  (∀ k, 0 ≤ k < nnode → zget xi k = Some (offset nTips e1 k)) →
  let L := (Rcpp.fill_groups nTips e1 xi
              (replicate (length e1) 0, replicate (Z.to_nat nnode) 0)).1 in
  ∀ k (j : nat) x, 0 ≤ k < nnode →
    group e1 (k + nTips + 1) !! j = Some x →
    zget L (offset nTips e1 k + Z.of_nat j) = Some x.
Proof.
  intros Hlxi Hxi L. unfold L, Rcpp.fill_groups.
  set (f := λ '(L, pos) i,
     let k := default 0 (zget e1 i) - nTips - 1 in
     match zget pos k with
     | Some j => (zset L (default 0 (zget xi k) + j) i, zset pos k (j + 1))
     | None => (L, pos)
     end).
  assert (∀ i : nat, (i ≤ length e1)%nat →
            let st := foldl f (replicate (length e1) 0, replicate (Z.to_nat nnode) 0)
                            (seqZ 0 (Z.of_nat i)) in
            length st.1 = length e1 ∧ length st.2 = Z.to_nat nnode ∧
            (∀ k, 0 ≤ k < nnode →
               zget st.2 k = Some (Z.of_nat (length (group_upto e1 i (k + nTips + 1))))) ∧
            (∀ k (j : nat) x, 0 ≤ k < nnode →
               group_upto e1 i (k + nTips + 1) !! j = Some x →
               zget st.1 (offset nTips e1 k + Z.of_nat j) = Some x)) as H.
  { induction i as [|i IH]; intros Hi.
    - simpl. rewrite !length_replicate. split; [done|]. split; [done|]. split.
      + intros k Hk. by rewrite zget_replicate by lia.
      + intros k j x Hk Hl. done.
    - destruct IH as (HlL & Hlpos & Hpos & HL); [lia|].
      cbn zeta in *. rewrite seqZ_S, foldl_snoc, Z.add_0_l.
      destruct (foldl f _ (seqZ 0 (Z.of_nat i))) as [L' pos'].
      cbn [fst snd] in *. unfold f. cbn zeta. cbn beta iota.
      destruct (lookup_lt_is_Some_2 e1 i ltac:(lia)) as [p Hp].
      rewrite zget_of_nat, Hp. change (default 0 (Some p)) with p.
      pose proof (parents_internal p ltac:(by eapply list_elem_of_lookup_2)) as Hpi.
      set (k0 := p - nTips - 1).
      assert (k0 + nTips + 1 = p) as Hk0 by (unfold k0; lia).
      rewrite (Hpos k0), (Hxi k0) by (unfold k0; lia). cbn [default fst snd].
      unfold id.
      rewrite !length_zset. split; [done|]. split; [done|].
      rewrite Hk0 in *.
      pose proof (group_upto_lt i p Hp) as Hlt.
      pose proof (group_upto_length i p) as Hglen.
      pose proof (offset_succ k0) as Hsucc. rewrite Hk0 in Hsucc.
      pose proof (offset_le_length (k0 + 1)) as Hoff.
      assert (0 ≤ offset nTips e1 k0) as Hoff0 by (unfold offset; lia).
      split.
      + intros k Hk. rewrite zget_zset, group_upto_S, length_app.
        case_decide as Hd.
        * destruct Hd as [<- _]. rewrite Hk0, decide_True by done.
          f_equal. simpl. lia.
        * rewrite Hpos by done. rewrite decide_False; [f_equal; simpl; lia|].
          intros ?. simplify_eq. apply Hd. split; [unfold k0; lia|lia].
      + intros k j x Hk. rewrite group_upto_S.
        pose proof (group_upto_length i (k + nTips + 1)) as Hglen'.
        pose proof (group_upto_le i (k + nTips + 1)) as Hgle.
        pose proof (offset_succ k) as Hsucc'.
        intros Hl. apply lookup_app_Some in Hl as [Hl|[Hge Hl]].
        * rewrite zget_zset_ne; [by apply HL|].
          apply lookup_lt_Some in Hl.
          destruct (Z.lt_trichotomy k k0) as [?|[->|?]].
          -- pose proof (offset_mono (k + 1) k0 ltac:(lia)). lia.
          -- rewrite Hk0 in *. lia.
          -- pose proof (offset_mono (k0 + 1) k ltac:(lia)). lia.
        * case_decide as Hd; [|done]. simplify_eq.
          apply list_lookup_singleton_Some in Hl as [Hj ->].
          assert (k = k0) as -> by (unfold k0; lia).
          replace (Z.of_nat j) with (Z.of_nat (length (group_upto e1 i (k0 + nTips + 1))))
            by lia.
          rewrite Hk0. rewrite zget_zset_eq; [done|lia|]. rewrite HlL. lia. }
  destruct (H (length e1) ltac:(lia)) as (_ & _ & _ & HL).
  intros k j x Hk Hl. by apply HL.
Qed.
End CountingSort.

Lemma group_nil (e1 : list Z) (v : Z) : v ∉ e1 → group e1 v = [].
Proof.
  intros Hv. apply filter_none, Forall_forall. intros i _ Hi.
  apply zget_Some in Hi as [_ Hi]. apply Hv. by eapply list_elem_of_lookup_2.
Qed.

(** The arrays that [reorderRcpp] builds hold the groups. *)
Lemma bucket_group (nTips nnode : Z) (e1 : list Z) :
  (∀ p, p ∈ e1 → nTips < p ≤ nTips + nnode) → 0 ≤ nnode →
  let xj := Rcpp.count_groups nTips e1 (replicate (Z.to_nat nnode) 0) in
  let xi := Rcpp.group_offsets xj (replicate (Z.to_nat nnode) 0) in
  let L := (Rcpp.fill_groups nTips e1 xi
              (replicate (length e1) 0, replicate (Z.to_nat nnode) 0)).1 in
  ∀ node, bucket nTips L xi xj node = group e1 node.
Proof.
  intros Hpar Hn xj xi L node.
  destruct (count_groups_spec nTips nnode e1) as [Hlxj Hxj]. fold xj in Hlxj, Hxj.
  destruct (group_offsets_spec nTips nnode e1 Hpar xj Hxj) as [Hlxi Hxi].
  fold xi in Hlxi, Hxi.
  pose proof (fill_groups_spec nTips nnode e1 Hpar xi Hlxi Hxi) as HL.
  fold L in HL. unfold bucket.
  set (k := node - nTips - 1).
  destruct (decide (0 ≤ k < nnode)) as [Hk|Hk].
  - replace node with (k + nTips + 1) by (unfold k; lia).
    rewrite Hxj, Hxi by done. cbn [default from_option]. unfold id.
    pose proof (group_length e1 (k + nTips + 1)) as Hlen.
    apply list_eq. intros j. rewrite list_lookup_fmap.
    destruct (group e1 (k + nTips + 1) !! j) as [x|] eqn:Hj.
    + pose proof (lookup_lt_Some _ _ _ Hj).
      rewrite lookup_seqZ_lt by lia. cbn [fmap option_fmap option_map].
      rewrite Z.add_0_l, (HL k j x) by done. done.
    + apply lookup_ge_None in Hj. rewrite lookup_seqZ_ge by lia. done.
  - rewrite (proj2 (zget_None xj k)) by lia. cbn [default from_option].
    rewrite seqZ_nil by done. symmetry. apply group_nil.
    intros Hin%Hpar. unfold k in Hk. lia.
Qed.

(** ** reorder, cladewise: the walk of [foo_reorderRcpp] *)

Section Walk.
Variables (nTips : Z) (e1 e2 : list Z).

Lemma store_app s1 s2 st : store (s1 ++ s2) st = store s2 (store s1 st).
Proof. apply foldl_app. Qed.

Variables (L xi xj : list Z).
Hypothesis buckets : ∀ node, bucket nTips L xi xj node = group e1 node.

(** [foo_reorderRcpp] stores what [walk] lists, or exhausts the stack. *)
Lemma foo_walk (fuel : nat) (v : Z) (st : list Z * Z) :
  Rcpp.foo_reorderRcpp nTips e2 L xi xj fuel v st
  = match walk nTips e1 e2 fuel v with
    | Some s => Ok (store s st)
    | None => Throw RangeError
    end.
Proof.
  revert v st. induction fuel as [|fuel IH]; intros v st; [done|].
  cbn [Rcpp.foo_reorderRcpp walk].
  set (body := λ (acc : result (list Z * Z)) k,
     '(neworder, iii) ← acc;
     let st := (Rcpp.push_at neworder iii k, iii + 1) in
     match zget e2 k with
     | Some c => if decide (nTips < c)
                 then Rcpp.foo_reorderRcpp nTips e2 L xi xj fuel c st else Ok st
     | None => Ok st
     end).
  match goal with
  | |- ?lhs = _ =>
      assert (lhs = foldl body (Ok st) (bucket nTips L xi xj v)) as ->
        by (unfold bucket; by rewrite foldl_fmap)
  end.
  rewrite buckets.
  assert (∀ e g, foldl body (Throw e) g = Throw e) as Hthrow.
  { intros e g. induction g as [|k g IHg]; [done|]. apply IHg. }
  generalize (group e1 v). intros g. revert st.
  induction g as [|k g IHg]; intros st; [done|].
  cbn [foldl mapM]. unfold body at 2. destruct st as [nw iii]. csimpl.
  destruct (zget e2 k) as [c|]; [case_decide|].
  - rewrite IH. destruct (walk nTips e1 e2 fuel c) as [s|]; csimpl; [|done].
    rewrite IHg. destruct (mapM _ g) as [ss|]; csimpl; [|done].
    by rewrite store_app.
  - rewrite IHg. by destruct (mapM _ g) as [ss|].
  - rewrite IHg. by destruct (mapM _ g) as [ss|].
Qed.

Lemma store_cons k s nw iii :
  store (k :: s) (nw, iii) = store s (Rcpp.push_at nw iii k, iii + 1).
Proof. done. Qed.

Lemma push_at_inside (nw : list Z) (iii : nat) (k : Z) :
  (iii < length nw)%nat → Rcpp.push_at nw (Z.of_nat iii) k = <[iii := k]> nw.
Proof.
  intros Hl. unfold Rcpp.push_at, zset.
  by rewrite decide_False, decide_True, Nat2Z.id by lia.
Qed.

(** Stores that stay inside the array overwrite it in place. *)
Lemma store_inside (s nw : list Z) (iii : nat) :
  (iii + length s ≤ length nw)%nat →
  store s (nw, Z.of_nat iii)
  = (take iii nw ++ s ++ drop (iii + length s) nw, Z.of_nat (iii + length s)).
Proof.
  revert nw iii. induction s as [|k s IH]; intros nw iii Hl.
  - unfold store. cbn [foldl length app]. by rewrite Nat.add_0_r, take_drop.
  - cbn [length] in Hl. rewrite store_cons, push_at_inside by lia.
    replace (Z.of_nat iii + 1) with (Z.of_nat (S iii)) by lia.
    rewrite IH by (rewrite length_insert; lia).
    f_equal; [|f_equal; cbn [length]; lia].
    rewrite drop_insert_lt by lia.
    rewrite (take_S_r _ _ k) by (apply list_lookup_insert_eq; lia).
    rewrite take_insert_ge by lia. rewrite <- app_assoc. cbn [app length].
    do 4 f_equal. lia.
Qed.
End Walk.

(** ** reorder, cladewise: the walk covers the tree *)

Lemma topo_mono (seen seen' : list Z) (es : list (Z * Z)) :
  seen ⊆ seen' → topo seen es → topo seen' es.
Proof.
  revert seen seen'. induction es as [|e es IH]; intros seen seen' Hsub; [done|].
  intros [H1 H2]. split; [by apply Hsub|].
  apply (IH (e.2 :: seen)); [set_solver | done].
Qed.

Lemma topo_app (seen : list Z) (es1 es2 : list (Z * Z)) :
  topo seen es1 → topo (es1.*2 ++ seen) es2 → topo seen (es1 ++ es2).
Proof.
  revert seen. induction es1 as [|e es1 IH]; intros seen; [done|].
  intros [H1 H2] H3. split; [done|]. apply IH; [done|].
  eapply topo_mono; [|done]. set_solver.
Qed.

Lemma topo_unused (x : Z) (seen : list Z) (es : list (Z * Z)) :
  x ∉ es.*1 → topo (x :: seen) es → topo seen es.
Proof.
  revert seen. induction es as [|e es IH]; intros seen Hx; [done|].
  intros [H1 H2]. split; [set_solver|].
  apply IH; [set_solver|]. eapply topo_mono; [|done]. set_solver.
Qed.

(** In a list in this order, an edge into [c] comes before the edges out
    of [c]. *)
Lemma topo_before (seen : list Z) (es : list (Z * Z)) (i j : nat) (p c d : Z) :
  topo seen es → NoDup es.*2 → c ∉ seen →
  es !! i = Some (p, c) → es !! j = Some (c, d) → (i < j)%nat.
Proof.
  revert seen i j. induction es as [|e es IH]; intros seen i j Ht Hnd Hc Hi Hj; [done|].
  destruct Ht as [H1 H2]. csimpl in Hnd. apply NoDup_cons in Hnd as [Hne Hnd].
  destruct j as [|j].
  - simplify_eq/=. done.
  - destruct i as [|i]; [lia|]. simpl in Hi, Hj.
    assert (i < j)%nat; [|lia].
    apply (IH (e.2 :: seen) i j H2 Hnd); [|done..].
    apply not_elem_of_cons. split; [|done]. intros Heq.
    apply Hne. apply list_elem_of_fmap. exists (p, c). split; [done|].
    by eapply list_elem_of_lookup_2.
Qed.

Section TreeWalk.
Variables (nTips root : Z) (rs : list (Z * Z)) (depth : Z → nat).
Hypothesis children_once : NoDup rs.*2.
Hypothesis depth_root : depth root = 0%nat.
Hypothesis depth_child : ∀ p c, (p, c) ∈ rs → depth c = S (depth p).
Hypothesis connected : ∀ p, p ∈ rs.*1 → p = root ∨ p ∈ rs.*2.
Hypothesis parents_internal : ∀ p, p ∈ rs.*1 → nTips < p.

Lemma zget_fst (i : Z) : zget rs.*1 i = fst <$> zget rs i.
Proof. unfold zget. case_decide; [apply list_lookup_fmap | done]. Qed.

Lemma zget_snd (i : Z) : zget rs.*2 i = snd <$> zget rs i.
Proof. unfold zget. case_decide; [apply list_lookup_fmap | done]. Qed.

Lemma zget_elem_of {A} (l : list A) (i : Z) (x : A) : zget l i = Some x → x ∈ l.
Proof. intros [_ H]%zget_Some. by eapply list_elem_of_lookup_2. Qed.

Lemma elem_of_zget {A} (l : list A) (x : A) : x ∈ l → ∃ i, zget l i = Some x.
Proof.
  intros [i Hi]%list_elem_of_lookup_1. exists (Z.of_nat i). by rewrite zget_of_nat.
Qed.

Lemma same_child (i j p q c : Z) :
  zget rs i = Some (p, c) → zget rs j = Some (q, c) → i = j.
Proof.
  intros [Hi Hi']%zget_Some [Hj Hj']%zget_Some.
  assert (Z.to_nat i = Z.to_nat j); [|lia].
  eapply (NoDup_lookup _ _ _ c children_once);
    rewrite list_lookup_fmap; [by rewrite Hi' | by rewrite Hj'].
Qed.

Lemma elem_of_group (k v : Z) :
  k ∈ group rs.*1 v ↔ ∃ c, zget rs k = Some (v, c).
Proof.
  unfold group. rewrite list_elem_of_filter, zget_fst, elem_of_seqZ. split.
  - intros [Hk _]. destruct (zget rs k) as [[p c]|]; simplify_eq/=. by exists c.
  - intros [c Hc]. rewrite Hc. split; [done|].
    apply zget_Some in Hc as [? Hc%lookup_lt_Some]. rewrite length_fmap. lia.
Qed.

Lemma group_NoDup (v : Z) : NoDup (group rs.*1 v).
Proof. apply NoDup_filter, seqZ_NoDup. Qed.

(** The depth of a child is at most the number of edges: the edges up to
    the root are that many, and distinct. *)
Lemma depth_le_edges (i p c : Z) :
  zget rs i = Some (p, c) → (depth c ≤ length rs)%nat.
Proof.
  assert (∀ d i p c, zget rs i = Some (p, c) → depth c = d →
            ∃ l : list (Z * Z), NoDup l ∧ length l = d ∧
              ∀ e, e ∈ l → e ∈ rs ∧ (depth e.2 ≤ d)%nat) as H.
  { induction d as [|d IH]; intros i' p' c' Hi Hd.
    - exists []. split; [constructor|]. split; [done|]. by intros e ?%elem_of_nil.
    - pose proof (depth_child p' c' (zget_elem_of _ _ _ Hi)) as Hpc.
      assert (p' ∈ rs.*1) as Hp'.
      { apply list_elem_of_fmap. exists (p', c'). split; [done|]. by eapply zget_elem_of. }
      destruct (connected p' Hp') as [->|Hin].
      + exists [(root, c')]. split; [apply NoDup_singleton|]. split; [simpl; lia|].
        intros e ->%list_elem_of_singleton. split; [by eapply zget_elem_of|simpl; lia].
      + apply list_elem_of_fmap in Hin as ([q x] & Heq & [j Hj]%elem_of_zget).
        simpl in Heq. subst x.
        destruct (IH j q p' Hj ltac:(lia)) as (l & Hnd & Hl & Hall).
        exists ((p', c') :: l). split; [|split; [simpl; lia|]].
        * apply NoDup_cons. split; [|done]. intros [_ Hle]%Hall. simpl in Hle. lia.
        * intros e [->|He]%elem_of_cons.
          -- split; [by eapply zget_elem_of | simpl; lia].
          -- destruct (Hall e He). split; [done | lia]. }
  intros Hi. destruct (H (depth c) i p c Hi eq_refl) as (l & Hnd & <- & Hall).
  apply submseteq_length, NoDup_submseteq; [done|]. intros e He. by apply Hall.
Qed.

Lemma below_parent v i : below rs v i → v ∈ rs.*1.
Proof.
  intros [v' i' c Hi|v' k c i' Hk _];
    apply list_elem_of_fmap; eexists (_, _); split; try done; by eapply zget_elem_of.
Qed.

Lemma below_depth v i p c :
  below rs v i → zget rs i = Some (p, c) → (depth v ≤ depth p)%nat.
Proof.
  induction 1 as [v i c' Hi|v k c' i Hk _ IH]; intros Hpc.
  - by simplify_eq.
  - specialize (IH Hpc).
    pose proof (depth_child v c' (zget_elem_of _ _ _ Hk)). lia.
Qed.

Lemma below_unique v v' i :
  below rs v i → below rs v' i → depth v = depth v' → v = v'.
Proof.
  intros Hb. revert v'. induction Hb as [v i c Hi|v k c i Hk Hb IH]; intros v' Hb' Hd.
  - destruct Hb' as [v' i c' Hi'|v' k' c' i Hk' Hb']; [by simplify_eq|].
    pose proof (below_depth _ _ _ _ Hb' Hi).
    pose proof (depth_child v' c' (zget_elem_of _ _ _ Hk')). lia.
  - destruct Hb' as [v' i c' Hi'|v' k' c' i Hk' Hb'].
    + pose proof (below_depth _ _ _ _ Hb Hi').
      pose proof (depth_child v c (zget_elem_of _ _ _ Hk)). lia.
    + pose proof (depth_child v c (zget_elem_of _ _ _ Hk)).
      pose proof (depth_child v' c' (zget_elem_of _ _ _ Hk')).
      assert (c = c') as <- by (apply IH; [done | lia]).
      assert (k = k') as <- by (by eapply same_child). by simplify_eq.
Qed.

Lemma below_extend v k p c i d :
  below rs v k → zget rs k = Some (p, c) → zget rs i = Some (c, d) → below rs v i.
Proof.
  induction 1 as [v k c' Hk|v k' c' k Hk' _ IH]; intros Hpc Hi.
  - simplify_eq. eapply below_step; [done|]. by eapply below_direct.
  - eapply below_step; [done|]. by apply IH.
Qed.

(** Every edge lies below rs the root. *)
Lemma below_root i p c : zget rs i = Some (p, c) → below rs root i.
Proof.
  remember (depth p) as d eqn:Hd. revert i p c Hd.
  induction (lt_wf d) as [d _ IH]. intros i p c -> Hi.
  assert (p ∈ rs.*1) as Hp.
  { apply list_elem_of_fmap. exists (p, c). split; [done|]. by eapply zget_elem_of. }
  destruct (connected p Hp) as [->|Hin].
  - by eapply below_direct.
  - apply list_elem_of_fmap in Hin as ([q x] & Heq & [j Hj]%elem_of_zget).
    simpl in Heq. subst x.
    pose proof (depth_child q p (zget_elem_of _ _ _ Hj)).
    eapply below_extend; [|done..]. eapply (IH (depth q)); [lia|done..].
Qed.

Lemma rows_at_app (s1 s2 : list Z) : rows_at rs (s1 ++ s2) = rows_at rs s1 ++ rows_at rs s2.
Proof. apply omap_app. Qed.

Lemma rows_at_cons (k : Z) (s : list Z) (e : Z * Z) :
  zget rs k = Some e → rows_at rs (k :: s) = e :: rows_at rs s.
Proof. intros Hk. unfold rows_at. csimpl. by rewrite Hk. Qed.

Lemma blocks_spec (v : Z) (g : list Z) (ss : list (list Z)) :
  NoDup g → Forall2 (block_ok nTips rs v) g ss →
  NoDup (mjoin ss) ∧
  (∀ i, i ∈ mjoin ss ↔
        ∃ k c, k ∈ g ∧ zget rs k = Some (v, c) ∧ (i = k ∨ nTips < c ∧ below rs c i)) ∧
  ∀ seen, v ∈ seen → topo seen (rows_at rs (mjoin ss)).
Proof.
  intros Hg Hall. induction Hall as [|k blk g ss Hk Hall IH].
  - split; [constructor|]. split; [|done]. intros i. split; [by intros ?%elem_of_nil|].
    by intros (k & c & ?%elem_of_nil & _).
  - apply NoDup_cons in Hg as [Hkg Hg]. destruct (IH Hg) as (IHnd & IHin & IHtopo).
    destruct Hk as (c & t & Hkc & -> & Hnd & Hin & Htopo).
    pose proof (depth_child v c (zget_elem_of _ _ _ Hkc)) as Hdc.
    cbn [mjoin list_join]. split; [|split].
    + apply NoDup_app. split; [|split; [|done]].
      * apply NoDup_cons. split; [|done]. intros [_ Hb]%Hin.
        pose proof (below_depth _ _ _ _ Hb Hkc). lia.
      * intros i Hi (k' & c' & Hk' & Hkc' & Hi')%IHin.
        pose proof (depth_child v c' (zget_elem_of _ _ _ Hkc')) as Hdc'.
        apply elem_of_cons in Hi as [->|[_ Hb]%Hin]; destruct Hi' as [->|[_ Hb']].
        -- done.
        -- pose proof (below_depth _ _ _ _ Hb' Hkc). lia.
        -- pose proof (below_depth _ _ _ _ Hb Hkc'). lia.
        -- assert (c = c') as <- by (eapply below_unique; [done..|lia]).
           assert (k = k') as <- by (by eapply same_child). done.
    + intros i. rewrite elem_of_app, elem_of_cons, Hin, IHin. split.
      * intros [[->|Hb]|(k' & c' & Hk' & Hkc' & Hi')].
        -- exists k, c. split; [by left|]. split; [done|]. by left.
        -- exists k, c. split; [by left|]. split; [done|]. by right.
        -- exists k', c'. split; [by right|]. done.
      * intros (k' & c' & [->|Hk']%elem_of_cons & Hkc' & Hi').
        -- left. simplify_eq. destruct Hi'; [by left | by right].
        -- right. by exists k', c'.
    + intros seen Hv. rewrite rows_at_app, (rows_at_cons _ _ _ Hkc).
      cbn [app topo fst snd]. split; [done|]. apply topo_app.
      * apply Htopo. by left.
      * apply IHtopo. set_solver.
Qed.

(** With fuel above the depth left, the walk from [v] lists each edge below
    [v] once, every edge after the edge into its parent. *)
Lemma walk_spec (f : nat) (v : Z) :
  (depth v ≤ length rs)%nat → (length rs < f + depth v)%nat →
  ∃ s, walk nTips rs.*1 rs.*2 f v = Some s ∧ NoDup s ∧
       (∀ i, i ∈ s ↔ below rs v i) ∧
       ∀ seen, v ∈ seen → topo seen (rows_at rs s).
Proof.
  revert v. induction f as [|f IH]; intros v Hd Hf; [lia|].
  cbn [walk].
  set (body := λ k, match zget rs.*2 k with
                    | Some c => if decide (nTips < c)
                                then (k ::.) <$> walk nTips rs.*1 rs.*2 f c
                                else Some [k]
                    | None => Some [k]
                    end).
  assert (∀ k, k ∈ group rs.*1 v → ∃ blk, body k = Some blk ∧ block_ok nTips rs v k blk) as Hbody.
  { intros k [c Hkc]%elem_of_group. unfold body. rewrite zget_snd, Hkc.
    cbn [fmap option_fmap option_map snd].
    pose proof (depth_child v c (zget_elem_of _ _ _ Hkc)) as Hdc.
    pose proof (depth_le_edges _ _ _ Hkc) as Hle.
    case_decide as Hc.
    - destruct (IH c) as (t & -> & Hnd & Hin & Htopo); [lia..|].
      eexists. split; [done|]. exists c, t. split; [done|]. split; [done|].
      split; [done|]. split; [|done]. intros i. rewrite Hin. naive_solver.
    - eexists. split; [done|]. exists c, []. split; [done|]. split; [done|].
      split; [constructor|]. split; [|done]. intros i. split; [by intros ?%elem_of_nil|].
      intros [? _]. lia. }
  assert (∃ ss, Forall2 (λ k blk, body k = Some blk) (group rs.*1 v) ss ∧
                Forall2 (block_ok nTips rs v) (group rs.*1 v) ss) as (ss & Hss & Hall).
  { revert Hbody. generalize (group rs.*1 v). intros g Hbody.
    induction g as [|k g IHg].
    - exists []. by split; constructor.
    - destruct (Hbody k ltac:(by left)) as (blk & Hk & Hok).
      destruct IHg as (ss & Hss & Hall); [intros k' Hk'; apply Hbody; by right|].
      exists (blk :: ss). by split; constructor. }
  apply mapM_Some_2 in Hss. rewrite Hss. cbn [fmap option_fmap option_map].
  destruct (blocks_spec v _ ss (group_NoDup v) Hall) as (Hnd & Hin & Htopo).
  eexists. split; [done|]. split; [done|]. split; [|done].
  intros i. rewrite Hin. split.
  - intros (k & c & Hk & Hkc & [->|[_ Hb]]).
    + by eapply below_direct.
    + by eapply below_step.
  - intros [v' i' c Hi|v' k c i' Hk Hb].
    + exists i', c. split; [apply elem_of_group; by exists c|]. split; [done|]. by left.
    + exists k, c. split; [apply elem_of_group; by exists c|]. split; [done|].
      right. split; [|done]. by apply parents_internal, (below_parent c i').
Qed.

(** The walk from the root stores every edge index once, the rows in an
    order where each edge comes after the edge into its parent. *)
Lemma walk_root :
  ∃ s, walk nTips rs.*1 rs.*2 (S (length rs)) root = Some s ∧
       s ≡ₚ seqZ 0 (Z.of_nat (length rs)) ∧
       topo [root] (rows_at rs s).
Proof.
  destruct (walk_spec (S (length rs)) root) as (s & Hs & Hnd & Hin & Htopo);
    [lia..|].
  exists s. split; [done|]. split; [|apply Htopo; by left].
  apply NoDup_Permutation; [done | apply seqZ_NoDup|].
  intros i. rewrite Hin, elem_of_seqZ. split.
  - intros Hb. assert (∃ p c, zget rs i = Some (p, c)) as (p & c & Hi).
    { destruct Hb as [v i c Hi|v k c i Hk Hb]; [by eauto|].
      clear Hk. induction Hb; eauto. }
    apply zget_Some in Hi as [? Hi%lookup_lt_Some]. lia.
  - intros Hi. destruct (zget_lt rs i) as [[p c] Hpc]; [lia..|].
    by eapply below_root.
Qed.
End TreeWalk.

(** ** reorder, cladewise: the order of [reorderRcpp] *)

Lemma rows_at_offset (pre rs : list (Z * Z)) :
  rows_at (pre ++ rs) (seqZ (Z.of_nat (length pre)) (Z.of_nat (length rs))) = rs.
Proof.
  revert pre. induction rs as [|r rs IH]; intros pre; [done|].
  cbn [length]. rewrite Nat2Z.inj_succ, seqZ_cons by lia.
  unfold rows_at in *. cbn [omap list_omap].
  rewrite zget_of_nat, list_lookup_middle by done. f_equal.
  specialize (IH (pre ++ [r])). rewrite <- app_assoc, length_app in IH.
  cbn [app length] in IH.
  replace (Z.succ (Z.of_nat (length pre))) with (Z.of_nat (length pre + 1)) by lia.
  by rewrite Z.pred_succ.
Qed.

Lemma rows_at_seqZ (rs : list (Z * Z)) :
  rows_at rs (seqZ 0 (Z.of_nat (length rs))) = rs.
Proof. apply (rows_at_offset [] rs). Qed.

Lemma rows_at_Permutation (rs : list (Z * Z)) (s : list Z) :
  s ≡ₚ seqZ 0 (Z.of_nat (length rs)) → rows_at rs s ≡ₚ rs.
Proof.
  intros Hs. pose proof (rows_at_seqZ rs) as Heq. unfold rows_at in *.
  rewrite Hs. by rewrite Heq.
Qed.

Section CladewiseOrder.
Variables (nTips root : Z) (rs : list (Z * Z)) (depth : Z → nat).
Hypothesis children_once : NoDup rs.*2.
Hypothesis depth_root : depth root = 0%nat.
Hypothesis depth_child : ∀ p c, (p, c) ∈ rs → depth c = S (depth p).
Hypothesis connected : ∀ p, p ∈ rs.*1 → p = root ∨ p ∈ rs.*2.
Hypothesis parents_internal : ∀ p, p ∈ rs.*1 → nTips < p.
Hypothesis some_edge : rs ≠ [].

(** On the edges of a tree, [reorderRcpp] to cladewise returns a
    permutation of the edge indices in which every edge comes after the
    edge into its parent. *)
Lemma reorderRcpp_cladewise :
  ∃ s, reorderRcpp (Some <$> rs) nTips root 1 = Ok s ∧
       s ≡ₚ seqZ 0 (Z.of_nat (length rs)) ∧
       topo [root] (rows_at rs s).
Proof.
  destruct (walk_root nTips root rs depth children_once depth_root depth_child
              connected parents_internal) as (s & Hwalk & Hperm & Htopo).
  exists s. split; [|done].
  unfold reorderRcpp. rewrite rows_Some. cbn [mbind result_mbind result_bind].
  destruct (js_max_is_Some rs.*1) as [m Hm]; [by destruct rs|].
  rewrite Hm. destruct (js_max_spec _ _ Hm) as [Hin Hmax].
  pose proof (parents_internal m Hin) as Hlt.
  cbn [fmap option_fmap option_map new_array].
  rewrite !decide_False by lia. cbn [mbind result_mbind result_bind].
  rewrite decide_True by done.
  rewrite Nat2Z.id.
  pose proof (bucket_group nTips (m - nTips) rs.*1) as Hb. cbn zeta in Hb.
  rewrite length_fmap in Hb.
  assert (∀ p, p ∈ rs.*1 → nTips < p ≤ nTips + (m - nTips)) as Hrange.
  { intros p Hp. split; [by apply parents_internal|]. specialize (Hmax p Hp). lia. }
  rewrite (foo_walk nTips rs.*1 rs.*2 _ _ _ (Hb Hrange ltac:(lia))), Hwalk.
  change 0 with (Z.of_nat 0). rewrite store_inside.
  2:{ rewrite length_replicate, Hperm, length_seqZ. lia. }
  cbn [mbind result_mbind result_bind fst take app].
  rewrite drop_ge, app_nil_r; [done|].
  rewrite length_replicate, Hperm, length_seqZ. lia.
Qed.
End CladewiseOrder.

(** ** collapseSingles: the edges between the loops *)

Section ValidTree.
Context {len : Type}.
Variables (T : Phylo len) (rs : list (Z * Z)).
Hypothesis valid : valid_tree T rs.
Let n := Z.of_nat (length (tipLabel T)).
Hypothesis some_tip : 1 ≤ n.

(** A valid tree with a tip has an edge, and its children are distinct. *)
Lemma valid_some_edge : rs ≠ [] ∧ 1 ≤ Nnode T.
Proof.
  pose proof (vt_size _ _ valid) as Hsize. fold n in Hsize.
  assert (rs ≠ []) as Hne.
  { intros ->. pose proof (vt_child_once _ _ valid 1) as H1. fold n in H1.
    cbn in Hsize. rewrite occurrences_nil in H1. lia. }
  split; [done|]. destruct rs as [|[p c] rs']; [done|].
  pose proof (vt_parents _ _ valid p ltac:(by left)). fold n in H. lia.
Qed.

Lemma valid_NoDup : NoDup rs.*2.
Proof.
  apply NoDup_occurrences. intros c Hc.
  apply (vt_child_once _ _ valid); [by apply (vt_children _ _ valid)|].
  intros ->. by apply (vt_root _ _ valid).
Qed.

Lemma valid_connected (p : Z) : p ∈ rs.*1 → p = n + 1 ∨ p ∈ rs.*2.
Proof.
  intros Hp. destruct (decide (p = n + 1)) as [|Hne]; [by left|right].
  apply occurrences_pos. pose proof (vt_parents _ _ valid p Hp). fold n in H.
  rewrite (vt_child_once _ _ valid); [lia | fold n; lia | done].
Qed.

(** The edges of a valid tree, in any order, start the loops of
    [collapseSingles] in their invariant. *)
Lemma valid_rooted_edges (rs' : list (Z * Z)) :
  rs' ≡ₚ rs → rooted_edges n (n + 1) rs'.*1 rs'.*2.
Proof.
  intros Hp. destruct valid_some_edge as [_ HN].
  split.
  - by rewrite !length_fmap.
  - intros p. rewrite Hp. intros H%(vt_parents _ _ valid). fold n in H. lia.
  - rewrite Hp. apply valid_NoDup.
  - intros c. rewrite !Hp. intros Hc Hlt. apply (vt_internal _ _ valid). fold n.
    split; [done|]. by apply (vt_children _ _ valid).
  - intros p. rewrite !Hp. apply valid_connected.
  - rewrite Hp. apply (vt_root _ _ valid).
  - intros t Ht. left. rewrite Hp. apply occurrences_pos.
    rewrite (vt_child_once _ _ valid); fold n; lia.
  - intros c. rewrite Hp. intros H%(vt_children _ _ valid). lia.
  - destruct (vt_depth _ _ valid) as (depth & _ & Hd). exists depth.
    intros i p c H1 H2. rewrite list_lookup_fmap in H1, H2.
    destruct (rs' !! i) as [[p' c']|] eqn:Hi; simplify_eq/=.
    rewrite (Hd p c); [lia|]. rewrite <- Hp. by eapply list_elem_of_lookup_2.
Qed.
End ValidTree.

(** ** reorder to cladewise, on a valid tree *)

Lemma topo_seen (seen : list Z) (es : list (Z * Z)) :
  (∀ p, p ∈ es.*1 → p ∈ seen) → topo seen es.
Proof.
  revert seen. induction es as [|e es IH]; intros seen H; [done|].
  split; [apply H; by left|]. apply IH. intros p Hp. right. apply H. by right.
Qed.

Lemma pick_rows_rows_at (rs : list (Z * Z)) (s : list Z) :
  (∀ i, i ∈ s → is_Some (zget rs i)) →
  pick_rows (Some <$> rs) s = Some <$> rows_at rs s.
Proof.
  unfold pick_rows, rows_at. induction s as [|i s IH]; intros H; [done|].
  destruct (H i ltac:(by left)) as [r Hr]. csimpl. rewrite Hr. csimpl.
  rewrite IH by (intros; apply H; by right). f_equal.
  unfold zget in *. case_decide; [|done]. by rewrite list_lookup_fmap, Hr.
Qed.

Section ReorderCladewise.
Context {len : Type}.
Variables (undef : len) (T : Phylo len) (rs : list (Z * Z)).
Hypothesis valid : valid_tree T rs.
Let n := Z.of_nat (length (tipLabel T)).
Hypothesis some_tip : 1 ≤ n.
Hypothesis tag_sound : order T = Some Cladewise → topo [n + 1] rs.

(** [reorder] to cladewise on a valid tree returns a tree with the same
    edges in some order, one that a second [reorder] leaves alone; from two
    tips on every edge comes after the edge into its parent, and the tree
    is tagged cladewise unless it has a single internal node. *)
Lemma reorder_cladewise_valid :
  ∃ T' rs', reorder undef T Cladewise = Ok T' ∧
    edge T' = Some <$> rs' ∧ rs' ≡ₚ rs ∧
    tipLabel T' = tipLabel T ∧
    reorder undef T' Cladewise = Ok T' ∧
    (2 ≤ n → topo [n + 1] rs' ∧
             (order T' = Some Cladewise ∨ T' = T ∧ Nnode T = 1)).
Proof.
  unfold reorder. fold n. case_decide as Hn.
  { exists T, rs. split; [done|]. split; [apply (vt_rows _ _ valid)|].
    split; [done|]. split; [done|]. fold n. rewrite decide_True by done.
    split; [done | lia]. }
  unfold _reorder_ape. case_decide as Hord.
  { exists T, rs. split; [done|]. split; [apply (vt_rows _ _ valid)|].
    split; [done|]. split; [done|]. fold n.
    rewrite decide_False, decide_True by done. split; [done|].
    intros _. split; [by apply tag_sound | by left]. }
  case_decide as HN.
  { exists T, rs. split; [done|]. split; [apply (vt_rows _ _ valid)|].
    split; [done|]. split; [done|]. fold n.
    rewrite decide_False, decide_False, decide_True by done. split; [done|].
    intros _. split; [|by right]. apply topo_seen. intros p Hp%(vt_parents _ _ valid).
    fold n in Hp. apply list_elem_of_singleton. lia. }
  destruct (vt_depth _ _ valid) as (depth & Hd0 & Hd). fold n in Hd0.
  destruct (valid_some_edge T rs valid some_tip) as [Hne _].
  destruct (reorderRcpp_cladewise n (n + 1) rs depth
              (valid_NoDup T rs valid) Hd0 Hd
              (valid_connected T rs valid some_tip)) as (s & Hs & Hperm & Htopo);
    [|done|].
  { intros p Hp%(vt_parents _ _ valid). fold n in Hp. lia. }
  rewrite (vt_rows _ _ valid). cbn [order_code]. rewrite Hs.
  cbn [mbind result_mbind result_bind].
  eexists _, (rows_at rs s). split; [done|]. cbn [edge tipLabel order].
  split.
  { apply pick_rows_rows_at. intros i. rewrite Hperm, elem_of_seqZ.
    intros [? ?]. apply zget_lt; lia. }
  split; [by apply rows_at_Permutation|]. split; [done|].
  rewrite decide_False by done. rewrite decide_True by done.
  split; [done|]. intros _. split; [done | by left].
Qed.
End ReorderCladewise.

(** ** collapseSingles: the basal singletons *)

Lemma root_is_parent (n ROOT : Z) (e1 e2 : list Z) :
  rooted_edges n ROOT e1 e2 → e1 ≠ [] → ROOT ∈ e1.
Proof.
  intros Hre Hne. destruct (re_depth _ _ _ _ Hre) as [depth Hd].
  assert (∀ d p, depth p = d → p ∈ e1 → ROOT ∈ e1) as H.
  { induction d as [d IH] using lt_wf_ind. intros p Hp Hin.
    destruct (re_connected _ _ _ _ Hre p Hin) as [->|Hc]; [done|].
    apply list_elem_of_lookup_1 in Hc as [i Hi].
    destruct (lookup_lt_is_Some_2 e1 i) as [q Hq].
    { rewrite (re_length _ _ _ _ Hre). by eapply lookup_lt_Some. }
    specialize (Hd i q p Hq Hi).
    apply (IH (depth q) ltac:(lia) q eq_refl). by eapply list_elem_of_lookup_2. }
  destruct e1 as [|p e1']; [done|]. apply (H _ p eq_refl). by left.
Qed.

(** Removing the only edge out of the root makes its child the root. *)
Lemma rooted_edges_delete (n ROOT : Z) (e1 e2 : list Z) (i : nat) (c : Z) :
  rooted_edges n ROOT e1 e2 →
  e1 !! i = Some ROOT → e2 !! i = Some c → occurrences ROOT e1 = 1 →
  rooted_edges n c (delete i e1) (delete i e2).
Proof.
  intros Hre H1 H2 Hocc.
  pose proof (delete_Permutation _ _ _ H1) as Hp1.
  pose proof (delete_Permutation _ _ _ H2) as Hp2.
  assert (ROOT ∉ delete i e1) as Hroot.
  { apply occurrences_zero. rewrite (occurrences_Permutation _ _ _ Hp1) in Hocc.
    rewrite occurrences_cons, decide_True in Hocc by done. lia. }
  assert (NoDup (c :: delete i e2)) as Hnd
    by (rewrite <- Hp2; apply (re_children _ _ _ _ Hre)).
  apply NoDup_cons in Hnd as [Hc Hnd].
  split.
  - rewrite !length_delete by (by eexists). by rewrite (re_length _ _ _ _ Hre).
  - intros p Hp%list_elem_of_delete_inv. by apply (re_parents _ _ _ _ Hre).
  - done.
  - intros c' Hc' Hlt.
    assert (c' ∈ e2) as Hin by (by eapply list_elem_of_delete_inv).
    pose proof (re_internal _ _ _ _ Hre c' Hin Hlt) as Hpar.
    rewrite Hp1 in Hpar. apply elem_of_cons in Hpar as [->|]; [|done].
    by destruct (re_root _ _ _ _ Hre).
  - intros p Hp.
    destruct (re_connected _ _ _ _ Hre p) as [->|Hin];
      [by eapply list_elem_of_delete_inv|done|].
    rewrite Hp2 in Hin. by apply elem_of_cons in Hin.
  - done.
  - intros t Ht. destruct (re_tips _ _ _ _ Hre t Ht) as [Hin| ->].
    + rewrite Hp2 in Hin. apply elem_of_cons in Hin as [->|]; [by right | by left].
    + assert (n < ROOT); [|lia]. apply (re_parents _ _ _ _ Hre).
      by eapply list_elem_of_lookup_2.
  - intros c' Hc'%list_elem_of_delete_inv. by apply (re_positive _ _ _ _ Hre).
  - destruct (re_depth _ _ _ _ Hre) as [depth Hd]. exists depth.
    intros k p c'. rewrite !list_lookup_delete. case_decide; apply Hd.
Qed.

Lemma topo_delete_root (ROOT : Z) (e1 e2 : list Z) (i : nat) (c : Z) :
  length e1 = length e2 → topo [ROOT] (zip e1 e2) →
  e1 !! i = Some ROOT → (∀ j, (j < i)%nat → e1 !! j ≠ Some ROOT) →
  e2 !! i = Some c → occurrences ROOT e1 = 1 →
  topo [c] (zip (delete i e1) (delete i e2)).
Proof.
  intros Hlen Htopo H1 Hfirst H2 Hocc.
  destruct e1 as [|p e1']; [done|]. destruct e2 as [|c0 e2']; [done|].
  destruct Htopo as [Hp Htopo]. cbn in Hp, Htopo.
  apply list_elem_of_singleton in Hp as ->.
  destruct i as [|i]; [|by destruct (Hfirst 0%nat ltac:(lia))].
  simplify_eq/=. rewrite occurrences_cons, decide_True in Hocc by done.
  apply (topo_unused ROOT).
  - rewrite fst_zip by lia. apply occurrences_zero. lia.
  - eapply topo_mono; [|done]. set_solver.
Qed.

Section StripBasal.
Context {len : Type}.
Variables (ladd : len → len → len) (undef : len) (n : Z).
Hypothesis n_nonneg : 0 ≤ n.

Lemma strip_basal_unfold fuel wbl rootEdge e1 e2 (el : list len) ROOT ROOTEDGE :
  strip_basal ladd undef fuel wbl rootEdge (e1, e2, el, ROOT, ROOTEDGE)
  = tab ← tabulate e1;
    if decide (zget tab ROOT = Some 1) then
      match index_of ROOT e1, fuel with
      | None, _ => Ok (e1, e2, el, ROOT, ROOTEDGE)
      | Some iIndex, S fuel =>
        let i := Z.to_nat iIndex in
        strip_basal ladd undef fuel wbl rootEdge
          (delete i e1, delete i e2,
           if wbl then delete i el else el,
           default 0 (zget e2 iIndex),
           if wbl && rootEdge
           then ladd ROOTEDGE (default undef (zget el iIndex))
           else ROOTEDGE)
      | Some _, O => Throw RangeError
      end
    else Ok (e1, e2, el, ROOT, ROOTEDGE).
Proof. by destruct fuel. Qed.

(** The basal loop keeps the invariant and stops at a root with two edges
    or more.  It throws only when no edge is left, which takes a tree with
    one tip. *)
Lemma strip_basal_spec fuel wbl rootEdge e1 e2 (el : list len) ROOT ROOTEDGE :
  rooted_edges n ROOT e1 e2 → (length e1 ≤ fuel)%nat →
  match strip_basal ladd undef fuel wbl rootEdge (e1, e2, el, ROOT, ROOTEDGE) with
  | Ok (e1', e2', el', ROOT', ROOTEDGE') =>
      rooted_edges n ROOT' e1' e2' ∧ 2 ≤ occurrences ROOT' e1' ∧
      (topo [ROOT] (zip e1 e2) → topo [ROOT'] (zip e1' e2')) ∧
      (NoDup e1 → NoDup e1')
  | Throw e => e = RangeError ∧ n ≤ 1
  | UndefinedId => False
  end.
Proof.
  revert e1 e2 el ROOT ROOTEDGE.
  induction fuel as [|fuel IH]; intros e1 e2 el ROOT ROOTEDGE Hre Hfuel;
    rewrite strip_basal_unfold.
  all: destruct (decide (e1 = [])) as [->|Hne].
  1,3: split; [done|]; pose proof (re_length _ _ _ _ Hre) as Hl;
       destruct e2; [|done];
       destruct (decide (n ≤ 1)) as [|Hn]; [done|];
       destruct (re_tips _ _ _ _ Hre 1 ltac:(lia)) as [[]%elem_of_nil|H1];
       destruct (re_tips _ _ _ _ Hre 2 ltac:(lia)) as [[]%elem_of_nil|H2]; lia.
  { destruct e1; [done | simpl in Hfuel; lia]. }
  destruct (js_max_is_Some e1 Hne) as [m Hm].
  destruct (js_max_spec _ _ Hm) as [Hin Hmax].
  pose proof (re_parents _ _ _ _ Hre m Hin) as Hlt.
  destruct (tabulate_Ok e1 m Hm ltac:(lia)) as (tab & -> & Hlen & Htab).
  cbn [mbind result_mbind result_bind].
  case_decide as Hone.
  - assert (occurrences ROOT e1 = 1) as Hocc.
    { destruct (decide (0 ≤ ROOT ≤ m)) as [Hr|Hr].
      - rewrite Htab in Hone by done. by simplify_eq.
      - assert (zget tab ROOT = None) as Hnone by (apply zget_None; lia).
        by rewrite Hnone in Hone. }
    assert (ROOT ∈ e1) as Hroot by (apply occurrences_pos; lia).
    destruct (index_of_is_Some ROOT e1 Hroot) as [iIndex Hidx]. rewrite Hidx.
    destruct (index_of_Some _ _ _ Hidx) as (Hi0 & Hi & Hfirst). cbn zeta.
    destruct (lookup_lt_is_Some_2 e2 (Z.to_nat iIndex)) as [c Hc].
    { rewrite <- (re_length _ _ _ _ Hre). by eapply lookup_lt_Some. }
    rewrite (zget_nonneg e2 iIndex Hi0), Hc. cbn [default from_option]. unfold id.
    pose proof (rooted_edges_delete _ _ _ _ _ _ Hre Hi Hc Hocc) as Hre'.
    match goal with
    | |- context [strip_basal _ _ _ _ _ (?a, ?b, ?c', ?d, ?e)] =>
        specialize (IH a b c' d e Hre');
        destruct (strip_basal ladd undef fuel wbl rootEdge (a, b, c', d, e))
          as [[[[[e1' e2'] el'] ROOT'] ROOTEDGE']|e0|]
    end.
    + destruct IH as (H1 & H2 & H3 & H4).
      { rewrite length_delete by (by eexists). lia. }
      split; [done|]. split; [done|]. split.
      * intros Ht. apply H3.
        exact (topo_delete_root ROOT e1 e2 _ c (re_length _ _ _ _ Hre) Ht Hi
                 Hfirst Hc Hocc).
      * intros Hnd. apply H4. eapply sublist_NoDup; [done | apply sublist_delete].
    + apply IH. rewrite length_delete by (by eexists). lia.
    + apply IH. rewrite length_delete by (by eexists). lia.
  - split; [done|]. split; [|done].
    pose proof (root_is_parent _ _ _ _ Hre Hne) as Hroot.
    pose proof (re_parents _ _ _ _ Hre _ Hroot).
    pose proof (Hmax _ Hroot).
    rewrite Htab in Hone by lia.
    apply occurrences_pos in Hroot.
    destruct (decide (occurrences ROOT e1 = 1)) as [Heq|]; [by rewrite Heq in Hone | lia].
Qed.
End StripBasal.

(** ** collapseSingles: splicing out the singletons *)

Lemma delete_insert_above {A} (l : list A) (i j : nat) (x : A) :
  (j < i)%nat → delete i (<[j := x]> l) = <[j := x]> (delete i l).
Proof.
  revert i j. induction l as [|a l IH]; intros i j Hji; [done|].
  destruct i as [|i]; [lia|]. destruct j as [|j]; [done|].
  simpl. f_equal. apply IH. lia.
Qed.

Lemma delete_insert_same {A} (l : list A) (j : nat) (x : A) :
  delete j (<[j := x]> l) = delete j l.
Proof.
  revert j. induction l as [|a l IH]; intros [|j]; try done. simpl. by rewrite IH.
Qed.

(** Overwriting row [j] with the value of row [i] and removing row [i]
    comes to removing row [j]. *)
Lemma delete_overwritten {A} (l : list A) (i j : nat) (x y : A) :
  i ≠ j → l !! i = Some x → l !! j = Some y →
  delete i (<[j := x]> l) ≡ₚ delete j l.
Proof.
  intros Hij Hi Hj. apply (Permutation_cons_inv (a := x)).
  rewrite <- (delete_Permutation (<[j := x]> l) i x)
    by (by rewrite list_lookup_insert_ne).
  rewrite (delete_Permutation (<[j := x]> l) j x).
  - by rewrite delete_insert_same.
  - apply list_lookup_insert_eq. by eapply lookup_lt_Some.
Qed.

Lemma remove_rows_snoc {A} (ii : list Z) (i : Z) (l : list A) :
  remove_rows (ii ++ [i]) l = delete (Z.to_nat i) (remove_rows ii l).
Proof. unfold remove_rows. by rewrite foldl_snoc. Qed.

Lemma remove_rows_lookup {A} (ii : list Z) (l : list A) (r : nat) :
  (∀ i, i ∈ ii → (r < Z.to_nat i)%nat) → remove_rows ii l !! r = l !! r.
Proof.
  revert l. induction ii as [|i ii IH]; intros l H; [done|].
  unfold remove_rows in *. cbn [foldl]. rewrite IH by (intros; apply H; by right).
  apply list_lookup_delete_lt, H. by left.
Qed.

Lemma remove_rows_insert {A} (ii : list Z) (l : list A) (j : nat) (x : A) :
  (∀ i, i ∈ ii → (j < Z.to_nat i)%nat) →
  remove_rows ii (<[j := x]> l) = <[j := x]> (remove_rows ii l).
Proof.
  revert l. induction ii as [|i ii IH]; intros l H; [done|].
  unfold remove_rows in *. cbn [foldl].
  rewrite delete_insert_above by (apply H; by left).
  apply IH. intros; apply H; by right.
Qed.

Section Splice.
Variables (e1 e2 : list Z).
Hypothesis same_length : length e1 = length e2.

Lemma splice_step_children {len} (ladd : len → len → len) (undef : len)
    (wbl : bool) (ii : list Z) (cur : list Z) (el : list len) :
  (foldl (splice_step ladd undef wbl) (cur, el)
     (zip ii ((λ idx, index_of (default 0 (zget e1 idx)) e2) <$> ii))).1
  = foldl (splice_children e1 e2) cur ii.
Proof.
  revert cur el. induction ii as [|i ii IH]; intros cur el; [done|].
  csimpl. apply IH.
Qed.

(** The two loops over [ii], the writes and then the removals, take out
    of both columns the parents of the rows [ii] and nothing else. *)
Lemma splice_spec (ii : list Z) :
  StronglySorted Z.ge ii → NoDup ii → spliceable e1 e2 ii →
  let cur := foldl (splice_children e1 e2) e2 ii in
  length cur = length e2 ∧
  (∀ r, (∀ i, i ∈ ii → e2 !! r ≠ zget e1 i) → cur !! r = e2 !! r) ∧
  remove_rows ii cur ++ omap (zget e1) ii ≡ₚ e2 ∧
  remove_rows ii e1 ++ omap (zget e1) ii ≡ₚ e1.
Proof.
  induction ii as [|i ii IH] using rev_ind; intros Hsort Hnd [Hj Hinj]; cbn zeta.
  { cbn. by rewrite !app_nil_r. }
  apply StronglySorted_app in Hsort as (Hge & Hsort & _).
  apply NoDup_app in Hnd as (Hnd & Hni & _).
  assert (∀ i', i' ∈ ii → i < i') as Hlt.
  { intros i' Hi'. specialize (Hge i' i Hi' ltac:(by left)).
    specialize (Hni i' Hi'). assert (i' ≠ i) by set_solver. lia. }
  destruct IH as (Hlen & Hsame & Hp2 & Hp1); [done..| |].
  { split; [intros; apply Hj; set_solver | intros; apply Hinj; set_solver]. }
  destruct (Hj i ltac:(set_solver)) as (s & j & Hs & Hidx & Hji).
  destruct (index_of_Some _ _ _ Hidx) as (Hj0 & Hjs & _).
  apply zget_Some in Hs as Hs'. destruct Hs' as [Hi0 His].
  rewrite foldl_snoc. set (cur := foldl (splice_children e1 e2) e2 ii) in *.
  assert (cur !! Z.to_nat j = Some s) as Hcj.
  { rewrite Hsame; [done|]. intros i' Hi' Heq. rewrite Hjs, <- Hs in Heq.
    specialize (Hlt i' Hi').
    assert (i = i'); [|lia]. apply Hinj; [set_solver..|done]. }
  destruct (lookup_lt_is_Some_2 cur (Z.to_nat i)) as [x Hx].
  { rewrite Hlen, <- same_length. by eapply lookup_lt_Some. }
  unfold splice_children at 1 2 3. rewrite Hs. cbn [default from_option]. unfold id.
  rewrite Hidx. cbn [default from_option]. unfold id.
  rewrite (zget_nonneg cur i Hi0), Hx. cbn [default from_option]. unfold id.
  unfold zset. rewrite decide_True by done.
  rewrite omap_app. cbn [omap list_omap]. rewrite Hs. cbn [app].
  rewrite !remove_rows_snoc.
  split; [by rewrite length_insert|]. split.
  { intros r Hr. rewrite list_lookup_insert_ne; [apply Hsame; intros; apply Hr; set_solver|].
    intros <-. apply (Hr i); [set_solver|]. by rewrite Hjs, Hs. }
  assert (∀ i', i' ∈ ii → (Z.to_nat i < Z.to_nat i')%nat) as Hlt'.
  { intros i' Hi'. specialize (Hlt i' Hi'). lia. }
  split.
  - rewrite remove_rows_insert by (intros i' Hi'; specialize (Hlt i' Hi'); lia).
    rewrite (delete_overwritten _ _ _ x s); [| lia | |].
    + etrans; [|exact Hp2].
      rewrite (Permutation_app_comm (omap _ _) [s]), app_assoc. f_equiv.
      rewrite <- Permutation_cons_append. symmetry. apply delete_Permutation.
      rewrite remove_rows_lookup; [done|].
      intros i' Hi'. specialize (Hlt i' Hi'). lia.
    + by rewrite remove_rows_lookup.
    + rewrite remove_rows_lookup; [done|].
      intros i' Hi'. specialize (Hlt i' Hi'). lia.
  - etrans; [|exact Hp1].
    rewrite (Permutation_app_comm (omap _ _) [s]), app_assoc. f_equiv.
    rewrite <- Permutation_cons_append. symmetry. apply delete_Permutation.
    by rewrite remove_rows_lookup.
Qed.
End Splice.

#[local] Instance Z_ge_total : Total Z.ge.
Proof. intros x y. lia. Qed.

#[local] Instance Z_ge_trans : Transitive Z.ge.
Proof. intros x y z. lia. Qed.

Lemma NoDup_omap_defined {A B} (g : A → option B) (l : list A) :
  (∀ x, x ∈ l → is_Some (g x)) → NoDup (omap g l) → NoDup l.
Proof.
  induction l as [|a l IH]; intros Hdef Hnd; [constructor|].
  destruct (Hdef a ltac:(by left)) as [y Hy]. csimpl in Hnd. rewrite Hy in Hnd.
  apply NoDup_cons in Hnd as [Hy' Hnd]. apply NoDup_cons. split.
  - intros Ha. apply Hy'. apply list_elem_of_omap. by exists a.
  - apply IH; [|done]. intros; apply Hdef; by right.
Qed.

(** [singles] are the ids above [n] that are the parent of one edge. *)
Lemma find_singles_spec (n m : Z) (e1 tab : list Z) :
  0 ≤ n → js_max e1 = Some m → Z.of_nat (length tab) = m + 1 →
  (∀ i, 0 ≤ i ≤ m → zget tab i = Some (occurrences i e1)) →
  ∀ s, s ∈ find_singles n tab ↔ n < s ∧ occurrences s e1 = 1.
Proof.
  intros Hn Hm Hlen Htab s. unfold find_singles.
  rewrite list_elem_of_filter, elem_of_seqZ. split.
  - intros [[Hlt Hone] Hs]. split; [done|].
    rewrite Htab in Hone by lia. by simplify_eq.
  - intros [Hlt Hocc]. assert (s ∈ e1) as Hin by (apply occurrences_pos; lia).
    pose proof (proj2 (js_max_spec _ _ Hm) s Hin).
    split; [|lia]. split; [done|]. rewrite Htab by lia. by rewrite Hocc.
Qed.

Section SingleRows.
Variables (n ROOT : Z) (e1 e2 tab : list Z) (m : Z).
Hypothesis edges : rooted_edges n ROOT e1 e2.
Hypothesis n_nonneg : 0 ≤ n.
Hypothesis branching : 2 ≤ occurrences ROOT e1.
Hypothesis ordered : topo [ROOT] (zip e1 e2).
Hypothesis max_parent : js_max e1 = Some m.
Hypothesis tab_length : Z.of_nat (length tab) = m + 1.
Hypothesis tab_counts : ∀ i, 0 ≤ i ≤ m → zget tab i = Some (occurrences i e1).

Let singles := find_singles n tab.
Let ii := merge_sort Z.ge (omap (λ s, index_of s e1) singles).

Lemma singles_NoDup : NoDup singles.
Proof. apply NoDup_filter, seqZ_NoDup. Qed.

(** The rows [ii] are the edges out of the singleton nodes, from the last
    to the first; each comes after the edge into its parent. *)
Lemma single_rows_elem (i : Z) :
  i ∈ ii ↔ ∃ s, (n < s ∧ occurrences s e1 = 1) ∧ index_of s e1 = Some i.
Proof.
  unfold ii. rewrite merge_sort_Permutation, list_elem_of_omap.
  pose proof (find_singles_spec n m e1 tab n_nonneg max_parent
                tab_length tab_counts) as Hspec.
  split; intros [s [Hs Hi]]; exists s; (split; [|done]); by apply Hspec.
Qed.

Lemma single_rows_parents : omap (zget e1) ii ≡ₚ singles.
Proof.
  unfold ii. rewrite merge_sort_Permutation.
  assert (∀ s, s ∈ singles → s ∈ e1) as Hin.
  { intros s Hs%(find_singles_spec n m e1 tab n_nonneg max_parent
                   tab_length tab_counts).
    apply occurrences_pos. lia. }
  induction singles as [|s l IH]; [done|]. csimpl.
  destruct (index_of_is_Some s e1 (Hin s ltac:(by left))) as [i Hi].
  rewrite Hi. csimpl. destruct (index_of_Some _ _ _ Hi) as (Hi0 & His & _).
  rewrite (zget_nonneg e1 i Hi0), His. f_equiv. apply IH.
  intros; apply Hin; by right.
Qed.

Lemma single_rows_spliceable : spliceable e1 e2 ii.
Proof.
  split.
  - intros i [s [[Hs Hocc] Hi]]%single_rows_elem. exists s.
    destruct (index_of_Some _ _ _ Hi) as (Hi0 & His & _).
    assert (s ∈ e1) as Hin by (by eapply list_elem_of_lookup_2).
    destruct (re_connected _ _ _ _ edges s Hin) as [->|Hc]; [lia|].
    destruct (index_of_is_Some s e2 Hc) as [j Hj]. exists j.
    split; [by rewrite zget_nonneg|]. split; [done|].
    destruct (index_of_Some _ _ _ Hj) as (Hj0 & Hjs & _).
    pose proof (re_length _ _ _ _ edges) as Hlen.
    destruct (lookup_lt_is_Some_2 e1 (Z.to_nat j)) as [p Hp].
    { rewrite Hlen. by eapply lookup_lt_Some. }
    destruct (lookup_lt_is_Some_2 e2 (Z.to_nat i)) as [d Hd].
    { rewrite <- Hlen. by eapply lookup_lt_Some. }
    assert (Z.to_nat j < Z.to_nat i)%nat; [|lia].
    apply (topo_before [ROOT] (zip e1 e2) _ _ p s d ordered).
    + rewrite snd_zip by lia. apply (re_children _ _ _ _ edges).
    + intros ->%list_elem_of_singleton. lia.
    + apply lookup_zip_Some. by split.
    + apply lookup_zip_Some. by split.
  - intros i i' [s [_ Hi]]%single_rows_elem [s' [_ Hi']]%single_rows_elem Heq.
    destruct (index_of_Some _ _ _ Hi) as (Hi0 & His & _).
    destruct (index_of_Some _ _ _ Hi') as (Hi0' & His' & _).
    rewrite !zget_nonneg, His, His' in Heq by done. simplify_eq. congruence.
Qed.

Lemma single_rows_sorted : StronglySorted Z.ge ii ∧ NoDup ii.
Proof.
  split; [apply StronglySorted_merge_sort; apply _|].
  apply (NoDup_omap_defined (zget e1)).
  - intros i [s [_ Hi]]%single_rows_elem.
    destruct (index_of_Some _ _ _ Hi) as (Hi0 & His & _).
    rewrite zget_nonneg by done. by eexists.
  - rewrite single_rows_parents. apply singles_NoDup.
Qed.
End SingleRows.

(** ** collapseSingles: the edges after the splice *)

Lemma collapsed_after_splice (n ROOT : Z) (e1 e2 e1' e2' Sl : list Z) :
  rooted_edges n ROOT e1 e2 → 2 ≤ occurrences ROOT e1 →
  e1' ++ Sl ≡ₚ e1 → e2' ++ Sl ≡ₚ e2 → NoDup Sl →
  (∀ s, s ∈ Sl ↔ n < s ∧ occurrences s e1 = 1) →
  collapsed n ROOT e1' e2'.
Proof.
  intros Hre Hroot Hp1 Hp2 Hnd HSl.
  assert (∀ v, occurrences v e1 = occurrences v e1' + occurrences v Sl) as Hocc.
  { intros v. by rewrite <- (occurrences_Permutation v _ _ Hp1), occurrences_app. }
  assert (∀ v, v ∈ e1' → (v ∉ Sl) ∧ 2 ≤ occurrences v e1') as Hkeep.
  { intros v Hv. apply occurrences_pos in Hv as Hv'.
    assert (v ∉ Sl) as Hn.
    { intros Hs. pose proof (occurrences_NoDup _ _ Hnd Hs).
      apply HSl in Hs as [_ Hs]. specialize (Hocc v). lia. }
    split; [done|]. apply occurrences_zero in Hn as Hz.
    assert (v ∈ e1) as Hin by (rewrite <- Hp1; set_solver).
    pose proof (re_parents _ _ _ _ Hre v Hin).
    destruct (decide (occurrences v e1 = 1)) as [Hone|Hone].
    - destruct Hn. by apply HSl.
    - specialize (Hocc v). lia. }
  assert (∀ v, v ∈ e1 → v ∉ Sl → v ∈ e1') as Hstay.
  { intros v Hv Hn. rewrite <- Hp1 in Hv. set_solver. }
  assert (∀ v, v ∈ e2 → v ∉ Sl → v ∈ e2') as Hstay2.
  { intros v Hv Hn. rewrite <- Hp2 in Hv. set_solver. }
  assert (∀ v, v ∈ e2' → v ∈ e2 ∧ (v ∉ Sl)) as Hsub2.
  { intros v Hv. split; [rewrite <- Hp2; set_solver|].
    pose proof (re_children _ _ _ _ Hre) as Hnd2. rewrite <- Hp2 in Hnd2.
    apply NoDup_app in Hnd2 as (_ & Hdis & _). by apply Hdis. }
  assert (ROOT ∉ Sl) as HrootSl by (intros [_ ?]%HSl; lia).
  split.
  - assert (length (e1' ++ Sl) = length (e2' ++ Sl)) as Hl
      by (rewrite Hp1, Hp2; apply (re_length _ _ _ _ Hre)).
    rewrite !length_app in Hl. lia.
  - intros p Hp. by apply Hkeep.
  - intros p Hp. apply (re_parents _ _ _ _ Hre). rewrite <- Hp1. set_solver.
  - apply Hstay; [apply occurrences_pos; lia | done].
  - intros [Hin _]%Hsub2. by apply (re_root _ _ _ _ Hre).
  - pose proof (re_children _ _ _ _ Hre) as Hnd2. rewrite <- Hp2 in Hnd2.
    by apply NoDup_app in Hnd2 as (? & _ & _).
  - intros c [Hc Hn]%Hsub2 Hlt. apply Hstay; [|done].
    by apply (re_internal _ _ _ _ Hre).
  - intros p Hp. destruct (Hkeep p Hp) as [Hn _].
    destruct (re_connected _ _ _ _ Hre p) as [->|Hc];
      [rewrite <- Hp1; set_solver | by left | right; by apply Hstay2].
  - intros t Ht. apply Hstay2.
    + destruct (re_tips _ _ _ _ Hre t Ht) as [?| ->]; [done|].
      assert (ROOT ∈ e1) as Hin by (apply occurrences_pos; lia).
      pose proof (re_parents _ _ _ _ Hre _ Hin). lia.
    + intros [? _]%HSl. lia.
  - intros c [Hc _]%Hsub2. by apply (re_positive _ _ _ _ Hre).
Qed.

(** ** collapseSingles: the second call takes the fast path *)

Lemma fast_path (n : Z) (e1 : list Z) :
  0 ≤ n → no_single_parent n e1 →
  ∃ tab, tabulate e1 = Ok tab ∧ all_internal_multiple n tab = true.
Proof.
  intros Hn (m & Hm & Hm0 & Hall).
  destruct (tabulate_Ok e1 m Hm Hm0) as (tab & Htab & Hlen & Hget).
  exists tab. split; [done|]. unfold all_internal_multiple.
  apply forallb_forall. intros c [i Hi]%list_elem_of_In%list_elem_of_lookup_1.
  rewrite lookup_drop in Hi. apply lookup_lt_Some in Hi as Hlt.
  rewrite <- zget_of_nat, Hget in Hi by lia. simplify_eq.
  apply bool_decide_eq_true_2. specialize (Hall (Z.of_nat (Z.to_nat (n + 1) + i))). lia.
Qed.

(** ** collapseSingles: the new numbers *)

Lemma uniq_elem_of (x : Z) (l : list Z) : x ∈ uniq l ↔ x ∈ l.
Proof.
  induction l as [|a l IH]; [done|]. cbn [uniq].
  rewrite !elem_of_cons, list_elem_of_filter, IH.
  destruct (decide (x = a)); naive_solver.
Qed.

Lemma uniq_NoDup (l : list Z) : NoDup (uniq l).
Proof.
  induction l as [|a l IH]; [constructor|]. cbn [uniq]. apply NoDup_cons. split.
  - by intros [? _]%list_elem_of_filter.
  - by apply NoDup_filter.
Qed.

Lemma sorted_set_elem_of (x : Z) (l : list Z) : x ∈ sorted_set l ↔ x ∈ l.
Proof. unfold sorted_set. by rewrite merge_sort_Permutation, uniq_elem_of. Qed.

Lemma sorted_set_NoDup (l : list Z) : NoDup (sorted_set l).
Proof. unfold sorted_set. rewrite merge_sort_Permutation. apply uniq_NoDup. Qed.

Lemma map_defined_Forall2 {A} (f : A → option Z) (l : list A) :
  (∀ x, x ∈ l → is_Some (f x)) →
  ∃ l', map_defined f l = Ok l' ∧ Forall2 (λ x y, f x = Some y) l l'.
Proof.
  induction l as [|a l IH]; intros H.
  - exists []. by split.
  - destruct (H a ltac:(by left)) as [y Hy].
    destruct IH as (l' & Hl' & Hall); [intros; apply H; by right|].
    exists (y :: l'). cbn [map_defined]. rewrite Hy, Hl'. split; [done|].
    by constructor.
Qed.

Lemma Forall2_occurrences (f : Z → option Z) (l l' : list Z) (x y : Z) :
  Forall2 (λ x y, f x = Some y) l l' → f x = Some y →
  occurrences x l ≤ occurrences y l'.
Proof.
  intros Hall Hxy. induction Hall as [|a b l l' Hab _ IH]; [done|].
  rewrite !occurrences_cons. repeat case_decide; simplify_eq; lia.
Qed.

(** The table [newNb] after the loop over [internalNodes]. *)
Lemma renumber_table (P : list Z) (nb0 : gmap Z Z) (base : Z) :
  NoDup P →
  let nb := foldl (λ nb i, table_set nb (default 0 (zget P i) - 1)
                             (zget (seqZ base (Z.of_nat (length P))) i))
                  nb0 (seqZ 0 (Z.of_nat (length P))) in
  (∀ i x, P !! i = Some x → nb !! (x - 1) = Some (base + Z.of_nat i)) ∧
  (∀ k, (∀ x, x ∈ P → x - 1 ≠ k) → nb !! k = nb0 !! k).
Proof.
  intros Hnd. cbn zeta.
  set (step := λ (nb : gmap Z Z) i,
         table_set nb (default 0 (zget P i) - 1)
           (zget (seqZ base (Z.of_nat (length P))) i)).
  assert (∀ t, (t ≤ length P)%nat →
    (∀ i x, (i < t)%nat → P !! i = Some x →
       foldl step nb0 (seqZ 0 (Z.of_nat t)) !! (x - 1) = Some (base + Z.of_nat i)) ∧
    (∀ k, (∀ i x, (i < t)%nat → P !! i = Some x → x - 1 ≠ k) →
       foldl step nb0 (seqZ 0 (Z.of_nat t)) !! k = nb0 !! k)) as H.
  { induction t as [|t IH]; intros Ht.
    { split; [intros; lia | done]. }
    destruct IH as [IH1 IH2]; [lia|].
    rewrite seqZ_S, foldl_snoc. rewrite Z.add_0_l.
    destruct (lookup_lt_is_Some_2 P t ltac:(lia)) as [xt Hxt].
    unfold step at 1 3. rewrite !zget_of_nat, Hxt, lookup_seqZ_lt by lia.
    cbn [default from_option table_set]. unfold id. split.
    - intros i x Hi Hx. destruct (decide (i = t)) as [->|Hne].
      + simplify_eq. by rewrite lookup_insert_eq.
      + rewrite lookup_insert_ne; [apply IH1; [lia | done]|].
        intros Heq. apply Hne.
        apply (NoDup_lookup P i t x Hnd Hx). rewrite Hxt. f_equal. lia.
    - intros k Hk. rewrite lookup_insert_ne by (by apply (Hk t); [lia|]).
      apply IH2. intros i x Hi. apply Hk. lia. }
  destruct (H (length P) ltac:(lia)) as [H1 H2]. split.
  - intros i x Hx. apply H1; [by eapply lookup_lt_Some | done].
  - intros k Hk. apply H2. intros i x _ Hx. apply Hk. by eapply list_elem_of_lookup_2.
Qed.

Section Renumber.
Variables (n ROOT : Z) (e1 e2 : list Z).
Hypothesis edges : collapsed n ROOT e1 e2.
Hypothesis n_nonneg : 0 ≤ n.

Lemma internal_nodes_elem (x : Z) :
  x ∈ sorted_set (filter (λ val, n < val) e2) ↔ x ∈ e2 ∧ n < x.
Proof. rewrite sorted_set_elem_of, list_elem_of_filter. naive_solver. Qed.

Lemma internal_nodes_length :
  Z.of_nat (length (sorted_set (filter (λ val, n < val) e2)))
  = Z.of_nat (length e1) - n.
Proof.
  set (P := sorted_set (filter (λ val, n < val) e2)).
  assert (e2 ≡ₚ seqZ 1 n ++ P) as Hp.
  { apply NoDup_Permutation.
    - apply (co_children _ _ _ _ edges).
    - apply NoDup_app. split; [apply seqZ_NoDup|]. split; [|apply sorted_set_NoDup].
      intros x Hx%elem_of_seqZ [_ ?]%internal_nodes_elem. lia.
    - intros x. rewrite elem_of_app, elem_of_seqZ. unfold P.
      rewrite internal_nodes_elem. split.
      + intros Hx. pose proof (co_positive _ _ _ _ edges x Hx).
        destruct (decide (x ≤ n)); [left; lia | right; split; [done | lia]].
      + intros [Hx|[Hx _]]; [|done]. apply (co_tips _ _ _ _ edges). lia. }
  rewrite (co_length _ _ _ _ edges), Hp, length_app, length_seqZ. lia.
Qed.

Lemma old_nodes_max : ∃ m, js_max (uniq e1) = Some m ∧ ¬ m < 0.
Proof.
  pose proof (co_root _ _ _ _ edges) as Hroot.
  destruct (js_max_is_Some (uniq e1)) as [m Hm].
  { intros Hnil. apply (proj2 (uniq_elem_of _ _)) in Hroot. rewrite Hnil in Hroot.
    by apply elem_of_nil in Hroot. }
  exists m. split; [done|]. destruct (js_max_spec _ _ Hm) as [Hin _].
  apply (proj1 (uniq_elem_of _ _)) in Hin.
  pose proof (co_parents _ _ _ _ edges m Hin). lia.
Qed.

(** Every node left has a new number, and among the new parents no id
    above [n] has exactly one edge. *)
Lemma renumber_spec (nb0 : gmap Z Z) :
  nb0 !! (ROOT - 1) = Some (n + 1) →
  let newNb :=
    foldl (λ nb i,
             table_set nb
               (default 0 (zget (sorted_set (filter (λ val, n < val) e2)) i) - 1)
               (zget (seqZ (n + 2) (Z.of_nat (length e1) - n + 1 - 1)) i))
          nb0
          (seqZ 0 (Z.of_nat (length (sorted_set (filter (λ val, n < val) e2))))) in
  ∃ e1' e2',
    map_defined (λ val, if decide (n < val) then newNb !! (val - 1) else Some val) e2
    = Ok e2' ∧
    map_defined (λ val, newNb !! (val - 1)) e1 = Ok e1' ∧
    length e1' = length e2' ∧ no_single_parent n e1'.
Proof.
  intros Hnb0. set (P := sorted_set (filter (λ val, n < val) e2)).
  replace (Z.of_nat (length e1) - n + 1 - 1) with (Z.of_nat (length P))
    by (unfold P; rewrite internal_nodes_length; lia).
  destruct (renumber_table P nb0 (n + 2) (sorted_set_NoDup _)) as [Hnew Hold].
  cbn zeta in Hnew, Hold |- *.
  set (newNb := foldl _ nb0 _) in *.
  assert (newNb !! (ROOT - 1) = Some (n + 1)) as Hroot.
  { rewrite Hold; [done|]. intros x [Hx _]%internal_nodes_elem Heq.
    apply (co_root_child _ _ _ _ edges). by replace ROOT with x by lia. }
  assert (∀ x, x ∈ e2 → n < x →
            ∃ i, P !! i = Some x ∧ newNb !! (x - 1) = Some (n + 2 + Z.of_nat i))
    as Hint.
  { intros x Hx Hlt.
    assert (x ∈ P) as [i Hi]%list_elem_of_lookup_1 by (by apply internal_nodes_elem).
    exists i. split; [done|]. by apply Hnew. }
  assert (∀ p, p ∈ e1 → p = ROOT ∧ newNb !! (p - 1) = Some (n + 1) ∨
            ∃ i, P !! i = Some p ∧ newNb !! (p - 1) = Some (n + 2 + Z.of_nat i))
    as Hpar.
  { intros p Hp. destruct (co_connected _ _ _ _ edges p Hp) as [->|Hc]; [by left|].
    right. apply Hint; [done|]. by apply (co_parents _ _ _ _ edges). }
  destruct (map_defined_Forall2
              (λ val, if decide (n < val) then newNb !! (val - 1) else Some val) e2)
    as (e2' & He2 & Hall2).
  { intros x Hx. case_decide; [|by eexists].
    destruct (Hint x Hx) as (i & _ & ->); [done | by eexists]. }
  destruct (map_defined_Forall2 (λ val, newNb !! (val - 1)) e1)
    as (e1' & He1 & Hall1).
  { intros p [[_ ->]|(i & _ & ->)]%Hpar; by eexists. }
  exists e1', e2'. split; [done|]. split; [done|]. split.
  { rewrite <- (Forall2_length _ _ _ Hall1), <- (Forall2_length _ _ _ Hall2).
    apply (co_length _ _ _ _ edges). }
  pose proof (co_root _ _ _ _ edges) as Hin.
  destruct (js_max_is_Some e1') as [m Hm].
  { intros ->. apply Forall2_nil_inv_r in Hall1. subst e1. by apply elem_of_nil in Hin. }
  exists m. split; [done|]. destruct (js_max_spec _ _ Hm) as [Hmin Hmax].
  assert (∀ y, y ∈ e1' → y = n + 1 ∨
            ∃ i x, P !! i = Some x ∧ y = n + 2 + Z.of_nat i) as Himg.
  { intros y [k Hk]%list_elem_of_lookup_1.
    destruct (Forall2_lookup_r _ _ _ _ _ Hall1 Hk) as (p & Hp & Hpy).
    apply list_elem_of_lookup_2 in Hp.
    destruct (Hpar p Hp) as [[_ Heq]|(i & Hi & Heq)]; rewrite Heq in Hpy; simplify_eq.
    - by left.
    - right. by exists i, p. }
  split.
  { destruct (Himg m Hmin) as [->|(i & x & _ & ->)]; lia. }
  intros v Hv.
  assert (2 ≤ occurrences ROOT e1) as Hroot2 by (by apply (co_branching _ _ _ _ edges)).
  destruct (decide (v = n + 1)) as [->|Hne].
  { pose proof (Forall2_occurrences _ _ _ ROOT (n + 1) Hall1 Hroot). lia. }
  assert (∃ i x, P !! i = Some x ∧ v = n + 2 + Z.of_nat i) as (i & x & Hi & ->).
  { destruct (Himg m Hmin) as [->|(im & xm & Him & ->)]; [lia|].
    destruct (lookup_lt_is_Some_2 P (Z.to_nat (v - n - 2))) as [x Hx].
    { apply lookup_lt_Some in Him. lia. }
    exists (Z.to_nat (v - n - 2)), x. split; [done | lia]. }
  assert (x ∈ P) as [Hx Hlt]%internal_nodes_elem by (by eapply list_elem_of_lookup_2).
  pose proof (co_internal _ _ _ _ edges x Hx Hlt) as Hxp.
  pose proof (co_branching _ _ _ _ edges x Hxp).
  pose proof (Forall2_occurrences _ _ _ x (n + 2 + Z.of_nat i) Hall1
                (Hnew i x Hi)). lia.
Qed.
End Renumber.

(** ** collapseSingles: twice is once *)

(** A table that passes the fast-path test has no count of one above
    [n]. *)
Lemma all_internal_multiple_true (n : Z) (tab : list Z) (i c : Z) :
  0 ≤ n → all_internal_multiple n tab = true →
  n < i → zget tab i = Some c → 2 ≤ c.
Proof.
  intros Hn Hall Hi [_ Hc]%zget_Some. unfold all_internal_multiple in Hall.
  rewrite forallb_forall in Hall. specialize (Hall c).
  rewrite bool_decide_eq_true in Hall. assert (¬ c ≤ 1); [|lia].
  apply Hall, list_elem_of_In, list_elem_of_lookup.
  exists (Z.to_nat i - Z.to_nat (n + 1))%nat. rewrite lookup_drop, <- Hc. f_equal. lia.
Qed.

Section Idempotent.
Context {len : Type}.
Variables (ladd : len → len → len) (lzero undef : len).

(** A tree that [reorder] leaves as it is and whose parents all have two
    edges or more is returned as it is. *)
Lemma collapseSingles_fast (R : Phylo len) (rs : list (Z * Z)) (tab : list Z)
    (keepRootLength : bool) :
  reorder undef R Cladewise = Ok R → edge R = Some <$> rs →
  tabulate rs.*1 = Ok tab →
  all_internal_multiple (Z.of_nat (length (tipLabel R))) tab = true →
  collapseSingles ladd lzero undef R keepRootLength = Ok R.
Proof.
  intros Hre Hedge Htab Hall. unfold collapseSingles.
  case_decide; [done|]. rewrite Hre. cbn [mbind result_mbind result_bind].
  rewrite Hedge, rows_Some. cbn [mbind result_mbind result_bind].
  rewrite Htab. cbn [mbind result_mbind result_bind]. by rewrite Hall.
Qed.
End Idempotent.

Section Collapse.
Context {len : Type}.
Variables (ladd : len → len → len) (lzero undef : len).
Variables (T : Phylo len) (rs : list (Z * Z)).
Hypothesis valid : valid_tree T rs.
Let n := Z.of_nat (length (tipLabel T)).
Hypothesis tag_sound : order T = Some Cladewise → topo [n + 1] rs.

(** From two tips on, [collapseSingles] returns a tree without singleton
    nodes, which a second call returns as it is. *)
Lemma collapse_two_tips (keepRootLength : bool) :
  2 ≤ n →
  ∃ R rs', collapseSingles ladd lzero undef T keepRootLength = Ok R ∧
    tipLabel R = tipLabel T ∧ edge R = Some <$> rs' ∧
    (∀ v, n < v → occurrences v rs'.*1 ≠ 1) ∧
    ∀ b, collapseSingles ladd lzero undef R b = Ok R.
Proof.
  intros Hn.
  destruct (reorder_cladewise_valid undef T rs valid ltac:(fold n; lia) tag_sound)
    as (T' & rs0 & Hre & Hedge & Hperm & Htips & Hre' & Hord).
  fold n in Hord. destruct (Hord Hn) as [Htopo Htag]. clear Hord.
  pose proof (valid_rooted_edges T rs valid ltac:(fold n; lia) rs0 Hperm) as Hedges.
  fold n in Hedges.
  unfold collapseSingles. fold n. rewrite decide_False by lia.
  rewrite Hre. cbn [mbind result_mbind result_bind].
  rewrite Hedge, rows_Some. cbn [mbind result_mbind result_bind].
  assert (rs0.*1 ≠ []) as Hne.
  { destruct (valid_some_edge T rs valid ltac:(fold n; lia)) as [Hne _].
    intros Hnil%fmap_nil_inv. subst rs0. by apply Permutation_nil_l in Hperm. }
  destruct (js_max_is_Some _ Hne) as [m Hm].
  destruct (js_max_spec _ _ Hm) as [Hmin Hmax].
  pose proof (re_parents _ _ _ _ Hedges m Hmin) as Hmn.
  destruct (tabulate_Ok _ m Hm ltac:(lia)) as (tab & Htab & Hlen & Hget).
  rewrite Htab. cbn [mbind result_mbind result_bind].
  destruct (all_internal_multiple n tab) eqn:Hall.
  { exists T', rs0. split; [done|]. split; [done|]. split; [done|]. split.
    - intros v Hv. destruct (decide (v ≤ m)).
      + pose proof (all_internal_multiple_true n tab v _ ltac:(lia) Hall Hv
                      (Hget v ltac:(lia))). lia.
      + rewrite (occurrences_above_max v m) by (done || lia). lia.
    - intros b. apply (collapseSingles_fast _ _ _ _ rs0 tab); try done.
      by rewrite Htips. }
  assert (order T' = Some Cladewise) as Hcw.
  { destruct Htag as [|[-> HN]]; [done|]. exfalso.
    assert (∀ p, p ∈ rs0.*1 → p = n + 1) as Hall1.
    { intros p. rewrite Hperm. intros Hp%(vt_parents _ _ valid). fold n in Hp. lia. }
    destruct (fast_path n rs0.*1 ltac:(lia)) as (tab' & Htab' & Hall').
    - exists m. split; [done|]. split; [lia|]. intros v Hv.
      pose proof (Hall1 m Hmin). assert (v = n + 1) as -> by lia.
      rewrite occurrences_all by done. rewrite length_fmap, Hperm.
      pose proof (vt_size _ _ valid) as Hsize. fold n in Hsize. lia.
    - congruence. }
  clear Htag.
  pose proof (strip_basal_spec ladd undef n ltac:(lia) (length rs0.*1)
                (bool_decide (is_Some (edgeLength T')))
                (bool_decide (is_Some (edgeLength T')) && keepRootLength)
                rs0.*1 rs0.*2 (default [] (edgeLength T')) (n + 1) lzero
                Hedges ltac:(lia)) as Hstrip.
  destruct (strip_basal _ _ _ _ _ _) as [[[[[e1 e2] el] ROOT] ROOTEDGE]|e|];
    [|lia|done].
  destruct Hstrip as (Hre1 & Hocc & Ht & _).
  rewrite zip_fst_snd in Ht. specialize (Ht Htopo).
  cbn [mbind result_mbind result_bind].
  assert (e1 ≠ []) as Hne1.
  { intros ->. rewrite occurrences_nil in Hocc. lia. }
  destruct (js_max_is_Some _ Hne1) as [m1 Hm1].
  destruct (js_max_spec _ _ Hm1) as [Hmin1 Hmax1].
  pose proof (re_parents _ _ _ _ Hre1 m1 Hmin1) as Hmn1.
  destruct (tabulate_Ok _ m1 Hm1 ltac:(lia)) as (tabE1 & Htab1 & Hlen1 & Hget1).
  rewrite Htab1. cbn [mbind result_mbind result_bind].
  set (ii := merge_sort Z.ge (omap (λ s, index_of s e1) (find_singles n tabE1))).
  destruct (single_rows_sorted n e1 tabE1 m1 ltac:(lia) Hm1 Hlen1 Hget1)
    as [Hsorted Hnd]. fold ii in Hsorted, Hnd.
  pose proof (single_rows_spliceable n ROOT e1 e2 tabE1 m1 Hre1 ltac:(lia) Hocc
                Ht Hm1 Hlen1 Hget1) as Hspl. fold ii in Hspl.
  pose proof (single_rows_parents n e1 tabE1 m1 ltac:(lia) Hm1 Hlen1 Hget1)
    as HSl. fold ii in HSl.
  destruct (splice_spec e1 e2 (re_length _ _ _ _ Hre1) ii Hsorted Hnd Hspl)
    as (_ & _ & Hp2 & Hp1).
  destruct (foldl (splice_step _ _ _) _ _) as [e2s els] eqn:Hfold.
  pose proof (splice_step_children e1 e2 ladd undef
                (bool_decide (is_Some (edgeLength T'))) ii e2 el) as Hch.
  rewrite Hfold in Hch. cbn [fst] in Hch. subst e2s.
  change (foldl (λ (l : list Z) (idx : Z), delete (Z.to_nat idx) l) e1 ii)
    with (remove_rows ii e1).
  change (foldl (λ (l : list Z) (idx : Z), delete (Z.to_nat idx) l)
            (foldl (splice_children e1 e2) e2 ii) ii)
    with (remove_rows ii (foldl (splice_children e1 e2) e2 ii)).
  set (e1c := remove_rows ii e1) in *.
  set (e2c := remove_rows ii (foldl (splice_children e1 e2) e2 ii)) in *.
  assert (collapsed n ROOT e1c e2c) as Hco.
  { apply (collapsed_after_splice n ROOT e1 e2 e1c e2c (omap (zget e1) ii));
      try done.
    - rewrite HSl. apply NoDup_filter, seqZ_NoDup.
    - intros s. rewrite HSl.
      apply (find_singles_spec n m1 e1 tabE1); (done || lia). }
  destruct (old_nodes_max n ROOT e1c e2c Hco ltac:(lia)) as (mo & Hmo & Hmo0).
  rewrite Hmo, decide_False by done. cbn [mbind result_mbind result_bind].
  destruct (renumber_spec n ROOT e1c e2c Hco ltac:(lia)
              (<[ROOT - 1 := n + 1]> (zero_table mo)) (lookup_insert_eq _ _ _))
    as (e1' & e2' & He2 & He1 & Hlen' & Hns).
  cbn zeta in He2, He1. rewrite He2. cbn [mbind result_mbind result_bind].
  rewrite He1. cbn [mbind result_mbind result_bind].
  eexists _, (zip e1' e2'). split; [done|]. split; [exact Htips|].
  split; [done|]. rewrite fst_zip by lia.
  destruct (fast_path n e1' ltac:(lia) Hns) as (tab' & Htab' & Hall').
  split.
  - destruct Hns as (m' & Hm' & _ & Hns). intros v Hv. destruct (decide (v ≤ m')).
    + specialize (Hns v ltac:(lia)). lia.
    + rewrite (occurrences_above_max v m') by (done || lia). lia.
  - intros b. apply (collapseSingles_fast _ _ _ _ (zip e1' e2') tab').
    + unfold reorder, _reorder_ape. cbn [tipLabel order]. rewrite Htips. fold n.
      rewrite decide_False by lia. by rewrite decide_True.
    + done.
    + by rewrite fst_zip by lia.
    + cbn [tipLabel]. by rewrite Htips.
Qed.

Lemma one_tip_parents_NoDup : n = 1 → NoDup rs.*1.
Proof.
  intros Hn. pose proof (vt_size _ _ valid) as Hsize. fold n in Hsize.
  assert (seqZ 2 (Nnode T) ≡ₚ rs.*1) as <-; [|apply seqZ_NoDup].
  apply submseteq_length_Permutation.
  - apply NoDup_submseteq; [apply seqZ_NoDup|].
    intros x Hx%elem_of_seqZ. apply (vt_internal _ _ valid). fold n. lia.
  - rewrite length_fmap, length_seqZ. lia.
Qed.

(** With one tip every internal node is a singleton: the basal loop
    removes all the edges and [tabulate] throws. *)
Lemma collapse_one_tip (keepRootLength : bool) :
  n = 1 → collapseSingles ladd lzero undef T keepRootLength = Throw RangeError.
Proof.
  intros Hn. pose proof (one_tip_parents_NoDup Hn) as Hnd.
  pose proof (valid_rooted_edges T rs valid ltac:(fold n; lia) rs
                (reflexivity _)) as Hedges.
  fold n in Hedges.
  unfold collapseSingles, reorder. fold n. rewrite decide_False by lia.
  rewrite decide_True by lia. cbn [mbind result_mbind result_bind].
  rewrite (vt_rows _ _ valid), rows_Some. cbn [mbind result_mbind result_bind].
  destruct (valid_some_edge T rs valid ltac:(fold n; lia)) as [Hne _].
  destruct (js_max_is_Some rs.*1) as [m Hm]; [by destruct rs|].
  destruct (js_max_spec _ _ Hm) as [Hmin Hmax].
  pose proof (re_parents _ _ _ _ Hedges m Hmin) as Hmn.
  destruct (tabulate_Ok _ m Hm ltac:(lia)) as (tab & Htab & Hlen & Hget).
  rewrite Htab. cbn [mbind result_mbind result_bind].
  destruct (all_internal_multiple n tab) eqn:Hall.
  { pose proof (all_internal_multiple_true n tab m _ ltac:(lia) Hall Hmn
                  (Hget m ltac:(lia))).
    pose proof (occurrences_NoDup _ _ Hnd Hmin). lia. }
  pose proof (strip_basal_spec ladd undef n ltac:(lia) (length rs.*1)
                (bool_decide (is_Some (edgeLength T)))
                (bool_decide (is_Some (edgeLength T)) && keepRootLength)
                rs.*1 rs.*2 (default [] (edgeLength T)) (n + 1) lzero
                Hedges ltac:(lia)) as Hstrip.
  destruct (strip_basal _ _ _ _ _ _) as [[[[[e1 e2] el] ROOT] ROOTEDGE]|e|];
    [|by destruct Hstrip as [-> _]|done].
  destruct Hstrip as (_ & Hocc & _ & Hnd'). specialize (Hnd' Hnd).
  assert (ROOT ∈ e1) as Hin by (apply occurrences_pos; lia).
  pose proof (occurrences_NoDup _ _ Hnd' Hin). lia.
Qed.
End Collapse.

(** [C5]  On a valid tree [T] whose cladewise tag, when set, is truthful
    (every edge comes after the edge into its parent):
    - with two tips or more, [collapseSingles] returns a tree [R] with the
      tips of [T] in which no internal node is the parent of exactly one
      edge, and [collapseSingles] applied to [R] takes the fast path and
      returns [R] itself: applying it twice equals applying it once;
    - with one tip, [collapseSingles] returns no tree: the basal loop strips
      every edge and [tabulate] of the empty parent column throws a
      [RangeError]. *)
Theorem collapseSingles_idempotent_above_one_tip {len}
    (ladd : len → len → len) (lzero undef : len)
    (T : Phylo len) (rs : list (Z * Z)) (keepRootLength : bool) :
  valid_tree T rs →
  let n := Z.of_nat (length (tipLabel T)) in
  (order T = Some Cladewise → topo [n + 1] rs) →
  (2 ≤ n →
   ∃ R rs', collapseSingles ladd lzero undef T keepRootLength = Ok R ∧
     tipLabel R = tipLabel T ∧ edge R = Some <$> rs' ∧
     (∀ v, n < v → occurrences v rs'.*1 ≠ 1) ∧
     ∀ b, collapseSingles ladd lzero undef R b = Ok R) ∧
  (n = 1 → collapseSingles ladd lzero undef T keepRootLength = Throw RangeError).
Proof.
  intros Hvalid n Htag. split.
  - by apply (collapse_two_tips ladd lzero undef T rs).
  - by apply (collapse_one_tip ladd lzero undef T rs).
Qed.

(** ** reorder to cladewise keeps the tree *)

(** The invariants do not depend on the order of the edges. *)
Lemma valid_tree_Permutation {len} (T T' : Phylo len) (rs rs' : list (Z * Z)) :
  valid_tree T rs → rs' ≡ₚ rs → edge T' = Some <$> rs' →
  tipLabel T' = tipLabel T → Nnode T' = Nnode T →
  (∀ el, edgeLength T' = Some el → length el = length rs') →
  valid_tree T' rs'.
Proof.
  intros Hv Hp Hedge Htip HN Hel. split; rewrite ?Htip, ?HN.
  - done.
  - rewrite Hp. apply (vt_size _ _ Hv).
  - destruct (vt_depth _ _ Hv) as (depth & H0 & Hd). exists depth.
    split; [done|]. intros p c. rewrite Hp. apply Hd.
  - intros v Hv1 Hv2. rewrite (occurrences_Permutation v rs'.*2 rs.*2) by (by rewrite Hp).
    by apply (vt_child_once _ _ Hv).
  - intros c. rewrite Hp. apply (vt_children _ _ Hv).
  - rewrite Hp. apply (vt_root _ _ Hv).
  - intros p. rewrite Hp. apply (vt_parents _ _ Hv).
  - intros v Hin. rewrite Hp. by apply (vt_internal _ _ Hv).
  - done.
Qed.

Lemma omap_zget_offset {A} (pre l : list A) :
  omap (zget (pre ++ l)) (seqZ (Z.of_nat (length pre)) (Z.of_nat (length l))) = l.
Proof.
  revert pre. induction l as [|x l IH]; intros pre; [done|].
  cbn [length]. rewrite Nat2Z.inj_succ, seqZ_cons by lia.
  cbn [omap list_omap].
  rewrite zget_of_nat, list_lookup_middle by done. f_equal.
  specialize (IH (pre ++ [x])). rewrite <- app_assoc, length_app in IH.
  cbn [app length] in IH.
  replace (Z.succ (Z.of_nat (length pre))) with (Z.of_nat (length pre + 1)) by lia.
  by rewrite Z.pred_succ.
Qed.

Lemma omap_zget_seqZ {A} (l : list A) :
  omap (zget l) (seqZ 0 (Z.of_nat (length l))) = l.
Proof. apply (omap_zget_offset [] l). Qed.

(** Rows and lengths picked at the same indices stay paired. *)
Lemma pick_zip {len} (undef : len) (rs : list (Z * Z)) (el : list len) (s : list Z) :
  length el = length rs →
  (∀ i, i ∈ s → 0 ≤ i < Z.of_nat (length rs)) →
  zip (rows_at rs s) (pick_lengths undef el s) = omap (zget (zip rs el)) s.
Proof.
  intros Hlen. induction s as [|i s IH]; intros Hs; [done|].
  destruct (Hs i ltac:(by left)) as [Hi0 Hi].
  destruct (zget_lt rs i Hi0 Hi) as [r Hr].
  destruct (zget_lt el i Hi0 ltac:(lia)) as [x Hx].
  unfold rows_at, pick_lengths in *. csimpl. rewrite Hr, Hx. csimpl.
  assert (zget (zip rs el) i = Some (r, x)) as ->.
  { apply zget_Some in Hr as [_ Hr]. apply zget_Some in Hx as [_ Hx].
    rewrite zget_nonneg by done. by apply lookup_zip_Some. }
  f_equal. apply IH. intros; apply Hs; by right.
Qed.

(** ** reorder, cladewise: the order is depth first *)

Lemma cladewise_from_app (v : Z) (es1 es2 : list (Z * Z)) :
  cladewise_from v es1 → cladewise_from v es2 → cladewise_from v (es1 ++ es2).
Proof.
  induction 1 as [|v c sub rest Hsub _ Hrest IH]; intros H2; [done|].
  cbn [app]. rewrite <- app_assoc. constructor; [done | by apply IH].
Qed.

Lemma cladewise_from_topo (v : Z) (es : list (Z * Z)) (seen : list Z) :
  cladewise_from v es → v ∈ seen → topo seen es.
Proof.
  intros H. revert seen. induction H as [|v c sub rest _ IHsub _ IHrest];
    intros seen Hv; [done|].
  split; [done|]. apply topo_app.
  - apply IHsub. by left.
  - apply IHrest. apply elem_of_app. right. by right.
Qed.

Lemma group_elem (e1 : list Z) (k v : Z) : k ∈ group e1 v → zget e1 k = Some v.
Proof. unfold group. by intros [? _]%list_elem_of_filter. Qed.

Lemma walk_cladewise (nTips : Z) (rs : list (Z * Z)) (f : nat) (v : Z) (s : list Z) :
  walk nTips rs.*1 rs.*2 f v = Some s → cladewise_from v (rows_at rs s).
Proof.
  revert v s. induction f as [|f IH]; intros v s; [done|].
  cbn [walk]. intros Hs. apply fmap_Some in Hs as (ss & Hss & ->).
  pose proof (λ k, group_elem rs.*1 k v) as Hg. revert ss Hss Hg.
  generalize (group rs.*1 v). intros g.
  induction g as [|k g IHg]; intros ss Hss Hg.
  { apply mapM_Some in Hss. apply Forall2_nil_inv_l in Hss as ->. constructor. }
  apply mapM_Some in Hss. apply Forall2_cons_inv_l in Hss as (blk & ss' & Hblk & Hss & ->).
  apply mapM_Some in Hss. cbn [mjoin list_join]. rewrite rows_at_app.
  specialize (IHg ss' Hss ltac:(intros; apply Hg; by right)).
  pose proof (Hg k ltac:(by left)) as Hk. rewrite zget_fst in Hk.
  destruct (zget rs k) as [[p c]|] eqn:Hrow; [|done].
  cbn in Hk. injection Hk as ->.
  rewrite zget_snd, Hrow in Hblk. cbn in Hblk. case_decide.
  - apply fmap_Some in Hblk as (t & Ht & ->).
    rewrite (rows_at_cons rs k t (v, c) Hrow). cbn [app].
    constructor; [by apply IH | done].
  - injection Hblk as <-. rewrite (rows_at_cons rs k [] (v, c) Hrow).
    apply (cladewise_edge v c [] _); [constructor | done].
Qed.

Lemma reorderRcpp_walk (nTips root : Z) (rs : list (Z * Z)) (s : list Z) :
  (∀ p, p ∈ rs.*1 → nTips < p) → rs ≠ [] →
  walk nTips rs.*1 rs.*2 (S (length rs)) root = Some s →
  length s = length rs →
  reorderRcpp (Some <$> rs) nTips root 1 = Ok s.
Proof.
  intros Hpar Hne Hwalk Hlen.
  unfold reorderRcpp. rewrite rows_Some. cbn [mbind result_mbind result_bind].
  destruct (js_max_is_Some rs.*1) as [m Hm]; [by destruct rs|].
  rewrite Hm. destruct (js_max_spec _ _ Hm) as [Hin Hmax].
  pose proof (Hpar m Hin) as Hlt.
  cbn [fmap option_fmap option_map new_array].
  rewrite !decide_False by lia. cbn [mbind result_mbind result_bind].
  rewrite decide_True by done.
  rewrite Nat2Z.id.
  pose proof (bucket_group nTips (m - nTips) rs.*1) as Hb. cbn zeta in Hb.
  rewrite length_fmap in Hb.
  assert (∀ p, p ∈ rs.*1 → nTips < p ≤ nTips + (m - nTips)) as Hrange.
  { intros p Hp. split; [by apply Hpar|]. specialize (Hmax p Hp). lia. }
  rewrite (foo_walk nTips rs.*1 rs.*2 _ _ _ (Hb Hrange ltac:(lia))), Hwalk.
  change 0 with (Z.of_nat 0). rewrite store_inside.
  2:{ rewrite length_replicate. lia. }
  cbn [mbind result_mbind result_bind fst take app].
  rewrite drop_ge, app_nil_r; [done|].
  rewrite length_replicate. lia.
Qed.

Lemma cladewise_from_star (v : Z) (rs : list (Z * Z)) :
  (∀ p, p ∈ rs.*1 → p = v) → cladewise_from v rs.
Proof.
  induction rs as [|[p c] rs IH]; intros H; [constructor|].
  rewrite (H p) by (by left).
  apply (cladewise_edge v c []); [constructor|].
  apply IH. intros q Hq. apply H. by right.
Qed.

Section ReorderCladewiseRun.
Context {len : Type}.
Variables (undef : len) (T : Phylo len) (rs : list (Z * Z)).
Hypothesis valid : valid_tree T rs.
Let n := Z.of_nat (length (tipLabel T)).

(** From two tips on, a tree with more than one internal node that is not
    tagged cladewise goes through [reorderRcpp]: the new order is the walk
    from the root. *)
Lemma reorder_cladewise_run :
  2 ≤ n → order T ≠ Some Cladewise → Nnode T ≠ 1 →
  ∃ s, walk n rs.*1 rs.*2 (S (length rs)) (n + 1) = Some s ∧
       s ≡ₚ seqZ 0 (Z.of_nat (length rs)) ∧
       reorder undef T Cladewise =
         Ok {| edge := Some <$> rows_at rs s;
               edgeLength := (λ el, pick_lengths undef el s) <$> edgeLength T;
               tipLabel := tipLabel T;
               nodeLabel := nodeLabel T;
               Nnode := Nnode T;
               rootEdge := rootEdge T;
               order := Some Cladewise |}.
Proof.
  intros Hn Hord HN.
  destruct (vt_depth _ _ valid) as (depth & Hd0 & Hd). fold n in Hd0.
  destruct (valid_some_edge T rs valid ltac:(fold n; lia)) as [Hne _].
  assert (∀ p, p ∈ rs.*1 → n < p) as Hpar.
  { intros p Hp%(vt_parents _ _ valid). fold n in Hp. lia. }
  destruct (walk_root n (n + 1) rs depth (valid_NoDup T rs valid) Hd0 Hd
              (valid_connected T rs valid ltac:(fold n; lia)) Hpar)
    as (s & Hwalk & Hperm & _).
  exists s. split; [done|]. split; [done|].
  unfold reorder. fold n. rewrite decide_False by lia.
  unfold _reorder_ape. rewrite !decide_False by done.
  rewrite (vt_rows _ _ valid). cbn [order_code].
  rewrite (reorderRcpp_walk n (n + 1) rs s Hpar Hne Hwalk)
    by (by rewrite Hperm, length_seqZ, Nat2Z.id).
  cbn [mbind result_mbind result_bind]. do 2 f_equal.
  apply pick_rows_rows_at. intros i. rewrite Hperm, elem_of_seqZ.
  intros [? ?]. apply zget_lt; lia.
Qed.
End ReorderCladewiseRun.

(** ** reorder, cladewise: siblings keep their order *)

Lemma rows_at_filter (rs : list (Z * Z)) (v : Z) (s : list Z) :
  filter (λ e, e.1 = v) (rows_at rs s)
  = rows_at rs (filter (λ k, zget rs.*1 k = Some v) s).
Proof.
  unfold rows_at. induction s as [|k s IH]; [done|].
  rewrite filter_cons. cbn [omap list_omap]. rewrite zget_fst.
  destruct (zget rs k) as [[p c]|] eqn:Hk; cbn [fmap option_fmap option_map].
  - rewrite filter_cons. cbn [fst]. case_decide as Hp.
    + subst p. rewrite decide_True by done. cbn [omap list_omap].
      by rewrite Hk, IH.
    + rewrite decide_False by congruence. done.
  - by rewrite decide_False.
Qed.

Lemma rows_at_group (rs : list (Z * Z)) (v : Z) :
  rows_at rs (group rs.*1 v) = filter (λ e, e.1 = v) rs.
Proof.
  unfold group. rewrite <- rows_at_filter, length_fmap. by rewrite rows_at_seqZ.
Qed.

Lemma NoDup_mjoin_Forall {A} (ls : list (list A)) :
  NoDup (mjoin ls) → Forall NoDup ls.
Proof.
  induction ls as [|l ls IH]; [constructor|].
  cbn [mjoin list_join]. intros (H1 & _ & H2)%NoDup_app. constructor; auto.
Qed.

(** The walk stores the group of a node in one piece. *)
Lemma walk_groups (nTips : Z) (rs : list (Z * Z)) (f : nat) (u : Z) (s : list Z) (v : Z) :
  walk nTips rs.*1 rs.*2 f u = Some s → NoDup s →
  filter (λ k, zget rs.*1 k = Some v) s = [] ∨
  filter (λ k, zget rs.*1 k = Some v) s = group rs.*1 v.
Proof.
  revert u s. induction f as [|f IH]; intros u s; [done|].
  cbn [walk]. intros Hs. apply fmap_Some in Hs as (ss & Hss & ->).
  apply mapM_Some in Hss. intros Hnd.
  set (P := λ k, zget rs.*1 k = Some v).
  pose proof (NoDup_mjoin_Forall _ Hnd) as Hnds.
  assert (Forall2 (λ k blk, ∃ t, blk = k :: t ∧ NoDup blk ∧
                     (filter P t = [] ∨ filter P t = group rs.*1 v))
            (group rs.*1 u) ss) as Hblocks.
  { clear Hnd. revert Hnds. induction Hss as [|k blk g ss' Hblk _ IHss];
      intros Hnds; [constructor|].
    apply Forall_cons in Hnds as [Hb Hnds]. constructor; [|by apply IHss].
    destruct (zget rs.*2 k) as [c|]; [case_decide|].
    - apply fmap_Some in Hblk as (t & Ht & ->). exists t.
      split; [done|]. split; [done|]. apply (IH c t Ht).
      by apply NoDup_cons in Hb as [_ ?].
    - injection Hblk as <-. exists []. split; [done|]. split; [done|]. by left.
    - injection Hblk as <-. exists []. split; [done|]. split; [done|]. by left. }
  clear Hss IH Hnds. fold P.
  destruct (decide (v = u)) as [->|Hvu].
  - right. clear Hnd.
    assert (∀ g, Forall2 (λ k blk, ∃ t, blk = k :: t ∧ NoDup blk ∧
                   (filter P t = [] ∨ filter P t = group rs.*1 u)) g ss →
                 (∀ k, k ∈ g → P k ∧ k ∈ group rs.*1 u) →
                 filter P (mjoin ss) = g) as Hgen.
    { clear Hblocks. intros g Hblocks.
      induction Hblocks as [|k blk g ss' (t & -> & Hb & Ht) _ IHb]; [done|].
      intros Hg. change (mjoin ((k :: t) :: ss')) with ((k :: t) ++ mjoin ss').
      rewrite filter_app, filter_cons.
      destruct (Hg k ltac:(by left)) as [Hk Hin].
      rewrite decide_True by done. apply NoDup_cons in Hb as [Hkt _].
      destruct Ht as [Ht|Ht].
      + rewrite Ht. cbn [app]. f_equal. apply IHb. intros; apply Hg; by right.
      + exfalso. apply Hkt. rewrite <- Ht in Hin.
        by apply list_elem_of_filter in Hin as [_ ?]. }
    apply Hgen; [done|]. intros k Hk. split; [by apply group_elem | done].
  - assert (∀ k, k ∈ group rs.*1 u → ¬ P k) as Hg.
    { intros k Hk%group_elem. unfold P. rewrite Hk. congruence. }
    revert Hblocks Hg Hnd. generalize (group rs.*1 u) as g. intros g Hblocks.
    induction Hblocks as [|k blk g ss' (t & -> & Hb & Ht) _ IHb]; [by left|].
    intros Hg. change (mjoin ((k :: t) :: ss')) with ((k :: t) ++ mjoin ss').
    intros (_ & Hdisj & Hnd)%NoDup_app.
    rewrite filter_app, filter_cons.
    rewrite decide_False by (apply Hg; by left).
    destruct IHb as [Hr|Hr]; [intros; apply Hg; by right | done | |].
    + rewrite Hr, app_nil_r. done.
    + destruct Ht as [Ht|Ht]; [rewrite Ht; by right|].
      destruct (group rs.*1 v) as [|x G] eqn:HG.
      { left. by rewrite Ht, Hr. }
      exfalso. apply (Hdisj x).
      * right. assert (x ∈ filter P t) as Hx by (rewrite Ht; by left).
        by apply list_elem_of_filter in Hx as [_ ?].
      * assert (x ∈ filter P (mjoin ss')) as Hx by (rewrite Hr; by left).
        by apply list_elem_of_filter in Hx as [_ ?].
Qed.

Lemma walk_keeps_groups (nTips : Z) (rs : list (Z * Z)) (f : nat) (u : Z)
    (s : list Z) (v : Z) :
  walk nTips rs.*1 rs.*2 f u = Some s →
  s ≡ₚ seqZ 0 (Z.of_nat (length rs)) →
  filter (λ e, e.1 = v) (rows_at rs s) = filter (λ e, e.1 = v) rs.
Proof.
  intros Hwalk Hperm. rewrite rows_at_filter, <- rows_at_group. f_equal.
  assert (NoDup s) as Hnd by (rewrite Hperm; apply seqZ_NoDup).
  destruct (walk_groups nTips rs f u s v Hwalk Hnd) as [Hnil|Heq]; [|done].
  assert (filter (λ k, zget rs.*1 k = Some v) s ≡ₚ group rs.*1 v) as Hp.
  { unfold group. by rewrite Hperm, length_fmap. }
  rewrite Hnil in Hp |- *. by apply Permutation_nil_l in Hp.
Qed.

(** A tree that does not go through [reorderRcpp] is returned as it is. *)
Lemma reorder_cladewise_same {len} (undef : len) (T : Phylo len) :
  ¬ (2 ≤ Z.of_nat (length (tipLabel T)) ∧ order T ≠ Some Cladewise ∧ Nnode T ≠ 1) →
  reorder undef T Cladewise = Ok T.
Proof.
  intros Hno. unfold reorder. case_decide; [done|].
  unfold _reorder_ape. case_decide; [done|]. case_decide; [done|].
  exfalso. apply Hno. split; [lia | done].
Qed.

(** [X1]  [reorder] to cladewise on a valid tree returns a valid tree: the
    edges are those of the input in some order, every branch length stays
    with its edge, the tips, the node labels, [Nnode] and [rootEdge] are
    those of the input, and a second [reorder] returns the tree as it
    is. *)
Theorem reorder_cladewise_keeps_tree {len} (undef : len) (T : Phylo len)
    (rs : list (Z * Z)) :
  valid_tree T rs →
  ∃ T' rs', reorder undef T Cladewise = Ok T' ∧
    valid_tree T' rs' ∧ rs' ≡ₚ rs ∧
    tipLabel T' = tipLabel T ∧ nodeLabel T' = nodeLabel T ∧
    Nnode T' = Nnode T ∧ rootEdge T' = rootEdge T ∧
    match edgeLength T with
    | Some el => ∃ el', edgeLength T' = Some el' ∧ zip rs' el' ≡ₚ zip rs el
    | None => edgeLength T' = None
    end ∧
    reorder undef T' Cladewise = Ok T'.
Proof.
  intros valid. set (n := Z.of_nat (length (tipLabel T))).
  destruct (decide (2 ≤ n ∧ order T ≠ Some Cladewise ∧ Nnode T ≠ 1))
    as [(Hn & Hord & HN)|Hno].
  - destruct (reorder_cladewise_run undef T rs valid Hn Hord HN)
      as (s & _ & Hperm & Hre).
    assert (∀ i, i ∈ s → 0 ≤ i < Z.of_nat (length rs)) as Hrange.
    { intros i. rewrite Hperm, elem_of_seqZ. lia. }
    pose proof (rows_at_Permutation rs s Hperm) as Hp.
    eexists _, (rows_at rs s). split; [exact Hre|].
    cbn [tipLabel nodeLabel Nnode rootEdge edgeLength].
    split.
    { apply (valid_tree_Permutation T _ rs);
        cbn [edge tipLabel Nnode edgeLength]; try done.
      intros el'. destruct (edgeLength T) as [el|]; [|done]. intros [= <-].
      unfold pick_lengths, rows_at. rewrite length_fmap, Hp, Hperm, length_seqZ.
      lia. }
    split; [done|]. do 4 (split; [done|]). split.
    + destruct (edgeLength T) as [el|] eqn:Hel; [|done].
      eexists. split; [done|].
      pose proof (vt_lengths _ _ valid el Hel) as Hlen.
      rewrite (pick_zip undef rs el s Hlen Hrange), Hperm.
      replace (length rs) with (length (zip rs el))
        by (rewrite length_zip; lia).
      by rewrite omap_zget_seqZ.
    + apply reorder_cladewise_same. cbn [order]. by intros (_ & ? & _).
  - pose proof (reorder_cladewise_same undef T Hno) as Hre.
    exists T, rs. repeat (split; [done|]). split; [|done].
    destruct (edgeLength T) as [el|]; [by exists el | done].
Qed.

(** [X2]  From two tips on, [reorder] to cladewise of a valid tree that is
    not tagged cladewise yet returns the edges depth first from the root
    [n + 1]: every edge is followed by all the edges of its child's
    subtree, before the next edge out of the same node. *)
Theorem reorder_cladewise_depth_first {len} (undef : len) (T : Phylo len)
    (rs : list (Z * Z)) :
  valid_tree T rs →
  2 ≤ Z.of_nat (length (tipLabel T)) →
  order T ≠ Some Cladewise →
  ∃ T' rs', reorder undef T Cladewise = Ok T' ∧
            edge T' = Some <$> rs' ∧ rs' ≡ₚ rs ∧
            cladewise_from (Z.of_nat (length (tipLabel T)) + 1) rs'.
Proof.
  intros valid Hn Hord. destruct (decide (Nnode T = 1)) as [HN|HN].
  - exists T, rs. split.
    { apply reorder_cladewise_same. by intros (_ & _ & ?). }
    split; [apply (vt_rows _ _ valid)|]. split; [done|].
    apply cladewise_from_star. intros p Hp%(vt_parents _ _ valid). lia.
  - destruct (reorder_cladewise_run undef T rs valid Hn Hord HN)
      as (s & Hwalk & Hperm & Hre).
    eexists _, (rows_at rs s). split; [exact Hre|]. split; [done|].
    split; [by apply rows_at_Permutation|]. by eapply walk_cladewise.
Qed.

(** [X3]  [reorder] to cladewise of a valid tree keeps the edges out of
    each node in the order they have in the input: siblings are never
    swapped. *)
Theorem reorder_cladewise_keeps_sibling_order {len} (undef : len)
    (T : Phylo len) (rs : list (Z * Z)) :
  valid_tree T rs →
  ∃ T' rs', reorder undef T Cladewise = Ok T' ∧
            edge T' = Some <$> rs' ∧
            ∀ v, filter (λ e, e.1 = v) rs' = filter (λ e, e.1 = v) rs.
Proof.
  intros valid. set (n := Z.of_nat (length (tipLabel T))).
  destruct (decide (2 ≤ n ∧ order T ≠ Some Cladewise ∧ Nnode T ≠ 1))
    as [(Hn & Hord & HN)|Hno].
  - destruct (reorder_cladewise_run undef T rs valid Hn Hord HN)
      as (s & Hwalk & Hperm & Hre).
    eexists _, (rows_at rs s). split; [exact Hre|]. split; [done|].
    intros v. by eapply walk_keeps_groups.
  - exists T, rs. split; [by apply reorder_cladewise_same|].
    split; [apply (vt_rows _ _ valid) | done].
Qed.

(** ** hasSingles *)

Lemma existsb_single (tab : list Z) :
  existsb (λ count, bool_decide (count = 1)) tab = true ↔ 1 ∈ tab.
Proof.
  rewrite existsb_exists. split.
  - intros (x & Hx%list_elem_of_In & ->%bool_decide_eq_true). done.
  - intros H. exists 1. split; [by apply list_elem_of_In | by apply bool_decide_eq_true].
Qed.

Lemma hasSingles_spec {len} (T : Phylo len) (rs : list (Z * Z)) :
  edge T = Some <$> rs → (∀ p, p ∈ rs.*1 → 0 ≤ p) → rs ≠ [] →
  ∃ b, hasSingles T = Ok b ∧ (b = true ↔ ∃ v, occurrences v rs.*1 = 1).
Proof.
  intros Hedge Hpos Hne. unfold hasSingles. rewrite Hedge, rows_Some.
  cbn [mbind result_mbind result_bind].
  destruct (js_max_is_Some rs.*1) as [m Hm]; [by destruct rs|].
  destruct (js_max_spec _ _ Hm) as [Hin Hmax].
  destruct (tabulate_Ok _ m Hm (Hpos m Hin)) as (tab & Htab & Hlen & Hget).
  rewrite Htab. cbn [mbind result_mbind result_bind].
  eexists. split; [done|]. rewrite existsb_single. split.
  - intros [i Hi]%list_elem_of_lookup_1. exists (Z.of_nat i).
    apply lookup_lt_Some in Hi as Hlt.
    rewrite <- zget_of_nat, Hget in Hi by lia. by simplify_eq.
  - intros [v Hv]. assert (v ∈ rs.*1) as Hvin by (apply occurrences_pos; lia).
    apply (zget_elem_of _ v). rewrite Hget, Hv; [done|].
    split; [by apply Hpos | by apply Hmax].
Qed.


(** [reorder] to cladewise permutes the edges of a valid tree. *)
Lemma reorder_cladewise_edges {len} (undef : len) (T : Phylo len)
    (rs : list (Z * Z)) :
  valid_tree T rs →
  ∃ T' rs', reorder undef T Cladewise = Ok T' ∧
            edge T' = Some <$> rs' ∧ rs' ≡ₚ rs ∧ tipLabel T' = tipLabel T.
Proof.
  intros valid.
  destruct (decide (2 ≤ Z.of_nat (length (tipLabel T)) ∧
                    order T ≠ Some Cladewise ∧ Nnode T ≠ 1))
    as [(Hn & Hord & HN)|Hno].
  - destruct (reorder_cladewise_run undef T rs valid Hn Hord HN)
      as (s & _ & Hperm & Hre).
    eexists _, (rows_at rs s). split; [exact Hre|]. split; [done|].
    split; [by apply rows_at_Permutation | done].
  - exists T, rs. split; [by apply reorder_cladewise_same|].
    split; [apply (vt_rows _ _ valid) | done].
Qed.

(** [X5]  On a valid tree where [hasSingles] finds no singleton node,
    [collapseSingles] only reorders: it returns what [reorder] to cladewise
    returns. *)
Theorem collapseSingles_without_singles {len}
    (ladd : len → len → len) (lzero undef : len)
    (T : Phylo len) (rs : list (Z * Z)) (keepRootLength : bool) :
  valid_tree T rs →
  hasSingles T = Ok false →
  collapseSingles ladd lzero undef T keepRootLength
  = reorder undef T Cladewise.
Proof.
  intros valid Hhas. set (n := Z.of_nat (length (tipLabel T))).
  unfold collapseSingles. fold n. case_decide as Hn0.
  { symmetry. apply reorder_noop. right. right. lia. }
  destruct (reorder_cladewise_edges undef T rs valid)
    as (T' & rs' & Hre & Hedge' & Hperm & Htips).
  rewrite Hre. cbn [mbind result_mbind result_bind].
  rewrite Hedge', rows_Some. cbn [mbind result_mbind result_bind].
  assert (∀ p, p ∈ rs.*1 → 0 ≤ p) as Hpos.
  { intros p Hp%(vt_parents _ _ valid). lia. }
  destruct (valid_some_edge T rs valid ltac:(fold n; lia)) as [Hne _].
  destruct (hasSingles_spec T rs (vt_rows _ _ valid) Hpos Hne)
    as (b & Hb & Hiff).
  rewrite Hhas in Hb. simplify_eq.
  assert (rs'.*1 ≠ []) as Hne'.
  { intros Hnil%fmap_nil_inv. subst rs'. by apply Permutation_nil_l in Hperm. }
  destruct (js_max_is_Some _ Hne') as [m Hm].
  destruct (js_max_spec _ _ Hm) as [Hmin Hmax].
  assert (m ∈ rs.*1) as Hmin0 by (by rewrite <- Hperm).
  pose proof (vt_parents _ _ valid m Hmin0) as Hmn. fold n in Hmn.
  destruct (tabulate_Ok _ m Hm ltac:(lia)) as (tab & Htab & Hlen & Hget).
  rewrite Htab. cbn [mbind result_mbind result_bind].
  assert (all_internal_multiple n tab = true) as ->; [|done].
  unfold all_internal_multiple. apply forallb_forall.
  intros c [i Hi]%list_elem_of_In%list_elem_of_lookup_1.
  rewrite lookup_drop in Hi. apply lookup_lt_Some in Hi as Hlt.
  rewrite <- zget_of_nat, Hget in Hi by lia. simplify_eq.
  apply bool_decide_eq_true_2.
  set (v := Z.of_nat (Z.to_nat (n + 1) + i)).
  rewrite (occurrences_Permutation v rs'.*1 rs.*1) by (by rewrite Hperm).
  assert (v ∈ rs.*1) as Hv%occurrences_pos.
  { apply (vt_internal _ _ valid). fold n. unfold v. lia. }
  assert (occurrences v rs.*1 ≠ 1); [|lia].
  intros Hone. assert (false = true); [|done]. apply Hiff. by exists v.
Qed.

(** ** rank *)

(** The writes of one [for] loop over positions and targets. *)
Lemma store_spec {A B} (g : B → Z) (f : Z → A) (l : list B) (off : Z)
    (ranks : list A) :
  NoDup (g <$> l) →
  (∀ e, e ∈ l → 0 ≤ g e < Z.of_nat (length ranks)) →
  let ranks' := foldl (λ ranks '(d, e), zset ranks (g e) (f d)) ranks
                      (zip (seqZ off (Z.of_nat (length l))) l) in
  length ranks' = length ranks ∧
  (∀ d e, l !! d = Some e → zget ranks' (g e) = Some (f (off + Z.of_nat d))) ∧
  (∀ i, i ∉ g <$> l → zget ranks' i = zget ranks i).
Proof.
  revert off ranks. induction l as [|e l IH]; intros off ranks Hnd Hr.
  { cbn. split; [done|]. split; [by intros|done]. }
  cbn [length]. rewrite Nat2Z.inj_succ, seqZ_cons by lia.
  cbn [zip zip_with foldl]. rewrite Z.pred_succ.
  rewrite fmap_cons in Hnd. apply NoDup_cons in Hnd as [Hne Hnd].
  destruct (IH (Z.succ off) (zset ranks (g e) (f off)) Hnd) as (Hl & Hget & Hframe).
  { intros e' He'. rewrite length_zset. apply Hr. by right. }
  cbn zeta in *. split; [by rewrite Hl, length_zset|]. split.
  - intros [|d] e' Hd.
    + simplify_eq/=. rewrite Hframe by done. rewrite Z.add_0_r.
      apply zget_zset_eq; apply (Hr e'); by left.
    + simpl in Hd. rewrite (Hget d e' Hd). do 2 f_equal. lia.
  - intros i Hi. apply not_elem_of_cons in Hi as [Hi1 Hi2].
    rewrite Hframe by done. by apply zget_zset_ne.
Qed.

Lemma same_run_take (v : Z) (l : list (Z * Z)) :
  Forall (λ e, e.1 = v) (take (same_run v l) l).
Proof.
  induction l as [|e l IH]; [constructor|]. cbn [same_run].
  case_decide; [by constructor | constructor].
Qed.

Lemma rank_le_fst (a b : Z * Z) : rank_le a b → a.1 ≤ b.1.
Proof. unfold rank_le. lia. Qed.

Lemma same_run_drop (v : Z) (l : list (Z * Z)) :
  StronglySorted rank_le l → Forall (λ e, v ≤ e.1) l →
  Forall (λ e, v < e.1) (drop (same_run v l) l).
Proof.
  induction 1 as [|e l Hs IH Hle]; intros Hall; [constructor|].
  apply Forall_cons in Hall as [He Hall]. cbn [same_run]. case_decide.
  - by apply IH.
  - cbn [drop]. constructor; [lia|].
    eapply Forall_impl; [exact Hle|]. intros x Hx%rank_le_fst. lia.
Qed.

Lemma same_run_le (v : Z) (l : list (Z * Z)) : (same_run v l ≤ length l)%nat.
Proof.
  induction l as [|e l IH]; [done|]. cbn [same_run length]. case_decide; lia.
Qed.

(** In a tie group the position of an entry is the number of entries with
    a smaller index. *)
Lemma group_position (v : Z) (grp : list (Z * Z)) (d : nat) (i : Z) :
  StronglySorted rank_le grp → Forall (λ e, e.1 = v) grp → NoDup grp.*2 →
  grp !! d = Some (v, i) →
  before_in v i grp = Z.of_nat d.
Proof.
  unfold before_in. intros Hs. revert d.
  induction Hs as [|e grp Hs IH Hle]; intros d Hall Hnd Hd; [done|].
  apply Forall_cons in Hall as [He Hall]. rewrite fmap_cons in Hnd.
  apply NoDup_cons in Hnd as [Hne Hnd]. rewrite filter_cons.
  destruct e as [v' i']. cbn [fst snd] in *. subst v'.
  destruct d as [|d].
  - injection Hd as ->. rewrite decide_False by lia.
    rewrite filter_none; [done|].
    apply Forall_forall. intros x Hx.
    pose proof (proj1 (Forall_forall _ _) Hle x Hx) as Hr.
    pose proof (proj1 (Forall_forall _ _) Hall x Hx) as Hv.
    assert (x.2 ≠ i).
    { intros <-. apply Hne. apply list_elem_of_fmap. by exists x. }
    unfold rank_le in Hr. cbn [fst snd] in *. lia.
  - simpl in Hd. specialize (IH d Hall Hnd Hd).
    apply list_elem_of_lookup_2 in Hd as Hin.
    pose proof (proj1 (Forall_forall _ _) Hle _ Hin) as Hr.
    assert (i' ≠ i).
    { intros Heq. apply Hne. apply list_elem_of_fmap. by exists (v, i). }
    unfold rank_le in Hr. cbn [fst snd] in Hr.
    rewrite decide_True by lia. cbn [length]. lia.
Qed.

Lemma rank_group_deterministic (random : nat → Q) (tiesMethod : string)
    (grp : list (Z * Z)) (ranks : list (option Qc)) (cr : Z) (calls : nat) :
  deterministic tiesMethod →
  rank_group random tiesMethod grp (ranks, cr, calls)
  = Ok (foldl (λ ranks '(d, e),
                 zset ranks e.2
                   (Some (tie_rank tiesMethod cr (Z.of_nat (length grp)) d)))
              ranks (zip (seqZ 0 (Z.of_nat (length grp))) grp),
        cr + Z.of_nat (length grp), calls).
Proof.
  unfold deterministic. rewrite !elem_of_cons, elem_of_nil.
  intros [->|[->|[->|[->|[->|[]]]]]]; reflexivity.
Qed.

Lemma less_in_app x a b : less_in x (a ++ b) = less_in x a + less_in x b.
Proof. unfold less_in. rewrite filter_app, length_app. lia. Qed.

Lemma equal_in_app x a b : equal_in x (a ++ b) = equal_in x a + equal_in x b.
Proof. unfold equal_in. rewrite filter_app, length_app. lia. Qed.

Lemma before_in_app x i a b :
  before_in x i (a ++ b) = before_in x i a + before_in x i b.
Proof. unfold before_in. rewrite filter_app, length_app. lia. Qed.

(** The counts of a sorted list whose first tie group is [grp], of value
    [v], the other entries [rest] being above [v]. *)
Lemma counts_head_group (v : Z) (grp rest : list (Z * Z)) (x i : Z) :
  Forall (λ e, e.1 = v) grp → Forall (λ e, v < e.1) rest →
  (x = v → less_in x (grp ++ rest) = 0 ∧
           equal_in x (grp ++ rest) = Z.of_nat (length grp) ∧
           before_in x i (grp ++ rest) = before_in x i grp) ∧
  (v < x → less_in x (grp ++ rest) = Z.of_nat (length grp) + less_in x rest ∧
           equal_in x (grp ++ rest) = equal_in x rest ∧
           before_in x i (grp ++ rest) = before_in x i rest).
Proof.
  intros Hg Hr. rewrite less_in_app, equal_in_app, before_in_app.
  unfold less_in, equal_in, before_in. split.
  - intros ->.
    rewrite (filter_none (λ e, e.1 < v) grp)
      by (eapply Forall_impl; [exact Hg|]; intros; cbn in *; lia).
    rewrite (filter_none (λ e, e.1 < v) rest)
      by (eapply Forall_impl; [exact Hr|]; intros; cbn in *; lia).
    rewrite (filter_all (λ e, e.1 = v) grp) by done.
    rewrite (filter_none (λ e, e.1 = v) rest)
      by (eapply Forall_impl; [exact Hr|]; intros; cbn in *; lia).
    rewrite (filter_none (λ e, e.1 = v ∧ e.2 < i) rest)
      by (eapply Forall_impl; [exact Hr|]; intros; cbn in *; lia).
    cbn [length]. lia.
  - intros Hlt.
    rewrite (filter_all (λ e, e.1 < x) grp)
      by (eapply Forall_impl; [exact Hg|]; intros; cbn in *; lia).
    rewrite (filter_none (λ e, e.1 = x) grp)
      by (eapply Forall_impl; [exact Hg|]; intros; cbn in *; lia).
    rewrite (filter_none (λ e, e.1 = x ∧ e.2 < i) grp)
      by (eapply Forall_impl; [exact Hg|]; intros; cbn in *; lia).
    cbn [length]. lia.
Qed.

Section RankGroups.
Variables (random : nat → Q) (tiesMethod : string).
Hypothesis det : deterministic tiesMethod.

(** The loop over the tie groups stores, for every sorted entry, the rank
    that its tie method gives from the counts of the list. *)
Lemma rank_groups_spec (fuel : nat) (l : list (Z * Z))
    (ranks : list (option Qc)) (cr : Z) (calls : nat) :
  StronglySorted rank_le l → NoDup l.*2 →
  (∀ e, e ∈ l → 0 ≤ e.2 < Z.of_nat (length ranks)) →
  (length l ≤ fuel)%nat →
  ∃ ranks',
    rank_groups random fuel tiesMethod l (ranks, cr, calls)
    = Ok (ranks', cr + Z.of_nat (length l), calls) ∧
    length ranks' = length ranks ∧
    (∀ i, i ∉ l.*2 → zget ranks' i = zget ranks i) ∧
    (∀ x i, (x, i) ∈ l →
       zget ranks' i
       = Some (Some (tie_rank tiesMethod (cr + less_in x l) (equal_in x l)
                              (before_in x i l)))).
Proof.
  revert l ranks cr. induction fuel as [|fuel IH]; intros l ranks cr Hs Hnd Hr Hf.
  { destruct l; [|simpl in Hf; lia]. exists ranks. cbn.
    rewrite Z.add_0_r. split; [done|]. split; [done|]. split; [done|].
    by intros x i ?%elem_of_nil. }
  destruct l as [|e l0].
  { exists ranks. cbn. rewrite Z.add_0_r. split; [done|]. split; [done|].
    split; [done|]. by intros x i ?%elem_of_nil. }
  cbn [rank_groups]. set (l := e :: l0) in *. set (v := e.1).
  set (j := same_run v l).
  assert (1 ≤ j)%nat as Hj1.
  { unfold j, l. cbn [same_run]. unfold v. rewrite decide_True by done. lia. }
  pose proof (same_run_le v l) as Hjl. fold j in Hjl.
  pose proof (take_drop j l) as Hsplit.
  set (grp := take j l) in *. set (rest := drop j l) in *.
  assert (Forall (λ e, e.1 = v) grp) as Hgrp by apply same_run_take.
  assert (Forall (λ e, v < e.1) rest) as Hrest.
  { apply same_run_drop; [done|]. unfold l. constructor; [unfold v; lia|].
    apply StronglySorted_inv in Hs as [_ Hle].
    eapply Forall_impl; [exact Hle|]. by intros x Hx%rank_le_fst. }
  assert (StronglySorted rank_le grp ∧ StronglySorted rank_le rest) as [Hsg Hsr].
  { rewrite <- Hsplit in Hs. split.
    - by apply StronglySorted_app_1_l in Hs.
    - by apply StronglySorted_app_1_r in Hs. }
  assert (NoDup grp.*2 ∧ NoDup rest.*2 ∧ ∀ i, i ∈ grp.*2 → i ∉ rest.*2)
    as (Hndg & Hndr & Hdisj).
  { rewrite <- Hsplit, fmap_app in Hnd. by apply NoDup_app in Hnd as (? & ? & ?). }
  rewrite (rank_group_deterministic random tiesMethod grp ranks cr calls det).
  cbn [mbind result_mbind result_bind].
  destruct (store_spec snd
              (λ d, Some (tie_rank tiesMethod cr (Z.of_nat (length grp)) d))
              grp 0 ranks Hndg) as (Hl1 & Hget1 & Hframe1).
  { intros x Hx. apply Hr. rewrite <- Hsplit. apply elem_of_app. by left. }
  cbn zeta in Hl1, Hget1, Hframe1.
  set (ranks1 := foldl _ ranks _) in *.
  destruct (IH rest ranks1 (cr + Z.of_nat (length grp)) Hsr Hndr)
    as (ranks' & Hrun & Hl' & Hframe' & Hget').
  { intros x Hx. rewrite Hl1. apply Hr. rewrite <- Hsplit. apply elem_of_app. by right. }
  { unfold rest. rewrite length_drop. unfold l in *. cbn [length] in *. lia. }
  exists ranks'. split.
  { rewrite Hrun. do 3 f_equal. rewrite <- Hsplit, length_app. lia. }
  split; [by rewrite Hl', Hl1|]. split.
  { intros i Hi. rewrite <- Hsplit, fmap_app in Hi.
    apply not_elem_of_app in Hi as [Hi1 Hi2].
    by rewrite Hframe', Hframe1. }
  intros x i Hin. rewrite <- Hsplit in Hin |- *.
  destruct (counts_head_group v grp rest x i Hgrp Hrest) as [Heq Hgt].
  apply elem_of_app in Hin as [Hin|Hin].
  - pose proof (proj1 (Forall_forall _ _) Hgrp _ Hin) as Hx. cbn in Hx. subst x.
    destruct (Heq eq_refl) as (-> & -> & ->).
    rewrite Hframe'.
    2:{ apply Hdisj. apply list_elem_of_fmap. by exists (v, i). }
    apply list_elem_of_lookup_1 in Hin as [d Hd].
    rewrite (group_position v grp d i Hsg Hgrp Hndg Hd).
    pose proof (Hget1 d (v, i) Hd) as Hg. cbn [snd] in Hg. rewrite Hg.
    do 3 f_equal. lia.
  - pose proof (proj1 (Forall_forall _ _) Hrest _ Hin) as Hx. cbn in Hx.
    destruct (Hgt Hx) as (-> & -> & ->).
    rewrite (Hget' x i Hin). do 3 f_equal. lia.
Qed.
End RankGroups.

#[local] Instance rank_le_trans : Transitive rank_le.
Proof. intros a b c. unfold rank_le. lia. Qed.

#[local] Instance rank_le_total : Total rank_le.
Proof. intros a b. unfold rank_le. lia. Qed.

Lemma zget_fmap {A B} (f : A → B) (l : list A) (i : Z) :
  zget (f <$> l) i = f <$> zget l i.
Proof. unfold zget. case_decide; [apply list_lookup_fmap | done]. Qed.

Lemma less_in_fst (x : Z) (l : list (Z * Z)) :
  less_in x l = Z.of_nat (length (filter (λ v, v < x) l.*1)).
Proof.
  unfold less_in. f_equal. induction l as [|e l IH]; [done|].
  rewrite fmap_cons, !filter_cons. repeat case_decide; cbn [length]; lia.
Qed.

Lemma equal_in_fst (x : Z) (l : list (Z * Z)) :
  equal_in x l = occurrences x l.*1.
Proof.
  unfold equal_in, occurrences. f_equal. induction l as [|e l IH]; [done|].
  rewrite fmap_cons, !filter_cons. repeat case_decide; cbn [length]; lia.
Qed.

(** The split of [arr] into [nonMissing] and [missingIndices], the indices
    counted from [off]. *)
Section Entries.
Let nm (arr : list (option Z)) (off : Z) : list (Z * Z) :=
  omap (λ e : option Z * Z, (λ v, (v, e.2)) <$> e.1)
       (zip arr (seqZ off (Z.of_nat (length arr)))).
Let mi (arr : list (option Z)) (off : Z) : list Z :=
  omap (λ e : option Z * Z, if e.1 is None then Some e.2 else None)
       (zip arr (seqZ off (Z.of_nat (length arr)))).

Lemma entries_cons (a : option Z) (arr : list (option Z)) (off : Z) :
  nm (a :: arr) off
  = (if a is Some v then [(v, off)] else []) ++ nm arr (Z.succ off) ∧
  mi (a :: arr) off
  = (if a is Some v then [] else [off]) ++ mi arr (Z.succ off).
Proof.
  unfold nm, mi. cbn [length]. rewrite Nat2Z.inj_succ, seqZ_cons by lia.
  rewrite Z.pred_succ. cbn [zip zip_with omap list_omap fst snd].
  by destruct a.
Qed.

Lemma non_missing_fst (arr : list (option Z)) (off : Z) :
  (nm arr off).*1 = values arr.
Proof.
  revert off. induction arr as [|a arr IH]; intros off; [done|].
  rewrite (proj1 (entries_cons a arr off)), fmap_app, IH.
  by destruct a.
Qed.

Lemma non_missing_elem (arr : list (option Z)) (off x i : Z) :
  (x, i) ∈ nm arr off ↔ off ≤ i ∧ arr !! Z.to_nat (i - off) = Some (Some x).
Proof.
  revert off. induction arr as [|a arr IH]; intros off.
  { split; [by intros ?%elem_of_nil | by intros [_ ?]]. }
  rewrite (proj1 (entries_cons a arr off)), elem_of_app, IH.
  destruct (decide (i = off)) as [->|Hne].
  - rewrite Z.sub_diag. cbn [Z.to_nat lookup list_lookup]. split.
    + intros [Hin|[? _]]; [|lia]. destruct a as [v|]; [|by apply elem_of_nil in Hin].
      apply list_elem_of_singleton in Hin. by simplify_eq.
    + intros [_ [= ->]]. left. by left.
  - split.
    + intros [Hin|[Hle Hl]].
      * destruct a as [v|]; [|by apply elem_of_nil in Hin].
        apply list_elem_of_singleton in Hin. by simplify_eq.
      * split; [lia|]. replace (Z.to_nat (i - off)) with (S (Z.to_nat (i - Z.succ off))) by lia.
        done.
    + intros [Hle Hl]. right. split; [lia|].
      replace (Z.to_nat (i - off)) with (S (Z.to_nat (i - Z.succ off))) in Hl by lia.
      done.
Qed.

Lemma missing_elem (arr : list (option Z)) (off i : Z) :
  i ∈ mi arr off ↔ off ≤ i ∧ arr !! Z.to_nat (i - off) = Some None.
Proof.
  revert off. induction arr as [|a arr IH]; intros off.
  { split; [by intros ?%elem_of_nil | by intros [_ ?]]. }
  rewrite (proj2 (entries_cons a arr off)), elem_of_app, IH.
  destruct (decide (i = off)) as [->|Hne].
  - rewrite Z.sub_diag. cbn [Z.to_nat lookup list_lookup]. split.
    + intros [Hin|[? _]]; [|lia]. destruct a as [v|]; [by apply elem_of_nil in Hin|].
      done.
    + intros [_ [= ->]]. left. by left.
  - split.
    + intros [Hin|[Hle Hl]].
      * destruct a as [v|]; [by apply elem_of_nil in Hin|].
        apply list_elem_of_singleton in Hin. by simplify_eq.
      * split; [lia|]. replace (Z.to_nat (i - off)) with (S (Z.to_nat (i - Z.succ off))) by lia.
        done.
    + intros [Hle Hl]. right. split; [lia|].
      replace (Z.to_nat (i - off)) with (S (Z.to_nat (i - Z.succ off))) in Hl by lia.
      done.
Qed.

Lemma non_missing_NoDup (arr : list (option Z)) (off : Z) :
  NoDup (nm arr off).*2.
Proof.
  revert off. induction arr as [|a arr IH]; intros off; [constructor|].
  rewrite (proj1 (entries_cons a arr off)), fmap_app. destruct a as [v|]; [|apply IH].
  cbn [fmap list_fmap app snd]. apply NoDup_cons. split; [|apply IH].
  intros [[x i] [-> Hin]]%list_elem_of_fmap. apply non_missing_elem in Hin. cbn in Hin. lia.
Qed.

Lemma missing_NoDup (arr : list (option Z)) (off : Z) : NoDup (mi arr off).
Proof.
  revert off. induction arr as [|a arr IH]; intros off; [constructor|].
  rewrite (proj2 (entries_cons a arr off)). destruct a as [v|]; [apply IH|].
  cbn [app]. apply NoDup_cons. split; [|apply IH].
  intros Hin%missing_elem. lia.
Qed.

Lemma missing_length (arr : list (option Z)) (off : Z) :
  Z.of_nat (length (mi arr off)) = missing arr.
Proof.
  unfold missing. revert off. induction arr as [|a arr IH]; intros off; [done|].
  rewrite (proj2 (entries_cons a arr off)), length_app, filter_cons.
  specialize (IH (Z.succ off)). destruct a as [v|].
  - rewrite decide_False by done. cbn [length]. lia.
  - rewrite decide_True by done. cbn [length]. lia.
Qed.

Lemma non_missing_before (arr : list (option Z)) (off x : Z) (k : nat) :
  before_in x (off + Z.of_nat k) (nm arr off)
  = occurrences x (values (take k arr)).
Proof.
  unfold before_in, occurrences. f_equal. revert off k.
  induction arr as [|a arr IH]; intros off k; [by destruct k|].
  rewrite (proj1 (entries_cons a arr off)), filter_app, length_app.
  destruct k as [|k].
  - cbn [take values omap list_omap filter list_filter length].
    rewrite !filter_none; [by destruct a|..].
    + apply Forall_forall. intros [y i] Hin%non_missing_elem. cbn. lia.
    + destruct a; [|constructor]. repeat constructor. cbn. lia.
  - replace (off + Z.of_nat (S k)) with (Z.succ off + Z.of_nat k) by lia.
    rewrite IH. cbn [take]. unfold values. cbn [omap list_omap].
    destruct a as [v|]; cbn [id]; [|done].
    rewrite !filter_cons. cbn [fst snd filter list_filter].
    repeat case_decide; cbn [length]; lia.
Qed.

(** The position of a missing index among the missing indices. *)
Lemma missing_position (arr : list (option Z)) (off : Z) (d k : nat) :
  mi arr off !! d = Some (off + Z.of_nat k) →
  Z.of_nat d = missing (take k arr).
Proof.
  unfold missing. revert off d k. induction arr as [|a arr IH]; intros off d k; [done|].
  rewrite (proj2 (entries_cons a arr off)). destruct a as [v|].
  - cbn [app]. intros Hd. destruct k as [|k].
    { apply list_elem_of_lookup_2, missing_elem in Hd. lia. }
    replace (off + Z.of_nat (S k)) with (Z.succ off + Z.of_nat k) in Hd by lia.
    apply IH in Hd. cbn [take]. rewrite filter_cons, decide_False by done. done.
  - cbn [app]. destruct d as [|d]; cbn [lookup list_lookup].
    + intros [= Heq]. assert (k = 0%nat) as -> by lia. done.
    + intros Hd. destruct k as [|k].
      { apply list_elem_of_lookup_2, missing_elem in Hd. lia. }
      replace (off + Z.of_nat (S k)) with (Z.succ off + Z.of_nat k) in Hd by lia.
      apply IH in Hd. cbn [take]. rewrite filter_cons, decide_True by done.
      cbn [length]. lia.
Qed.
End Entries.

Lemma missing_last_fold (l : list Z) (ranks : list (option Qc)) (cr : Z) :
  foldl (λ '(ranks, currentRank) i,
           (zset ranks i (Some (Z2Qc currentRank)), currentRank + 1))
        (ranks, cr) l
  = (foldl (λ ranks '(d, e), zset ranks e (Some (Z2Qc d))) ranks
           (zip (seqZ cr (Z.of_nat (length l))) l),
     cr + Z.of_nat (length l)).
Proof.
  revert ranks cr. induction l as [|i l IH]; intros ranks cr.
  { cbn. by rewrite Z.add_0_r. }
  cbn [length]. rewrite Nat2Z.inj_succ, seqZ_cons by lia.
  cbn [zip zip_with foldl]. rewrite Z.pred_succ, IH. f_equal. lia.
Qed.

Lemma values_nil_iff (arr : list (option Z)) :
  values arr = [] ↔ ∀ o, o ∈ arr → o = None.
Proof.
  unfold values. induction arr as [|[x|] arr IH]; cbn [omap list_omap id].
  - split; [by intros _ o ?%elem_of_nil | done].
  - split; [done|]. intros H. by specialize (H (Some x) ltac:(by left)).
  - rewrite IH. split.
    + intros H o [->|Ho]%elem_of_cons; [done | by apply H].
    + intros H o Ho. apply H. by right.
Qed.

Section RankSpec.
Variables (random : nat → Q) (tiesMethod : string).

(** [rank] with a tie method that draws no random number, or on an array
    without values. *)
Lemma rank_spec (arr : list (option Z)) (naLast : bool) :
  deterministic tiesMethod ∨ (∀ o, o ∈ arr → o = None) →
  ∃ ranks, rank random arr naLast tiesMethod = Ok ranks ∧
    length ranks = length arr ∧
    (∀ (i : nat) x, arr !! i = Some (Some x) →
       ranks !! i
       = Some (Some
           (let r := tie_rank tiesMethod (1 + smaller x arr)
                              (occurrences x (values arr))
                              (occurrences x (values (take i arr))) in
            if naLast then r else (r + Z2Qc (missing arr))%Qc))) ∧
    (∀ i : nat, arr !! i = Some None →
       ranks !! i
       = Some (Some
           (if naLast
            then Z2Qc (1 + Z.of_nat (length (values arr)) + missing (take i arr))
            else (Z2Qc (missing (take i arr) + 1) + Z2Qc (missing arr))%Qc))).
Proof.
  intros Hdet. unfold rank.
  set (nm := omap (λ e : option Z * Z, (λ v, (v, e.2)) <$> e.1)
                  (zip arr (seqZ 0 (Z.of_nat (length arr))))).
  set (mi := omap (λ e : option Z * Z, if e.1 is None then Some e.2 else None)
                  (zip arr (seqZ 0 (Z.of_nat (length arr))))).
  set (sorted := merge_sort rank_le nm).
  assert (sorted ≡ₚ nm) as Hperm by apply merge_sort_Permutation.
  assert (∀ x i, (x, i) ∈ sorted ↔ 0 ≤ i ∧ arr !! Z.to_nat i = Some (Some x))
    as Hin.
  { intros x i. rewrite Hperm. unfold nm. rewrite non_missing_elem.
    by rewrite Z.sub_0_r. }
  assert (∀ i, i ∈ mi ↔ 0 ≤ i ∧ arr !! Z.to_nat i = Some None) as Hmi.
  { intros i. unfold mi. rewrite missing_elem. by rewrite Z.sub_0_r. }
  assert (length sorted = length (values arr)) as Hlen.
  { rewrite Hperm, <- (non_missing_fst arr 0). unfold nm. by rewrite length_fmap. }
  assert (∃ ranks1,
    rank_groups random (length sorted) tiesMethod sorted
      (replicate (length arr) None, 1, 0%nat)
    = Ok (ranks1, 1 + Z.of_nat (length sorted), 0%nat) ∧
    length ranks1 = length (replicate (length arr) (None : option Qc)) ∧
    (∀ i, i ∉ sorted.*2 →
       zget ranks1 i = zget (replicate (length arr) None) i) ∧
    (∀ x i, (x, i) ∈ sorted →
       zget ranks1 i
       = Some (Some (tie_rank tiesMethod (1 + less_in x sorted)
                       (equal_in x sorted) (before_in x i sorted)))))
    as (ranks1 & Hrun & Hl1 & Hframe1 & Hget1).
  { destruct Hdet as [det|Hnone].
    - apply (rank_groups_spec random tiesMethod det); [| | |done].
      + apply StronglySorted_merge_sort; apply _.
      + rewrite Hperm. apply non_missing_NoDup.
      + intros [x i] [Hi Hl%lookup_lt_Some]%Hin. rewrite length_replicate.
        cbn. lia.
    - apply (proj2 (values_nil_iff arr)) in Hnone. rewrite Hnone in Hlen.
      apply length_zero_iff_nil in Hlen. rewrite Hlen.
      eexists. split; [done|]. split; [done|]. split; [done|].
      by intros x i ?%elem_of_nil. }
  rewrite Hrun. cbn [mbind result_mbind result_bind].
  rewrite length_replicate in Hl1.
  assert (∀ (i : nat) x, arr !! i = Some (Some x) →
            zget ranks1 (Z.of_nat i)
            = Some (Some (tie_rank tiesMethod (1 + smaller x arr)
                            (occurrences x (values arr))
                            (occurrences x (values (take i arr)))))) as Hval.
  { intros i x Hi. rewrite (Hget1 x (Z.of_nat i)).
    2:{ apply Hin. rewrite Nat2Z.id. split; [lia | done]. }
    assert (less_in x sorted = smaller x arr) as ->.
    { unfold less_in. rewrite Hperm. fold (less_in x nm).
      rewrite less_in_fst. unfold nm. by rewrite (non_missing_fst arr 0). }
    assert (equal_in x sorted = occurrences x (values arr)) as ->.
    { unfold equal_in. rewrite Hperm. fold (equal_in x nm).
      rewrite equal_in_fst. unfold nm. by rewrite (non_missing_fst arr 0). }
    assert (before_in x (Z.of_nat i) sorted
            = occurrences x (values (take i arr))) as ->; [|done].
    unfold before_in. rewrite Hperm. fold (before_in x (Z.of_nat i) nm).
    unfold nm. by rewrite <- (non_missing_before arr 0 x i), Z.add_0_l. }
  assert (NoDup ((λ e : Z, e) <$> mi)) as Hndm.
  { change (NoDup (id <$> mi)). rewrite list_fmap_id. apply missing_NoDup. }
  assert (∀ e, e ∈ mi → 0 ≤ e < Z.of_nat (length ranks1)) as Hrm.
  { intros i [Hi Hl%lookup_lt_Some]%Hmi. lia. }
  assert (∀ (i : nat) x, arr !! i = Some (Some x) →
            Z.of_nat i ∉ (λ e : Z, e) <$> mi) as Hnot.
  { intros i x Hi. change (Z.of_nat i ∉ id <$> mi). rewrite list_fmap_id.
    intros [_ Hm]%Hmi. rewrite Nat2Z.id in Hm. congruence. }
  assert (∀ i : nat, arr !! i = Some None →
            ∃ d, mi !! d = Some (Z.of_nat i) ∧
                 Z.of_nat d = missing (take i arr)) as Hpos.
  { intros i Hi. assert (Z.of_nat i ∈ mi) as [d Hd]%list_elem_of_lookup_1.
    { apply Hmi. rewrite Nat2Z.id. split; [lia | done]. }
    exists d. split; [done|]. apply (missing_position arr 0 d i).
    by rewrite Z.add_0_l. }
  destruct naLast.
  - rewrite missing_last_fold. cbn [fst].
    destruct (store_spec (λ e : Z, e) (λ d, Some (Z2Qc d)) mi
                (1 + Z.of_nat (length sorted)) ranks1 Hndm Hrm)
      as (Hl2 & Hget2 & Hframe2).
    cbn zeta beta in Hl2, Hget2, Hframe2.
    eexists. split; [done|]. split; [by rewrite Hl2|]. split.
    + intros i x Hi. rewrite <- zget_of_nat, Hframe2 by (by eapply Hnot).
      by apply Hval.
    + intros i Hi. destruct (Hpos i Hi) as (d & Hd & Hdm).
      rewrite <- zget_of_nat, (Hget2 d _ Hd). do 3 f_equal. lia.
  - destruct (store_spec (λ e : Z, e) (λ d, Some (Z2Qc (d + 1))) mi 0 ranks1
                Hndm Hrm) as (Hl2 & Hget2 & Hframe2).
    cbn zeta beta in Hl2, Hget2, Hframe2.
    assert (Z.of_nat (length mi) = missing arr) as Hmlen
      by (unfold mi; apply missing_length).
    rewrite Hmlen in *.
    eexists. split; [done|]. split; [by rewrite length_fmap, Hl2|]. split.
    + intros i x Hi. rewrite <- zget_of_nat, zget_fmap.
      rewrite (Hframe2 (Z.of_nat i)) by (by eapply Hnot).
      by rewrite (Hval i x Hi).
    + intros i Hi. destruct (Hpos i Hi) as (d & Hd & Hdm).
      rewrite <- zget_of_nat, zget_fmap, (Hget2 d _ Hd).
      cbn [fmap option_fmap option_map]. do 4 f_equal. lia.
Qed.
End RankSpec.

(** [X6]  With the tie method "first", "last", "min", "max" or "average",
    [rank] returns one rank per entry, and an entry with the value [x] has
    the rank its method gives from three counts over [arr]: the values
    below [x], the values equal to [x], and the equal values at smaller
    indices; with [naLast = false] the number of missing entries is
    added. *)
Theorem rank_of_values (random : nat → Q) (tiesMethod : string)
    (arr : list (option Z)) (naLast : bool) :
  deterministic tiesMethod →
  ∃ ranks, rank random arr naLast tiesMethod = Ok ranks ∧
    length ranks = length arr ∧
    ∀ (i : nat) x, arr !! i = Some (Some x) →
      ranks !! i
      = Some (Some
          (let r := tie_rank tiesMethod (1 + smaller x arr)
                             (occurrences x (values arr))
                             (occurrences x (values (take i arr))) in
           if naLast then r else (r + Z2Qc (missing arr))%Qc)).
Proof.
  intros det.
  destruct (rank_spec random tiesMethod arr naLast (or_introl det))
    as (ranks & Hrun & Hlen & Hval & _).
  exists ranks. split; [done|]. split; [done|]. exact Hval.
Qed.

(** [X7]  With a tie method that draws no random number, the missing
    entries ([NaN] or [null]) are ranked in index order: after all the
    values with [naLast = true]; with [naLast = false] the [k]-th missing
    entry gets [k] plus the number of missing entries, since the final
    shift applies to the missing entries as well. *)
Theorem rank_of_missing (random : nat → Q) (tiesMethod : string)
    (arr : list (option Z)) (naLast : bool) :
  deterministic tiesMethod →
  ∃ ranks, rank random arr naLast tiesMethod = Ok ranks ∧
    ∀ i : nat, arr !! i = Some None →
      ranks !! i
      = Some (Some
          (if naLast
           then Z2Qc (1 + Z.of_nat (length (values arr)) + missing (take i arr))
           else (Z2Qc (missing (take i arr) + 1) + Z2Qc (missing arr))%Qc)).
Proof.
  intros det.
  destruct (rank_spec random tiesMethod arr naLast (or_introl det))
    as (ranks & Hrun & _ & _ & Hmiss).
  exists ranks. split; [done|]. exact Hmiss.
Qed.

Lemma missing_all (arr : list (option Z)) :
  (∀ o, o ∈ arr → o = None) → missing arr = Z.of_nat (length arr).
Proof.
  intros H. unfold missing. rewrite filter_all; [done|]. by apply Forall_forall.
Qed.

Lemma Z2Qc_add (a b : Z) : (Z2Qc a + Z2Qc b)%Qc = Z2Qc (a + b).
Proof.
  unfold Z2Qc. apply Qc_is_canon. cbn [Qcplus this Q2Qc].
  rewrite !Qred_correct. rewrite inject_Z_plus. reflexivity.
Qed.

(** [X8]  A tie method that [rank] does not know is noticed at the first
    tie group only: the call throws when [arr] has a value.  An array of
    [n] missing entries is ranked without complaint: 1, 2, ..., [n] with
    [naLast = true], and [n + 1], ..., [2 n] with [naLast = false], since
    the final shift by the number of missing entries applies to the missing
    entries as well. *)
Theorem rank_unknown_method (random : nat → Q) (tiesMethod : string)
    (arr : list (option Z)) :
  tiesMethod ∉ ["first"; "last"; "min"; "max"; "average"; "random"] →
  ((∃ x, Some x ∈ arr) →
   ∀ naLast, rank random arr naLast tiesMethod
             = Throw (Error ("Unknown tiesMethod: " +:+ tiesMethod))) ∧
  ((∀ o, o ∈ arr → o = None) →
   ∀ naLast, ∃ ranks, rank random arr naLast tiesMethod = Ok ranks ∧
     ∀ i : nat, (i < length arr)%nat →
       ranks !! i
       = Some (Some (Z2Qc (1 + Z.of_nat i
                           + (if naLast then 0 else Z.of_nat (length arr)))))).
Proof.
  intros Hno. rewrite !not_elem_of_cons in Hno.
  destruct Hno as (H1 & H2 & H3 & H4 & H5 & H6 & _).
  split.
  - intros [x Hx] naLast. unfold rank.
    set (nm := omap (λ e : option Z * Z, (λ v, (v, e.2)) <$> e.1)
                    (zip arr (seqZ 0 (Z.of_nat (length arr))))).
    assert (length (merge_sort rank_le nm) = length (values arr)) as Hlen.
    { rewrite merge_sort_Permutation, <- (non_missing_fst arr 0).
      unfold nm. by rewrite length_fmap. }
    destruct (merge_sort rank_le nm) as [|e l] eqn:Hs.
    { exfalso. symmetry in Hlen.
      apply length_zero_iff_nil in Hlen.
      pose proof (proj1 (values_nil_iff arr) Hlen _ Hx). done. }
    cbn [length rank_groups]. unfold rank_group.
    by rewrite !decide_False by done.
  - intros Hall naLast.
    destruct (rank_spec random tiesMethod arr naLast (or_intror Hall))
      as (ranks & Hrun & Hlen & _ & Hmiss).
    exists ranks. split; [done|]. intros i Hi.
    destruct (lookup_lt_is_Some_2 arr i Hi) as [o Ho].
    pose proof (Hall o (list_elem_of_lookup_2 _ _ _ Ho)) as ->.
    rewrite (Hmiss i Ho). do 2 f_equal.
    rewrite (proj2 (values_nil_iff arr) Hall). cbn [length].
    rewrite (missing_all arr Hall), (missing_all (take i arr)).
    + rewrite length_take. destruct naLast.
      * f_equal. lia.
      * rewrite Z2Qc_add. f_equal. lia.
    + intros o Hin. apply Hall. by eapply subseteq_take.
Qed.

Lemma values_Some (vals : list Z) : values (Some <$> vals) = vals.
Proof.
  unfold values. induction vals as [|v vals IH]; [done|].
  cbn [fmap list_fmap omap list_omap id]. by rewrite IH.
Qed.

Lemma missing_Some (vals : list Z) : missing (Some <$> vals) = 0.
Proof.
  unfold missing. rewrite filter_none; [done|].
  apply Forall_forall. by intros o (v & -> & _)%list_elem_of_fmap.
Qed.

Lemma Z2Qc_average_single (c : Z) :
  (Z2Qc c + Z2Qc (1 - 1) / Z2Qc 2)%Qc = Z2Qc c.
Proof.
  replace (Z2Qc (1 - 1) / Z2Qc 2)%Qc with 0%Qc; [apply Qcplus_0_r|].
  by apply Qc_is_canon.
Qed.

Lemma below_count_lt (l : list Z) (x y : Z) :
  x < y → x ∈ l →
  (length (filter (λ v, (v < x)%Z) l) < length (filter (λ v, (v < y)%Z) l))%nat.
Proof.
  intros Hxy. induction l as [|a l IH]; [by intros ?%elem_of_nil|].
  assert (length (filter (λ v, (v < x)%Z) l) ≤ length (filter (λ v, (v < y)%Z) l))%nat
    as Hle.
  { clear IH. induction l as [|b l IH]; [done|]. rewrite !filter_cons.
    repeat case_decide; cbn [length]; lia. }
  rewrite !filter_cons. intros [->|Hin]%elem_of_cons.
  - rewrite decide_False, decide_True by lia. cbn [length]. lia.
  - specialize (IH Hin). repeat case_decide; cbn [length]; lia.
Qed.

Lemma below_count_bound (l : list Z) (x : Z) :
  x ∈ l → (length (filter (λ v, (v < x)%Z) l) < length l)%nat.
Proof.
  induction l as [|a l IH]; [by intros ?%elem_of_nil|].
  pose proof (length_filter (λ v, (v < x)%Z) l) as Hle.
  rewrite filter_cons. intros [->|Hin]%elem_of_cons.
  - rewrite decide_False by lia. cbn [length]. lia.
  - specialize (IH Hin). case_decide; cbn [length]; lia.
Qed.

(** [X9]  On distinct values without a missing entry, as [dropTip] calls
    it, [rank] with the default options returns whole numbers: every entry
    gets one plus the number of smaller entries, and the ranks are the
    numbers 1 to [n], each once. *)
Theorem rank_distinct_default (random : nat → Q) (vals : list Z) :
  NoDup vals →
  ∃ rs : list Z,
    rank random (Some <$> vals) true "average"
    = Ok ((λ r, Some (Z2Qc r)) <$> rs) ∧
    rs ≡ₚ seqZ 1 (Z.of_nat (length vals)) ∧
    ∀ (i : nat) x, vals !! i = Some x →
      rs !! i = Some (1 + Z.of_nat (length (filter (λ v, v < x) vals))).
Proof.
  intros Hnd.
  set (f := λ x, 1 + Z.of_nat (length (filter (λ v, v < x) vals))).
  exists (f <$> vals).
  assert (deterministic "average") as det.
  { unfold deterministic. set_solver. }
  destruct (rank_spec random "average" (Some <$> vals) true (or_introl det))
    as (ranks & Hrun & Hlen & Hval & _).
  split; [|split].
  - rewrite Hrun. f_equal. apply list_eq. intros i.
    rewrite <- list_fmap_compose, list_lookup_fmap.
    destruct (vals !! i) as [x|] eqn:Hx.
    + rewrite (Hval i x) by (by rewrite list_lookup_fmap, Hx).
      cbn [fmap option_fmap option_map compose]. do 2 f_equal. cbn zeta.
      unfold smaller. rewrite values_Some.
      rewrite (occurrences_NoDup _ _ Hnd (list_elem_of_lookup_2 _ _ _ Hx)).
      assert (occurrences x (values (take i (Some <$> vals))) = 0) as ->.
      { rewrite <- fmap_take, values_Some. apply occurrences_zero.
        intros (j & Hj & Hlt)%elem_of_take.
        pose proof (NoDup_lookup _ _ _ _ Hnd Hj Hx). lia. }
      unfold tie_rank. rewrite !decide_False by done.
      apply Z2Qc_average_single.
    + cbn. apply lookup_ge_None. rewrite Hlen, length_fmap.
      by apply lookup_ge_None.
  - apply submseteq_length_Permutation; [|by rewrite length_fmap, length_seqZ; lia].
    apply NoDup_submseteq.
    + apply NoDup_fmap_2_strong; [|done]. intros x y Hx Hy Hxy. unfold f in Hxy.
      destruct (Z.lt_trichotomy x y) as [Hlt|[->|Hlt]]; [|done|].
      * pose proof (below_count_lt vals x y Hlt Hx). lia.
      * pose proof (below_count_lt vals y x Hlt Hy). lia.
    + intros r (x & -> & Hx)%list_elem_of_fmap. apply elem_of_seqZ.
      pose proof (below_count_bound vals x Hx). unfold f. lia.
  - intros i x Hx. by rewrite list_lookup_fmap, Hx.
Qed.

(** ** nodeDepth *)

Lemma depth_loop_pairs (method : Z) (rs : list (Z * Z)) (off : Z)
    (pre : list Z) (xx : gmap Z num) :
  length pre = Z.to_nat off → 0 ≤ off →
  foldl (λ acc '(i, p),
           xx ← acc;
           match zget (pre ++ rs.*2) i with
           | Some c => Ok (depth_step method xx p c)
           | None => UndefinedId
           end)
        (Ok xx)
        (zip (seqZ off (Z.of_nat (length rs.*1))) rs.*1)
  = Ok (foldl (λ xx e, depth_step method xx e.1 e.2) xx rs).
Proof.
  revert off pre xx. induction rs as [|[p c] rs IH]; intros off pre xx Hpre Hoff;
    [done|].
  cbn [fmap list_fmap length]. rewrite Nat2Z.inj_succ, seqZ_cons by lia.
  cbn [zip zip_with foldl mbind result_mbind result_bind fst snd].
  rewrite zget_nonneg by done.
  rewrite lookup_app_r by lia. replace (Z.to_nat off - length pre)%nat with 0%nat by lia.
  cbn [lookup list_lookup]. rewrite Z.pred_succ.
  specialize (IH (Z.succ off) (pre ++ [c]) (depth_step method xx p c)).
  rewrite <- app_assoc in IH. cbn [app] in IH.
  apply IH; [rewrite length_app; cbn [length]; lia | lia].
Qed.

Lemma nodeDepth_pairs (ntip : Z) (rs : list (Z * Z)) (xx : gmap Z num)
    (method : Z) :
  nodeDepth ntip rs.*1 rs.*2 xx method
  = Ok (foldl (λ xx e, depth_step method xx e.1 e.2)
              (foldl (λ xx i, <[i := Num 1]> xx) xx (seqZ 0 ntip)) rs).
Proof. unfold nodeDepth. by apply (depth_loop_pairs method rs 0 []). Qed.

Lemma tips_init (xx : gmap Z num) (ntip k : Z) :
  foldl (λ xx i, <[i := Num 1]> xx) xx (seqZ 0 ntip) !! k
  = if decide (0 ≤ k < ntip) then Some (Num 1) else xx !! k.
Proof.
  destruct (decide (ntip ≤ 0)) as [Hle|Hpos].
  { rewrite seqZ_nil by lia. cbn. by rewrite decide_False by lia. }
  rewrite <- (Z2Nat.id ntip) by lia. generalize (Z.to_nat ntip). clear Hpos.
  intros n. induction n as [|n IH].
  { cbn. by rewrite decide_False by lia. }
  rewrite Nat2Z.inj_succ, <- Z.add_1_r, seqZ_app, foldl_app by lia.
  change (seqZ (0 + Z.of_nat n) 1) with [0 + Z.of_nat n]. cbn [foldl].
  destruct (decide (k = 0 + Z.of_nat n)) as [->|Hne].
  - rewrite lookup_insert_eq. by rewrite decide_True by lia.
  - rewrite lookup_insert_ne by done. rewrite IH. repeat case_decide; (done || lia).
Qed.

Lemma aget_insert {A} (undef : A) (xx : gmap Z A) (k j : Z) (v : A) :
  aget undef (<[k := v]> xx) j = if decide (k = j) then v else aget undef xx j.
Proof.
  unfold aget. case_decide as H.
  - subst. by rewrite lookup_insert_eq.
  - by rewrite lookup_insert_ne.
Qed.

Lemma children_cons (p : Z) (e : Z * Z) (rs : list (Z * Z)) :
  children p (e :: rs)
  = if decide (e.1 = p) then e.2 :: children p rs else children p rs.
Proof. unfold children. rewrite filter_cons. by case_decide. Qed.

Lemma children_not_parent (p : Z) (rs : list (Z * Z)) :
  p ∉ rs.*1 → children p rs = [].
Proof.
  intros Hp. unfold children. rewrite filter_none; [done|].
  apply Forall_forall. intros e He <-. apply Hp, list_elem_of_fmap. by exists e.
Qed.

(** The loop of method 1 in postorder: a slot that is no parent's is left
    alone, and to a parent's slot the final depths of its children are
    added in turn. *)
Lemma sum_loop (rs : list (Z * Z)) (xx : gmap Z num) :
  children_first rs →
  let xx' := foldl (λ xx e, depth_step 1 xx e.1 e.2) xx rs in
  (∀ v, v ∉ rs.*1 → xx' !! (v - 1) = xx !! (v - 1)) ∧
  (∀ p, aget Undefined xx' (p - 1)
        = foldl num_add (aget Undefined xx (p - 1))
                ((λ c, aget Undefined xx' (c - 1)) <$> children p rs)).
Proof.
  revert xx. induction rs as [|[p0 c0] rs IH]; intros xx Hcf; [done|].
  destruct Hcf as [Hc0 Hcf]. cbn [fst snd fmap list_fmap] in Hc0.
  apply not_elem_of_cons in Hc0 as [Hne Hc0].
  cbn [foldl fst snd].
  assert (depth_step 1 xx p0 c0
          = <[p0 - 1 := num_add (aget Undefined xx (p0 - 1))
                                (aget Undefined xx (c0 - 1))]> xx) as Hstep.
  { unfold depth_step. by rewrite decide_True. }
  set (xx2 := depth_step 1 xx p0 c0) in *.
  destruct (IH xx2 Hcf) as [Hframe Hsum]. cbn zeta in *.
  set (xx' := foldl _ xx2 rs) in *.
  assert (aget Undefined xx' (c0 - 1) = aget Undefined xx (c0 - 1)) as Hc.
  { unfold aget. rewrite (Hframe c0 Hc0), Hstep.
    by rewrite lookup_insert_ne by lia. }
  split.
  - intros v Hv. rewrite fmap_cons in Hv. apply not_elem_of_cons in Hv as [Hv1 Hv2].
    cbn [fst] in Hv1. rewrite (Hframe v Hv2), Hstep.
    by rewrite lookup_insert_ne by lia.
  - intros p. rewrite (Hsum p), children_cons. cbn [fst snd].
    rewrite Hstep at 1. rewrite aget_insert. case_decide as Hp.
    + assert (p = p0) as -> by lia. rewrite decide_True by done.
      cbn [fmap list_fmap foldl]. by rewrite Hc.
    + by rewrite decide_False by lia.
Qed.

(** [X10]  [nodeDepth] with method 1, on edges in postorder (every edge
    out of a node before the edge into it) whose parents are above the
    tips and start at 0: every tip ends with depth 1 and every parent with
    the sum of the final depths of its children, which on a tree is the
    number of tips below it. *)
Theorem nodeDepth_sums_children (ntip : Z) (rs : list (Z * Z))
    (xx : gmap Z num) :
  children_first rs →
  (∀ p, p ∈ rs.*1 → ntip < p ∧ xx !! (p - 1) = Some (Num 0)) →
  ∃ xx', nodeDepth ntip rs.*1 rs.*2 xx 1 = Ok xx' ∧
    (∀ t, 1 ≤ t ≤ ntip → xx' !! (t - 1) = Some (Num 1)) ∧
    (∀ p, p ∈ rs.*1 →
       aget Undefined xx' (p - 1)
       = num_sum ((λ c, aget Undefined xx' (c - 1)) <$> children p rs)) ∧
    (∀ v, ntip < v → v ∉ rs.*1 → xx' !! (v - 1) = xx !! (v - 1)).
Proof.
  intros Hcf Hpar. rewrite nodeDepth_pairs. eexists. split; [done|].
  destruct (sum_loop rs (foldl (λ xx i, <[i := Num 1]> xx) xx (seqZ 0 ntip)) Hcf)
    as [Hframe Hsum].
  cbn zeta in *. split; [|split].
  - intros t Ht. rewrite Hframe.
    + rewrite tips_init. by rewrite decide_True by lia.
    + intros [? _]%Hpar. lia.
  - intros p Hp. rewrite Hsum. unfold num_sum. f_equal.
    destruct (Hpar p Hp) as [Hlt H0]. unfold aget.
    rewrite tips_init, decide_False by lia. by rewrite H0.
  - intros v Hv Hn. rewrite Hframe by done. rewrite tips_init.
    by rewrite decide_False by lia.
Qed.

Lemma aget_Num (xx : gmap Z num) (k z : Z) :
  aget Undefined xx k = Num z ↔ xx !! k = Some (Num z).
Proof.
  unfold aget. destruct (xx !! k) as [a|]; cbn; [|done]. split; congruence.
Qed.

(** One turn of method 2 on a parent at [z0 ≥ 0] and a child at [zc ≥ 1]
    leaves the parent at the larger of [z0] and [zc + 1]. *)
Lemma depth_step_max (method : Z) (xx : gmap Z num) (p c z0 zc : Z) :
  method ≠ 1 →
  aget Undefined xx (p - 1) = Num z0 → 0 ≤ z0 →
  aget Undefined xx (c - 1) = Num zc → 1 ≤ zc →
  aget Undefined (depth_step method xx p c) (p - 1) = Num (z0 `max` (zc + 1)) ∧
  ∀ k, k ≠ p - 1 → depth_step method xx p c !! k = xx !! k.
Proof.
  intros Hm Hp Hz0 Hc Hzc. unfold depth_step. rewrite decide_False by done.
  rewrite Hp, Hc. cbn [num_add num_truthy num_ge].
  destruct (bool_decide (z0 ≠ 0) && bool_decide (zc + 1 ≤ z0)) eqn:Htest.
  - apply andb_true_iff in Htest as [_ Hle%bool_decide_eq_true].
    split; [|done]. rewrite Hp. f_equal. lia.
  - split.
    + rewrite aget_insert, decide_True by done. f_equal.
      apply andb_false_iff in Htest as [Hz%bool_decide_eq_false|Hz%bool_decide_eq_false]; lia.
    + intros k Hk. by rewrite lookup_insert_ne.
Qed.

(** The loop of method 2 in postorder. *)
Lemma max_loop (method : Z) (rs : list (Z * Z)) (xx : gmap Z num) :
  method ≠ 1 → children_first rs →
  (∀ v, v ∈ rs.*2 → v ∉ rs.*1 → ∃ z, aget Undefined xx (v - 1) = Num z ∧ 1 ≤ z) →
  (∀ p, p ∈ rs.*1 → ∃ z, aget Undefined xx (p - 1) = Num z ∧ 0 ≤ z) →
  let xx' := foldl (λ xx e, depth_step method xx e.1 e.2) xx rs in
  (∀ v, v ∉ rs.*1 → xx' !! (v - 1) = xx !! (v - 1)) ∧
  (∀ p, p ∈ rs.*1 → ∃ z0 z,
     aget Undefined xx (p - 1) = Num z0 ∧ aget Undefined xx' (p - 1) = Num z ∧
     z0 ≤ z ∧
     (∀ c, (p, c) ∈ rs →
        ∃ zc, aget Undefined xx' (c - 1) = Num zc ∧ 1 ≤ zc ∧ zc + 1 ≤ z) ∧
     (z = z0 ∨ ∃ c zc, (p, c) ∈ rs ∧ aget Undefined xx' (c - 1) = Num zc ∧
                       z = zc + 1)).
Proof.
  intros Hm. revert xx. induction rs as [|[p0 c0] rs IH]; intros xx Hcf C1 C2.
  { split; [done|]. by intros p ?%elem_of_nil. }
  destruct Hcf as [Hc0 Hcf]. cbn [fst snd fmap list_fmap] in Hc0.
  apply not_elem_of_cons in Hc0 as [Hne Hc0].
  destruct (C1 c0) as (zc0 & Hzc0 & Hzc1); [by left| |].
  { rewrite fmap_cons. cbn [fst]. by apply not_elem_of_cons. }
  destruct (C2 p0) as (z0 & Hz0 & Hz00); [by left|].
  destruct (depth_step_max method xx p0 c0 z0 zc0 Hm Hz0 Hz00 Hzc0 Hzc1)
    as [Hp0 Hsame].
  cbn [foldl fst snd]. set (xx2 := depth_step method xx p0 c0) in *.
  assert (∀ v, v ≠ p0 → aget Undefined xx2 (v - 1) = aget Undefined xx (v - 1))
    as Hother.
  { intros v Hv. unfold aget. by rewrite Hsame by lia. }
  destruct (IH xx2 Hcf) as [Hframe Hval].
  { intros v Hv Hn. destruct (decide (v = p0)) as [->|Hvp].
    - exists (z0 `max` (zc0 + 1)). split; [done | lia].
    - rewrite (Hother v Hvp). apply C1; [by right|].
      rewrite fmap_cons. cbn [fst]. by apply not_elem_of_cons. }
  { intros p Hp. destruct (decide (p = p0)) as [->|Hpp].
    - exists (z0 `max` (zc0 + 1)). split; [done | lia].
    - rewrite (Hother p Hpp). apply C2. by right. }
  cbn zeta in *. set (xx' := foldl _ xx2 rs) in *.
  assert (aget Undefined xx' (c0 - 1) = Num zc0) as Hc.
  { unfold aget. rewrite (Hframe c0 Hc0). fold (aget Undefined xx2 (c0 - 1)).
    by rewrite Hother. }
  split.
  { intros v Hv. rewrite fmap_cons in Hv. apply not_elem_of_cons in Hv as [Hv1 Hv2].
    cbn [fst] in Hv1. rewrite (Hframe v Hv2). apply Hsame. lia. }
  intros p Hp. rewrite fmap_cons in Hp. cbn [fst] in Hp.
  destruct (decide (p = p0)) as [->|Hpp].
  - destruct (decide (p0 ∈ rs.*1)) as [Hin|Hnin].
    + destruct (Hval p0 Hin) as (z1 & z & Hz1 & Hz & Hle & Hch & Hlast).
      rewrite Hp0 in Hz1. injection Hz1 as <-.
      exists z0, z. split; [done|]. split; [done|]. split; [lia|]. split.
      * intros c [[= ->]|Hc']%elem_of_cons; [|by apply Hch].
        exists zc0. split; [done|]. split; [done | lia].
      * destruct Hlast as [->|(c & zc & Hin' & Hzc & ->)].
        -- destruct (decide (z0 `max` (zc0 + 1) = z0)) as [->|Hmax]; [by left|].
           right. exists c0, zc0. split; [by left|]. split; [done | lia].
        -- right. exists c, zc. split; [by right | done].
    + exists z0, (z0 `max` (zc0 + 1)). split; [done|]. split.
      { unfold aget. rewrite (Hframe p0 Hnin). apply Hp0. }
      split; [lia|]. split.
      * intros c [[= ->]|Hc']%elem_of_cons.
        -- exists zc0. split; [done|]. split; [done | lia].
        -- exfalso. apply Hnin. apply list_elem_of_fmap. by exists (p0, c).
      * destruct (decide (z0 `max` (zc0 + 1) = z0)) as [->|Hmax]; [by left|].
        right. exists c0, zc0. split; [by left|]. split; [done | lia].
  - apply elem_of_cons in Hp as [?|Hp]; [done|].
    destruct (Hval p Hp) as (z1 & z & Hz1 & Hz & Hle & Hch & Hlast).
    rewrite (Hother p Hpp) in Hz1.
    exists z1, z. split; [done|]. split; [done|]. split; [done|]. split.
    + intros c [[= ? ?]|Hc']%elem_of_cons; [done | by apply Hch].
    + destruct Hlast as [->|(c & zc & Hin' & Hzc & ->)]; [by left|].
      right. exists c, zc. split; [by right | done].
Qed.

(** [X11]  [nodeDepth] with another method than 1 ("evenly spaced"), on
    edges in postorder whose parents are above the tips and start at 0 and
    whose children are tips or parents: every tip ends with depth 1 and
    every parent one above its deepest child. *)
Theorem nodeDepth_one_above_deepest_child (ntip : Z) (rs : list (Z * Z))
    (xx : gmap Z num) (method : Z) :
  method ≠ 1 →
  children_first rs →
  (∀ p, p ∈ rs.*1 → ntip < p ∧ xx !! (p - 1) = Some (Num 0)) →
  (∀ c, c ∈ rs.*2 → 1 ≤ c ≤ ntip ∨ c ∈ rs.*1) →
  ∃ xx' (d : Z → Z),
    nodeDepth ntip rs.*1 rs.*2 xx method = Ok xx' ∧
    (∀ v, 1 ≤ v ≤ ntip ∨ v ∈ rs.*1 → xx' !! (v - 1) = Some (Num (d v))) ∧
    (∀ t, 1 ≤ t ≤ ntip → d t = 1) ∧
    (∀ p c, (p, c) ∈ rs → d c + 1 ≤ d p) ∧
    (∀ p, p ∈ rs.*1 → ∃ c, (p, c) ∈ rs ∧ d p = d c + 1).
Proof.
  intros Hm Hcf Hpar Hch. rewrite nodeDepth_pairs.
  set (xx1 := foldl (λ xx i, <[i := Num 1]> xx) xx (seqZ 0 ntip)).
  assert (∀ t, 1 ≤ t ≤ ntip → xx1 !! (t - 1) = Some (Num 1)) as Htip.
  { intros t Ht. unfold xx1. rewrite tips_init. by rewrite decide_True by lia. }
  assert (∀ p, p ∈ rs.*1 → xx1 !! (p - 1) = Some (Num 0)) as Hzero.
  { intros p [Hlt H0]%Hpar. unfold xx1. rewrite tips_init.
    by rewrite decide_False by lia. }
  destruct (max_loop method rs xx1 Hm Hcf) as [Hframe Hval].
  { intros v Hv Hn. destruct (Hch v Hv) as [Ht|?]; [|done].
    exists 1. split; [by apply aget_Num, Htip | done]. }
  { intros p Hp. exists 0. split; [by apply aget_Num, Hzero | done]. }
  cbn zeta in *. set (xx' := foldl _ xx1 rs) in *.
  exists xx', (λ v, if aget Undefined xx' (v - 1) is Num z then z else 0).
  assert (∀ t, 1 ≤ t ≤ ntip → xx' !! (t - 1) = Some (Num 1)) as Htip'.
  { intros t Ht. rewrite Hframe; [by apply Htip|]. intros [? _]%Hpar. lia. }
  split; [done|]. split; [|split; [|split]].
  - intros v [Ht|Hp].
    + rewrite (Htip' v Ht). unfold aget. by rewrite (Htip' v Ht).
    + destruct (Hval v Hp) as (z0 & z & _ & Hz & _). rewrite Hz.
      by apply aget_Num.
  - intros t Ht. unfold aget. by rewrite (Htip' t Ht).
  - intros p c Hpc.
    assert (p ∈ rs.*1) as Hp by (apply list_elem_of_fmap; by exists (p, c)).
    destruct (Hval p Hp) as (z0 & z & _ & Hz & _ & Hchild & _).
    destruct (Hchild c Hpc) as (zc & Hzc & _ & Hle). by rewrite Hz, Hzc.
  - intros p Hp.
    destruct (Hval p Hp) as (z0 & z & Hz0 & Hz & _ & Hchild & Hlast).
    apply list_elem_of_fmap in Hp as ([p' c] & -> & Hpc). cbn [fst] in *.
    destruct Hlast as [->|(c' & zc & Hin & Hzc & ->)].
    + exfalso. destruct (Hchild c Hpc) as (zc & _ & Hzc1 & Hle).
      assert (aget Undefined xx1 (p' - 1) = Num 0) as H0.
      { apply aget_Num, Hzero. apply list_elem_of_fmap. by exists (p', c). }
      rewrite H0 in Hz0. injection Hz0 as <-. lia.
    + exists c'. split; [done|]. by rewrite Hz, Hzc.
Qed.

(** ** nodeDepthEdgeLength *)

Section EdgeLengthDepths.
Context {len : Type}.
Variables (ladd : len → len → len) (undef : len).

Lemma length_loop_pairs (rs : list (Z * Z)) (el : list len) (off : Z)
    (pre : list Z) (xx : gmap Z len) :
  length pre = Z.to_nat off → 0 ≤ off →
  foldl (λ acc '(i, p),
           xx ← acc;
           match zget (pre ++ rs.*2) i with
           | Some c =>
             Ok (<[c - 1 := ladd (aget undef xx (p - 1))
                                 (default undef (zget el i))]> xx)
           | None => UndefinedId
           end)
        (Ok xx)
        (reverse (zip (seqZ off (Z.of_nat (length rs.*1))) rs.*1))
  = Ok (foldr (λ '(e, i) xx,
                 <[e.2 - 1 := ladd (aget undef xx (e.1 - 1))
                                   (default undef (zget el i))]> xx)
              xx (zip rs (seqZ off (Z.of_nat (length rs))))).
Proof.
  revert off pre. induction rs as [|[p c] rs IH]; intros off pre Hpre Hoff;
    [done|].
  cbn [fmap list_fmap length]. rewrite length_fmap.
  rewrite !Nat2Z.inj_succ, seqZ_cons by lia.
  cbn [zip zip_with foldr fst snd]. rewrite reverse_cons, foldl_app.
  rewrite Z.pred_succ.
  specialize (IH (Z.succ off) (pre ++ [c])).
  rewrite <- app_assoc, length_fmap in IH. cbn [app] in IH.
  rewrite IH by (rewrite ?length_app; cbn [length]; lia).
  cbn [foldl mbind result_mbind result_bind].
  rewrite zget_nonneg by done.
  rewrite lookup_app_r by lia.
  replace (Z.to_nat off - length pre)%nat with 0%nat by lia. done.
Qed.

(** The loop from the last edge to the first, in postorder with every
    node a child once at most. *)
Lemma length_loop (ts : list (Z * Z * Z)) (el : list len) (xx : gmap Z len) :
  children_first ts.*1 → NoDup ts.*1.*2 →
  let xx' := foldr (λ '(e, i) xx,
                      <[e.2 - 1 := ladd (aget undef xx (e.1 - 1))
                                        (default undef (zget el i))]> xx)
                   xx ts in
  (∀ v, v ∉ ts.*1.*2 → xx' !! (v - 1) = xx !! (v - 1)) ∧
  (∀ p c i, (p, c, i) ∈ ts →
     aget undef xx' (c - 1)
     = ladd (aget undef xx' (p - 1)) (default undef (zget el i))).
Proof.
  induction ts as [|[[p0 c0] i0] ts IH]; intros Hcf Hnd.
  { split; [done|]. by intros p c i ?%elem_of_nil. }
  rewrite !fmap_cons in Hcf, Hnd. cbn [fst snd children_first] in Hcf, Hnd.
  destruct Hcf as [Hc0 Hcf]. rewrite fmap_cons in Hc0. cbn [fst snd] in Hc0.
  apply not_elem_of_cons in Hc0 as [Hne Hc0].
  apply NoDup_cons in Hnd as [Hc0' Hnd].
  destruct (IH Hcf Hnd) as [Hframe Hval]. cbn zeta in *.
  cbn [foldr fst snd]. set (xx2 := foldr _ xx ts) in *.
  split.
  - intros v Hv. rewrite !fmap_cons in Hv. cbn [fst snd] in Hv.
    apply not_elem_of_cons in Hv as [Hv1 Hv2].
    rewrite lookup_insert_ne by lia. by apply Hframe.
  - intros p c i [[= -> -> ->]|Hin]%elem_of_cons.
    + rewrite !aget_insert. rewrite decide_True by done.
      by rewrite decide_False by lia.
    + rewrite !aget_insert.
      assert (c ≠ c0).
      { intros ->. apply Hc0'. apply list_elem_of_fmap. exists (p, c0).
        split; [done|]. apply list_elem_of_fmap. by exists (p, c0, i). }
      assert (p ≠ c0).
      { intros ->. apply Hc0. apply list_elem_of_fmap. exists (c0, c).
        split; [done|]. apply list_elem_of_fmap. by exists (c0, c, i). }
      rewrite !decide_False by lia. by apply Hval.
Qed.

(** [X12]  [nodeDepthEdgeLength] on edges in postorder where every node
    is a child once at most: the depth of every child ends as the depth of
    its parent plus the length of the edge between them, and a node that
    is no child (the root) keeps the depth it has. *)
Theorem nodeDepthEdgeLength_adds_lengths (rs : list (Z * Z)) (el : list len)
    (xx : gmap Z len) :
  children_first rs → NoDup rs.*2 →
  ∃ xx', nodeDepthEdgeLength ladd undef rs.*1 rs.*2 el xx = Ok xx' ∧
    (∀ (i : nat) p c, rs !! i = Some (p, c) →
       aget undef xx' (c - 1)
       = ladd (aget undef xx' (p - 1)) (default undef (el !! i))) ∧
    (∀ v, v ∉ rs.*2 → xx' !! (v - 1) = xx !! (v - 1)).
Proof.
  intros Hcf Hnd. unfold nodeDepthEdgeLength.
  pose proof (length_loop_pairs rs el 0 [] xx eq_refl ltac:(done)) as Hrun.
  cbn [app] in Hrun. rewrite Hrun.
  eexists. split; [done|].
  set (ts := zip rs (seqZ 0 (Z.of_nat (length rs)))).
  assert (ts.*1 = rs) as Hfst.
  { unfold ts. apply fst_zip. rewrite length_seqZ. lia. }
  destruct (length_loop ts el xx) as [Hframe Hval]; [by rewrite Hfst..|].
  cbn zeta in *. rewrite Hfst in Hframe. split; [|done].
  intros i p c Hi. rewrite <- zget_of_nat. apply Hval.
  apply list_elem_of_lookup. exists i. unfold ts.
  apply lookup_zip_Some. split; [done|].
  apply lookup_seqZ. apply lookup_lt_Some in Hi. lia.
Qed.
End EdgeLengthDepths.

(** ** bipartition2: the clades *)

Section Clades.
Variables (nTips m : Z).





End Clades.


Lemma descends_parent (rs : list (Z * Z)) (p d : Z) :
  descends rs p d → p ∈ rs.*1.
Proof.
  intros [p' c Hin|p' c d' Hin _]; apply list_elem_of_fmap; by exists (p', c).
Qed.


(** ** collapseSingles: the tree returned *)

Lemma parent_of_None (rs : list (Z * Z)) (v : Z) :
  v ∉ rs.*2 → parent_of rs v = None.
Proof.
  intros Hv. unfold parent_of. rewrite filter_none; [done|].
  apply Forall_forall. intros e He <-. apply Hv, list_elem_of_fmap. by exists e.
Qed.

Lemma parent_of_Some (rs : list (Z * Z)) (p c : Z) :
  NoDup rs.*2 → (p, c) ∈ rs → parent_of rs c = Some p.
Proof.
  unfold parent_of. induction rs as [|[q d] rs IH]; intros Hnd Hin.
  { by apply elem_of_nil in Hin. }
  rewrite fmap_cons in Hnd. cbn [snd] in Hnd. apply NoDup_cons in Hnd as [Hd Hnd].
  rewrite filter_cons. cbn [snd]. apply elem_of_cons in Hin as [[= -> ->]|Hin].
  - by rewrite decide_True.
  - rewrite decide_False; [by apply IH|].
    intros ->. apply Hd, list_elem_of_fmap. by exists (p, c).
Qed.

(** Edges along which a potential grows, with every node a child once at
    most, have depths: 0 at a node that is no child, one more at a child
    than at its parent. *)
Lemma exact_depth (rs : list (Z * Z)) (root : Z) (d : Z → nat) :
  NoDup rs.*2 → root ∉ rs.*2 →
  (∀ p c, (p, c) ∈ rs → (d p < d c)%nat) →
  ∃ depth : Z → nat, depth root = 0%nat ∧
    ∀ p c, (p, c) ∈ rs → depth c = S (depth p).
Proof.
  intros Hnd Hroot Hd.
  assert (∀ k v f, d v = k → (k ≤ f)%nat →
            path_length rs f v = path_length rs (d v) v) as Hstable.
  { induction k as [k IH] using lt_wf_ind. intros v f Hk Hf.
    destruct (parent_of rs v) as [p|] eqn:Hp.
    - assert ((p, v) ∈ rs) as Hin.
      { unfold parent_of in Hp. apply fmap_Some in Hp as ([p' v'] & Hh & ->).
        apply head_Some_elem_of, list_elem_of_filter in Hh as [Hv Hin].
        cbn in Hv. by subst. }
      specialize (Hd p v Hin).
      destruct f as [|f]; [lia|]. destruct (d v) as [|dv] eqn:Hdv; [lia|].
      cbn [path_length]. rewrite Hp. f_equal.
      rewrite (IH (d p) ltac:(lia) p f eq_refl ltac:(lia)).
      by rewrite (IH (d p) ltac:(lia) p dv eq_refl ltac:(lia)).
    - destruct f, (d v); cbn [path_length]; by rewrite ?Hp. }
  exists (λ v, path_length rs (d v) v). split.
  - destruct (d root); cbn [path_length]; [done|].
    by rewrite parent_of_None.
  - intros p c Hin. specialize (Hd p c Hin).
    destruct (d c) as [|dc] eqn:Hdc; [lia|]. cbn [path_length].
    rewrite (parent_of_Some rs p c Hnd Hin). f_equal.
    apply (Hstable (d p) p dc eq_refl). lia.
Qed.

Lemma delete_zip {A B} (i : nat) (a : list A) (b : list B) :
  delete i (zip a b) = zip (delete i a) (delete i b).
Proof.
  revert i b. induction a as [|x a IH]; intros i b.
  { by destruct i. }
  destruct b as [|y b].
  { assert (delete i ([] : list B) = []) as -> by (by destruct i).
    by rewrite !zip_with_nil_r; destruct i. }
  destruct i as [|i]; [done|]. cbn. by rewrite IH.
Qed.

Lemma remove_rows_zip {A B} (ii : list Z) (a : list A) (b : list B) :
  remove_rows ii (zip a b) = zip (remove_rows ii a) (remove_rows ii b).
Proof.
  revert a b. induction ii as [|i ii IH]; intros a b; [done|].
  unfold remove_rows in *. cbn [foldl]. by rewrite delete_zip, IH.
Qed.

Lemma remove_rows_subseteq {A} (ii : list Z) (l : list A) :
  remove_rows ii l ⊆ l.
Proof.
  revert l. induction ii as [|i ii IH]; intros l; [done|].
  unfold remove_rows in *. cbn [foldl]. etrans; [apply IH|].
  intros x. apply list_elem_of_delete_inv.
Qed.

Lemma remove_rows_length {A B} (ii : list Z) (a : list A) (b : list B) :
  length a = length b → length (remove_rows ii a) = length (remove_rows ii b).
Proof.
  revert a b. induction ii as [|i ii IH]; intros a b Hl; [done|].
  unfold remove_rows in *. cbn [foldl]. apply IH.
  rewrite !delete_take_drop, !length_app, !length_take, !length_drop. lia.
Qed.

(** The writes of the splice keep a potential growing along the rows. *)
Lemma splice_potential (e1 e2 : list Z) (d : Z → nat) (ii : list Z)
    (cur : list Z) :
  length e1 = length e2 → length cur = length e2 →
  (∀ i p c, e1 !! i = Some p → e2 !! i = Some c → (d p < d c)%nat) →
  (∀ i, i ∈ ii → is_Some (zget e1 i)) →
  (∀ r p c, e1 !! r = Some p → cur !! r = Some c → (d p < d c)%nat) →
  ∀ r p c, e1 !! r = Some p →
    foldl (splice_children e1 e2) cur ii !! r = Some c → (d p < d c)%nat.
Proof.
  intros Hlen. revert cur. induction ii as [|i ii IH];
    intros cur Hcur Hd Hii Hinv; [done|].
  cbn [foldl]. apply IH; [|done|intros; apply Hii; by right|].
  { unfold splice_children. by rewrite length_zset. }
  destruct (Hii i ltac:(by left)) as [s Hs].
  apply zget_Some in Hs as Hs'. destruct Hs' as [Hi0 His].
  destruct (lookup_lt_is_Some_2 cur (Z.to_nat i)) as [x Hx].
  { rewrite Hcur, <- Hlen. by eapply lookup_lt_Some. }
  unfold splice_children. rewrite Hs, (zget_nonneg cur i Hi0), Hx.
  cbn [default from_option]. unfold id.
  destruct (index_of s e2) as [j|] eqn:Hj; cbn [default from_option]; unfold id.
  - destruct (index_of_Some _ _ _ Hj) as (Hj0 & Hjs & _).
    unfold zset. rewrite decide_True by done.
    intros r p c Hp Hc.
    destruct (decide (r = Z.to_nat j)) as [->|Hne].
    + rewrite list_lookup_insert_eq in Hc by (rewrite Hcur; by eapply lookup_lt_Some).
      injection Hc as <-.
      pose proof (Hd _ _ _ Hp Hjs). pose proof (Hinv _ _ _ His Hx). lia.
    + rewrite list_lookup_insert_ne in Hc by done. by eapply Hinv.
  - unfold zset. by rewrite decide_False by lia.
Qed.

Section StripLengths.
Context {len : Type}.
Variables (ladd : len → len → len) (undef : len).

(** The basal loop removes the same rows from the columns and from the
    branch lengths. *)
Lemma strip_basal_lengths fuel wbl rootEdge e1 e2 (el : list len) ROOT ROOTEDGE
    e1' e2' el' ROOT' ROOTEDGE' :
  strip_basal ladd undef fuel wbl rootEdge (e1, e2, el, ROOT, ROOTEDGE)
  = Ok (e1', e2', el', ROOT', ROOTEDGE') →
  (wbl = true → length el = length e1) →
  (wbl = true → length el' = length e1') ∧ (wbl = false → el' = el).
Proof.
  revert e1 e2 el ROOT ROOTEDGE.
  induction fuel as [|fuel IH]; intros e1 e2 el ROOT ROOTEDGE;
    rewrite strip_basal_unfold.
  all: destruct (tabulate e1) as [tab| |]; cbn [mbind result_mbind result_bind];
    [|done..].
  all: case_decide; [|by intros [= <- <- <- <- <-]].
  all: destruct (index_of ROOT e1) as [iIndex|]; [|by intros [= <- <- <- <- <-]].
  { done. }
  cbn zeta. intros Hrun Hl. apply IH in Hrun as [H1 H2].
  - split; [done|]. intros Hw. rewrite (H2 Hw). by rewrite Hw.
  - intros Hw. rewrite Hw. specialize (Hl Hw).
    rewrite !delete_take_drop, !length_app, !length_take, !length_drop. lia.
Qed.
End StripLengths.

Lemma splice_step_lengths {len} (ladd : len → len → len) (undef : len)
    (wbl : bool) (l : list (Z * option Z)) (e2 : list Z) (el : list len) :
  length (foldl (splice_step ladd undef wbl) (e2, el) l).2 = length el.
Proof.
  revert e2 el. induction l as [|[i j] l IH]; intros e2 el; [done|].
  cbn [foldl splice_step]. rewrite IH. destruct wbl; [apply length_zset | done].
Qed.

Section RenumberMap.
Variables (n ROOT : Z) (e1 e2 : list Z).
Hypothesis edges : collapsed n ROOT e1 e2.
Hypothesis n_nonneg : 0 ≤ n.

(** The new numbers: the root becomes [n + 1], the tips keep their
    numbers, and the other nodes get [n + 2] onwards, each its own. *)
Lemma renumber_map (nb0 : gmap Z Z) :
  nb0 !! (ROOT - 1) = Some (n + 1) →
  let newNb :=
    foldl (λ nb i,
             table_set nb
               (default 0 (zget (sorted_set (filter (λ val, n < val) e2)) i) - 1)
               (zget (seqZ (n + 2) (Z.of_nat (length e1) - n + 1 - 1)) i))
          nb0
          (seqZ 0 (Z.of_nat (length (sorted_set (filter (λ val, n < val) e2))))) in
  let Nnode' := Z.of_nat (length e1) - n + 1 in
  ∃ g : Z → Z,
    (∀ x, x ∈ e1 → newNb !! (x - 1) = Some (g x)) ∧
    (∀ x, x ∈ e2 →
       (if decide (n < x) then newNb !! (x - 1) else Some x) = Some (g x)) ∧
    g ROOT = n + 1 ∧
    (∀ x, x ∈ e2 → x ≤ n → g x = x) ∧
    (∀ x, x ∈ e2 → n < x → n + 2 ≤ g x ≤ n + Nnode') ∧
    (∀ v, n + 2 ≤ v ≤ n + Nnode' → ∃ x, x ∈ e2 ∧ n < x ∧ g x = v) ∧
    (∀ x x', x ∈ e1 ∨ x ∈ e2 → x' ∈ e1 ∨ x' ∈ e2 → g x = g x' → x = x').
Proof.
  intros Hnb0. set (P := sorted_set (filter (λ val, n < val) e2)).
  pose proof (internal_nodes_length n ROOT e1 e2 edges) as HP. fold P in HP.
  replace (Z.of_nat (length e1) - n + 1 - 1) with (Z.of_nat (length P)) by lia.
  destruct (renumber_table P nb0 (n + 2) (sorted_set_NoDup _)) as [Hnew Hold].
  cbn zeta in Hnew, Hold |- *.
  set (newNb := foldl _ nb0 _) in *.
  assert (n < ROOT) as HROOT.
  { apply (co_parents _ _ _ _ edges), (co_root _ _ _ _ edges). }
  assert (newNb !! (ROOT - 1) = Some (n + 1)) as Hroot.
  { rewrite Hold; [done|]. intros x [Hx _]%(internal_nodes_elem n e2) Heq.
    apply (co_root_child _ _ _ _ edges). by replace ROOT with x by lia. }
  assert (∀ x, x ∈ e2 → n < x →
            ∃ i, P !! i = Some x ∧ newNb !! (x - 1) = Some (n + 2 + Z.of_nat i))
    as Hint.
  { intros x Hx Hlt.
    assert (x ∈ P) as [i Hi]%list_elem_of_lookup_1
      by (by apply (internal_nodes_elem n e2)).
    exists i. split; [done|]. by apply Hnew. }
  set (g := λ x, if decide (n < x) then default 0 (newNb !! (x - 1)) else x).
  assert (g ROOT = n + 1) as HgR.
  { unfold g. rewrite decide_True by done. by rewrite Hroot. }
  assert (∀ x, x ∈ e2 → n < x →
            ∃ i, P !! i = Some x ∧ g x = n + 2 + Z.of_nat i) as Hgint.
  { intros x Hx Hlt. destruct (Hint x Hx Hlt) as (i & Hi & Hnb).
    exists i. split; [done|]. unfold g. rewrite decide_True by done.
    by rewrite Hnb. }
  assert (∀ x, x ∈ e1 → x = ROOT ∨ x ∈ e2 ∧ n < x) as Hpar.
  { intros x Hx. destruct (co_connected _ _ _ _ edges x Hx) as [->|Hc]; [by left|].
    right. split; [done|]. by apply (co_parents _ _ _ _ edges). }
  exists g. split; [|split; [|split; [|split; [|split; [|split]]]]].
  - intros x [->|[Hx Hlt]]%Hpar; [by rewrite Hroot, HgR|].
    unfold g. rewrite decide_True by done.
    destruct (Hint x Hx Hlt) as (i & _ & ->). done.
  - intros x Hx. unfold g. case_decide as Hlt; [|done].
    destruct (Hint x Hx Hlt) as (i & _ & ->). done.
  - done.
  - intros x _ Hle. unfold g. by rewrite decide_False by lia.
  - intros x Hx Hlt. destruct (Hgint x Hx Hlt) as (i & Hi & ->).
    apply lookup_lt_Some in Hi. lia.
  - intros v Hv.
    destruct (lookup_lt_is_Some_2 P (Z.to_nat (v - n - 2))) as [x Hx]; [lia|].
    assert (x ∈ P) as [Hxe Hlt]%(internal_nodes_elem n e2)
      by (by eapply list_elem_of_lookup_2).
    exists x. split; [done|]. split; [done|].
    destruct (Hgint x Hxe Hlt) as (i & Hi & ->).
    pose proof (NoDup_lookup P _ _ x (sorted_set_NoDup _) Hi Hx). lia.
  - assert (∀ x, x ∈ e1 ∨ x ∈ e2 →
              x ≤ n ∧ g x = x ∨ x = ROOT ∧ g x = n + 1 ∨
              ∃ i, P !! i = Some x ∧ g x = n + 2 + Z.of_nat i) as Hclass.
    { intros x [[->|[Hx Hlt]]%Hpar|Hx].
      - right. by left.
      - right. right. by apply Hgint.
      - destruct (decide (n < x)) as [Hlt|Hle].
        + right. right. by apply Hgint.
        + left. split; [lia|]. unfold g. by rewrite decide_False. }
    intros x x' Hx Hx' Heq.
    destruct (Hclass x Hx) as [[Hle Hg]|[[-> Hg]|(i & Hi & Hg)]];
      destruct (Hclass x' Hx') as [[Hle' Hg']|[[-> Hg']|(i' & Hi' & Hg')]];
      try lia; try done.
    assert (i = i') as -> by lia. congruence.
Qed.
End RenumberMap.

Lemma Forall2_fmap_defined (G : Z → option Z) (g : Z → Z) (l l' : list Z) :
  Forall2 (λ x y, G x = Some y) l l' → (∀ x, x ∈ l → G x = Some (g x)) →
  l' = g <$> l.
Proof.
  induction 1 as [|x y l l' Hxy _ IH]; intros Hg; [done|].
  rewrite fmap_cons. f_equal.
  - rewrite (Hg x) in Hxy by (by left). by injection Hxy.
  - apply IH. intros; apply Hg; by right.
Qed.

Lemma occurrences_fmap_inj (g : Z → Z) (a : Z) (l : list Z) :
  (∀ x, x ∈ l → g x = g a → x = a) →
  occurrences (g a) (g <$> l) = occurrences a l.
Proof.
  induction l as [|x l IH]; intros Hinj; [done|].
  rewrite fmap_cons, !occurrences_cons.
  rewrite IH by (intros; apply Hinj; [by right | done]).
  destruct (decide (x = a)) as [->|Hne]; [by rewrite decide_True|].
  rewrite decide_False; [done|]. intros Heq. apply Hne, Hinj; [by left | done].
Qed.

Section CollapsedValid.
Context {len : Type}.
Variables (R : Phylo len) (n ROOT : Z) (e1 e2 : list Z) (g : Z → Z) (d : Z → nat).
Hypothesis edges : collapsed n ROOT e1 e2.
Hypothesis tips : n = Z.of_nat (length (tipLabel R)).
Hypothesis potential : ∀ p c, (p, c) ∈ zip e1 e2 → (d p < d c)%nat.
Hypothesis g_root : g ROOT = n + 1.
Hypothesis g_tip : ∀ x, x ∈ e2 → x ≤ n → g x = x.
Hypothesis g_internal : ∀ x, x ∈ e2 → n < x →
  n + 2 ≤ g x ≤ n + (Z.of_nat (length e1) - n + 1).
Hypothesis g_onto : ∀ v, n + 2 ≤ v ≤ n + (Z.of_nat (length e1) - n + 1) →
  ∃ x, x ∈ e2 ∧ n < x ∧ g x = v.
Hypothesis g_inj : ∀ x x', x ∈ e1 ∨ x ∈ e2 → x' ∈ e1 ∨ x' ∈ e2 →
  g x = g x' → x = x'.
Hypothesis R_edge : edge R = Some <$> zip (g <$> e1) (g <$> e2).
Hypothesis R_Nnode : Nnode R = Z.of_nat (length e1) - n + 1.
Hypothesis R_lengths : ∀ el, edgeLength R = Some el → length el = length e1.

Lemma collapsed_parent_class (p : Z) :
  p ∈ e1 → p = ROOT ∨ p ∈ e2 ∧ n < p.
Proof.
  intros Hp. destruct (co_connected _ _ _ _ edges p Hp) as [->|Hc]; [by left|].
  right. split; [done|]. by apply (co_parents _ _ _ _ edges).
Qed.

Lemma collapsed_NoDup_children : NoDup (g <$> e2).
Proof.
  apply NoDup_fmap_2_strong; [|apply (co_children _ _ _ _ edges)].
  intros x y Hx Hy. apply g_inj; by right.
Qed.

(** The renumbered columns of a collapsed tree are the edges of a valid
    tree without singleton nodes. *)
Lemma collapsed_valid :
  valid_tree R (zip (g <$> e1) (g <$> e2)) ∧
  ∀ v, occurrences v (g <$> e1) ≠ 1.
Proof.
  pose proof (co_length _ _ _ _ edges) as Hlen.
  assert (length (g <$> e1) = length (g <$> e2)) as Hlen'
    by (by rewrite !length_fmap).
  assert ((zip (g <$> e1) (g <$> e2)).*1 = g <$> e1) as Hfst
    by (apply fst_zip; lia).
  assert ((zip (g <$> e1) (g <$> e2)).*2 = g <$> e2) as Hsnd
    by (apply snd_zip; lia).
  assert (∀ p' c', (p', c') ∈ zip (g <$> e1) (g <$> e2) →
            ∃ p c, (p, c) ∈ zip e1 e2 ∧ p' = g p ∧ c' = g c) as Hpairs.
  { intros p' c' [k Hk]%list_elem_of_lookup_1.
    apply lookup_zip_Some in Hk as [Hk1 Hk2].
    rewrite list_lookup_fmap in Hk1, Hk2.
    apply fmap_Some in Hk1 as (p & Hp & ->). apply fmap_Some in Hk2 as (c & Hc & ->).
    exists p, c. split; [|done]. apply list_elem_of_lookup. exists k.
    by apply lookup_zip_Some. }
  assert (0 ≤ Z.of_nat (length e1) - n) as HN.
  { pose proof (internal_nodes_length n ROOT e1 e2 edges ltac:(lia)). lia. }
  assert (n + 1 ∉ g <$> e2) as Hroot.
  { intros (c & Hg & Hc)%list_elem_of_fmap. destruct (decide (n < c)) as [Hlt|Hle].
    - pose proof (g_internal c Hc Hlt). lia.
    - rewrite (g_tip c Hc) in Hg by lia. lia. }
  split; [split|]; rewrite <- ?tips, ?R_Nnode, ?Hfst, ?Hsnd.
  - done.
  - rewrite length_zip, !length_fmap. lia.
  - set (nodes := e1 ++ e2).
    set (d' := λ y, default 0%nat
                      (d <$> head (filter (λ x, g x = y) nodes))).
    assert (∀ x, x ∈ e1 ∨ x ∈ e2 → d' (g x) = d x) as Hd'.
    { intros x Hx. unfold d'.
      assert (x ∈ filter (λ x0, g x0 = g x) nodes) as Hin.
      { apply list_elem_of_filter. split; [done|]. by apply elem_of_app. }
      destruct (filter (λ x0, g x0 = g x) nodes) as [|x0 l] eqn:Hf.
      { by apply elem_of_nil in Hin. }
      cbn. f_equal. apply g_inj; [|done|].
      - apply elem_of_app. assert (x0 ∈ filter (λ x0, g x0 = g x) nodes) as H0
          by (rewrite Hf; by left).
        by apply list_elem_of_filter in H0 as [_ ?].
      - assert (x0 ∈ filter (λ x0, g x0 = g x) nodes) as H0
          by (rewrite Hf; by left).
        by apply list_elem_of_filter in H0 as [? _]. }
    apply (exact_depth _ _ d').
    + rewrite Hsnd. apply collapsed_NoDup_children.
    + by rewrite Hsnd.
    + intros p' c' (p & c & Hpc & -> & ->)%Hpairs.
      assert (p ∈ e1 ∧ c ∈ e2) as [Hp Hc].
      { apply list_elem_of_lookup_1 in Hpc as [k Hk].
        apply lookup_zip_Some in Hk as [Hk1 Hk2].
        split; by eapply list_elem_of_lookup_2. }
      rewrite !Hd' by auto. by apply potential.
  - intros v Hv Hne. apply occurrences_NoDup; [apply collapsed_NoDup_children|].
    apply list_elem_of_fmap. destruct (decide (v ≤ n)) as [Hle|Hgt].
    + exists v. assert (v ∈ e2) as Hin by (apply (co_tips _ _ _ _ edges); lia).
      split; [|done]. symmetry. by apply g_tip.
    + destruct (g_onto v ltac:(lia)) as (x & Hx & _ & Hg). by exists x.
  - intros c' (c & -> & Hc)%list_elem_of_fmap.
    destruct (decide (n < c)) as [Hlt|Hle].
    + pose proof (g_internal c Hc Hlt). lia.
    + rewrite (g_tip c Hc) by lia. pose proof (co_positive _ _ _ _ edges c Hc). lia.
  - done.
  - intros p' (p & -> & Hp)%list_elem_of_fmap.
    destruct (collapsed_parent_class p Hp) as [->|[Hc Hlt]]; [lia|].
    pose proof (g_internal p Hc Hlt). lia.
  - intros v Hv. apply list_elem_of_fmap. destruct (decide (v = n + 1)) as [->|Hne].
    + exists ROOT. split; [done|]. apply (co_root _ _ _ _ edges).
    + destruct (g_onto v ltac:(lia)) as (x & Hx & Hlt & Hg). exists x.
      split; [done|]. by apply (co_internal _ _ _ _ edges).
  - intros el Hel. rewrite length_zip, !length_fmap, (R_lengths el Hel). lia.
  - intros v. destruct (decide (v ∈ g <$> e1)) as [Hin|Hnin].
    + apply list_elem_of_fmap in Hin as (p & -> & Hp).
      rewrite occurrences_fmap_inj by (intros x Hx; apply g_inj; by left).
      pose proof (co_branching _ _ _ _ edges p Hp). lia.
    + apply occurrences_zero in Hnin. lia.
Qed.
End CollapsedValid.

Lemma map_defined_fmap {A} (G : A → option Z) (g : A → Z) (l : list A) :
  (∀ x, x ∈ l → G x = Some (g x)) → map_defined G l = Ok (g <$> l).
Proof.
  induction l as [|x l IH]; intros Hg; [done|].
  cbn [map_defined]. rewrite (Hg x) by (by left).
  rewrite IH by (intros; apply Hg; by right). done.
Qed.

Section ReorderFull.
Context {len : Type}.
Variables (undef : len) (T : Phylo len) (rs : list (Z * Z)).
Hypothesis valid : valid_tree T rs.
Let n := Z.of_nat (length (tipLabel T)).
Hypothesis tag_sound : order T = Some Cladewise → topo [n + 1] rs.

(** What [collapseSingles] has after its call of [reorder]. *)
Lemma reorder_cladewise_full :
  2 ≤ n →
  ∃ T' rs0, reorder undef T Cladewise = Ok T' ∧
    valid_tree T' rs0 ∧ rs0 ≡ₚ rs ∧ tipLabel T' = tipLabel T ∧
    Nnode T' = Nnode T ∧ topo [n + 1] rs0 ∧
    (order T' = Some Cladewise ∨ Nnode T = 1).
Proof.
  intros Hn.
  destruct (decide (order T ≠ Some Cladewise ∧ Nnode T ≠ 1)) as [[Hord HN]|Hno].
  - destruct (reorder_cladewise_run undef T rs valid Hn Hord HN)
      as (s & Hwalk & Hperm & Hre).
    pose proof (rows_at_Permutation rs s Hperm) as Hp.
    eexists _, (rows_at rs s). split; [exact Hre|].
    cbn [tipLabel Nnode order]. split.
    { apply (valid_tree_Permutation T _ rs);
        cbn [edge tipLabel Nnode edgeLength]; try done.
      intros el'. destruct (edgeLength T) as [el|]; [|done]. intros [= <-].
      unfold pick_lengths, rows_at. rewrite length_fmap, Hp, Hperm, length_seqZ.
      lia. }
    split; [done|]. split; [done|]. split; [done|]. split; [|by left].
    apply (cladewise_from_topo (n + 1)); [|by left].
    by eapply walk_cladewise.
  - exists T, rs. split.
    { apply reorder_cladewise_same. intros (_ & ? & ?). by apply Hno. }
    split; [done|]. split; [done|]. split; [done|]. split; [done|].
    destruct (decide (order T = Some Cladewise)) as [Hord|Hord].
    + split; [by apply tag_sound | by left].
    + assert (Nnode T = 1) as HN.
      { destruct (decide (Nnode T = 1)); [done|]. by destruct Hno. }
      split; [|by right]. apply topo_seen.
      intros p Hp%(vt_parents _ _ valid). fold n in Hp.
      apply list_elem_of_singleton. lia.
Qed.
End ReorderFull.

Lemma filter_ext_in {A} (P Q : A → Prop) `{!∀ x, Decision (P x)}
    `{!∀ x, Decision (Q x)} (l : list A) :
  (∀ x, x ∈ l → P x ↔ Q x) → filter P l = filter Q l.
Proof.
  induction l as [|x l IH]; intros Hext; [done|].
  rewrite !filter_cons, IH by (intros; apply Hext; by right).
  destruct (decide (P x)) as [HP|HP].
  - by rewrite decide_True by (apply Hext; [by left | done]).
  - rewrite decide_False; [done|]. intros HQ. apply HP, Hext; [by left | done].
Qed.

Lemma filter_without_one (P : Z → Prop) `{!∀ x, Decision (P x)} (R : Z)
    (l : list Z) :
  NoDup l → R ∈ l → P R →
  S (length (filter (λ v, P v ∧ v ≠ R) l)) = length (filter P l).
Proof.
  induction l as [|x l IH]; intros Hnd Hin HP; [by apply elem_of_nil in Hin|].
  apply NoDup_cons in Hnd as [Hx Hnd]. rewrite !filter_cons.
  apply elem_of_cons in Hin as [<-|Hin].
  - rewrite decide_False by naive_solver. rewrite decide_True by done.
    cbn [length]. f_equal. f_equal. apply filter_ext_in. intros v Hv.
    split; [naive_solver|]. intros HPv. split; [done|]. by intros ->.
  - specialize (IH Hnd Hin HP). assert (x ≠ R) by (by intros ->).
    destruct (decide (P x)).
    + rewrite decide_True by done. cbn [length]. lia.
    + rewrite decide_False by naive_solver. done.
Qed.

(** Removing the only edge out of a node takes it out of the singleton
    nodes and leaves the others. *)
Lemma single_nodes_delete (n N ROOT : Z) (e1 : list Z) (i : nat) :
  e1 !! i = Some ROOT → occurrences ROOT e1 = 1 → n < ROOT ≤ n + N →
  S (length (single_nodes n N (delete i e1))) = length (single_nodes n N e1).
Proof.
  intros Hi Hocc HR. unfold single_nodes.
  rewrite <- (filter_without_one (λ v, occurrences v e1 = 1) ROOT);
    [|apply seqZ_NoDup|apply elem_of_seqZ; lia|done].
  f_equal. f_equal. apply filter_ext_in. intros v _.
  pose proof (delete_Permutation _ _ _ Hi) as Hp.
  rewrite (occurrences_Permutation v _ _ Hp), occurrences_cons.
  rewrite (occurrences_Permutation ROOT _ _ Hp), occurrences_cons in Hocc.
  rewrite decide_True in Hocc by done.
  case_decide as Hv; [subst v; lia | split; [naive_solver|by intros [? ?]]].
Qed.

Section StripCount.
Context {len : Type}.
Variables (ladd : len → len → len) (undef : len) (n N : Z).
Hypothesis n_nonneg : 0 ≤ n.

(** Every turn of the basal loop removes one edge and one singleton
    node. *)
Lemma strip_basal_count fuel wbl rootEdge e1 e2 (el : list len) ROOT ROOTEDGE
    e1' e2' el' ROOT' ROOTEDGE' :
  strip_basal ladd undef fuel wbl rootEdge (e1, e2, el, ROOT, ROOTEDGE)
  = Ok (e1', e2', el', ROOT', ROOTEDGE') →
  (∀ p, p ∈ e1 → n < p ≤ n + N) →
  (∀ p, p ∈ e1' → n < p ≤ n + N) ∧
  Z.of_nat (length e1') - Z.of_nat (length (single_nodes n N e1'))
  = Z.of_nat (length e1) - Z.of_nat (length (single_nodes n N e1)).
Proof.
  revert e1 e2 el ROOT ROOTEDGE.
  induction fuel as [|fuel IH]; intros e1 e2 el ROOT ROOTEDGE;
    rewrite strip_basal_unfold.
  all: destruct (tabulate e1) as [tab| |] eqn:Htab;
    cbn [mbind result_mbind result_bind]; [|done..].
  all: case_decide as Hone; [|by intros [= <- <- <- <- <-]].
  all: destruct (index_of ROOT e1) as [iIndex|] eqn:Hidx;
    [|by intros [= <- <- <- <- <-]].
  { done. }
  cbn zeta. intros Hrun Hpar.
  destruct (index_of_Some _ _ _ Hidx) as (Hi0 & Hi & _).
  assert (ROOT ∈ e1) as Hin by (by eapply list_elem_of_lookup_2).
  pose proof (Hpar ROOT Hin) as HR.
  assert (occurrences ROOT e1 = 1) as Hocc.
  { destruct (js_max_is_Some e1) as [m Hm]; [by intros ->; apply elem_of_nil in Hin|].
    destruct (js_max_spec _ _ Hm) as [Hmin Hmax].
    pose proof (Hpar m Hmin).
    destruct (tabulate_Ok e1 m Hm ltac:(lia)) as (tab' & Htab' & _ & Hget).
    rewrite Htab in Htab'. injection Htab' as <-.
    rewrite Hget in Hone by (pose proof (Hmax ROOT Hin); lia). by injection Hone. }
  apply IH in Hrun as [H1 H2].
  - split; [done|]. rewrite H2.
    pose proof (single_nodes_delete n N ROOT e1 _ Hi Hocc HR).
    rewrite length_delete by (by eexists).
    assert (0 < length e1)%nat by (by eapply Nat.le_lt_trans, lookup_lt_Some; [lia|]).
    lia.
  - intros p Hp%list_elem_of_delete_inv. by apply Hpar.
Qed.
End StripCount.

Section CollapseValid.
Context {len : Type}.
Variables (ladd : len → len → len) (lzero undef : len).
Variables (T : Phylo len) (rs : list (Z * Z)).
Hypothesis valid : valid_tree T rs.
Let n := Z.of_nat (length (tipLabel T)).
Hypothesis tag_sound : order T = Some Cladewise → topo [n + 1] rs.

(** From two tips on, [collapseSingles] returns a valid tree with the
    same tips in which no node is the parent of exactly one edge. *)
Lemma collapse_two_tips_valid (keepRootLength : bool) :
  2 ≤ n →
  ∃ R rs', collapseSingles ladd lzero undef T keepRootLength = Ok R ∧
    valid_tree R rs' ∧ tipLabel R = tipLabel T ∧
    (∀ v, occurrences v rs'.*1 ≠ 1) ∧
    Nnode R = Nnode T - Z.of_nat (length (single_nodes n (Nnode T) rs.*1)).
Proof.
  intros Hn.
  destruct (reorder_cladewise_full undef T rs valid tag_sound Hn)
    as (T' & rs0 & Hre & valid' & Hperm & Htips & HNn & Htopo & Htag).
  pose proof (vt_rows _ _ valid') as Hedge.
  pose proof (valid_rooted_edges T rs valid ltac:(fold n; lia) rs0 Hperm) as Hedges.
  fold n in Hedges.
  unfold collapseSingles. fold n. rewrite decide_False by lia.
  rewrite Hre. cbn [mbind result_mbind result_bind].
  rewrite Hedge, rows_Some. cbn [mbind result_mbind result_bind].
  assert (rs0.*1 ≠ []) as Hne.
  { destruct (valid_some_edge T rs valid ltac:(fold n; lia)) as [Hne _].
    intros Hnil%fmap_nil_inv. subst rs0. by apply Permutation_nil_l in Hperm. }
  destruct (js_max_is_Some _ Hne) as [m Hm].
  destruct (js_max_spec _ _ Hm) as [Hmin Hmax].
  pose proof (re_parents _ _ _ _ Hedges m Hmin) as Hmn.
  destruct (tabulate_Ok _ m Hm ltac:(lia)) as (tab & Htab & Hlen & Hget).
  rewrite Htab. cbn [mbind result_mbind result_bind].
  destruct (all_internal_multiple n tab) eqn:Hall.
  { exists T', rs0. split; [done|]. split; [done|]. split; [done|]. split.
    - intros v. destruct (decide (v ∈ rs0.*1)) as [Hin|Hnin].
      + pose proof (re_parents _ _ _ _ Hedges v Hin) as Hv.
        pose proof (Hmax v Hin).
        pose proof (all_internal_multiple_true n tab v _ ltac:(lia) Hall Hv
                      (Hget v ltac:(lia))). lia.
      + apply occurrences_zero in Hnin. lia.
    - rewrite HNn. unfold single_nodes. rewrite filter_none; [cbn; lia|].
      apply Forall_forall. intros v Hv%elem_of_seqZ.
      assert (v ∈ rs0.*1) as Hin.
      { rewrite Hperm. apply (vt_internal _ _ valid). fold n. lia. }
      pose proof (Hmax v Hin).
      pose proof (all_internal_multiple_true n tab v _ ltac:(lia) Hall
                    ltac:(lia) (Hget v ltac:(lia))).
      rewrite <- (occurrences_Permutation v rs0.*1 rs.*1) by (by rewrite Hperm).
      lia. }
  assert (order T' = Some Cladewise) as Hcw.
  { destruct Htag as [|HN]; [done|]. exfalso.
    assert (∀ p, p ∈ rs0.*1 → p = n + 1) as Hall1.
    { intros p. rewrite Hperm. intros Hp%(vt_parents _ _ valid). fold n in Hp. lia. }
    destruct (fast_path n rs0.*1 ltac:(lia)) as (tab' & Htab' & Hall').
    - exists m. split; [done|]. split; [lia|]. intros v Hv.
      pose proof (Hall1 m Hmin). assert (v = n + 1) as -> by lia.
      rewrite occurrences_all by done. rewrite length_fmap, Hperm.
      pose proof (vt_size _ _ valid) as Hsize. fold n in Hsize. lia.
    - congruence. }
  clear Htag.
  set (wbl := bool_decide (is_Some (edgeLength T'))).
  assert (wbl = true → length (default [] (edgeLength T')) = length rs0.*1)
    as Hel0.
  { intros [el Hel]%bool_decide_eq_true. rewrite Hel. cbn.
    rewrite length_fmap. by apply (vt_lengths _ _ valid'). }
  pose proof (strip_basal_spec ladd undef n ltac:(lia) (length rs0.*1)
                wbl (wbl && keepRootLength)
                rs0.*1 rs0.*2 (default [] (edgeLength T')) (n + 1) lzero
                Hedges ltac:(lia)) as Hstrip.
  pose proof (strip_basal_lengths ladd undef (length rs0.*1) wbl
                (wbl && keepRootLength) rs0.*1 rs0.*2
                (default [] (edgeLength T')) (n + 1) lzero) as Hsl.
  pose proof (strip_basal_count ladd undef n (Nnode T) ltac:(lia)
                (length rs0.*1) wbl
                (wbl && keepRootLength) rs0.*1 rs0.*2
                (default [] (edgeLength T')) (n + 1) lzero) as Hsc.
  destruct (strip_basal _ _ _ _ _ _) as [[[[[e1 e2] el] ROOT] ROOTEDGE]|e|];
    [|lia|done].
  destruct Hstrip as (Hre1 & Hocc & Ht & _).
  destruct (Hsl e1 e2 el ROOT ROOTEDGE eq_refl Hel0) as [Hel1 _]. clear Hsl.
  destruct (Hsc e1 e2 el ROOT ROOTEDGE eq_refl) as [Hpar1 Hcount].
  { intros p. rewrite Hperm. intros Hp%(vt_parents _ _ valid). by fold n in Hp. }
  clear Hsc.
  rewrite zip_fst_snd in Ht. specialize (Ht Htopo).
  cbn [mbind result_mbind result_bind].
  assert (e1 ≠ []) as Hne1.
  { intros ->. rewrite occurrences_nil in Hocc. lia. }
  destruct (js_max_is_Some _ Hne1) as [m1 Hm1].
  destruct (js_max_spec _ _ Hm1) as [Hmin1 Hmax1].
  pose proof (re_parents _ _ _ _ Hre1 m1 Hmin1) as Hmn1.
  destruct (tabulate_Ok _ m1 Hm1 ltac:(lia)) as (tabE1 & Htab1 & Hlen1 & Hget1).
  rewrite Htab1. cbn [mbind result_mbind result_bind].
  set (ii := merge_sort Z.ge (omap (λ s, index_of s e1) (find_singles n tabE1))).
  destruct (single_rows_sorted n e1 tabE1 m1 ltac:(lia) Hm1 Hlen1 Hget1)
    as [Hsorted Hnd]. fold ii in Hsorted, Hnd.
  pose proof (single_rows_spliceable n ROOT e1 e2 tabE1 m1 Hre1 ltac:(lia) Hocc
                Ht Hm1 Hlen1 Hget1) as Hspl. fold ii in Hspl.
  pose proof (single_rows_parents n e1 tabE1 m1 ltac:(lia) Hm1 Hlen1 Hget1)
    as HSl. fold ii in HSl.
  destruct (splice_spec e1 e2 (re_length _ _ _ _ Hre1) ii Hsorted Hnd Hspl)
    as (Hlcur & _ & Hp2 & Hp1).
  pose proof (splice_step_lengths ladd undef wbl
                (zip ii ((λ idx, index_of (default 0 (zget e1 idx)) e2) <$> ii))
                e2 el) as Hlels.
  destruct (foldl (splice_step _ _ _) _ _) as [e2s els] eqn:Hfold.
  pose proof (splice_step_children e1 e2 ladd undef wbl ii e2 el) as Hch.
  rewrite Hfold in Hch. cbn [fst] in Hch. cbn [snd] in Hlels. subst e2s.
  change (foldl (λ (l : list Z) (idx : Z), delete (Z.to_nat idx) l) e1 ii)
    with (remove_rows ii e1).
  change (foldl (λ (l : list Z) (idx : Z), delete (Z.to_nat idx) l)
            (foldl (splice_children e1 e2) e2 ii) ii)
    with (remove_rows ii (foldl (splice_children e1 e2) e2 ii)).
  change (foldl (λ (l : list len) (idx : Z), delete (Z.to_nat idx) l) els ii)
    with (remove_rows ii els).
  set (cur := foldl (splice_children e1 e2) e2 ii) in *.
  set (e1c := remove_rows ii e1) in *.
  set (e2c := remove_rows ii cur) in *.
  assert (collapsed n ROOT e1c e2c) as Hco.
  { apply (collapsed_after_splice n ROOT e1 e2 e1c e2c (omap (zget e1) ii));
      try done.
    - rewrite HSl. apply NoDup_filter, seqZ_NoDup.
    - intros s. rewrite HSl.
      apply (find_singles_spec n m1 e1 tabE1); (done || lia). }
  destruct (re_depth _ _ _ _ Hre1) as [d Hd].
  assert (∀ p c, (p, c) ∈ zip e1c e2c → (d p < d c)%nat) as Hpot.
  { intros p c Hpc. unfold e1c, e2c in Hpc. rewrite <- remove_rows_zip in Hpc.
    apply remove_rows_subseteq in Hpc.
    apply list_elem_of_lookup_1 in Hpc as [r Hr].
    apply lookup_zip_Some in Hr as [Hr1 Hr2].
    apply (splice_potential e1 e2 d ii e2 (re_length _ _ _ _ Hre1) eq_refl Hd)
      with r; [|done..].
    intros i Hi. destruct (proj1 Hspl i Hi) as (s & j & Hs & _). by eexists. }
  destruct (old_nodes_max n ROOT e1c e2c Hco ltac:(lia)) as (mo & Hmo & Hmo0).
  rewrite Hmo, decide_False by done. cbn [mbind result_mbind result_bind].
  destruct (renumber_map n ROOT e1c e2c Hco ltac:(lia)
              (<[ROOT - 1 := n + 1]> (zero_table mo)) (lookup_insert_eq _ _ _))
    as (g & Hg1 & Hg2 & HgR & Hgt & Hgi & Hgo & Hginj).
  cbn zeta in Hg1, Hg2, Hgi, Hgo.
  rewrite (map_defined_fmap _ g e2c Hg2). cbn [mbind result_mbind result_bind].
  rewrite (map_defined_fmap _ g e1c Hg1). cbn [mbind result_mbind result_bind].
  assert (length e1c = length e2c) as Hlc by apply (co_length _ _ _ _ Hco).
  eexists _, (zip (g <$> e1c) (g <$> e2c)). split; [done|].
  match goal with |- valid_tree ?R _ ∧ _ =>
    destruct (collapsed_valid R n ROOT e1c e2c g d Hco) as [Hvalid Hsingle]
  end; try done.
  { cbn [tipLabel]. by rewrite Htips. }
  { cbn [edgeLength]. intros el'. destruct wbl eqn:Hw.
    - intros [= <-]. unfold e1c. apply remove_rows_length.
      rewrite Hlels. by apply Hel1.
    - unfold wbl in Hw. apply bool_decide_eq_false in Hw.
      intros Hsome. destruct Hw. by eexists. }
  split; [done|]. split; [exact Htips|]. split.
  - rewrite fst_zip by (rewrite !length_fmap; lia). done.
  - cbn [Nnode].
    assert (single_nodes n (Nnode T) rs0.*1 = single_nodes n (Nnode T) rs.*1)
      as Hsame.
    { unfold single_nodes. apply filter_ext_in. intros v _.
      by rewrite (occurrences_Permutation v rs0.*1 rs.*1) by (by rewrite Hperm). }
    assert (omap (zget e1) ii ≡ₚ single_nodes n (Nnode T) e1) as HSn.
    { rewrite HSl. apply NoDup_Permutation.
      - apply NoDup_filter, seqZ_NoDup.
      - apply NoDup_filter, seqZ_NoDup.
      - intros s. rewrite (find_singles_spec n m1 e1 tabE1) by (done || lia).
        unfold single_nodes. rewrite list_elem_of_filter, elem_of_seqZ. split.
        + intros [Hs Hone]. split; [done|].
          assert (s ∈ e1) as Hin by (apply occurrences_pos; lia).
          pose proof (Hpar1 s Hin). lia.
        + intros [Hone Hs]. split; [lia | done]. }
    assert (length e1c + length (single_nodes n (Nnode T) e1) = length e1)%nat
      as Hsum.
    { rewrite <- HSn. pose proof (f_equal length (eq_refl (e1c ++ omap (zget e1) ii)))
        as Hl. rewrite Hp1 in Hl at 2. rewrite length_app in Hl. lia. }
    pose proof (vt_size _ _ valid) as Hsize. fold n in Hsize.
    rewrite Hsame, !length_fmap, Hperm in Hcount. lia.
Qed.
End CollapseValid.

(** [X14]  On a valid tree with two tips or more whose cladewise tag, when
    set, is truthful, [collapseSingles] returns a tree that satisfies the
    invariants of the data model again, with the same tips, in which no
    node is the parent of exactly one edge; [Nnode] has gone down by the
    number of singleton nodes of the input. *)
Theorem collapseSingles_returns_valid_tree {len}
    (ladd : len → len → len) (lzero undef : len)
    (T : Phylo len) (rs : list (Z * Z)) (keepRootLength : bool) :
  valid_tree T rs →
  let n := Z.of_nat (length (tipLabel T)) in
  2 ≤ n →
  (order T = Some Cladewise → topo [n + 1] rs) →
  ∃ R rs', collapseSingles ladd lzero undef T keepRootLength = Ok R ∧
    valid_tree R rs' ∧ tipLabel R = tipLabel T ∧
    (∀ v, occurrences v rs'.*1 ≠ 1) ∧
    Nnode R = Nnode T - Z.of_nat (length (single_nodes n (Nnode T) rs.*1)).
Proof.
  intros valid n Hn Htag.
  destruct (collapse_two_tips_valid ladd lzero undef T rs valid Htag
              keepRootLength Hn) as (R & rs' & Hrun & HR & Htips & Hnone & HN).
  exists R, rs'. split; [done|]. split; [done|]. split; [done|].
  split; [done|]. exact HN.
Qed.

(** [X15]  Under the same conditions [hasSingles] is false of the tree
    that [collapseSingles] returns. *)
Theorem hasSingles_after_collapseSingles {len}
    (ladd : len → len → len) (lzero undef : len)
    (T : Phylo len) (rs : list (Z * Z)) (keepRootLength : bool) :
  valid_tree T rs →
  let n := Z.of_nat (length (tipLabel T)) in
  2 ≤ n →
  (order T = Some Cladewise → topo [n + 1] rs) →
  ∃ R, collapseSingles ladd lzero undef T keepRootLength = Ok R ∧
       hasSingles R = Ok false.
Proof.
  intros valid n Hn Htag.
  destruct (collapse_two_tips_valid ladd lzero undef T rs valid Htag
              keepRootLength Hn) as (R & rs' & Hrun & HR & Htips & Hnone & _).
  exists R. split; [done|].
  destruct (valid_some_edge R rs' HR) as [Hne _].
  { rewrite Htips. fold n. lia. }
  destruct (hasSingles_spec R rs' (vt_rows _ _ HR)) as (b & Hb & Hiff);
    [|done|].
  { intros p Hp%(vt_parents _ _ HR). lia. }
  rewrite Hb. f_equal. destruct b; [|done].
  destruct (proj1 Hiff eq_refl) as [v Hv]. by destruct (Hnone v).
Qed.

(** ** dropTip: the pruning part *)

Lemma elem_of_zip_seqZ {A} (l : list A) (i : Z) (x : A) :
  (i, x) ∈ zip (seqZ 0 (Z.of_nat (length l))) l ↔ zget l i = Some x.
Proof.
  rewrite zget_Some, list_elem_of_lookup. split.
  - intros [k Hk]. apply lookup_zip_Some in Hk as [Hi Hx].
    apply lookup_seqZ in Hi as [-> _]. split; [lia|].
    by rewrite Z.add_0_l, Nat2Z.id.
  - intros [Hi Hx]. exists (Z.to_nat i). apply lookup_zip_Some. split; [|done].
    apply lookup_seqZ. apply lookup_lt_Some in Hx. lia.
Qed.

Lemma elem_of_kept {A} (keep : list bool) (l : list A) (x : A) :
  x ∈ kept keep l ↔ ∃ k, l !! k = Some x ∧ keep !! k = Some true.
Proof.
  unfold kept. rewrite list_elem_of_fmap. split.
  - intros ([y b] & -> & [Hb [k Hk]%list_elem_of_lookup_1]%list_elem_of_filter).
    cbn in Hb. subst b. apply lookup_zip_Some in Hk as [? ?]. by exists k.
  - intros (k & Hx & Hk). exists (x, true). split; [done|].
    apply list_elem_of_filter. split; [done|].
    apply list_elem_of_lookup. exists k. by apply lookup_zip_Some.
Qed.

Lemma lost_edges_elem (Ntip : Z) (e1 e2 : list Z) (keep : list bool) (i : Z) :
  length keep = length e1 → length e2 = length e1 →
  i ∈ lost_edges Ntip e1 e2 keep ↔
  ∃ (k : nat) c, i = Z.of_nat k ∧ e2 !! k = Some c ∧ keep !! k = Some true ∧
    Ntip < c ∧ ¬ ∃ j, e1 !! j = Some c ∧ keep !! j = Some true.
Proof.
  intros Hk H2. unfold lost_edges. cbn zeta.
  fold (kept keep e1).
  assert (length e1 = length (zip e2 keep)) as ->
    by (rewrite length_zip; lia).
  rewrite list_elem_of_fmap. split.
  - intros ([i' [c b]] & -> & [(Hb & Hc & Hno) Hin]%list_elem_of_filter).
    cbn [fst snd] in *. subst b.
    apply elem_of_zip_seqZ, zget_Some in Hin as [Hi Hin].
    apply lookup_zip_Some in Hin as [Hc2 Hkk].
    exists (Z.to_nat i'), c. split; [lia|]. split; [done|]. split; [done|].
    split; [done|]. intros Hj. by apply Hno, elem_of_kept.
  - intros (k & c & -> & Hc & Hkk & Hlt & Hno). exists (Z.of_nat k, (c, true)).
    split; [done|]. apply list_elem_of_filter. cbn [fst snd].
    split.
    + split; [done|]. split; [done|]. by intros Hj%elem_of_kept.
    + apply elem_of_zip_seqZ. rewrite zget_of_nat. by apply lookup_zip_Some.
Qed.

Lemma clear_flags (sel : list Z) (keep : list bool) :
  let keep' := foldl (λ keep i, zset keep i false) keep sel in
  length keep' = length keep ∧
  ∀ k : nat, keep' !! k = Some true ↔
             keep !! k = Some true ∧ Z.of_nat k ∉ sel.
Proof.
  cbn zeta. revert keep. induction sel as [|i sel IH]; intros keep.
  { cbn. split; [done|]. intros k. rewrite elem_of_nil. tauto. }
  cbn [foldl]. destruct (IH (zset keep i false)) as [Hlen Hget].
  rewrite Hlen, length_zset. split; [done|]. intros k.
  rewrite Hget, <- (zget_of_nat (zset _ _ _)), zget_zset, zget_of_nat.
  rewrite elem_of_cons. case_decide as Hi.
  - split; [by intros [? _]|]. intros [_ Hno]. destruct Hno. left. lia.
  - split.
    + intros [Hk Hno]. split; [done|]. intros [Heq|?]; [|done].
      destruct Hi. split; [done|]. apply lookup_lt_Some in Hk. lia.
    + intros [? Hno]. split; [done|]. tauto.
Qed.

(** The number of flags set. *)
Lemma flags_decrease (keep keep' : list bool) (k : nat) :
  length keep' = length keep →
  (∀ j, keep' !! j = Some true → keep !! j = Some true) →
  keep !! k = Some true → keep' !! k ≠ Some true →
  (length (filter (λ b, b = true) keep')
   < length (filter (λ b, b = true) keep))%nat.
Proof.
  revert keep' k. induction keep as [|b keep IH]; intros keep' k Hlen Hsub Hk Hk'.
  { done. }
  destruct keep' as [|b' keep']; [done|].
  assert (length (filter (λ b, b = true) keep')
          ≤ length (filter (λ b, b = true) keep))%nat as Hle.
  { clear -Hlen Hsub. injection Hlen as Hlen.
    assert (∀ j, keep' !! j = Some true → keep !! j = Some true) as Hsub'
      by (intros j; apply (Hsub (S j))).
    clear Hsub. revert keep' Hlen Hsub'.
    induction keep as [|c keep IH]; intros [|c' keep'] Hlen Hsub; try done.
    injection Hlen as Hlen.
    specialize (IH keep' Hlen (λ j, Hsub (S j))).
    rewrite !filter_cons. pose proof (Hsub 0%nat) as H0. cbn in H0.
    destruct c', c; repeat case_decide; cbn [length]; try done; try lia.
    by specialize (H0 eq_refl). }
  rewrite !filter_cons. destruct k as [|k].
  - cbn in Hk, Hk'. injection Hk as ->. destruct b'; [done|].
    rewrite decide_False by done. rewrite decide_True by done.
    cbn [length]. lia.
  - cbn in Hk, Hk'. injection Hlen as Hlen.
    specialize (IH keep' k Hlen (λ j, Hsub (S j)) Hk Hk').
    pose proof (Hsub 0%nat) as H0. cbn in H0.
    destruct b', b; repeat case_decide; cbn [length]; try done; try lia.
    by specialize (H0 eq_refl).
Qed.

Section TrimInternal.
Variables (Ntip : Z) (e1 e2 : list Z).
Hypothesis columns : length e2 = length e1.

(** The loop ends, with flags that it would not change any more; it
    clears flags only, and none of a set of edges [P] that is closed
    under: an edge of [P] to an internal node has an edge of [P] below
    it. *)
Lemma trim_internal_spec (fuel : nat) (keep : list bool) :
  length keep = length e1 →
  (length (filter (λ b, b = true) keep) ≤ fuel)%nat →
  ∃ keep', trim_internal fuel Ntip e1 e2 keep = Ok keep' ∧
    length keep' = length keep ∧
    (∀ k, keep' !! k = Some true → keep !! k = Some true) ∧
    lost_edges Ntip e1 e2 keep' = [] ∧
    ∀ P : nat → Prop,
      (∀ k, P k → keep !! k = Some true) →
      (∀ k c, P k → e2 !! k = Some c → Ntip < c →
              ∃ j, P j ∧ e1 !! j = Some c) →
      ∀ k, P k → keep' !! k = Some true.
Proof.
  revert keep. induction fuel as [|fuel IH]; intros keep Hlen Hfuel.
  - cbn [trim_internal]. case_decide as Hsel.
    + exists keep. by repeat split.
    + destruct (lost_edges Ntip e1 e2 keep) as [|i sel] eqn:Hs; [done|].
      assert (i ∈ lost_edges Ntip e1 e2 keep) as Hi by (rewrite Hs; by left).
      apply lost_edges_elem in Hi as (k & c & _ & _ & Hk & _); [|done..].
      assert (true ∈ filter (λ b, b = true) keep) as Hin.
      { apply list_elem_of_filter. split; [done|].
        by eapply list_elem_of_lookup_2. }
      destruct (filter (λ b, b = true) keep); [by apply elem_of_nil in Hin|].
      cbn in Hfuel. lia.
  - cbn [trim_internal]. case_decide as Hsel.
    + exists keep. by repeat split.
    + set (sel := lost_edges Ntip e1 e2 keep) in *.
      destruct (clear_flags sel keep) as [Hlen' Hget]. cbn zeta in Hlen', Hget.
      set (keep1 := foldl _ keep sel) in *.
      assert (∃ i, i ∈ sel) as [i Hi].
      { destruct sel as [|i ?]; [done|]. exists i. by left. }
      pose proof Hi as Hi'.
      apply lost_edges_elem in Hi' as (k & c & -> & _ & Hk & _); [|done..].
      destruct (IH keep1) as (keep' & Hrun & Hl & Hsub & Hstable & Hinv).
      { lia. }
      { assert (length (filter (λ b, b = true) keep1)
                < length (filter (λ b, b = true) keep))%nat; [|lia].
        apply (flags_decrease keep keep1 k); [done| |done|].
        - by intros j [? _]%Hget.
        - intros [_ ?]%Hget. done. }
      exists keep'. split; [done|]. split; [lia|]. split.
      { intros j Hj%Hsub. by apply Hget in Hj as [? _]. }
      split; [done|]. intros P Hkeep Hclosed.
      apply Hinv; [|done]. intros j Hj. apply Hget. split; [by apply Hkeep|].
      intros (j' & c' & Heq & Hc' & _ & Hlt & Hno)%lost_edges_elem; [|done..].
      apply Nat2Z.inj in Heq as <-.
      destruct (Hclosed j c' Hj Hc' Hlt) as (j2 & Hj2 & Hp).
      apply Hno. exists j2. split; [done|]. by apply Hkeep.
Qed.
End TrimInternal.

Lemma drop_terminal_spec (edge2 tip : list Z) (keep : list bool) :
  NoDup edge2 → length keep = length edge2 →
  let keep' := drop_terminal edge2 tip keep in
  length keep' = length keep ∧
  ∀ (k : nat) c, edge2 !! k = Some c →
    (keep' !! k = Some true ↔ keep !! k = Some true ∧ c ∉ tip).
Proof.
  intros Hnd. cbn zeta. unfold drop_terminal.
  revert keep. induction tip as [|t tip IH]; intros keep Hlen.
  { cbn. split; [done|]. intros k c _. rewrite elem_of_nil. tauto. }
  cbn [foldl]. destruct (index_of t edge2) as [idx|] eqn:Hidx.
  - apply index_of_Some in Hidx as (H0 & Ht & _).
    destruct (IH (zset keep idx false)) as [Hl Hget]; [by rewrite length_zset|].
    rewrite Hl, length_zset. split; [done|]. intros k c Hc.
    rewrite (Hget k c Hc), <- (zget_of_nat (zset _ _ _)), zget_zset, zget_of_nat.
    rewrite not_elem_of_cons. case_decide as Hi.
    + assert (k = Z.to_nat idx) as -> by lia.
      assert (c = t) as -> by congruence. split; [by intros [? _]|].
      by intros [_ [? _]].
    + split; [|tauto]. intros [Hk Hno]. split; [done|]. split; [|done].
      intros ->. destruct Hi. 
      pose proof (NoDup_lookup _ _ _ _ Hnd Hc Ht) as ->.
      apply lookup_lt_Some in Ht. lia.
  - apply index_of_None in Hidx. destruct (IH keep Hlen) as [Hl Hget].
    split; [done|]. intros k c Hc. rewrite (Hget k c Hc), not_elem_of_cons.
    split; [|tauto]. intros [? ?]. split; [done|]. split; [|done].
    intros ->. apply Hidx. by eapply list_elem_of_lookup_2.
Qed.

Lemma descends_first (rs : list (Z * Z)) (c t : Z) :
  descends rs c t → ∃ c', (c, c') ∈ rs ∧ (c' = t ∨ descends rs c' t).
Proof. inversion 1; subst; eauto. Qed.

Lemma descends_last (rs : list (Z * Z)) (a p c : Z) :
  descends rs a p → (p, c) ∈ rs → descends rs a c.
Proof.
  induction 1 as [a p Hap|a b p Hab _ IH]; intros Hpc.
  - eapply descends_step; [done|]. by apply descends_child.
  - eapply descends_step; [done|]. by apply IH.
Qed.

Lemma elem_of_pairs (rs : list (Z * Z)) (p c : Z) :
  (p, c) ∈ rs → p ∈ rs.*1 ∧ c ∈ rs.*2.
Proof.
  intros H. split; apply list_elem_of_fmap; by exists (p, c).
Qed.

Lemma kept_cons {A} (b : bool) (keep : list bool) (x : A) (l : list A) :
  kept (b :: keep) (x :: l) = if b then x :: kept keep l else kept keep l.
Proof.
  unfold kept. change (zip (x :: l) (b :: keep)) with ((x, b) :: zip l keep).
  rewrite filter_cons. cbn [snd]. destruct b.
  - by rewrite decide_True.
  - by rewrite decide_False.
Qed.

Lemma kept_nil_r {A} (l : list A) : kept [] l = [].
Proof. by destruct l. Qed.

Lemma kept_sublist {A} (keep : list bool) (l : list A) : kept keep l `sublist_of` l.
Proof.
  revert keep. induction l as [|x l IH]; intros [|b keep].
  - done.
  - done.
  - rewrite kept_nil_r. apply sublist_nil_l.
  - rewrite kept_cons. destruct b.
    + by apply sublist_skip.
    + by apply sublist_cons.
Qed.

Lemma kept_fmap {A B} (f : A → B) (keep : list bool) (l : list A) :
  kept keep (f <$> l) = f <$> kept keep l.
Proof.
  revert keep. induction l as [|x l IH]; intros [|b keep]; try done.
  rewrite fmap_cons, !kept_cons. destruct b; [|apply IH].
  rewrite fmap_cons. f_equal. apply IH.
Qed.

Lemma kept_length {A B} (keep : list bool) (l : list A) (l' : list B) :
  length l = length keep → length l' = length keep →
  length (kept keep l) = length (kept keep l').
Proof.
  revert l l'.
  induction keep as [|b keep IH]; intros [|x l] [|y l'] Hl Hl'; try done.
  rewrite !kept_cons. injection Hl as Hl. injection Hl' as Hl'.
  specialize (IH l l' Hl Hl'). destruct b; cbn [length]; lia.
Qed.

Section Flags.
Context {len : Type}.
Variables (T : Phylo len) (rs : list (Z * Z)) (tip : list Z).
Hypothesis valid : valid_tree T rs.
Let n := Z.of_nat (length (tipLabel T)).
Hypothesis some_tip : 1 ≤ n.
Hypothesis tip_range : ∀ t, t ∈ tip → t ≤ n.

Lemma root_descends (c : Z) : c ∈ rs.*2 → descends rs (n + 1) c.
Proof.
  destruct (vt_depth _ _ valid) as (depth & _ & Hd).
  remember (depth c) as k eqn:Hk. revert c Hk.
  induction (lt_wf k) as [k _ IH]. intros c -> Hc.
  apply list_elem_of_fmap in Hc as ([p c'] & -> & Hpc). cbn [snd] in *.
  destruct (valid_connected T rs valid some_tip p) as [->|Hp].
  { by apply (elem_of_pairs rs p c'). }
  { by apply descends_child. }
  apply (descends_last rs _ p); [|done].
  apply (IH (depth p)); [|done|done]. rewrite (Hd p c' Hpc). lia.
Qed.

Lemma alive_up (p c : Z) : (p, c) ∈ rs → alive n tip rs c → alive n tip rs p.
Proof.
  intros Hpc [Hc|(t & Ht & Hd)]; right.
  - exists c. split; [done|]. by apply descends_child.
  - exists t. split; [done|]. by eapply descends_step.
Qed.

Lemma alive_down (c : Z) :
  alive n tip rs c → n < c → ∃ c', (c, c') ∈ rs ∧ alive n tip rs c'.
Proof.
  intros [[Hc _]|(t & Ht & Hd)] Hlt; [lia|].
  apply descends_first in Hd as (c' & Hcc & [->|Hd]).
  - exists t. split; [done|]. by left.
  - exists c'. split; [done|]. right. by exists t.
Qed.

Lemma alive_not_dropped (c : Z) : alive n tip rs c → c ∉ tip.
Proof.
  intros [[_ Hc]|(t & Ht & Hd)]; [done|].
  apply descends_parent in Hd. apply (vt_parents _ _ valid) in Hd.
  intros Hin%tip_range. fold n in Hd. lia.
Qed.

(** The flags [keep] after the loop of [trimInternal]: an edge is kept
    when a tip that is not dropped is at or below its child. *)
Lemma pruned_flags :
  ∃ keep,
    trim_internal (length rs) n rs.*1 rs.*2
      (drop_terminal rs.*2 tip (replicate (length rs) true)) = Ok keep ∧
    length keep = length rs ∧
    ∀ k p c, rs !! k = Some (p, c) →
      (keep !! k = Some true ↔ alive n tip rs c).
Proof.
  pose proof (valid_NoDup T rs valid) as Hnd.
  destruct (drop_terminal_spec rs.*2 tip (replicate (length rs) true) Hnd)
    as [Hl1 Hk1].
  { by rewrite length_replicate, length_fmap. }
  cbn zeta in Hl1, Hk1. set (keep1 := drop_terminal _ _ _) in *.
  rewrite length_replicate in Hl1.
  assert (∀ k p c, rs !! k = Some (p, c) →
            (keep1 !! k = Some true ↔ c ∉ tip)) as Hk1'.
  { intros k p c Hk. rewrite (Hk1 k c) by (by rewrite list_lookup_fmap, Hk).
    rewrite lookup_replicate. apply lookup_lt_Some in Hk. naive_solver. }
  destruct (trim_internal_spec n rs.*1 rs.*2 ltac:(by rewrite !length_fmap)
              (length rs) keep1)
    as (keep & Hrun & Hl & Hsub & Hstable & Hinv).
  { by rewrite length_fmap. }
  { etrans; [apply length_filter|]. lia. }
  exists keep. split; [done|]. split; [lia|]. intros k p c Hk. split.
  - destruct (vt_depth _ _ valid) as (depth & _ & Hd).
    set (M := S (max_list (depth <$> rs.*2))).
    assert (∀ c, c ∈ rs.*2 → (depth c < M)%nat) as HM.
    { intros c' Hc'. unfold M.
      assert (depth c' ∈ depth <$> rs.*2) as Hin
        by (apply list_elem_of_fmap; by exists c').
      apply max_list_elem_of_le in Hin. lia. }
    remember (M - depth c)%nat as m eqn:Hm. revert k p c Hk Hm.
    induction (lt_wf m) as [m _ IH]. intros k p c Hk -> Hkeep.
    assert (c ∈ rs.*2) as Hc.
    { apply (elem_of_pairs rs p c). by eapply list_elem_of_lookup_2. }
    destruct (decide (n < c)) as [Hlt|Hle].
    + destruct (decide (c ∈ kept keep rs.*1)) as [(j & Hj & Hkj)%elem_of_kept|Hno].
      * rewrite list_lookup_fmap in Hj.
        destruct (rs !! j) as [[c0 c']|] eqn:Hrj; [|done].
        cbn in Hj. injection Hj as ->.
        assert ((c, c') ∈ rs) as Hcc by (by eapply list_elem_of_lookup_2).
        apply (alive_up c c'); [done|].
        apply (IH (M - depth c')%nat) with j c; [|done|done|done].
        rewrite (Hd c c' Hcc). specialize (HM c Hc). lia.
      * exfalso.
        assert (Z.of_nat k ∈ lost_edges n rs.*1 rs.*2 keep) as Hin.
        { apply lost_edges_elem; [rewrite length_fmap; lia|by rewrite !length_fmap|].
          exists k, c. split; [done|]. split; [by rewrite list_lookup_fmap, Hk|].
          split; [done|]. split; [done|]. by intros Hj%elem_of_kept. }
        rewrite Hstable in Hin. by apply elem_of_nil in Hin.
    + left. split.
      * pose proof (vt_children _ _ valid c Hc). fold n in H. lia.
      * apply (Hk1' k p c Hk). by apply Hsub.
  - intros Hal.
    apply (Hinv (λ k, ∃ p c, rs !! k = Some (p, c) ∧ alive n tip rs c)).
    + intros j (p' & c' & Hj & Hal'). apply (Hk1' j p' c' Hj).
      by apply alive_not_dropped.
    + intros j c' (p' & c2 & Hj & Hal') Hc' Hlt.
      rewrite list_lookup_fmap, Hj in Hc'. cbn in Hc'. injection Hc' as ->.
      destruct (alive_down c' Hal' Hlt) as (c3 & [i Hi]%list_elem_of_lookup_1 & Hal3).
      exists i. split; [by exists c', c3|]. by rewrite list_lookup_fmap, Hi.
    + by exists p, c.
Qed.
End Flags.

Section KeptEdges.
Context {len : Type}.
Variables (T : Phylo len) (rs : list (Z * Z)) (tip : list Z) (keep : list bool).
Hypothesis valid : valid_tree T rs.
Let n := Z.of_nat (length (tipLabel T)).
Hypothesis some_tip : 1 ≤ n.
Hypothesis tip_range : ∀ t, t ∈ tip → t ≤ n.
Hypothesis flags_length : length keep = length rs.
Hypothesis flags : ∀ k p c, rs !! k = Some (p, c) →
  (keep !! k = Some true ↔ alive n tip rs c).
Hypothesis some_left : ∃ t, remains n tip t.
Let E := kept keep rs.

Lemma kept_edge (p c : Z) : (p, c) ∈ E ↔ (p, c) ∈ rs ∧ alive n tip rs c.
Proof.
  unfold E. rewrite elem_of_kept. split.
  - intros (k & Hk & Hkk). split; [by eapply list_elem_of_lookup_2|].
    by apply (flags k p c).
  - intros [[k Hk]%list_elem_of_lookup_1 Hal]. exists k. split; [done|].
    by apply (flags k p c).
Qed.

Lemma kept_parent (p : Z) : p ∈ E.*1 ↔ p ∈ rs.*1 ∧ alive n tip rs p.
Proof.
  rewrite !list_elem_of_fmap. split.
  - intros ([p' c] & -> & [Hin Hal]%kept_edge). cbn [fst]. split.
    + by exists (p', c).
    + by apply (alive_up T rs tip p' c).
  - intros [([p' c] & -> & Hin) Hal]. cbn [fst] in *.
    destruct (alive_down T rs tip p' Hal) as (c' & Hc' & Hal').
    { by apply (vt_parents _ _ valid), (elem_of_pairs rs p' c). }
    exists (p', c'). split; [done|]. by apply kept_edge.
Qed.

Lemma kept_child (c : Z) : c ∈ E.*2 ↔ c ∈ rs.*2 ∧ alive n tip rs c.
Proof.
  rewrite !list_elem_of_fmap. split.
  - intros ([p c'] & -> & [Hin Hal]%kept_edge). split; [by exists (p, c')|done].
  - intros [([p c'] & -> & Hin) Hal]. exists (p, c'). split; [done|].
    by apply kept_edge.
Qed.

Lemma kept_NoDup : NoDup E.*2.
Proof.
  unfold E. rewrite <- kept_fmap.
  apply (sublist_NoDup _ rs.*2); [|apply kept_sublist].
  apply (valid_NoDup T rs valid).
Qed.

Lemma kept_connected (p : Z) : p ∈ E.*1 → p = n + 1 ∨ p ∈ E.*2.
Proof.
  intros [Hp Hal]%kept_parent.
  destruct (valid_connected T rs valid some_tip p Hp) as [->|Hc]; [by left|].
  right. by apply kept_child.
Qed.

Lemma kept_root : n + 1 ∈ E.*1.
Proof.
  destruct some_left as [t Ht]. apply kept_parent.
  assert (descends rs (n + 1) t) as Hd.
  { apply (root_descends T rs valid some_tip).
    apply occurrences_pos. destruct Ht as [Ht _].
    rewrite (vt_child_once _ _ valid t); fold n; [lia| |lia].
    pose proof (valid_some_edge T rs valid some_tip) as [_ HN]. lia. }
  split; [by eapply descends_parent|]. right. by exists t.
Qed.

Lemma kept_root_child : n + 1 ∉ E.*2.
Proof. intros [Hc _]%kept_child. by apply (vt_root _ _ valid). Qed.

(** The kept children from which no kept edge starts are the tips that
    are not dropped. *)
Lemma kept_leaf (c : Z) : c ∈ E.*2 ∧ c ∉ E.*1 ↔ remains n tip c.
Proof.
  split.
  - intros [[Hc Hal]%kept_child Hno]. destruct Hal as [Hr|(t & Ht & Hd)]; [done|].
    destruct Hno. apply kept_parent. split; [by eapply descends_parent|].
    right. by exists t.
  - intros Hr. split.
    + apply kept_child. split; [|by left]. destruct Hr as [Hr _].
      apply occurrences_pos.
      rewrite (vt_child_once _ _ valid c); fold n; [lia| |lia].
      pose proof (valid_some_edge T rs valid some_tip) as [_ HN]. lia.
    + intros [Hp _]%kept_parent. apply (vt_parents _ _ valid) in Hp.
      destruct Hr as [Hr _]. fold n in Hp. lia.
Qed.

Lemma kept_internal (c : Z) : c ∈ E.*1 → n < c.
Proof. intros [Hp _]%kept_parent. by apply (vt_parents _ _ valid) in Hp as [? _]. Qed.

Lemma kept_leaves_NoDup : NoDup (filter (λ c, c ∉ E.*1) E.*2).
Proof. apply NoDup_filter, kept_NoDup. Qed.

Lemma kept_leaves_elem (c : Z) :
  c ∈ filter (λ c, c ∉ E.*1) E.*2 ↔ remains n tip c.
Proof. rewrite list_elem_of_filter, <- kept_leaf. tauto. Qed.
End KeptEdges.

Lemma whole_Z2Qc (r : Z) : whole (Some (Z2Qc r)) = Some r.
Proof.
  unfold whole, Z2Qc. cbn [mbind option_bind].
  assert (this (Q2Qc (inject_Z r)) = inject_Z r) as ->.
  { cbn [Q2Qc this]. apply Qred_identity. cbn. apply Z.gcd_1_r. }
  cbn. done.
Qed.

Lemma map_defined_whole (f : Z → Z) (l : list Z) :
  map_defined whole ((λ x, Some (Z2Qc (f x))) <$> l) = Ok (f <$> l).
Proof.
  induction l as [|x l IH]; [done|].
  rewrite !fmap_cons. cbn [map_defined]. rewrite whole_Z2Qc, IH. done.
Qed.

(** [rank] on distinct values, as [dropTip] calls it. *)
Lemma rank_distinct (random : nat → Q) (vals : list Z) :
  NoDup vals →
  rank random (Some <$> vals) true "average"
  = Ok ((λ x, Some (Z2Qc (1 + Z.of_nat (length (filter (λ v, v < x) vals)))))
          <$> vals).
Proof.
  intros Hnd.
  assert (deterministic "average") as det.
  { unfold deterministic. set_solver. }
  destruct (rank_spec random "average" (Some <$> vals) true (or_introl det))
    as (ranks & Hrun & Hlen & Hval & _).
  rewrite Hrun. f_equal. apply list_eq. intros i.
  rewrite list_lookup_fmap.
  destruct (vals !! i) as [x|] eqn:Hx.
  - rewrite (Hval i x) by (by rewrite list_lookup_fmap, Hx).
    cbn [fmap option_fmap option_map]. do 2 f_equal. cbn zeta.
    unfold smaller. rewrite values_Some.
    rewrite (occurrences_NoDup _ _ Hnd (list_elem_of_lookup_2 _ _ _ Hx)).
    assert (occurrences x (values (take i (Some <$> vals))) = 0) as ->.
    { rewrite <- fmap_take, values_Some. apply occurrences_zero.
      intros (j & Hj & Hlt)%elem_of_take.
      pose proof (NoDup_lookup _ _ _ _ Hnd Hj Hx). lia. }
    unfold tie_rank. rewrite !decide_False by done.
    apply Z2Qc_average_single.
  - cbn. apply lookup_ge_None. rewrite Hlen, length_fmap.
    by apply lookup_ge_None.
Qed.

Lemma put_ranks_spec (P : list Z) (f : Z → Z) (es : list (Z * Z)) :
  put_ranks P es (f <$> filter (λ c, c ∉ P) es.*2)
  = (λ e, (e.1, if decide (e.2 ∈ P) then e.2 else f e.2)) <$> es.
Proof.
  induction es as [|[p c] es IH]; [done|].
  rewrite !fmap_cons, filter_cons. cbn [put_ranks fst snd].
  destruct (decide (c ∈ P)) as [Hc|Hc].
  - rewrite decide_False by tauto. by rewrite IH.
  - rewrite decide_True by done. rewrite fmap_cons. cbn [head tail default].
    by rewrite IH.
Qed.

Lemma number_table (P : list Z) (nb0 : gmap Z Z) (base off : Z) :
  NoDup P →
  let nb := foldl (λ nb iv, <[iv.2 - 1 := base + iv.1]> nb) nb0
                  (zip (seqZ off (Z.of_nat (length P))) P) in
  (∀ i x, P !! i = Some x → nb !! (x - 1) = Some (base + (off + Z.of_nat i))) ∧
  (∀ k, (∀ x, x ∈ P → x - 1 ≠ k) → nb !! k = nb0 !! k).
Proof.
  cbn zeta. revert nb0 off. induction P as [|x P IH]; intros nb0 off Hnd.
  { cbn. split; [done|]. done. }
  apply NoDup_cons in Hnd as [Hx Hnd].
  cbn [length]. rewrite Nat2Z.inj_succ, seqZ_cons by lia.
  replace (Z.pred (Z.succ (Z.of_nat (length P)))) with (Z.of_nat (length P))
    by lia.
  cbn [zip zip_with foldl fst snd].
  destruct (IH (<[x - 1 := base + off]> nb0) (Z.succ off) Hnd) as [Hnew Hold].
  split.
  - intros [|i] y Hy.
    + cbn in Hy. injection Hy as <-. rewrite Hold.
      * rewrite lookup_insert_eq. f_equal. lia.
      * intros y Hy ?. apply Hx. by replace x with y by lia.
    + cbn in Hy. rewrite (Hnew i y Hy). f_equal. lia.
  - intros k Hk. rewrite Hold.
    + rewrite lookup_insert_ne; [done|]. apply Hk. by left.
    + intros y Hy. apply Hk. by right.
Qed.

Section PrunedValid.
Context {len : Type}.
Variables (R : Phylo len) (m ROOT : Z) (e1 e2 : list Z) (g : Z → Z) (d : Z → nat).
Hypothesis columns : length e1 = length e2.
Hypothesis children_once : NoDup e2.
Hypothesis root_parent : ROOT ∈ e1.
Hypothesis root_no_child : ROOT ∉ e2.
Hypothesis connected : ∀ p, p ∈ e1 → p = ROOT ∨ p ∈ e2.
Hypothesis potential : ∀ p c, (p, c) ∈ zip e1 e2 → (d p < d c)%nat.
Hypothesis tips : m = Z.of_nat (length (tipLabel R)).
Hypothesis g_root : g ROOT = m + 1.
Hypothesis g_leaf : ∀ x, x ∈ e2 → x ∉ e1 → 1 ≤ g x ≤ m.
Hypothesis g_leaf_onto : ∀ v, 1 ≤ v ≤ m → ∃ x, x ∈ e2 ∧ (x ∉ e1) ∧ g x = v.
Hypothesis g_internal : ∀ x, x ∈ e2 → x ∈ e1 →
  m + 2 ≤ g x ≤ m + (Z.of_nat (length e1) - m + 1).
Hypothesis g_onto : ∀ v, m + 2 ≤ v ≤ m + (Z.of_nat (length e1) - m + 1) →
  ∃ x, x ∈ e2 ∧ x ∈ e1 ∧ g x = v.
Hypothesis g_inj : ∀ x x', x ∈ e1 ∨ x ∈ e2 → x' ∈ e1 ∨ x' ∈ e2 →
  g x = g x' → x = x'.
Hypothesis R_edge : edge R = Some <$> zip (g <$> e1) (g <$> e2).
Hypothesis R_Nnode : Nnode R = Z.of_nat (length e1) - m + 1.
Hypothesis R_lengths : ∀ el, edgeLength R = Some el → length el = length e1.

(** Edges that hang together below [ROOT], renumbered so that the leaves
    get 1 to [m], [ROOT] gets [m + 1] and the other nodes the numbers
    above, are the edges of a valid tree. *)
Lemma pruned_valid : valid_tree R (zip (g <$> e1) (g <$> e2)).
Proof.
  assert (length (g <$> e1) = length (g <$> e2)) as Hlen'
    by (by rewrite !length_fmap).
  assert ((zip (g <$> e1) (g <$> e2)).*1 = g <$> e1) as Hfst
    by (apply fst_zip; lia).
  assert ((zip (g <$> e1) (g <$> e2)).*2 = g <$> e2) as Hsnd
    by (apply snd_zip; lia).
  assert (∀ p' c', (p', c') ∈ zip (g <$> e1) (g <$> e2) →
            ∃ p c, (p, c) ∈ zip e1 e2 ∧ p' = g p ∧ c' = g c) as Hpairs.
  { intros p' c' [k Hk]%list_elem_of_lookup_1.
    apply lookup_zip_Some in Hk as [Hk1 Hk2].
    rewrite list_lookup_fmap in Hk1, Hk2.
    apply fmap_Some in Hk1 as (p & Hp & ->). apply fmap_Some in Hk2 as (c & Hc & ->).
    exists p, c. split; [|done]. apply list_elem_of_lookup. exists k.
    by apply lookup_zip_Some. }
  assert (NoDup (g <$> e2)) as Hnd.
  { apply NoDup_fmap_2_strong; [|done]. intros x y Hx Hy. apply g_inj; by right. }
  assert (m ≤ Z.of_nat (length e1)) as Hm.
  { assert (seqZ 1 m ⊆+ g <$> filter (λ x, x ∉ e1) e2) as Hsub.
    { apply NoDup_submseteq; [apply seqZ_NoDup|].
      intros v Hv%elem_of_seqZ.
      destruct (g_leaf_onto v ltac:(lia)) as (x & Hx & Hno & Hg).
      apply list_elem_of_fmap. exists x. split; [done|].
      by apply list_elem_of_filter. }
    apply submseteq_length in Hsub.
    rewrite length_seqZ, length_fmap in Hsub.
    pose proof (length_filter (λ x, x ∉ e1) e2) as Hle. lia. }
  assert (∀ c, c ∈ e2 →
            (1 ≤ g c ≤ m + (Z.of_nat (length e1) - m + 1)) ∧ g c ≠ m + 1)
    as Hchild.
  { intros c Hc. destruct (decide (c ∈ e1)) as [Hin|Hno].
    - pose proof (g_internal c Hc Hin). lia.
    - pose proof (g_leaf c Hc Hno). lia. }
  split; rewrite <- ?tips, ?R_Nnode, ?Hfst, ?Hsnd.
  - done.
  - rewrite length_zip, !length_fmap. lia.
  - set (nodes := e1 ++ e2).
    set (d' := λ y, default 0%nat
                      (d <$> head (filter (λ x, g x = y) nodes))).
    assert (∀ x, x ∈ e1 ∨ x ∈ e2 → d' (g x) = d x) as Hd'.
    { intros x Hx. unfold d'.
      assert (x ∈ filter (λ x0, g x0 = g x) nodes) as Hin.
      { apply list_elem_of_filter. split; [done|]. by apply elem_of_app. }
      destruct (filter (λ x0, g x0 = g x) nodes) as [|x0 l] eqn:Hf.
      { by apply elem_of_nil in Hin. }
      cbn. f_equal. apply g_inj; [|done|].
      - apply elem_of_app. assert (x0 ∈ filter (λ x0, g x0 = g x) nodes) as H0
          by (rewrite Hf; by left).
        by apply list_elem_of_filter in H0 as [_ ?].
      - assert (x0 ∈ filter (λ x0, g x0 = g x) nodes) as H0
          by (rewrite Hf; by left).
        by apply list_elem_of_filter in H0 as [? _]. }
    apply (exact_depth _ _ d').
    + by rewrite Hsnd.
    + rewrite Hsnd. intros (c & Hg & Hc)%list_elem_of_fmap.
      destruct (Hchild c Hc) as [_ Hne]. by apply Hne.
    + intros p' c' (p & c & Hpc & -> & ->)%Hpairs.
      assert (p ∈ e1 ∧ c ∈ e2) as [Hp Hc].
      { apply list_elem_of_lookup_1 in Hpc as [k Hk].
        apply lookup_zip_Some in Hk as [Hk1 Hk2].
        split; by eapply list_elem_of_lookup_2. }
      rewrite !Hd' by auto. by apply potential.
  - intros v Hv Hne. apply occurrences_NoDup; [done|].
    apply list_elem_of_fmap. destruct (decide (v ≤ m)) as [Hle|Hgt].
    + destruct (g_leaf_onto v ltac:(lia)) as (x & Hx & _ & Hg). by exists x.
    + destruct (g_onto v ltac:(lia)) as (x & Hx & _ & Hg). by exists x.
  - intros c' (c & -> & Hc)%list_elem_of_fmap.
    destruct (Hchild c Hc) as [? _]. lia.
  - intros (c & Hg & Hc)%list_elem_of_fmap.
    destruct (Hchild c Hc) as [_ Hne]. by apply Hne.
  - intros p' (p & -> & Hp)%list_elem_of_fmap.
    destruct (connected p Hp) as [->|Hc].
    + rewrite g_root. lia.
    + pose proof (g_internal p Hc Hp). lia.
  - intros v Hv. apply list_elem_of_fmap. destruct (decide (v = m + 1)) as [->|Hne].
    + by exists ROOT.
    + destruct (g_onto v ltac:(lia)) as (x & Hx & Hin & Hg). by exists x.
  - intros el Hel. rewrite length_zip, !length_fmap, (R_lengths el Hel). lia.
Qed.
End PrunedValid.

Lemma topo_sublist (seen seenE : list Z) (rs E : list (Z * Z)) :
  E `sublist_of` rs → topo seen rs → NoDup rs.*2 →
  (∀ x, x ∈ seen → x ∉ rs.*2) →
  (∀ p, p ∈ E.*1 → p ∈ seenE ∨ p ∈ E.*2) → topo seenE E.
Proof.
  intros Hsub. revert seen seenE.
  induction Hsub as [|x E rs Hsub IH|x E rs Hsub IH];
    intros seen seenE Htopo Hnd Hseen Hcl.
  - done.
  - cbn [topo] in *. destruct Htopo as [Hx Htopo].
    rewrite fmap_cons in Hnd. apply NoDup_cons in Hnd as [Hx2 Hnd]. split.
    + destruct (Hcl x.1) as [?|Hin]; [rewrite fmap_cons; by left|done|].
      exfalso. apply (Hseen x.1 Hx). rewrite fmap_cons in Hin |- *.
      apply elem_of_cons in Hin as [->|Hin]; [by left|]. right.
      eapply elem_of_sublist; [done|]. by apply fmap_sublist.
    + apply (IH (x.2 :: seen)); [done|done| |].
      * intros y [->|Hy]%elem_of_cons; [done|]. intros Hin.
        apply (Hseen y Hy). rewrite fmap_cons. by right.
      * intros p Hp. destruct (Hcl p) as [?|Hin].
        { rewrite fmap_cons. by right. }
        { left. by right. }
        rewrite fmap_cons in Hin.
        apply elem_of_cons in Hin as [->|?]; [left; by left|by right].
  - cbn [topo] in Htopo. destruct Htopo as [Hx Htopo].
    rewrite fmap_cons in Hnd. apply NoDup_cons in Hnd as [Hx2 Hnd].
    apply (IH (x.2 :: seen)); [done|done| |done].
    intros y [->|Hy]%elem_of_cons; [done|]. intros Hin.
    apply (Hseen y Hy). rewrite fmap_cons. by right.
Qed.

Lemma topo_fmap (g : Z → Z) (seen : list Z) (es : list (Z * Z)) :
  topo seen es → topo (g <$> seen) ((λ e, (g e.1, g e.2)) <$> es).
Proof.
  revert seen. induction es as [|e es IH]; intros seen; [done|].
  rewrite fmap_cons. cbn [topo fst snd]. intros [He Hes]. split.
  - by apply list_elem_of_fmap_2.
  - apply (IH (e.2 :: seen) Hes).
Qed.

Lemma zip_fmap_pairs (g : Z → Z) (es : list (Z * Z)) :
  zip (g <$> es.*1) (g <$> es.*2) = (λ e, (g e.1, g e.2)) <$> es.
Proof. induction es as [|e es IH]; [done|]. cbn. by rewrite <- IH. Qed.

Lemma remaining_count (n : Z) (tip : list Z) :
  0 ≤ n → NoDup tip → (∀ t, t ∈ tip → 1 ≤ t ≤ n) →
  Z.of_nat (length (filter (λ t, t ∉ tip) (seqZ 1 n)))
  = n - Z.of_nat (length tip).
Proof.
  intros Hn Hnd Hr.
  pose proof (filter_app_complement (λ t, t ∈ tip) (seqZ 1 n)) as Hp.
  apply Permutation_length in Hp. rewrite length_app, length_seqZ in Hp.
  assert (filter (λ t, t ∈ tip) (seqZ 1 n) ≡ₚ tip) as Ht.
  { apply NoDup_Permutation; [apply NoDup_filter, seqZ_NoDup|done|].
    intros t. rewrite list_elem_of_filter, elem_of_seqZ. split; [tauto|].
    intros Ht. split; [done|]. specialize (Hr t Ht). lia. }
  apply Permutation_length in Ht. lia.
Qed.

(** [labels_left] for labels that are numbered from [off]. *)
Lemma left_from_cons {A} (off : Z) (x : A) (l : list A) (tip : list Z) :
  (filter (λ il, il.1 ∉ tip)
          (zip (seqZ off (Z.of_nat (length (x :: l)))) (x :: l))).*2
  = (if decide (off ∈ tip) then [] else [x])
    ++ (filter (λ il, il.1 ∉ tip)
               (zip (seqZ (off + 1) (Z.of_nat (length l))) l)).*2.
Proof.
  cbn [length]. rewrite Nat2Z.inj_succ, seqZ_cons by lia.
  replace (Z.pred (Z.succ (Z.of_nat (length l)))) with (Z.of_nat (length l))
    by lia.
  replace (Z.succ off) with (off + 1) by lia.
  cbn [zip zip_with]. rewrite filter_cons. cbn [fst].
  destruct (decide (off ∈ tip)).
  - by rewrite decide_False by tauto.
  - by rewrite decide_True by done.
Qed.

Lemma left_from_app {A} (off : Z) (l1 l2 : list A) (tip : list Z) :
  (filter (λ il, il.1 ∉ tip)
          (zip (seqZ off (Z.of_nat (length (l1 ++ l2)))) (l1 ++ l2))).*2
  = (filter (λ il, il.1 ∉ tip)
            (zip (seqZ off (Z.of_nat (length l1))) l1)).*2
    ++ (filter (λ il, il.1 ∉ tip)
               (zip (seqZ (off + Z.of_nat (length l1)) (Z.of_nat (length l2)))
                    l2)).*2.
Proof.
  revert off. induction l1 as [|x l1 IH]; intros off.
  { cbn. by rewrite Z.add_0_r. }
  change ((x :: l1) ++ l2) with (x :: (l1 ++ l2)).
  rewrite !left_from_cons, IH, <- app_assoc.
  replace (off + Z.of_nat (length (x :: l1)))
    with (off + 1 + Z.of_nat (length l1)) by (cbn [length]; lia).
  done.
Qed.

Lemma left_from_all {A} (off : Z) (l : list A) (tip : list Z) :
  (∀ t, t ∈ tip → t < off) →
  (filter (λ il, il.1 ∉ tip) (zip (seqZ off (Z.of_nat (length l))) l)).*2 = l.
Proof.
  revert off. induction l as [|x l IH]; intros off Hlt; [done|].
  rewrite left_from_cons, IH.
  - rewrite decide_False; [done|]. intros Hin%Hlt. lia.
  - intros t Ht%Hlt. lia.
Qed.

Lemma left_from_ext {A} (off : Z) (l : list A) (tip tip' : list Z) :
  (∀ t, off ≤ t < off + Z.of_nat (length l) → t ∈ tip ↔ t ∈ tip') →
  (filter (λ il, il.1 ∉ tip) (zip (seqZ off (Z.of_nat (length l))) l)).*2
  = (filter (λ il, il.1 ∉ tip') (zip (seqZ off (Z.of_nat (length l))) l)).*2.
Proof.
  revert off. induction l as [|x l IH]; intros off Hext; [done|].
  rewrite !left_from_cons, IH.
  - f_equal. cbn [length] in Hext.
    destruct (decide (off ∈ tip)) as [Hin|Hno].
    + rewrite decide_True; [done|]. apply Hext; [lia|done].
    + rewrite decide_False; [done|]. intros Hin. apply Hno, Hext; [lia|done].
  - intros t Ht. apply Hext. cbn [length]. lia.
Qed.

Lemma splice_sorted {A} (ts : list Z) (labels : list A) :
  StronglySorted Z.le ts → NoDup ts →
  (∀ t, t ∈ ts → 1 ≤ t ≤ Z.of_nat (length labels)) →
  foldl (λ labels t, splice_one labels (t - 1)) labels (reverse ts)
  = labels_left labels ts.
Proof.
  revert labels. induction ts as [|t ts IH] using rev_ind;
    intros labels Hsort Hnd Hr.
  { cbn. unfold labels_left. rewrite left_from_all; [done|].
    by intros t ?%elem_of_nil. }
  rewrite reverse_app. cbn [reverse rev_append app foldl].
  change (rev_append ts []) with (reverse ts).
  assert (1 ≤ t ≤ Z.of_nat (length labels)) as Ht
    by (apply Hr, elem_of_app; right; by left).
  apply NoDup_app in Hnd as (Hnd & Hdis & _).
  assert (∀ t', t' ∈ ts → t' < t) as Hlt.
  { intros t' Hin.
    pose proof (StronglySorted_app_1_elem_of _ _ _ t' t Hsort Hin
                  ltac:(by left)) as Hle.
    assert (t' ≠ t); [|lia]. intros ->. apply (Hdis t Hin). by left. }
  destruct (lookup_lt_is_Some_2 labels (Z.to_nat (t - 1))) as [x Hx]; [lia|].
  pose proof (take_drop_middle labels _ x Hx) as Hsplit.
  set (l1 := take (Z.to_nat (t - 1)) labels) in *.
  set (l2 := drop (S (Z.to_nat (t - 1))) labels) in *.
  assert (length l1 = Z.to_nat (t - 1)) as Hl1.
  { unfold l1. rewrite length_take. apply lookup_lt_Some in Hx. lia. }
  assert (splice_one labels (t - 1) = l1 ++ l2) as ->.
  { unfold splice_one. rewrite decide_False by lia.
    rewrite <- Hsplit at 1. rewrite <- Hl1. apply delete_middle. }
  rewrite IH.
  - unfold labels_left. rewrite <- Hsplit, !left_from_app, left_from_cons.
    f_equal.
    + apply left_from_ext. intros t' Ht'. rewrite elem_of_app.
      split; [tauto|]. intros [?|Hin]; [done|].
      apply list_elem_of_singleton in Hin. lia.
    + replace (1 + Z.of_nat (length l1)) with t by lia.
      rewrite decide_True by (apply elem_of_app; right; by left).
      cbn [app]. rewrite !left_from_all; [done| |].
      * intros t' [Hin%Hlt|Hin]%elem_of_app; [lia|].
        apply list_elem_of_singleton in Hin. lia.
      * intros t' Hin%Hlt. lia.
  - by eapply StronglySorted_app_1_l.
  - done.
  - intros t' Hin. specialize (Hlt t' Hin).
    specialize (Hr t' ltac:(apply elem_of_app; by left)).
    rewrite <- Hsplit in Hr. rewrite length_app in Hr |- *. cbn [length] in Hr.
    apply lookup_lt_Some in Hx. rewrite <- Hsplit, length_app in Hx.
    cbn [length] in Hx. lia.
Qed.

(** The loop of [splice] removes the labels of the dropped tips. *)
Lemma splice_labels {A} (tip : list Z) (labels : list A) :
  NoDup tip → (∀ t, t ∈ tip → 1 ≤ t ≤ Z.of_nat (length labels)) →
  foldl (λ labels t, splice_one labels (t - 1)) labels
        (reverse (merge_sort Z.le tip))
  = labels_left labels tip.
Proof.
  intros Hnd Hr. rewrite splice_sorted.
  - unfold labels_left. apply left_from_ext. intros t _.
    by rewrite merge_sort_Permutation.
  - apply StronglySorted_merge_sort; apply _.
  - by rewrite merge_sort_Permutation.
  - intros t. rewrite merge_sort_Permutation. apply Hr.
Qed.

Lemma labels_left_length {A} (labels : list A) (tip : list Z) :
  NoDup tip → (∀ t, t ∈ tip → 1 ≤ t ≤ Z.of_nat (length labels)) →
  Z.of_nat (length (labels_left labels tip))
  = Z.of_nat (length labels) - Z.of_nat (length tip).
Proof.
  intros Hnd Hr. rewrite <- (remaining_count _ tip) by (done || lia).
  unfold labels_left. rewrite length_fmap. f_equal.
  rewrite <- (length_fmap fst). f_equal.
  set (k := 1). generalize k. clear. induction labels as [|x l IH]; intros k.
  { done. }
  cbn [length]. rewrite Nat2Z.inj_succ, seqZ_cons by lia.
  replace (Z.pred (Z.succ (Z.of_nat (length l)))) with (Z.of_nat (length l))
    by lia.
  cbn [zip zip_with]. rewrite !filter_cons. cbn [fst].
  case_decide; rewrite ?fmap_cons; cbn [fst]; by rewrite IH.
Qed.

Lemma descends_ext (rs rs' : list (Z * Z)) (a b : Z) :
  (∀ e, e ∈ rs → e ∈ rs') → descends rs a b → descends rs' a b.
Proof.
  intros Hsub. induction 1 as [p c H|p c d H _ IH].
  - apply descends_child. by apply Hsub.
  - eapply descends_step; [by apply Hsub|done].
Qed.

Lemma alive_Permutation (n : Z) (tip : list Z) (rs rs' : list (Z * Z)) (c : Z) :
  rs ≡ₚ rs' → alive n tip rs c ↔ alive n tip rs' c.
Proof.
  intros Hp. unfold alive. split; intros [?|(t & Ht & Hd)]; [by left| |by left|];
    right; exists t; (split; [done|]); revert Hd; apply descends_ext;
    intros e; by rewrite Hp.
Qed.

Lemma below_count_Permutation (l l' : list Z) (x : Z) :
  l ≡ₚ l' →
  length (filter (λ v, v < x) l) = length (filter (λ v, v < x) l').
Proof. intros Hp. by rewrite Hp. Qed.

Lemma reorder_lengths_present {len} (undef : len) (t t' : Phylo len)
    (ord : Order) :
  reorder undef t ord = Ok t' →
  is_Some (edgeLength t') ↔ is_Some (edgeLength t).
Proof.
  unfold reorder, _reorder_ape. intros Hre.
  repeat case_decide; try (injection Hre as <-; done).
  destruct (reorderRcpp _ _ _ _) as [neworder| |]; try done.
  cbn in Hre. injection Hre as <-. cbn [edgeLength].
  by rewrite fmap_is_Some.
Qed.

Section PruneRun.
Context {len : Type}.
Variables (ladd : len → len → len) (lzero undef : len) (random : nat → Q).
Variables (T : Phylo len) (rs : list (Z * Z)) (tip : list Z).
Hypothesis valid : valid_tree T rs.
Let n := Z.of_nat (length (tipLabel T)).
Hypothesis tag_sound : order T = Some Cladewise → topo [n + 1] rs.
Hypothesis tip_once : NoDup tip.
Hypothesis tip_range : ∀ t, t ∈ tip → 1 ≤ t ≤ n.
Let m := n - Z.of_nat (length tip).
Hypothesis two_left : 2 ≤ m.

(** The pruning part of [dropTip] with [trimInternal]: the tree [P] it has
    before the call of [collapseSingles]. *)
Lemma prune_run (rooted flag : bool) :
  ∃ (P : Phylo len) (E : list (Z * Z)) (g : Z → Z),
    dropTip_prune ladd lzero undef random T tip true rooted flag
      = (if flag then collapseSingles ladd lzero undef P false else Ok P) ∧
    valid_tree P ((λ e, (g e.1, g e.2)) <$> E) ∧
    topo [m + 1] ((λ e, (g e.1, g e.2)) <$> E) ∧
    tipLabel P = labels_left (tipLabel T) tip ∧
    NoDup E ∧
    (∀ p c, (p, c) ∈ E ↔ (p, c) ∈ rs ∧ alive n tip rs c) ∧
    g (n + 1) = m + 1 ∧
    (∀ t, remains n tip t →
       g t = 1 + Z.of_nat (length (filter (λ v, v < t)
                                 (filter (λ t, t ∉ tip) (seqZ 1 n))))) ∧
    (∀ x x', x ∈ E.*1 ∨ x ∈ E.*2 → x' ∈ E.*1 ∨ x' ∈ E.*2 →
             g x = g x' → x = x').
Proof.
  assert (2 ≤ n) as Hn by (unfold m in two_left; lia).
  set (T1 := if rooted then T
             else {| edge := edge T; edgeLength := edgeLength T;
                     tipLabel := tipLabel T; nodeLabel := nodeLabel T;
                     Nnode := Nnode T; rootEdge := None; order := order T |}).
  assert (tipLabel T1 = tipLabel T) as Hlab1 by (by destruct rooted).
  assert (order T1 = order T) as Hord1 by (by destruct rooted).
  assert (valid_tree T1 rs) as valid1.
  { destruct rooted; [done|].
    apply (valid_tree_Permutation T _ rs); try done.
    apply (vt_rows _ _ valid). apply (vt_lengths _ _ valid). }
  destruct (reorder_cladewise_full undef T1 rs valid1) as
    (T' & rs' & Hre & valid' & Hperm & Htips & HNn & Htopo & Htag).
  { rewrite Hlab1, Hord1. apply tag_sound. }
  { by rewrite Hlab1. }
  rewrite Hlab1 in Htips, Htopo. fold n in Htopo.
  assert (Z.of_nat (length (tipLabel T')) = n) as Hn' by (by rewrite Htips).
  pose proof (vt_rows _ _ valid') as Hedge.
  pose proof (valid_NoDup T' rs' valid') as Hnd.
  assert (∀ t, t ∈ tip → t ≤ Z.of_nat (length (tipLabel T'))) as Hrange'.
  { intros t Ht%tip_range. lia. }
  assert (1 ≤ Z.of_nat (length (tipLabel T'))) as Hone by lia.
  destruct (pruned_flags T' rs' tip valid' Hrange')
    as (keep & Hkeep & Hklen & Hflags).
  rewrite Hn' in Hkeep, Hflags.
  set (E := kept keep rs').
  assert (∃ t, remains n tip t) as Hsome.
  { destruct (filter (λ t, t ∉ tip) (seqZ 1 n)) as [|t l] eqn:Hf.
    - pose proof (remaining_count n tip ltac:(lia) tip_once tip_range) as Hc.
      rewrite Hf in Hc. cbn in Hc. unfold m in two_left. lia.
    - exists t. assert (t ∈ filter (λ t, t ∉ tip) (seqZ 1 n)) as Hin
        by (rewrite Hf; by left).
      apply list_elem_of_filter in Hin as [? Hin%elem_of_seqZ].
      split; [lia|done]. }
  assert (∀ k p c, rs' !! k = Some (p, c) →
            keep !! k = Some true
            ↔ alive (Z.of_nat (length (tipLabel T'))) tip rs' c) as Hflags'
    by (by rewrite Hn').
  assert (∃ t, remains (Z.of_nat (length (tipLabel T'))) tip t) as Hsome'
    by (by rewrite Hn').
  pose proof (kept_edge T' rs' tip keep Hflags') as HE. rewrite Hn' in HE.
  pose proof (kept_NoDup T' rs' keep valid') as HEnd.
  pose proof (kept_connected T' rs' tip keep valid' Hone Hflags')
    as HEconn. rewrite Hn' in HEconn.
  pose proof (kept_root T' rs' tip keep valid' Hone Hklen Hflags' Hsome')
    as HEroot. rewrite Hn' in HEroot.
  pose proof (kept_root_child T' rs' tip keep valid' Hflags') as HErc.
  rewrite Hn' in HErc.
  pose proof (kept_internal T' rs' tip keep valid' Hflags') as HEint.
  rewrite Hn' in HEint.
  pose proof (kept_leaves_NoDup T' rs' keep valid') as HLnd.
  pose proof (kept_leaves_elem T' rs' tip keep valid' Hone Hklen Hflags')
    as HLel. rewrite Hn' in HLel.
  fold E in HE, HEnd, HEconn, HEroot, HErc, HEint, HLnd, HLel.
  set (L := filter (λ c, c ∉ E.*1) E.*2) in *.
  assert (L ≡ₚ filter (λ t, t ∉ tip) (seqZ 1 n)) as HLperm.
  { apply NoDup_Permutation; [done|apply NoDup_filter, seqZ_NoDup|].
    intros t. rewrite HLel, list_elem_of_filter, elem_of_seqZ.
    unfold remains. split; intros [? ?]; split; (done || lia). }
  assert (Z.of_nat (length L) = m) as HLlen.
  { rewrite HLperm. by apply remaining_count; [lia|..]. }
  set (f := λ x, 1 + Z.of_nat (length (filter (λ v, v < x) L))).
  assert (∀ x, x ∈ L → 1 ≤ f x ≤ m) as Hfr.
  { intros x Hx. pose proof (below_count_bound L x Hx). unfold f. lia. }
  assert (∀ x y, x ∈ L → y ∈ L → f x = f y → x = y) as Hfinj.
  { intros x y Hx Hy Hxy. unfold f in Hxy.
    destruct (Z.lt_trichotomy x y) as [Hlt|[->|Hlt]]; [|done|].
    - pose proof (below_count_lt L x y Hlt Hx). lia.
    - pose proof (below_count_lt L y x Hlt Hy). lia. }
  assert (∀ v, 1 ≤ v ≤ m → ∃ x, x ∈ L ∧ f x = v) as Hfonto.
  { assert (f <$> L ≡ₚ seqZ 1 m) as Hp.
    { apply submseteq_length_Permutation;
        [|by rewrite length_fmap, length_seqZ; lia].
      apply NoDup_submseteq.
      - by apply NoDup_fmap_2_strong.
      - intros r (x & -> & Hx)%list_elem_of_fmap. apply elem_of_seqZ.
        specialize (Hfr x Hx). lia. }
    intros v Hv.
    assert (v ∈ f <$> L) as (x & -> & Hx)%list_elem_of_fmap
      by (rewrite Hp; apply elem_of_seqZ; lia).
    by exists x. }
  (* the run *)
  unfold dropTip_prune. fold T1. rewrite Hre.
  cbn [mbind result_mbind result_bind].
  rewrite Hedge, rows_Some. cbn [mbind result_mbind result_bind].
  rewrite decide_True by done.
  fold n. rewrite Hkeep.
  cbn [mbind result_mbind result_bind]. fold E. fold L.
  rewrite (rank_distinct random L HLnd).
  cbn [mbind result_mbind result_bind].
  rewrite (map_defined_whole
             (λ x, 1 + Z.of_nat (length (filter (λ v, v < x) L))) L).
  fold f. cbn [mbind result_mbind result_bind].
  rewrite decide_False.
  2:{ destruct (valid_some_edge T' rs' valid' Hone) as [_ HN]. lia. }
  cbn [mbind result_mbind result_bind].
  unfold L at 2. rewrite put_ranks_spec. fold L. rewrite HLlen.
  set (ranked := (λ e, (e.1, if decide (e.2 ∈ E.*1) then e.2 else f e.2)) <$> E).
  assert (filter (λ c, m < c) ranked.*2 = filter (λ c, c ∈ E.*1) E.*2) as Hint.
  { unfold ranked. rewrite <- list_fmap_compose.
    assert (∀ es, (∀ e, e ∈ es → e ∈ E) →
              filter (λ c, m < c)
                ((snd ∘ (λ e, (e.1, if decide (e.2 ∈ E.*1) then e.2 else f e.2)))
                   <$> es)
              = filter (λ c, c ∈ E.*1) es.*2) as Hgen.
    { induction es as [|e es IH]; intros Hes; [done|].
      rewrite !fmap_cons, !filter_cons. cbn [compose snd].
      rewrite IH by (intros; apply Hes; by right).
      destruct (decide (e.2 ∈ E.*1)) as [Hin|Hno].
      - rewrite decide_True; [done|]. specialize (HEint _ Hin). unfold m. lia.
      - rewrite decide_False; [done|].
        assert (e.2 ∈ L) as Hl.
        { apply list_elem_of_filter. split; [done|].
          apply list_elem_of_fmap. exists e. split; [done|]. apply Hes. by left. }
        specialize (Hfr _ Hl). lia. }
    by apply Hgen. }
  rewrite Hint.
  set (I := sorted_set (filter (λ c, c ∈ E.*1) E.*2)).
  assert (NoDup I) as HInd by apply sorted_set_NoDup.
  assert (∀ x, x ∈ I ↔ x ∈ E.*2 ∧ x ∈ E.*1) as HIel.
  { intros x. unfold I. rewrite sorted_set_elem_of, list_elem_of_filter. tauto. }
  set (nb0 := <[n := m + 1]> (zero_table (n + Nnode T'))).
  destruct (number_table I nb0 (m + 2) 0 HInd) as [Hnew Hold].
  cbn zeta in Hnew, Hold. set (nb := foldl _ nb0 _) in *.
  assert (nb !! (n + 1 - 1) = Some (m + 1)) as Hroot.
  { rewrite Hold.
    - unfold nb0. replace (n + 1 - 1) with n by lia. apply lookup_insert_eq.
    - intros x [Hx _]%HIel ?. apply HErc. by replace (n + 1) with x by lia. }
  set (g := λ x, if decide (x ∈ E.*1) then default 0 (nb !! (x - 1)) else f x).
  assert (g (n + 1) = m + 1) as HgR.
  { unfold g. rewrite decide_True by done. by rewrite Hroot. }
  assert (∀ x, x ∈ E.*2 → x ∈ E.*1 →
            ∃ i, I !! i = Some x ∧ g x = m + 2 + Z.of_nat i) as Hgint.
  { intros x Hx Hp.
    assert (x ∈ I) as [i Hi]%list_elem_of_lookup_1 by (by apply HIel).
    exists i. split; [done|]. unfold g. rewrite decide_True by done.
    rewrite (Hnew i x Hi). cbn. lia. }
  assert (∀ x, x ∈ E.*2 → x ∉ E.*1 → x ∈ L ∧ g x = f x) as Hgleaf.
  { intros x Hx Hno. split; [by apply list_elem_of_filter|].
    unfold g. by rewrite decide_False. }
  assert (length I = length (filter (λ c, c ∈ E.*1) E.*2)) as HIlen.
  { unfold I, sorted_set. rewrite merge_sort_Permutation.
    f_equal. clear -HEnd. set (Q := λ c, c ∈ E.*1).
    assert (NoDup (filter Q E.*2)) as H by (by apply NoDup_filter).
    induction H as [|x l Hx _ IH]; [done|].
    cbn [uniq]. rewrite IH. f_equal. apply filter_all, Forall_forall.
    intros y Hy ->. done. }
  assert (Z.of_nat (length I) = Z.of_nat (length E) - m) as HIcount.
  { rewrite HIlen, <- HLlen.
    pose proof (filter_app_complement (λ c, c ∈ E.*1) E.*2) as Hp.
    apply Permutation_length in Hp. rewrite length_app, length_fmap in Hp.
    unfold L. lia. }
  assert (∀ x, x ∈ E.*1 ∨ x ∈ E.*2 →
            x ∈ L ∧ g x = f x ∨ x = n + 1 ∧ g x = m + 1 ∨
            ∃ i, I !! i = Some x ∧ g x = m + 2 + Z.of_nat i) as Hclass.
  { intros x [Hp|Hc].
    - destruct (HEconn x Hp) as [->|Hc]; [right; by left|].
      right. right. by apply Hgint.
    - destruct (decide (x ∈ E.*1)) as [Hp|Hno].
      + right. right. by apply Hgint.
      + left. by apply Hgleaf. }
  assert (∀ x x', x ∈ E.*1 ∨ x ∈ E.*2 → x' ∈ E.*1 ∨ x' ∈ E.*2 →
            g x = g x' → x = x') as Hginj.
  { intros x x' Hx Hx' Heq.
    destruct (Hclass x Hx) as [[Hl Hg]|[[-> Hg]|(i & Hi & Hg)]];
      destruct (Hclass x' Hx') as [[Hl' Hg']|[[-> Hg']|(i' & Hi' & Hg')]];
      try done;
      try (specialize (Hfr _ Hl)); try (specialize (Hfr _ Hl')); try lia.
    - apply Hfinj; [done|done|]. congruence.
    - assert (i = i') as -> by lia. congruence. }
  assert ((λ e, (default 0 (nb !! (e.1 - 1)),
                 if decide (m < e.2) then default 0 (nb !! (e.2 - 1)) else e.2))
            <$> ranked
          = (λ e, (g e.1, g e.2)) <$> E) as Hren.
  { unfold ranked. rewrite <- list_fmap_compose. apply list_fmap_ext.
    intros k [p c] Hk. cbn [compose fst snd].
    assert ((p, c) ∈ E) as Hin by (by eapply list_elem_of_lookup_2).
    apply elem_of_pairs in Hin as [Hp Hc]. f_equal.
    - unfold g. by rewrite decide_True.
    - unfold g. destruct (decide (c ∈ E.*1)) as [Hcp|Hno].
      + rewrite decide_True; [done|]. specialize (HEint _ Hcp). unfold m. lia.
      + rewrite decide_False; [done|].
        destruct (Hgleaf c Hc Hno) as [Hl _]. specialize (Hfr _ Hl). lia. }
  rewrite Hren.
  assert (∀ F : list len → list len,
            (if bool_decide (is_Some (edgeLength T))
             then F <$> edgeLength T' else edgeLength T')
            = F <$> edgeLength T') as Hwbl.
  { intros F. case_bool_decide as Hb; [done|].
    destruct (edgeLength T') as [el|] eqn:Hel; [|done]. destruct Hb.
    assert (edgeLength T1 = edgeLength T) as <- by (by destruct rooted).
    apply (reorder_lengths_present undef T1 T' Cladewise Hre).
    by rewrite Hel. }
  rewrite Hwbl.
  eexists _, E, g. split; [reflexivity|].
  cbn [tipLabel]. rewrite Htips.
  assert (NoDup E) as HEnd'.
  { eapply NoDup_fmap_1. exact HEnd. }
  split; [|split; [|split; [|split; [|split; [|split; [|split]]]]]].
  - rewrite <- zip_fmap_pairs.
    destruct (vt_depth _ _ valid') as (depth & _ & Hd).
    eapply (pruned_valid _ m (n + 1) E.*1 E.*2 g depth).
    + by rewrite !length_fmap.
    + done.
    + done.
    + done.
    + intros p c Hpc. rewrite zip_fst_snd in Hpc. apply HE in Hpc as [Hpc _].
      rewrite (Hd p c Hpc). lia.
    + cbn [tipLabel]. rewrite splice_labels by done.
      rewrite labels_left_length by done. done.
    + done.
    + intros x Hx Hno. destruct (Hgleaf x Hx Hno) as [Hl ->]. by apply Hfr.
    + intros v Hv. destruct (Hfonto v Hv) as (x & Hx & Hfx).
      pose proof Hx as Hx'. apply list_elem_of_filter in Hx' as [Hno Hc].
      exists x. split; [done|]. split; [done|].
      by destruct (Hgleaf x Hc Hno) as [_ ->].
    + intros x Hx Hp. destruct (Hgint x Hx Hp) as (i & Hi & ->).
      apply lookup_lt_Some in Hi. rewrite length_fmap. lia.
    + intros v Hv. rewrite length_fmap in Hv.
      destruct (lookup_lt_is_Some_2 I (Z.to_nat (v - m - 2))) as [x Hx]; [lia|].
      assert (x ∈ I) as [Hc Hp]%HIel by (by eapply list_elem_of_lookup_2).
      exists x. split; [done|]. split; [done|].
      destruct (Hgint x Hc Hp) as (i & Hi & ->).
      pose proof (NoDup_lookup I _ _ x HInd Hi Hx). lia.
    + done.
    + cbn [edge]. by rewrite zip_fmap_pairs.
    + cbn [Nnode]. rewrite length_fmap. fold E. lia.
    + cbn [edgeLength]. intros el Hel.
      destruct (edgeLength T') as [el'|]; [|done]. cbn in Hel.
      injection Hel as <-. rewrite !length_fmap. apply kept_length.
      * rewrite length_seqZ. lia.
      * done.
  - replace [m + 1] with (g <$> [n + 1]) by (cbn; by rewrite HgR).
    apply topo_fmap.
    apply (topo_sublist [n + 1] [n + 1] rs' E); [apply kept_sublist|done|done| |].
    + intros x ->%list_elem_of_singleton. rewrite <- Hn'.
      apply (vt_root _ _ valid').
    + intros p [->|?]%HEconn; [left; by left|by right].
  - by apply splice_labels.
  - done.
  - intros p c. rewrite HE. split; intros [Hin Hal]; split.
    + by rewrite <- Hperm.
    + by apply (alive_Permutation n tip rs' rs c Hperm).
    + by rewrite Hperm.
    + by apply (alive_Permutation n tip rs' rs c Hperm).
  - done.
  - intros t Ht.
    assert (t ∈ L) as Hl by (by apply HLel).
    pose proof Hl as Hl'. apply list_elem_of_filter in Hl' as [Hno Hc].
    destruct (Hgleaf t Hc Hno) as [_ ->]. unfold f.
    by rewrite (below_count_Permutation _ _ t HLperm).
  - done.
Qed.
End PruneRun.

Lemma dropTip_goes_on {len} (undef : len) (T : Phylo len) (rs : list (Z * Z))
    (tip : list Z) (rooted : option bool) :
  edge T = Some <$> rs → tip ≠ [] →
  (∀ t, t ∈ tip → t ≤ Z.of_nat (length (tipLabel T))) →
  Z.of_nat (length tip) < Z.of_nat (length (tipLabel T)) - 1 →
  ∃ b, dropTip undef T (TipIds tip) true rooted = ([], Prunes tip b).
Proof.
  intros Hedge Hne Hr Hlen.
  destruct (dropTip_default_rooted T rs rooted Hedge) as [b Hb].
  exists b. unfold dropTip. rewrite Hb. cbn [resolve_tip].
  rewrite filter_none by (apply Forall_forall; intros t Ht%Hr; lia).
  rewrite decide_True by done. rewrite decide_False by done.
  rewrite (bool_decide_eq_false_2 (Z.of_nat (length tip) = _)) by lia.
  cbn [andb].
  rewrite (bool_decide_eq_false_2 (Z.of_nat (length tip) = _)) by lia.
  done.
Qed.

(** [X16]  The flags [keep] of [dropTip] on a valid tree: the loop of
    [trimInternal] ends, and it keeps an edge exactly when its child is a
    tip that is not dropped or has such a tip below it. *)
Theorem dropTip_keeps_edges_above_remaining_tips {len} (T : Phylo len)
    (rs : list (Z * Z)) (tip : list Z) :
  valid_tree T rs →
  let n := Z.of_nat (length (tipLabel T)) in
  (∀ t, t ∈ tip → t ≤ n) →
  ∃ keep,
    trim_internal (length rs) n rs.*1 rs.*2
      (drop_terminal rs.*2 tip (replicate (length rs) true)) = Ok keep ∧
    length keep = length rs ∧
    ∀ k p c, rs !! k = Some (p, c) →
      (keep !! k = Some true ↔ alive n tip rs c).
Proof. intros valid n Hr. by apply pruned_flags. Qed.

(** [X17]  [dropTip] without [collapseSingles]: when at least two tips
    stay, it returns a valid tree whose edges are the edges of the tree
    that lead to a tip that stays, renumbered one to one; the tips that
    stay keep their order and their labels, and the root becomes the node
    after the tips.  Nothing is logged. *)
Theorem dropTip_keeps_subtree {len} (ladd : len → len → len)
    (lzero undef : len) (random : nat → Q) (T : Phylo len)
    (rs : list (Z * Z)) (tip : list Z) (rooted : option bool) :
  valid_tree T rs →
  let n := Z.of_nat (length (tipLabel T)) in
  let m := n - Z.of_nat (length tip) in
  (order T = Some Cladewise → topo [n + 1] rs) →
  tip ≠ [] → NoDup tip → (∀ t, t ∈ tip → 1 ≤ t ≤ n) → 2 ≤ m →
  ∃ (R : Phylo len) (E : list (Z * Z)) (g : Z → Z),
    dropTip_all ladd lzero undef random T (TipIds tip) true rooted false
      = ([], Ok (Some R)) ∧
    valid_tree R ((λ e, (g e.1, g e.2)) <$> E) ∧
    tipLabel R = labels_left (tipLabel T) tip ∧
    NoDup E ∧
    (∀ p c, (p, c) ∈ E ↔ (p, c) ∈ rs ∧ alive n tip rs c) ∧
    g (n + 1) = m + 1 ∧
    (∀ t, remains n tip t →
       g t = 1 + Z.of_nat (length (filter (λ v, v < t)
                                 (filter (λ t, t ∉ tip) (seqZ 1 n))))) ∧
    (∀ x x', x ∈ E.*1 ∨ x ∈ E.*2 → x' ∈ E.*1 ∨ x' ∈ E.*2 →
             g x = g x' → x = x').
Proof.
  intros valid n m Htag Hne Hnd Hr Hm.
  destruct (dropTip_goes_on undef T rs tip rooted (vt_rows _ _ valid) Hne)
    as [b Hb].
  { intros t Ht%Hr. fold n. lia. }
  { fold n. unfold m in Hm. lia. }
  destruct (prune_run ladd lzero undef random T rs tip valid Htag Hnd Hr Hm
              b false)
    as (P & E & g & Hrun & Hvalid & _ & Hlab & HE).
  exists P, E, g. split; [|done].
  unfold dropTip_all. rewrite Hb, Hrun. done.
Qed.

(** [X18]  [dropTip] with its default options: when at least two tips
    stay, it returns a valid tree that has the labels of these tips, in
    their order, and no node with exactly one child.  Nothing is
    logged. *)
Theorem dropTip_returns_valid_tree {len} (ladd : len → len → len)
    (lzero undef : len) (random : nat → Q) (T : Phylo len)
    (rs : list (Z * Z)) (tip : list Z) (rooted : option bool) :
  valid_tree T rs →
  let n := Z.of_nat (length (tipLabel T)) in
  (order T = Some Cladewise → topo [n + 1] rs) →
  tip ≠ [] → NoDup tip → (∀ t, t ∈ tip → 1 ≤ t ≤ n) →
  2 ≤ n - Z.of_nat (length tip) →
  ∃ (R : Phylo len) (rs' : list (Z * Z)),
    dropTip_all ladd lzero undef random T (TipIds tip) true rooted true
      = ([], Ok (Some R)) ∧
    valid_tree R rs' ∧
    tipLabel R = labels_left (tipLabel T) tip ∧
    ∀ v, occurrences v rs'.*1 ≠ 1.
Proof.
  intros valid n Htag Hne Hnd Hr Hm.
  destruct (dropTip_goes_on undef T rs tip rooted (vt_rows _ _ valid) Hne)
    as [b Hb].
  { intros t Ht%Hr. fold n. lia. }
  { fold n. lia. }
  destruct (prune_run ladd lzero undef random T rs tip valid Htag Hnd Hr Hm
              b true)
    as (P & E & g & Hrun & Hvalid & Htopo & Hlab & _).
  assert (Z.of_nat (length (tipLabel P)) = n - Z.of_nat (length tip)) as HnP.
  { rewrite Hlab. apply labels_left_length; [done|]. apply Hr. }
  destruct (collapse_two_tips_valid ladd lzero undef P _ Hvalid) with false
    as (R & rs' & Hcol & HvR & HlR & Hsingle & _).
  { intros _. by rewrite HnP. }
  { lia. }
  exists R, rs'. split; [|split; [done|split; [congruence|done]]].
  unfold dropTip_all. rewrite Hb, Hrun, Hcol. done.
Qed.

(** ** The theorems at concrete trees *)

Lemma tabulate_counts_witness :
  ∃ m counts,
    (m ∈ [3; 1; 3] ∧ ∀ v, v ∈ [3; 1; 3] → v ≤ m) ∧
    Engine.tabulate 65535 1000 [3; 1; 3] = Engine.Done (Ok counts) ∧
    tabulate [3; 1; 3] = Ok counts ∧
    Z.of_nat (length counts) = m + 1 ∧
    ∀ i, 0 ≤ i ≤ m → zget counts i = Some (occurrences i [3; 1; 3]).
Proof.
  destruct (proj2 (tabulate_counts_or_range_error 65535 1000 [3; 1; 3]))
    as (m & Hm & Hok & _).
  - done.
  - repeat constructor.
  - assert (m ≤ 3) as Hle.
    { destruct Hm as [Hin _].
      repeat (apply elem_of_cons in Hin as [->|Hin]; [lia|]).
      by apply elem_of_nil in Hin. }
    destruct Hok as (counts & Hrun); [cbn; lia|unfold Engine.max_length; lia|lia|].
    by exists m, counts.
Defined.

(** On no engine does [tabulate([4294967295])] return an array: the length
    [4294967296] is above [2^32 - 1]. *)
Lemma tabulate_throws_above_array_limit :
  ¬ ∃ max_args max_fill counts,
      Engine.tabulate max_args max_fill [4294967295] = Engine.Done (Ok counts).
Proof.
  intros (max_args & max_fill & counts & Hrun).
  unfold Engine.tabulate, Engine.js_max in Hrun.
  case_decide; [done|]. by vm_compute in Hrun.
Qed.

Example tabulate_at_the_limits :
  Engine.tabulate 65535 1000 [4294967295] = Engine.Done (Throw RangeError) ∧
  Engine.tabulate 2 1000 [7; 7; 7] = Engine.Done (Throw RangeError) ∧
  Engine.tabulate 65535 1000 [2000] = Engine.Exhausted ∧
  Engine.tabulate 65535 1000 [2; 2] = Engine.Done (Ok [0; 0; 2]).
Proof. by vm_compute. Qed.

Lemma isRooted_star_witness :
  ∃ b, isRooted tree_star (Some 3) = Ok b ∧
       (b = true ↔ is_Some (rootEdge tree_star)
                   ∨ occurrences 4 [(4, 1); (4, 2); (4, 3)].*1 ≤ 2).
Proof.
  exact (isRooted_iff_root_edge_or_low_degree tree_star
           [(4, 1); (4, 2); (4, 3)] eq_refl).
Defined.


Lemma dropTip_nothing_to_drop_witness :
  (dropTip Undefined tree_ABC (TipIds [4; 9]) true None).2
  = Returns (Some tree_ABC) ∧
  ∃ b, dropTip Undefined tree_ABC (TipIds [0]) true None = ([], Prunes [0] b).
Proof.
  destruct (dropTip_nothing_to_drop Undefined tree_ABC (TipIds [4; 9]) [0]
              [(4, 1); (4, 5); (5, 2); (5, 3)] true None eq_refl)
    as [Hnone Hlow].
  split.
  - apply Hnone. intros t. cbn. rewrite !elem_of_cons, elem_of_nil. lia.
  - apply Hlow.
    + done.
    + intros t ->%list_elem_of_singleton. lia.
    + cbn. lia.
Defined.

(** [dropTip(tree_ABC, [0])] in full, without and with [collapseSingles]:
    every edge is kept and [splice(-1, 1)] removes the last tip label. *)
Example dropTip_id_zero :
  dropTip_all num_add (Num 0) Undefined (λ _, 0%Q) tree_ABC (TipIds [0])
              true None false
  = ([], Ok (Some {| edge := [Some (4, 1); Some (4, 5); Some (5, 2); Some (5, 3)];
                     edgeLength := Some [Num 1; Num 4; Num 2; Num 3];
                     tipLabel := [Some "A"; Some "B"];
                     nodeLabel := Some [Some "R"; Some "N"];
                     Nnode := 2;
                     rootEdge := None;
                     order := Some Cladewise |})) ∧
  dropTip_all num_add (Num 0) Undefined (λ _, 0%Q) tree_ABC (TipIds [0])
              true None true
  = ([], Ok (Some {| edge := [Some (0, 1); Some (0, 5); Some (5, 2); Some (5, 4)];
                     edgeLength := Some [Num 1; Num 4; Num 2; Num 3];
                     tipLabel := [Some "A"; Some "B"];
                     nodeLabel := Some [Some "N"; None];
                     Nnode := 3;
                     rootEdge := None;
                     order := Some Cladewise |})).
Proof. by vm_compute. Qed.

(** [C4], counterexample  A label that is not in [tipLabel] raises no
    error: the call returns the tree. *)
Lemma dropTip_unknown_label_no_error :
  (Some "Z" ∉ tipLabel tree_ABC) ∧
  dropTip Undefined tree_ABC (TipLabels ["Z"]) true None
  = ([], Returns (Some tree_ABC)) ∧
  ∀ e, (dropTip Undefined tree_ABC (TipLabels ["Z"]) true None).2 ≠ Throws e.
Proof.
  split; [|split; [by vm_compute | by intros e]].
  cbn. intros Hin.
  repeat (apply elem_of_cons in Hin as [[=]|Hin]). by apply elem_of_nil in Hin.
Qed.

Lemma dropTip_warns_witness :
  dropTip Undefined tree_ABC (TipIds [7; 1]) true None
  = (warn_out_of_range
       :: (dropTip Undefined tree_ABC (TipIds [1]) true None).1,
     (dropTip Undefined tree_ABC (TipIds [1]) true None).2).
Proof.
  apply (proj2 (proj2 (proj2 (proj2
           (dropTip_resolves_filters_and_warns Undefined tree_ABC
              [(4, 1); (4, 5); (5, 2); (5, 3)] true None eq_refl)))) [7; 1]).
  apply Exists_cons_hd. cbn. lia.
Defined.

Lemma unrootPhylo_checks_witness :
  unrootPhylo tree_star (Some 3) false false = UReturns tree_star.
Proof.
  apply (proj2 (proj2 (unrootPhylo_checks tree_star [(4, 1); (4, 2); (4, 3)]
                         3 false eq_refl))).
  - lia.
  - cbn. lia.
  - reflexivity.
Defined.

(** [C6], counterexample  Two copies of a tree with a chain of two
    singleton nodes: the clade [{1, 2}] is counted three times over the two
    trees. *)
Lemma propPart_count_above_tree_count :
  ∃ res, propPart Undefined [tree_chain; tree_chain] = Ok res ∧
         number res = [2; 3; 1] ∧
         ¬ (∀ j c, (1 ≤ j)%nat → number res !! j = Some c →
                   1 ≤ c ≤ Z.of_nat (length [tree_chain; tree_chain])).
Proof.
  eexists. split; [by vm_compute|]. split; [done|].
  intros H. specialize (H 1%nat 3 ltac:(lia) eq_refl). cbn in H. lia.
Qed.

Lemma propPart_counts_witness :
  ∃ res, propPart Undefined [tree_ABC_post; tree_ABC_post] = Ok res ∧
         length (number res) = length (partitions res) ∧
         number res !! 0%nat = Some 2 ∧
         ∀ j c, (1 ≤ j)%nat → number res !! j = Some c →
                1 ≤ c ∧ (clades_distinct 3 [tree_ABC_post; tree_ABC_post] → c ≤ 2).
Proof.
  apply (propPart_counts Undefined [tree_ABC_post; tree_ABC_post] tree_ABC_post).
  - reflexivity.
  - repeat constructor; by left.
  - assert (∃ rs, edge tree_ABC_post = Some <$> rs ∧ sweepable 3 rs) as H.
    { exists [(5, 2); (5, 3); (4, 1); (4, 5)]. split; [reflexivity|].
      split; [done|]. intros p c Hin.
      repeat (apply elem_of_cons in Hin as [[= -> ->]|Hin];
              [split; [lia|]; intros; set_solver by lia|]).
      by apply elem_of_nil in Hin. }
    repeat constructor; exact H.
Defined.

(** The example trees are valid. *)
Lemma tree_single_valid :
  valid_tree tree_single [(4, 1); (4, 5); (5, 6); (6, 2); (6, 3)].
Proof.
  split.
  - done.
  - done.
  - exists (λ v : Z, if decide (v = 4) then 0%nat
                     else if decide (v = 1 ∨ v = 5) then 1%nat
                     else if decide (v = 6) then 2%nat else 3%nat).
    split; [done|]. intros p c Hin.
    repeat (apply elem_of_cons in Hin as [[= -> ->]|Hin]; [done|]).
    by apply elem_of_nil in Hin.
  - intros v Hv Hne. cbn in Hv, Hne.
    assert (v = 1 ∨ v = 2 ∨ v = 3 ∨ v = 5 ∨ v = 6) as [->|[->|[->|[->| ->]]]]
      by lia; done.
  - intros c Hin. cbn in *.
    repeat (apply elem_of_cons in Hin as [->|Hin]; [lia|]).
    by apply elem_of_nil in Hin.
  - cbn. intros Hin.
    repeat (apply elem_of_cons in Hin as [?|Hin]; [lia|]).
    by apply elem_of_nil in Hin.
  - intros p Hin. cbn in *.
    repeat (apply elem_of_cons in Hin as [->|Hin]; [lia|]).
    by apply elem_of_nil in Hin.
  - intros v Hv. cbn in *.
    assert (v = 4 ∨ v = 5 ∨ v = 6) as [->|[->| ->]] by lia; set_solver.
  - by intros el [= <-].
Qed.

Lemma tree_tip_valid : valid_tree tree_tip [(2, 1)].
Proof.
  split.
  - done.
  - done.
  - exists (λ v : Z, if decide (v = 2) then 0%nat else 1%nat).
    split; [done|]. by intros p c [= -> ->]%list_elem_of_singleton.
  - intros v Hv Hne. cbn in Hv, Hne. by assert (v = 1) as -> by lia.
  - intros c ->%list_elem_of_singleton. cbn. lia.
  - cbn. intros ?%list_elem_of_singleton. lia.
  - intros p ->%list_elem_of_singleton. cbn. lia.
  - intros v Hv. cbn in *. assert (v = 2) as -> by lia. set_solver.
  - by intros el [=].
Qed.

(** The singleton node 5 of [(A:1,((B:2,C:3):4):5);] is spliced out, its
    two edges merged into one of length 9. *)
Example collapseSingles_tree_single :
  collapseSingles num_add (Num 0) Undefined tree_single false
  = Ok {| edge := [Some (4, 1); Some (4, 5); Some (5, 2); Some (5, 3)];
          edgeLength := Some [Num 1; Num 9; Num 2; Num 3];
          tipLabel := [Some "A"; Some "B"; Some "C"];
          nodeLabel := Some [Some "R"; Some "N"];
          Nnode := 2;
          rootEdge := None;
          order := Some Cladewise |}.
Proof. by vm_compute. Qed.

Lemma collapseSingles_idempotent_witness :
  (∃ R rs',
     collapseSingles num_add (Num 0) Undefined tree_single false = Ok R ∧
     tipLabel R = tipLabel tree_single ∧ edge R = Some <$> rs' ∧
     (∀ v, 3 < v → occurrences v rs'.*1 ≠ 1) ∧
     ∀ b, collapseSingles num_add (Num 0) Undefined R b = Ok R) ∧
  collapseSingles num_add (Num 0) Undefined tree_tip false = Throw RangeError.
Proof.
  split.
  - apply (proj1 (collapseSingles_idempotent_above_one_tip num_add (Num 0)
                    Undefined tree_single
                    [(4, 1); (4, 5); (5, 6); (6, 2); (6, 3)] false
                    tree_single_valid ltac:(done))).
    cbn. lia.
  - apply (proj2 (collapseSingles_idempotent_above_one_tip num_add (Num 0)
                    Undefined tree_tip [(2, 1)] false
                    tree_tip_valid ltac:(done))).
    reflexivity.
Defined.

Lemma tree_ABC_post_valid :
  valid_tree tree_ABC_post [(5, 2); (5, 3); (4, 1); (4, 5)].
Proof.
  split.
  - done.
  - done.
  - exists (λ v : Z, if decide (v = 4) then 0%nat
                     else if decide (v = 1 ∨ v = 5) then 1%nat else 2%nat).
    split; [done|]. intros p c Hin.
    repeat (apply elem_of_cons in Hin as [[= -> ->]|Hin]; [done|]).
    by apply elem_of_nil in Hin.
  - intros v Hv Hne. cbn in Hv, Hne.
    assert (v = 1 ∨ v = 2 ∨ v = 3 ∨ v = 5) as [->|[->|[->| ->]]] by lia; done.
  - intros c Hin. cbn in *.
    repeat (apply elem_of_cons in Hin as [->|Hin]; [lia|]).
    by apply elem_of_nil in Hin.
  - cbn. intros Hin.
    repeat (apply elem_of_cons in Hin as [?|Hin]; [lia|]).
    by apply elem_of_nil in Hin.
  - intros p Hin. cbn in *.
    repeat (apply elem_of_cons in Hin as [->|Hin]; [lia|]).
    by apply elem_of_nil in Hin.
  - intros v Hv. cbn in *. assert (v = 4 ∨ v = 5) as [-> | ->] by lia; set_solver.
  - by intros el [=].
Qed.

(** The postorder tree [(A,(B,C));] comes out as
    [(4,1), (4,5), (5,2), (5,3)]. *)
Example reorder_tree_ABC_post :
  reorder Undefined tree_ABC_post Cladewise
  = Ok {| edge := [Some (4, 1); Some (4, 5); Some (5, 2); Some (5, 3)];
          edgeLength := None;
          tipLabel := [Some "A"; Some "B"; Some "C"];
          nodeLabel := None;
          Nnode := 2;
          rootEdge := None;
          order := Some Cladewise |}.
Proof. by vm_compute. Qed.

Lemma reorder_cladewise_keeps_tree_witness :
  ∃ T' rs', reorder Undefined tree_single Cladewise = Ok T' ∧
    valid_tree T' rs' ∧ rs' ≡ₚ [(4, 1); (4, 5); (5, 6); (6, 2); (6, 3)] ∧
    tipLabel T' = tipLabel tree_single ∧ nodeLabel T' = nodeLabel tree_single ∧
    Nnode T' = Nnode tree_single ∧ rootEdge T' = rootEdge tree_single ∧
    (∃ el', edgeLength T' = Some el' ∧
            zip rs' el' ≡ₚ zip [(4, 1); (4, 5); (5, 6); (6, 2); (6, 3)]
                               [Num 1; Num 5; Num 4; Num 2; Num 3]) ∧
    reorder Undefined T' Cladewise = Ok T'.
Proof.
  exact (reorder_cladewise_keeps_tree Undefined tree_single
           [(4, 1); (4, 5); (5, 6); (6, 2); (6, 3)] tree_single_valid).
Defined.

Lemma reorder_cladewise_depth_first_witness :
  ∃ T' rs', reorder Undefined tree_ABC_post Cladewise = Ok T' ∧
            edge T' = Some <$> rs' ∧
            rs' ≡ₚ [(5, 2); (5, 3); (4, 1); (4, 5)] ∧
            cladewise_from 4 rs'.
Proof.
  apply (reorder_cladewise_depth_first Undefined tree_ABC_post
           [(5, 2); (5, 3); (4, 1); (4, 5)] tree_ABC_post_valid).
  - cbn. lia.
  - done.
Defined.

Lemma reorder_cladewise_keeps_sibling_order_witness :
  ∃ T' rs', reorder Undefined tree_ABC_post Cladewise = Ok T' ∧
            edge T' = Some <$> rs' ∧
            ∀ v, filter (λ e, e.1 = v) rs'
                 = filter (λ e, e.1 = v) [(5, 2); (5, 3); (4, 1); (4, 5)].
Proof.
  exact (reorder_cladewise_keeps_sibling_order Undefined tree_ABC_post
           [(5, 2); (5, 3); (4, 1); (4, 5)] tree_ABC_post_valid).
Defined.


Lemma collapseSingles_without_singles_witness :
  collapseSingles num_add (Num 0) Undefined tree_ABC_post false
  = reorder Undefined tree_ABC_post Cladewise.
Proof.
  apply (collapseSingles_without_singles num_add (Num 0) Undefined tree_ABC_post
           [(5, 2); (5, 3); (4, 1); (4, 5)] false tree_ABC_post_valid).
  reflexivity.
Defined.

Lemma rank_of_values_witness :
  ∃ ranks,
    rank (λ _, 0%Q) [Some 10; Some 20; Some 10; None] false "last" = Ok ranks ∧
    length ranks = length [Some 10; Some 20; Some 10; (None : option Z)] ∧
    ∀ (i : nat) x, [Some 10; Some 20; Some 10; None] !! i = Some (Some x) →
      ranks !! i
      = Some (Some
          (let r := tie_rank "last"
                      (1 + smaller x [Some 10; Some 20; Some 10; None])
                      (occurrences x (values [Some 10; Some 20; Some 10; None]))
                      (occurrences x
                         (values (take i [Some 10; Some 20; Some 10; None]))) in
           if false then r
           else (r + Z2Qc (missing [Some 10; Some 20; Some 10; None]))%Qc)).
Proof.
  apply (rank_of_values (λ _, 0%Q) "last" [Some 10; Some 20; Some 10; None] false).
  unfold deterministic. repeat constructor.
Defined.

Lemma rank_of_missing_witness :
  ∃ ranks,
    rank (λ _, 0%Q) [None; Some 7; None] false "min" = Ok ranks ∧
    ∀ i : nat, [None; Some 7; None] !! i = Some None →
      ranks !! i
      = Some (Some
          (if false
           then Z2Qc (1 + Z.of_nat (length (values [None; Some 7; None]))
                      + missing (take i [None; Some 7; None]))
           else (Z2Qc (missing (take i [None; Some 7; None]) + 1)
                 + Z2Qc (missing [None; Some 7; None]))%Qc)).
Proof.
  apply (rank_of_missing (λ _, 0%Q) "min" [None; Some 7; None] false).
  unfold deterministic. repeat constructor.
Defined.

Lemma rank_unknown_method_witness :
  (∀ naLast, rank (λ _, 0%Q) [None; Some 7] naLast "median"
             = Throw (Error ("Unknown tiesMethod: " +:+ "median"))) ∧
  ∀ naLast, ∃ ranks,
    rank (λ _, 0%Q) [None; None] naLast "median" = Ok ranks ∧
    ∀ i : nat, (i < length [None; (None : option Z)])%nat →
      ranks !! i
      = Some (Some (Z2Qc (1 + Z.of_nat i
                          + (if naLast then 0
                             else Z.of_nat (length [None; (None : option Z)]))))).
Proof.
  assert ("median" ∉ ["first"; "last"; "min"; "max"; "average"; "random"])
    as Hno.
  { rewrite !not_elem_of_cons. repeat split; [done..|]. by intros ?%elem_of_nil. }
  split.
  - apply (proj1 (rank_unknown_method (λ _, 0%Q) "median" [None; Some 7] Hno)).
    exists 7. by right; left.
  - apply (proj2 (rank_unknown_method (λ _, 0%Q) "median" [None; None] Hno)).
    intros o Ho. by repeat (apply elem_of_cons in Ho as [->|Ho]; [done|]);
      apply elem_of_nil in Ho.
Defined.

Example rank_missing_first_unknown_method :
  rank (λ _, 0%Q) [None; None] false "median"
  = Ok [Some (Z2Qc 3); Some (Z2Qc 4)].
Proof. by vm_compute. Qed.

Lemma rank_distinct_default_witness :
  ∃ rs : list Z,
    rank (λ _, 0%Q) (Some <$> [5; 2; 9]) true "average"
    = Ok ((λ r, Some (Z2Qc r)) <$> rs) ∧
    rs ≡ₚ seqZ 1 (Z.of_nat (length [5; 2; 9])) ∧
    ∀ (i : nat) x, [5; 2; 9] !! i = Some x →
      rs !! i = Some (1 + Z.of_nat (length (filter (λ v, v < x) [5; 2; 9]))).
Proof.
  apply (rank_distinct_default (λ _, 0%Q) [5; 2; 9]).
  repeat constructor; set_solver by lia.
Defined.

Lemma tree_ABC_post_children_first :
  children_first [(5, 2); (5, 3); (4, 1); (4, 5)].
Proof. cbn. repeat split; set_solver by lia. Qed.

(** The depths of [(A,(B,C));] by method 1: the number of tips below each
    node. *)
Example nodeDepth_tree_ABC_post :
  nodeDepth 3 [5; 5; 4; 4] [2; 3; 1; 5] five_zeros 1
  = Ok (list_to_map [(0, Num 1); (1, Num 1); (2, Num 1); (3, Num 3); (4, Num 2)]).
Proof. by vm_compute. Qed.

Lemma nodeDepth_sums_children_witness :
  ∃ xx', nodeDepth 3 [(5, 2); (5, 3); (4, 1); (4, 5)].*1
                   [(5, 2); (5, 3); (4, 1); (4, 5)].*2 five_zeros 1 = Ok xx' ∧
    (∀ t, 1 ≤ t ≤ 3 → xx' !! (t - 1) = Some (Num 1)) ∧
    (∀ p, p ∈ [(5, 2); (5, 3); (4, 1); (4, 5)].*1 →
       aget Undefined xx' (p - 1)
       = num_sum ((λ c, aget Undefined xx' (c - 1))
                    <$> children p [(5, 2); (5, 3); (4, 1); (4, 5)])) ∧
    (∀ v, 3 < v → v ∉ [(5, 2); (5, 3); (4, 1); (4, 5)].*1 →
       xx' !! (v - 1) = five_zeros !! (v - 1)).
Proof.
  apply (nodeDepth_sums_children 3 [(5, 2); (5, 3); (4, 1); (4, 5)] five_zeros).
  - apply tree_ABC_post_children_first.
  - intros p Hp. cbn in Hp.
    repeat (apply elem_of_cons in Hp as [->|Hp]; [by split|]).
    by apply elem_of_nil in Hp.
Defined.

Lemma nodeDepth_one_above_deepest_child_witness :
  ∃ xx' (d : Z → Z),
    nodeDepth 3 [(5, 2); (5, 3); (4, 1); (4, 5)].*1
              [(5, 2); (5, 3); (4, 1); (4, 5)].*2 five_zeros 2 = Ok xx' ∧
    (∀ v, 1 ≤ v ≤ 3 ∨ v ∈ [(5, 2); (5, 3); (4, 1); (4, 5)].*1 →
       xx' !! (v - 1) = Some (Num (d v))) ∧
    (∀ t, 1 ≤ t ≤ 3 → d t = 1) ∧
    (∀ p c, (p, c) ∈ [(5, 2); (5, 3); (4, 1); (4, 5)] → d c + 1 ≤ d p) ∧
    (∀ p, p ∈ [(5, 2); (5, 3); (4, 1); (4, 5)].*1 →
       ∃ c, (p, c) ∈ [(5, 2); (5, 3); (4, 1); (4, 5)] ∧ d p = d c + 1).
Proof.
  apply (nodeDepth_one_above_deepest_child 3
           [(5, 2); (5, 3); (4, 1); (4, 5)] five_zeros 2).
  - done.
  - apply tree_ABC_post_children_first.
  - intros p Hp. cbn in Hp.
    repeat (apply elem_of_cons in Hp as [->|Hp]; [by split|]).
    by apply elem_of_nil in Hp.
  - intros c Hc. cbn in Hc.
    repeat (apply elem_of_cons in Hc as [->|Hc]; [set_solver by lia|]).
    by apply elem_of_nil in Hc.
Defined.

Lemma nodeDepthEdgeLength_adds_lengths_witness :
  ∃ xx', nodeDepthEdgeLength num_add Undefined
           [(5, 2); (5, 3); (4, 1); (4, 5)].*1
           [(5, 2); (5, 3); (4, 1); (4, 5)].*2
           [Num 2; Num 3; Num 1; Num 4] five_zeros = Ok xx' ∧
    (∀ (i : nat) p c, [(5, 2); (5, 3); (4, 1); (4, 5)] !! i = Some (p, c) →
       aget Undefined xx' (c - 1)
       = num_add (aget Undefined xx' (p - 1))
                 (default Undefined ([Num 2; Num 3; Num 1; Num 4] !! i))) ∧
    (∀ v, v ∉ [(5, 2); (5, 3); (4, 1); (4, 5)].*2 →
       xx' !! (v - 1) = five_zeros !! (v - 1)).
Proof.
  apply (nodeDepthEdgeLength_adds_lengths num_add Undefined
           [(5, 2); (5, 3); (4, 1); (4, 5)] [Num 2; Num 3; Num 1; Num 4]
           five_zeros).
  - apply tree_ABC_post_children_first.
  - cbn. repeat constructor; set_solver by lia.
Defined.


Lemma collapseSingles_returns_valid_tree_witness :
  ∃ R rs', collapseSingles num_add (Num 0) Undefined tree_single false = Ok R ∧
    valid_tree R rs' ∧ tipLabel R = tipLabel tree_single ∧
    (∀ v, occurrences v rs'.*1 ≠ 1) ∧
    Nnode R = Nnode tree_single
              - Z.of_nat (length (single_nodes 3 (Nnode tree_single)
                                    [(4, 1); (4, 5); (5, 6); (6, 2); (6, 3)].*1)).
Proof.
  apply (collapseSingles_returns_valid_tree num_add (Num 0) Undefined
           tree_single [(4, 1); (4, 5); (5, 6); (6, 2); (6, 3)] false
           tree_single_valid).
  - cbn. lia.
  - done.
Defined.

Lemma hasSingles_after_collapseSingles_witness :
  ∃ R, collapseSingles num_add (Num 0) Undefined tree_single true = Ok R ∧
       hasSingles R = Ok false.
Proof.
  apply (hasSingles_after_collapseSingles num_add (Num 0) Undefined
           tree_single [(4, 1); (4, 5); (5, 6); (6, 2); (6, 3)] true
           tree_single_valid).
  - cbn. lia.
  - done.
Defined.

Lemma dropTip_keeps_edges_above_remaining_tips_witness :
  ∃ keep,
    trim_internal 5 3 [4; 4; 5; 6; 6] [1; 5; 6; 2; 3]
      (drop_terminal [1; 5; 6; 2; 3] [2; 3] (replicate 5 true)) = Ok keep ∧
    length keep = 5%nat ∧
    ∀ k p c, [(4, 1); (4, 5); (5, 6); (6, 2); (6, 3)] !! k = Some (p, c) →
      (keep !! k = Some true
       ↔ alive 3 [2; 3] [(4, 1); (4, 5); (5, 6); (6, 2); (6, 3)] c).
Proof.
  apply (dropTip_keeps_edges_above_remaining_tips tree_single
           [(4, 1); (4, 5); (5, 6); (6, 2); (6, 3)] [2; 3] tree_single_valid).
  intros t Ht. cbn.
  repeat (apply elem_of_cons in Ht as [->|Ht]; [lia|]).
  by apply elem_of_nil in Ht.
Defined.

Lemma dropTip_keeps_subtree_witness :
  ∃ (R : Phylo num) (E : list (Z * Z)) (g : Z → Z),
    dropTip_all num_add (Num 0) Undefined (λ _, 0%Q) tree_single (TipIds [1])
                true None false
      = ([], Ok (Some R)) ∧
    valid_tree R ((λ e, (g e.1, g e.2)) <$> E) ∧
    tipLabel R = labels_left (tipLabel tree_single) [1] ∧
    NoDup E ∧
    (∀ p c, (p, c) ∈ E ↔
            (p, c) ∈ [(4, 1); (4, 5); (5, 6); (6, 2); (6, 3)] ∧
            alive 3 [1] [(4, 1); (4, 5); (5, 6); (6, 2); (6, 3)] c) ∧
    g (3 + 1) = 3 - 1 + 1 ∧
    (∀ t, remains 3 [1] t →
       g t = 1 + Z.of_nat (length (filter (λ v, v < t)
                                 (filter (λ t, t ∉ [1]) (seqZ 1 3))))) ∧
    (∀ x x', x ∈ E.*1 ∨ x ∈ E.*2 → x' ∈ E.*1 ∨ x' ∈ E.*2 →
             g x = g x' → x = x').
Proof.
  apply (dropTip_keeps_subtree num_add (Num 0) Undefined (λ _, 0%Q) tree_single
           [(4, 1); (4, 5); (5, 6); (6, 2); (6, 3)] [1] None tree_single_valid).
  - done.
  - done.
  - apply NoDup_singleton.
  - intros t ->%list_elem_of_singleton. cbn. lia.
  - cbn. lia.
Defined.

Lemma dropTip_returns_valid_tree_witness :
  ∃ (R : Phylo num) (rs' : list (Z * Z)),
    dropTip_all num_add (Num 0) Undefined (λ _, 0%Q) tree_single (TipIds [1])
                true None true
      = ([], Ok (Some R)) ∧
    valid_tree R rs' ∧
    tipLabel R = labels_left (tipLabel tree_single) [1] ∧
    ∀ v, occurrences v rs'.*1 ≠ 1.
Proof.
  apply (dropTip_returns_valid_tree num_add (Num 0) Undefined (λ _, 0%Q)
           tree_single [(4, 1); (4, 5); (5, 6); (6, 2); (6, 3)] [1] None
           tree_single_valid).
  - done.
  - done.
  - apply NoDup_singleton.
  - intros t ->%list_elem_of_singleton. cbn. lia.
  - cbn. lia.
Defined.

Example dropTip_tree_single :
  dropTip_all num_add (Num 0) Undefined (λ _, 0%Q) tree_single (TipIds [1])
              true None true
  = ([], Ok (Some {| edge := [Some (3, 1); Some (3, 2)];
                     edgeLength := Some [Num 2; Num 3];
                     tipLabel := [Some "B"; Some "C"];
                     nodeLabel := Some [Some "N"];
                     Nnode := 1;
                     rootEdge := None;
                     order := Some Cladewise |})).
Proof. by vm_compute. Qed.
